(* ===== verification/_CoqProject ===== *)
-Q . S2P
Prelude.v
Model.v
Payout.v
JsString.v
JsDate.v
Json.v
Jsonb.v
JsonParse.v
MatchJson.v
WordValidation.v
Dictionary.v
Scoring.v
BoardGen.v
Ledger.v
Accounts.v
Store.v
Program.v
Engine.v
Sweep.v
PayoutAudit.v
Scenarios.v
Hoare.v
Lifecycle.v
Invariants.v
Routes.v
Queries.v
Waiting.v
Liveness.v
Settlement.v
Simulate.v
Races.v
