(* ===== verification/Prelude.v ===== *)
(** * Gem Scramble: a verification development of the match engine

    The program (src/backend/src) is the backend of a timed word game.
    Players join a match of a lobby by paying an entry fee, find words on
    a dice board, submit them before their deadline, and the prize pool is
    split by rank when every seat has submitted.  Matches live in Redis
    (repositories/), money in a relational ledger (services/database.ts),
    and a periodic sweep (server.ts) auto-submits late players and settles
    what the requests left.  The request handlers and the sweep are
    [async] code that interleaves at every [await], over a shared store
    without locks.

    ** The files, leaves first
    - [Prelude] (this file): notations in [gem_scope], the hint databases
      [gem] and [gem_rw], sums [Σ], [js_find] ([Array.prototype.find]),
      [set_add_all] ([Array.from(new Set(...))]), [jsmap_set] (a JS
      [Map] with string keys) and their lemmas.
    - [Model]: match.interface.ts ([MatchPlayer.t], [InternalMatch.t],
      [Status]) and config/lobbies.ts ([validateLobbyConfig],
      [loadLobbyConfig], [getLobbyConfig]); timestamps are milliseconds.
    - [Payout]: utils/payout.ts [rankAndAllocateWinnings] (stable sort,
      tie bands, proportional allocation with the remainder to first
      place, even split of a band with the leftover to its first players);
      multipliers are exact rationals.
    - [JsString]: [toUpperCase], [toLowerCase], [trim] and [/^[A-Z]+$/]
      on Latin-1.
    - [JsDate]: [Date.prototype.toISOString] and [new Date(s).getTime()]
      on the ISO form, through ECMAScript's [MakeDay]; the deadline of
      matches.ts 430-432 read from the stored strings.
    - [Json]: [JSON.stringify] of the values the backend writes (objects
      with their key order, arrays, strings with their escapes, integers,
      literals), the players' JSON value of the history column, and
      [String.prototype.includes]; a lexing argument shows that on the
      compact text [JSON.stringify] writes, a [`"id":"x"`] substring
      marks a player.
    - [Jsonb]: what Postgres keeps of that value in the jsonb column
      (keys sorted, the last of equal keys kept), the text it prints for
      it (a space after each colon and comma), and Prisma's
      [string_contains] on a Json column, modelled from the Postgres and
      Prisma documentation (neither is under src/).
    - [JsonParse]: [JSON.parse] as a lexer and a parser with fuel, and
      the round trip [parse_stringify].
    - [MatchJson]: the object redisMatchRepository.ts stores for a match
      ([JSON.stringify(match)]) and the property reads of the value
      [JSON.parse] gives back.
    - [WordValidation]: utils/wordValidation.ts [canFormWordOnBoard] and
      its [dfs], with fuel [rows * cols].
    - [Dictionary]: services/dictionary.ts, the trie and [initDictionary].
    - [Scoring]: the word filter, score and time bonus of the words
      handler (matches.ts 415-448) and of the sweep's auto-submission.
    - [BoardGen]: utils/board.ts [generateDiceBoard] with its 31-bit LCG.
    - [Ledger]: services/database.ts [tryDebitUser], [addTransaction],
      [creditPrize], and the history insert, over a database record whose
      (user, match, type) uniqueness is taken from the spec.
    - [Accounts]: the user table (the ledger's balances and the profile
      columns) in a state and error monad; config/auth.ts, the Firebase
      middleware, database.ts [getOrCreateUserByAuthUid] and
      [getUserById], and the users and wallet routes, GET /users/matches
      with its [string_contains] filter on the stored players included.
    - [PayoutAudit]: the development route POST /dev/verify of
      matches.ts, as a function of the ledger.
    - [Store]: the repository interface as the class [MatchRepository]
      with its laws [RepoLaws]; the Redis implementation [Redis] and the
      proof [Redis_laws] that it satisfies them.
    - [Program]: handlers as programs [Prog] whose nodes are the awaited
      operations; [run] is the sequential semantics, [run_sched] the
      interleaving of several tasks at their awaits under a schedule;
      [run_as_turns] relates the two.
    - [Engine]: matches.ts, the POST handlers [join], [leave],
      [saveWords], [validate], [submit] and the settlement [settle].
    - [Sweep]: server.ts [autoSubmitWordsForPlayer],
      [processMatchTimeout] and the interval callback [tick].
    - [Scenarios]: concrete lobbies, users and worlds on the Redis store.
    - [Hoare]: triples over [Prog] and the frame lemmas used below.
    - [Lifecycle]: what each handler does, branch by branch.
    - [Invariants]: the store invariant of spec section 8 (capacity,
      single active membership, and rectangular boards) and its
      preservation by every handler and the sweep, hence by every
      sequence of requests ([reachable]).
    - [Liveness]: what one sweep tick achieves: full matches whose
      players are all done are completed and removed; unfilled matches
      are evicted at their hard expiry without settlement.
    - [Settlement]: the settlement block against the audit: run once on
      a ledger with no prize row of the match, it appends exactly the
      winnings of the history row, so the audit accepts the row.
    - [Routes]: modules/lobbies.ts (GET /lobbies over [listAll]),
      modules/validate.ts (the word and prefix checks against the
      dictionary) and modules/boards.ts (POST /boards).
    - [Queries]: the GET handlers of matches.ts, reading the store and,
      for a match no longer live, the completed-match history.
    - [Waiting]: [createWaitingMatch] and [ensureWaitingMatches] of
      matches.ts, which nothing calls.
    - [Simulate]: the development route POST /dev/simulate of
      matches.ts, with [Math.random] as a parameter.
    - [Races]: executions of [run_sched] that break money safety.

    ** What the theorems show
    - Served one at a time, requests and sweep ticks keep every match
      within capacity, every user active in at most one match and every
      board rectangular ([Invariants.reachable_capacity],
      [reachable_single_active], [reachable_wordcheck_total]); the next
      tick removes every full match whose players are all done
      ([Liveness.reachable_tick_removes_expired]).
    - Interleaved at their awaits of I/O, they do not: a request and the
      sweep pay a match twice; concurrent joins or a stale sweep save
      drop a paying player; and, when [Date.now()] answers the same
      millisecond twice (the clock of a sequence of requests is frozen
      until a [RClock] step moves it), three joins overwrite a full match
      ([Races]).
    - Run once, the settlement leaves a ledger that the audit accepts
      ([Settlement.settle_passes_audit]), and so does a match made by
      POST /dev/simulate ([Simulate.simulate_passes_audit]); every
      history row the engine writes has recomputed winnings equal to the
      recorded ones
      ([PayoutAudit.audit_expected_is_recorded]), and an accepted report
      means the prize rows add up to the pool and to each user's
      recorded winnings ([PayoutAudit.report_ok_sound]).
    - Account requests keep usernames and authentication uids unique and
      every user with both its parts ([Accounts.acc_reachable_wf], which
      rests on the unique columns of the schema as much as on the
      handlers); in Firebase mode a request acts only as its verified
      token's user; a uid gets one account; wallet pages tile the user's
      own rows; the username route answers 409 on a name held by another
      user.
    - GET /users/matches lists nothing, for every user
      ([Accounts.matches_lists_nothing]): on the jsonb column the filter
      needs a JSON string and the players are an array, and the pattern
      [`"id":"${user.id}"`] has no space after the colon while jsonb
      prints one ([Jsonb.compact_member_absent]).  On the compact text
      of [JSON.stringify] the same pattern would select exactly the
      user's rows ([Json.players_text_has_id]).
    - Library facts the models rest on: parsing [toISOString t] gives
      [t] back for years 0 to 9999 ([JsDate.parse_toISOString]), so the
      millisecond model of deadlines agrees with the stored strings
      ([JsDate.deadline_refines]); the Redis text of a match reads back
      as the match ([MatchJson.redis_roundtrip]), so the store keeps
      records as the in-memory model does.
    - The ledger calls are idempotent per (user, match, type), record
      every balance change and keep balances nonnegative ([Ledger]).
    - The allocator pays exactly the pool, ranks by competition ranking,
      pays ties within one gem of each other and, with non-increasing
      multipliers, never pays a higher score less ([Payout]).
    - The word checker is sound and complete for its path specification;
      the filter, dictionary and scoring do what the words handler needs
      ([WordValidation], [Dictionary], [Scoring]); boards are rectangular
      permutations of the dice ([BoardGen]).
    - The routers: GET /lobbies shows at most capacity times the number
      of waiting matches per lobby on an invariant store; the validate
      routes answer dictionary membership and prefixes of the upper-cased
      word; POST /boards answers a square board of dice faces of the
      requested size in [4, 6] or 400 ([Routes]).
    - The read handlers: a settled match is shown from its history row
      exactly as the completed match ([Queries.getMatch_history]); the
      match list shows each match once, live copies first
      ([Queries.listMatches_spec]); the details route counts time from
      the match's creation, not from the player's deadline
      ([Queries.details_time_from_creation]).  [ensureWaitingMatches]
      leaves every lobby a waiting match ([Waiting.ensure_waiting]).
    - Divergences from the spec are stated as theorems: a re-submission
      replaces a frozen score, a sole player who leaves stays active, a
      settlement that fails is never retried, a retried debit reports
      insufficient funds, tied players can get different winnings.

    ** Bounds and fuel
    [JSON.parse] lexes with fuel [1 + length text] and parses with
    [1 + length tokens]: each step consumes a character or a token, so
    the fuel suffices on every text [stringify] writes
    ([JsonParse.parse_stringify]).
    [canFormWordOnBoard] runs its search with fuel [rows * cols]: each
    call adds a cell to the visited set, so the fuel is never short:
    more fuel gives the same verdict ([WordValidation.dfs_fuel_enough]),
    and [WordValidation.canFormWordOnBoard_correct] proves the result is
    never [None] on a rectangular board.  The LCG product stays below
    2^53, so the double arithmetic of board.ts is exact in [Z]
    ([BoardGen.lcg_exact]).  Programs are finite trees, so [run]
    terminates; [run_sched] consumes one schedule entry per turn.

    ** Simplifications
    Numbers are integers ([Z]) where the code's values are integral
    (balances, scores, fees, times); the allocator's double division
    (payout.ts 69) is exact rational arithmetic ([Q]) before the floor
    the code takes; lobby fields are integers except the multipliers.
    Within a sequence of requests the clock only moves by an explicit
    step.  The transaction table's uniqueness on (user, match, type)
    and the unique username and uid columns come from the spec and the
    code's comments (the schema is not under src/); the prize key of
    the spec also holds the rank, the code's does not (a finding).  The
    user upsert of POST /dev/simulate (matches.ts 784) creates a user
    with username [Sim i]: the ledger record has no username column, so
    the model takes the create to succeed, which it does unless another
    user holds that name.

    ** Not modelled
    HTTP transport, zod parsing beyond the checks the handlers rely on
    (handlers take typed arguments), the Firebase Admin SDK (its token
    check is a parameter; in matches.ts the handlers take the user
    resolution as a program); Redis TTLs and connection errors; file
    reads other than the dictionary's content, which is a field of the
    world.  Reading lobbies.json through [JSON.parse] is not modelled:
    its entries hold fractional numbers (multipliers such as 1.5) that
    the integer JSON model does not have, so [loadLobbyConfig] starts
    from the parsed records.  services/firebase.ts only initialises the
    Admin SDK, copy-assets.js is a build script and server.ts's
    listen/bootstrap is I/O; they have no state the handlers read. *)

From stdpp Require Export base list gmap strings sorting pretty.
From Stdlib Require Export ZArith QArith Qround Qminmax Lia.

(** QArith opens [Q_scope]; arithmetic defaults to [nat] as in stdpp. *)
Open Scope nat_scope.

Declare Scope gem_scope.
Delimit Scope gem_scope with gem.
Open Scope gem_scope.

Create HintDb gem.
Create Rewrite HintDb gem_rw.

(** ** Sums over lists of integers *)

(** JS [xs.reduce((acc, n) => acc + n, 0)] over integer-valued numbers. *)
Definition sumZ (l : list Z) : Z := foldr Z.add 0%Z l.

Notation "'Σ' l" := (sumZ l) (at level 35) : gem_scope.
Arguments sumZ : simpl never.

Lemma sumZ_nil : Σ [] = 0%Z.
Proof. reflexivity. Qed.

Lemma sumZ_cons x l : Σ (x :: l) = (x + Σ l)%Z.
Proof. reflexivity. Qed.

Lemma sumZ_app l1 l2 : Σ (l1 ++ l2) = (Σ l1 + Σ l2)%Z.
Proof. induction l1 as [|x l1 IH]; simpl; [done|]. rewrite !sumZ_cons, IH. lia. Qed.

#[export] Hint Rewrite sumZ_nil sumZ_cons sumZ_app : gem_rw.

#[export] Instance sumZ_perm : Proper ((≡ₚ) ==> eq) sumZ.
Proof. intros l1 l2 Hp. induction Hp; rewrite ?sumZ_cons; lia. Qed.

Lemma sumZ_nonneg l : Forall (λ x, 0 ≤ x)%Z l → (0 ≤ Σ l)%Z.
Proof. induction 1; autorewrite with gem_rw; lia. Qed.

Lemma sumZ_map_le {A} (f g : A → Z) (l : list A) :
  (∀ x, x ∈ l → f x ≤ g x)%Z → (Σ (f <$> l) ≤ Σ (g <$> l))%Z.
Proof.
  induction l as [|x l IH]; intros H; [done|].
  rewrite !fmap_cons, !sumZ_cons.
  assert (f x ≤ g x)%Z by (apply H; set_solver).
  assert (Σ (f <$> l) ≤ Σ (g <$> l))%Z by (apply IH; set_solver).
  lia.
Qed.

Lemma sumZ_replicate n x : Σ (replicate n x) = (Z.of_nat n * x)%Z.
Proof. induction n as [|n IH]; simpl; [done|]. rewrite sumZ_cons, IH. lia. Qed.

Lemma sumZ_bounds {A} (f : A → Z) (l : list A) (lo hi : Z) :
  (∀ x, x ∈ l → lo ≤ f x ≤ hi)%Z →
  (Z.of_nat (length l) * lo ≤ Σ (f <$> l) ≤ Z.of_nat (length l) * hi)%Z.
Proof.
  induction l as [|x l IH]; intros H; [simpl; rewrite sumZ_nil; lia|].
  rewrite fmap_cons, sumZ_cons.
  assert (lo ≤ f x ≤ hi)%Z by (apply H; set_solver).
  assert (Z.of_nat (length l) * lo ≤ Σ (f <$> l) ≤ Z.of_nat (length l) * hi)%Z
    by (apply IH; set_solver).
  simpl length. lia.
Qed.

Lemma sumZ_lower {A} (f : A → Z) (l : list A) (lo : Z) :
  (∀ x, x ∈ l → lo ≤ f x)%Z → (Z.of_nat (length l) * lo ≤ Σ (f <$> l))%Z.
Proof.
  induction l as [|x l IH]; intros H; [simpl; rewrite sumZ_nil; lia|].
  rewrite fmap_cons, sumZ_cons.
  assert (lo ≤ f x)%Z by (apply H; set_solver).
  assert (Z.of_nat (length l) * lo ≤ Σ (f <$> l))%Z by (apply IH; set_solver).
  simpl length. lia.
Qed.

Lemma fmap_const_replicate {A B} (x : B) (l : list A) :
  (λ _, x) <$> l = replicate (length l) x.
Proof. induction l as [|y l IH]; [done|]. rewrite fmap_cons, IH. done. Qed.

#[export] Hint Resolve sumZ_nonneg : gem.

(** ** Generic list facts *)

Lemma elem_of_concat {A} (x : A) (ls : list (list A)) :
  x ∈ concat ls ↔ ∃ l, l ∈ ls ∧ x ∈ l.
Proof.
  rewrite list_elem_of_In, in_concat. split.
  - intros (l & ? & ?). exists l. by rewrite !list_elem_of_In.
  - intros (l & ? & ?). exists l. by rewrite <- !list_elem_of_In.
Qed.

Lemma fmap_concat {A B} (f : A → B) (ls : list (list A)) :
  f <$> concat ls = concat ((λ l : list A, f <$> l) <$> ls).
Proof.
  induction ls as [|l ls IH]; [done|]. simpl. by rewrite fmap_app, IH.
Qed.

Lemma filter_all {A} (P : A → Prop) `{∀ x, Decision (P x)} (l : list A) :
  (∀ x, x ∈ l → P x) → filter P l = l.
Proof.
  induction l as [|x l IH]; intros Hl; [done|].
  rewrite filter_cons_True by (apply Hl; set_solver). f_equal. apply IH. set_solver.
Qed.

Lemma filter_none {A} (P : A → Prop) `{∀ x, Decision (P x)} (l : list A) :
  (∀ x, x ∈ l → ¬ P x) → filter P l = [].
Proof.
  induction l as [|x l IH]; intros Hl; [done|].
  rewrite filter_cons_False by (apply Hl; set_solver). apply IH. set_solver.
Qed.

(** ** Sums of rationals and floors

    JS numbers that the code divides (payout weights) are modelled as
    exact rationals [Q]; [Math.floor] is [Qfloor]. *)

Definition sumQ (l : list Q) : Q := foldr Qplus 0%Q l.

Lemma sumQ_app l1 l2 : (sumQ (l1 ++ l2) == sumQ l1 + sumQ l2)%Q.
Proof.
  induction l1 as [|x l1 IH]; simpl.
  - unfold sumQ; simpl. ring.
  - unfold sumQ in *; simpl. rewrite IH. ring.
Qed.

Lemma Qfloor_add_le (a b : Q) : (Qfloor a + Qfloor b ≤ Qfloor (a + b))%Z.
Proof.
  rewrite <- (Qfloor_Z (Qfloor a + Qfloor b)).
  apply Qfloor_resp_le. rewrite inject_Z_plus.
  apply Qplus_le_compat; apply Qfloor_le.
Qed.

(** The sum of the floors never exceeds the floor of the sum. *)
Lemma sum_floor_le (l : list Q) :
  (Σ (Qfloor <$> l) ≤ Qfloor (sumQ l))%Z.
Proof.
  induction l as [|x l IH]; [reflexivity|].
  rewrite fmap_cons, sumZ_cons.
  change (sumQ (x :: l)) with (x + sumQ l)%Q.
  pose proof (Qfloor_add_le x (sumQ l)). lia.
Qed.

Lemma Qfloor_nonneg (q : Q) : (0 <= q)%Q → (0 ≤ Qfloor q)%Z.
Proof.
  intros H. rewrite <- (Qfloor_Z 0). apply Qfloor_resp_le. exact H.
Qed.

(** ** JS [Array.prototype.find] *)

Fixpoint js_find {A} (p : A → bool) (l : list A) : option A :=
  match l with
  | [] => None
  | x :: l' => if p x then Some x else js_find p l'
  end.

Lemma js_find_Some {A} (p : A → bool) l x :
  js_find p l = Some x → x ∈ l ∧ p x = true.
Proof.
  induction l as [|y l IH]; simpl; [done|].
  destruct (p y) eqn:E; intros H; simplify_eq; [split; [set_solver|done]|].
  destruct (IH H). split; [set_solver|done].
Qed.

Lemma js_find_None {A} (p : A → bool) l :
  js_find p l = None → ∀ x, x ∈ l → p x = false.
Proof.
  induction l as [|y l IH]; simpl; [set_solver|].
  destruct (p y) eqn:E; intros H x Hx; [done|].
  apply elem_of_cons in Hx as [->|Hx]; auto.
Qed.

Lemma js_find_None_2 {A} (p : A → bool) l :
  (∀ x, x ∈ l → p x = false) → js_find p l = None.
Proof.
  induction l as [|y l IH]; intros H; simpl; [done|].
  rewrite H by set_solver. apply IH. intros x Hx. apply H. set_solver.
Qed.

Lemma js_find_complete {A} (p : A → bool) l x :
  x ∈ l → p x = true → ∃ y, js_find p l = Some y.
Proof.
  intros Hx Hp. destruct (js_find p l) as [y|] eqn:E; [eauto|].
  by rewrite (js_find_None p l E x Hx) in Hp.
Qed.

(** ** JS [Map]s with string keys

    A [Map] iterates in insertion order, and [m.set(k, v)] on a present
    key replaces the value in place: an association list. *)

(** [m.set(k, v)] *)
Fixpoint jsmap_set {V} (m : list (string * V)) (k : string) (v : V) : list (string * V) :=
  match m with
  | [] => [(k, v)]
  | (k', v') :: m' => if bool_decide (k' = k) then (k, v) :: m' else (k', v') :: jsmap_set m' k v
  end.

Lemma jsmap_set_fresh {V} (m : list (string * V)) k v :
  k ∉ m.*1 → jsmap_set m k v = m ++ [(k, v)].
Proof.
  induction m as [|[k' v'] m IH]; intros Hk; [done|]. simpl.
  rewrite bool_decide_false by (intros ->; apply Hk; set_solver).
  rewrite IH; [done|set_solver].
Qed.

Lemma jsmap_set_in {V} (m : list (string * V)) k v : (k, v) ∈ jsmap_set m k v.
Proof.
  induction m as [|[k' v'] m IH]; simpl; [set_solver|].
  case_bool_decide; set_solver.
Qed.

Lemma jsmap_set_other {V} (m : list (string * V)) k v k' v' :
  (k, v) ∈ m → k ≠ k' → (k, v) ∈ jsmap_set m k' v'.
Proof.
  induction m as [|[k1 v1] m IH]; simpl; [set_solver|]. intros Hin Hne.
  case_bool_decide; subst; apply elem_of_cons in Hin as [Heq|Hin]; simplify_eq; set_solver.
Qed.

Lemma jsmap_set_sound {V} (m : list (string * V)) k v kv :
  kv ∈ jsmap_set m k v → kv ∈ m ∨ kv = (k, v).
Proof.
  induction m as [|[k1 v1] m IH]; simpl; [set_solver|].
  case_bool_decide; [set_solver|]. intros [->|Hin]%elem_of_cons; [set_solver|].
  destruct (IH Hin); set_solver.
Qed.

Lemma jsmap_set_keys {V} (m : list (string * V)) k v :
  (jsmap_set m k v).*1 = if bool_decide (k ∈ m.*1) then m.*1 else m.*1 ++ [k].
Proof.
  induction m as [|[k' v'] m IH]; [done|]. cbn [jsmap_set].
  destruct (decide (k' = k)) as [->|Hk].
  - rewrite !bool_decide_true by set_solver. done.
  - rewrite (bool_decide_false (k' = k)) by done. rewrite !fmap_cons, IH. simpl.
    case_bool_decide; case_bool_decide; try done; set_solver.
Qed.

Lemma jsmap_set_NoDup {V} (m : list (string * V)) k v :
  NoDup m.*1 → NoDup (jsmap_set m k v).*1.
Proof.
  rewrite jsmap_set_keys. case_bool_decide; [done|].
  intros Hnd. apply NoDup_app. split_and!; [done| |apply NoDup_singleton]. set_solver.
Qed.

(** ** Loops with an early [return true] that may throw

    [exists_opt f l] runs [f] on the elements of [l] in order, stops at
    the first [Some true] and propagates the first [None] (an exception). *)

Fixpoint exists_opt {A} (f : A → option bool) (l : list A) : option bool :=
  match l with
  | [] => Some false
  | x :: l' =>
      match f x with
      | Some true => Some true
      | Some false => exists_opt f l'
      | None => None
      end
  end.

(** The useful direction for search loops: if no element throws and one
    element succeeds, the loop succeeds. *)
Lemma exists_opt_some_true {A} (f : A → option bool) l x :
  (∀ y, y ∈ l → f y ≠ None) → x ∈ l → f x = Some true →
  exists_opt f l = Some true.
Proof.
  induction l as [|y l IH]; intros Hnn Hx Hfx; simpl; [set_solver|].
  destruct (f y) as [[]|] eqn:Hfy; [done| |by destruct (Hnn y); [set_solver|]].
  apply elem_of_cons in Hx as [->|Hx]; [congruence|].
  apply IH; [|done|done]. intros z Hz. apply Hnn. set_solver.
Qed.

Lemma exists_opt_true_inv {A} (f : A → option bool) l :
  exists_opt f l = Some true → ∃ x, x ∈ l ∧ f x = Some true.
Proof.
  induction l as [|y l IH]; simpl; [done|].
  destruct (f y) as [[]|] eqn:Hfy; intros H.
  - exists y. split; [set_solver|done].
  - destruct (IH H) as (x & ? & ?). exists x. split; [set_solver|done].
  - done.
Qed.

Lemma exists_opt_defined {A} (f : A → option bool) l :
  (∀ y, y ∈ l → f y ≠ None) → exists_opt f l ≠ None.
Proof.
  induction l as [|y l IH]; intros Hnn; simpl; [done|].
  destruct (f y) as [[]|] eqn:Hfy; [done| |by destruct (Hnn y); [set_solver|]].
  apply IH. intros z Hz. apply Hnn. set_solver.
Qed.

Lemma exists_opt_false {A} (f : A → option bool) l :
  (∀ y, y ∈ l → f y = Some false) → exists_opt f l = Some false.
Proof.
  induction l as [|y l IH]; intros H; simpl; [done|].
  rewrite H; [|set_solver]. apply IH. intros z Hz. apply H. set_solver.
Qed.

Lemma exists_opt_ext {A} (f g : A → option bool) l :
  (∀ y, y ∈ l → f y = g y) → exists_opt f l = exists_opt g l.
Proof.
  induction l as [|y l IH]; intros H; simpl; [done|].
  rewrite H by set_solver. destruct (g y) as [[]|]; [done| |done].
  apply IH. intros z Hz. apply H. set_solver.
Qed.

(** ** [Array.prototype.filter] with a predicate that may throw

    [filter_opt p l] keeps the elements on which [p] gives [Some true] and
    propagates the first [None]. *)

Fixpoint filter_opt {A} (p : A → option bool) (l : list A) : option (list A) :=
  match l with
  | [] => Some []
  | x :: l' =>
      match p x with
      | None => None
      | Some b => (λ r, if b then x :: r else r) <$> filter_opt p l'
      end
  end.

Lemma filter_opt_Some {A} (p : A → option bool) l :
  (∀ x, x ∈ l → p x ≠ None) →
  filter_opt p l = Some (filter (λ x, p x = Some true) l).
Proof.
  induction l as [|x l IH]; intros Hnn; [done|].
  rewrite filter_cons. cbn [filter_opt].
  rewrite IH by (intros y Hy; apply Hnn; set_solver).
  destruct (p x) as [[]|] eqn:E.
  - by rewrite decide_True.
  - by rewrite decide_False.
  - by destruct (Hnn x); [set_solver|].
Qed.

(** [Array.from(new Set(l))]: elements in the order of their first
    occurrence, each added once to the set [acc]. *)
Fixpoint set_add_all `{EqDecision A} (acc : list A) (l : list A) : list A :=
  match l with
  | [] => acc
  | x :: l' => set_add_all (if bool_decide (x ∈ acc) then acc else acc ++ [x]) l'
  end.

Lemma set_add_all_elem `{EqDecision A} (acc l : list A) x :
  x ∈ set_add_all acc l ↔ x ∈ acc ∨ x ∈ l.
Proof.
  revert acc. induction l as [|y l IH]; intros acc; simpl; [set_solver|].
  rewrite IH. case_bool_decide; set_solver.
Qed.

Lemma set_add_all_NoDup `{EqDecision A} (acc l : list A) :
  NoDup acc → NoDup (set_add_all acc l).
Proof.
  revert acc. induction l as [|y l IH]; intros acc Hacc; simpl; [done|].
  apply IH. case_bool_decide; [done|].
  apply NoDup_app. split_and!; [done|set_solver|apply NoDup_singleton].
Qed.

(** ** Tactics of the development *)

(** Case on every boolean test of the goal that comes from a decision. *)
Ltac gem_decide :=
  repeat match goal with
  | |- context [bool_decide ?P] => case_bool_decide
  | H : context [bool_decide ?P] |- _ => case_bool_decide
  end.

Ltac gem_simpl := autorewrite with gem_rw in *; simpl in *.

(** The Euclidean equation and remainder bounds of [x / c] and [x mod c]
    for a positive constant [c], so that [lia] can reason about them. *)
Ltac zdivmod x c :=
  pose proof (Z.div_mod x c ltac:(lia)); pose proof (Z.mod_pos_bound x c ltac:(lia)).
