(* ===== verification/Model.v ===== *)
(** * The data model: lobby configuration, players and matches

    Translates src/backend/src/state/match.interface.ts (the [MatchPlayer]
    and [InternalMatch] documents stored as JSON in Redis) and
    src/backend/src/config/lobbies.ts (the lobby catalogue and its
    validation).  Timestamps, which the code keeps as ISO-8601 strings,
    are kept as the milliseconds they denote ([Z]); [undefined] and
    [null] fields are [None]. *)

From S2P Require Import Prelude.

(** ** Match status (match.interface.ts, field [status]) *)

Inductive Status := waiting | started | completed.

#[export] Instance Status_eq_dec : EqDecision Status.
Proof. solve_decision. Defined.

(** A board is a grid of letter tokens; a token may have several letters
    (the die face "Q" is stored as "QU"). *)
Abbreviation Board := (list (list string)).

(** ** Players (interface [MatchPlayer]) *)
Module MatchPlayer.
Record t := mk {
  id : string;
  name : string;
  words : list string;
  score : Z;
  wordScore : option Z;
  timeBonus : option Z;
  joinedAt : Z;
  deadlineAt : option Z;
  paidEntry : bool;
  submittedAt : option Z;
  rank : option nat;
  winnings : option Z
}.

(** [{ ...p, rank, winnings }] in payout.ts. *)
Definition with_result (p : t) (r : nat) (w : Z) : t :=
  mk p.(id) p.(name) p.(words) p.(score) p.(wordScore) p.(timeBonus)
     p.(joinedAt) p.(deadlineAt) p.(paidEntry) p.(submittedAt)
     (Some r) (Some w).

(** The five assignments that freeze a submission
    (matches.ts lines 449-453, server.ts lines 86-90). *)
Definition with_submission (p : t) (ws : list string) (base bonus now : Z) : t :=
  mk p.(id) p.(name) ws (base + bonus) (Some base) (Some bonus)
     p.(joinedAt) p.(deadlineAt) p.(paidEntry) (Some now)
     p.(rank) p.(winnings).

(** [player.words = ...] in the save-words handler. *)
Definition with_words (p : t) (ws : list string) : t :=
  mk p.(id) p.(name) ws p.(score) p.(wordScore) p.(timeBonus)
     p.(joinedAt) p.(deadlineAt) p.(paidEntry) p.(submittedAt)
     p.(rank) p.(winnings).

(** [match.players[0].paidEntry = true] in the join handler. *)
Definition with_paid (p : t) : t :=
  mk p.(id) p.(name) p.(words) p.(score) p.(wordScore) p.(timeBonus)
     p.(joinedAt) p.(deadlineAt) true p.(submittedAt)
     p.(rank) p.(winnings).
End MatchPlayer.

#[export] Instance MatchPlayer_eq_dec : EqDecision MatchPlayer.t.
Proof. solve_decision. Defined.

(** ** Matches (interface [InternalMatch]) *)
Module InternalMatch.
Record t := mk {
  id : string;
  lobbyType : string;
  board : Board;
  createdAt : Z;
  startedAt : option Z;
  endedAt : option Z;
  entryFee : Z;
  prizePool : Z;
  gameDuration : Z;
  players : list MatchPlayer.t;
  status : Status;
  autoCompleteAt : Z;
  payoutAt : option Z
}.

Definition with_players (m : t) (ps : list MatchPlayer.t) : t :=
  mk m.(id) m.(lobbyType) m.(board) m.(createdAt) m.(startedAt)
     m.(endedAt) m.(entryFee) m.(prizePool) m.(gameDuration) ps
     m.(status) m.(autoCompleteAt) m.(payoutAt).

(** [match.status = "completed"; match.endedAt = now]. *)
Definition with_completed (m : t) (now : Z) : t :=
  mk m.(id) m.(lobbyType) m.(board) m.(createdAt) m.(startedAt)
     (Some now) m.(entryFee) m.(prizePool) m.(gameDuration) m.(players)
     completed m.(autoCompleteAt) m.(payoutAt).

(** [match.payoutAt = now]. *)
Definition with_payout (m : t) (now : Z) : t :=
  mk m.(id) m.(lobbyType) m.(board) m.(createdAt) m.(startedAt)
     m.(endedAt) m.(entryFee) m.(prizePool) m.(gameDuration) m.(players)
     m.(status) m.(autoCompleteAt) (Some now).
End InternalMatch.

#[export] Instance InternalMatch_eq_dec : EqDecision InternalMatch.t.
Proof. solve_decision. Defined.

(** ** Lobby configuration (config/lobbies.ts) *)
Module LobbyConfig.
Record t := mk {
  lobbyType : string;
  name : string;
  entryFee : Z;
  boardSize : Z;
  gameDuration : Z;
  maxPlayers : Z;
  payoutMultipliers : list Q;
  totalPrizeGems : Z;
  timeBonusPerSecond : option Q;
  timeBonusMaxPoints : option Z
}.
End LobbyConfig.

(** [validateLobbyConfig]: the numeric conditions; the [typeof] tests hold
    by construction of the record. *)
Definition validateLobbyConfig (c : LobbyConfig.t) : bool :=
  bool_decide (c.(LobbyConfig.boardSize) = 4%Z ∨ c.(LobbyConfig.boardSize) = 5%Z) &&
  bool_decide (0 ≤ c.(LobbyConfig.entryFee))%Z &&
  bool_decide (60 ≤ c.(LobbyConfig.gameDuration))%Z &&
  bool_decide (c.(LobbyConfig.gameDuration) ≤ 1800)%Z &&
  bool_decide (2 ≤ c.(LobbyConfig.maxPlayers))%Z &&
  bool_decide (c.(LobbyConfig.maxPlayers) ≤ 10)%Z.

(** [loadLobbyConfig], after the file has been read and parsed into a
    list of candidate entries: invalid entries are dropped. *)
Definition loadLobbyConfig (parsed : list LobbyConfig.t) : list LobbyConfig.t :=
  filter (λ c, validateLobbyConfig c = true) parsed.

(** [getLobbyConfig]: the first entry of [LOBBIES] with that lobby type. *)
Definition getLobbyConfig (LOBBIES : list LobbyConfig.t) (lt : string)
    : option LobbyConfig.t :=
  js_find (λ l, bool_decide (l.(LobbyConfig.lobbyType) = lt)) LOBBIES.

(** A player's deadline in milliseconds: [deadlineAt] when present, else
    [joinedAt + gameDuration * 1000] (matches.ts 430-432, server.ts 105-107,
    matches.ts 692-694). *)
Definition deadline_ms (gameDuration : Z) (p : MatchPlayer.t) : Z :=
  match p.(MatchPlayer.deadlineAt) with
  | Some d => d
  | None => p.(MatchPlayer.joinedAt) + gameDuration * 1000
  end.

(** ** Properties of the configuration *)

Definition lobby_ok (c : LobbyConfig.t) : Prop :=
  (c.(LobbyConfig.boardSize) = 4 ∨ c.(LobbyConfig.boardSize) = 5)%Z ∧
  (0 ≤ c.(LobbyConfig.entryFee))%Z ∧
  (60 ≤ c.(LobbyConfig.gameDuration) ≤ 1800)%Z ∧
  (2 ≤ c.(LobbyConfig.maxPlayers) ≤ 10)%Z.

Lemma validateLobbyConfig_ok c : validateLobbyConfig c = true ↔ lobby_ok c.
Proof.
  unfold validateLobbyConfig, lobby_ok.
  rewrite !andb_true_iff, !bool_decide_eq_true. tauto.
Qed.

(** Every lobby the server can look up satisfies the catalogue's
    constraints (board 4 or 5, fee nonnegative, duration 60..1800 s,
    2..10 players), whatever the parsed file held. *)
Theorem getLobbyConfig_valid parsed lt c :
  getLobbyConfig (loadLobbyConfig parsed) lt = Some c →
  lobby_ok c ∧ c.(LobbyConfig.lobbyType) = lt.
Proof.
  intros H. apply js_find_Some in H as [Hin Hp].
  apply bool_decide_eq_true in Hp.
  apply list_elem_of_filter in Hin as [Hv _].
  split; [by apply validateLobbyConfig_ok|done].
Qed.

Definition demo_lobby : LobbyConfig.t :=
  LobbyConfig.mk "classic" "Classic" 100%Z 4%Z 120%Z 2%Z [3; 3#2; 1#2]%Q 180 (Some (1#2)%Q) (Some 30%Z).

(** Witness: the classic lobby survives loading and is found by its type. *)
Lemma getLobbyConfig_valid_witness :
  getLobbyConfig (loadLobbyConfig [demo_lobby]) "classic" = Some demo_lobby ∧
  lobby_ok demo_lobby ∧ demo_lobby.(LobbyConfig.lobbyType) = "classic".
Proof.
  assert (Hg : getLobbyConfig (loadLobbyConfig [demo_lobby]) "classic" = Some demo_lobby)
    by (vm_compute; reflexivity).
  split; [exact Hg|]. exact (getLobbyConfig_valid _ _ _ Hg).
Defined.
