(* ===== verification/Payout.v ===== *)
(** * Payout allocator (src/backend/src/utils/payout.ts)

    [rankAndAllocateWinnings players totalPrizeGems multipliers] sorts the
    players by score, walks the tie bands of the sorted list, gives each
    band the base allocations of the places it covers and splits them
    evenly, leftover units going to the earliest players of the band.
    Multipliers are JS numbers such as [1.5]; they are exact rationals
    here, and [Math.floor] of a quotient is [Qfloor]. *)

From S2P Require Import Prelude Model.

Module Payout.

Abbreviation P := MatchPlayer.t.
Abbreviation score := MatchPlayer.score.

(** ** Sorting: [players.slice().sort((a, b) => b.score - a.score)]

    [Array.prototype.sort] is stable, so the result is the unique
    permutation that is sorted by descending score and keeps players of
    equal score in input order.  Insertion sort computes it. *)
Fixpoint insert_desc (p : P) (l : list P) : list P :=
  match l with
  | [] => [p]
  | q :: l' => if bool_decide (score q ≤ score p)%Z then p :: q :: l'
               else q :: insert_desc p l'
  end.

Fixpoint sort_desc (l : list P) : list P :=
  match l with
  | [] => []
  | p :: l' => insert_desc p (sort_desc l')
  end.

(** ** Tie bands: the inner [while] loop that extends [j] *)

(** [take_run s l]: the longest prefix of [l] whose scores equal [s]. *)
Fixpoint take_run (s : Z) (l : list P) : list P * list P :=
  match l with
  | [] => ([], [])
  | q :: l' =>
      if bool_decide (score q = s) then
        let '(r, rest) := take_run s l' in (q :: r, rest)
      else ([], l)
  end.

(** The outer loop [while (i < ordered.length) { ...; i = j + 1; }]: the
    bands of [l] with the 0-based position [i] of their first player.
    Each iteration consumes at least one player, so [length l] iterations
    suffice ([tie_bands_concat] below). *)
Fixpoint tie_bands (fuel : nat) (i : nat) (l : list P) : list (nat * list P) :=
  match fuel, l with
  | S f, p :: l' =>
      let '(r, rest) := take_run (score p) l' in
      (i, p :: r) :: tie_bands f (i + S (length r)) rest
  | _, _ => []
  end.

(** ** Base allocations per place *)

(** [clampToNonNegativeInt]: [Math.floor], then negative values to 0. *)
Definition clampToNonNegativeInt (v : Q) : Z := Z.max 0 (Qfloor v).

(** [multipliers.slice(0, n).map((w) => Math.max(0, Number(w) || 0))] *)
Definition weights (multipliers : list Q) (n : nat) : list Q :=
  (λ w, Qmax 0 w) <$> take n multipliers.

(** [baseRankAmounts[0] += remainder] *)
Definition add_to_first (x : Z) (l : list Z) : list Z :=
  match l with
  | [] => []
  | a :: l' => (a + x)%Z :: l'
  end.

(** Lines 64-78: proportional amounts, rounding leftover to first place. *)
Definition base_amounts (totalPrizeGems : Z) (ws : list Q) : list Z :=
  let weightSum := sumQ ws in
  if Qlt_le_dec 0 weightSum then
    let amts := (λ w, clampToNonNegativeInt (inject_Z totalPrizeGems * w / weightSum)%Q) <$> ws in
    let remainder := (totalPrizeGems - Σ amts)%Z in
    if bool_decide (0 < remainder)%Z then add_to_first remainder amts else amts
  else replicate (length ws) 0%Z.

(** Lines 91-94: the sum of the base allocations of places
    [groupStartRank .. groupEndRank] that lie within [1 .. n]. *)
Definition groupTotal (n : nat) (base : list Z) (i size : nat) : Z :=
  Σ ((λ r, if bool_decide (1 ≤ r ≤ n)%nat then base !!! (r - 1)%nat else 0%Z)
       <$> seq (S i) size).

(** Lines 105-114: [per + (rem > 0 ? 1 : 0)], then [rem -= 1]. *)
Fixpoint distribute (per rem : Z) (rank : nat) (band : list P) : list P :=
  match band with
  | [] => []
  | p :: b =>
      let bonus := if bool_decide (0 < rem)%Z then 1%Z else 0%Z in
      MatchPlayer.with_result p rank (per + bonus)
        :: distribute per (if bool_decide (0 < rem)%Z then rem - 1 else rem)%Z rank b
  end.

Definition zero_band (i : nat) (band : list P) : list P :=
  (λ p, MatchPlayer.with_result p (S i) 0%Z) <$> band.

(** Lines 96-115: one band starting at 0-based position [i]. *)
Definition allocate_band (n : nat) (base : list Z) (i : nat) (band : list P) : list P :=
  let total := groupTotal n base i (length band) in
  if bool_decide (total ≤ 0)%Z then zero_band i band
  else
    let size := Z.of_nat (length band) in
    let per := (total `div` size)%Z in
    distribute per (total - per * size)%Z (S i) band.

(** [rankAndAllocateWinnings]. *)
Definition rankAndAllocateWinnings (players : list P) (totalPrizeGems : Z)
    (multipliers : list Q) : list P :=
  let ordered := sort_desc players in
  let n := min (length ordered) (length multipliers) in
  let bands := tie_bands (length ordered) 0 ordered in
  if bool_decide (totalPrizeGems ≤ 0)%Z || bool_decide (n = 0%nat) then
    concat ((λ ib, zero_band ib.1 ib.2) <$> bands)
  else
    let base := base_amounts totalPrizeGems (weights multipliers n) in
    concat ((λ ib, allocate_band n base ib.1 ib.2) <$> bands).

(** Total paid out, and the amount credited to one player
    ([Math.floor(p.winnings || 0)]). *)
Definition winnings_of (p : P) : Z := default 0%Z p.(MatchPlayer.winnings).
Definition total_winnings (ps : list P) : Z := Σ (winnings_of <$> ps).


(** ** The sort *)

Definition desc (a b : P) : Prop := (score b ≤ score a)%Z.

Lemma insert_desc_perm p l : insert_desc p l ≡ₚ p :: l.
Proof.
  induction l as [|q l IH]; simpl; [done|].
  case_bool_decide; [done|]. rewrite IH. by constructor.
Qed.

Lemma sort_desc_perm l : sort_desc l ≡ₚ l.
Proof.
  induction l as [|p l IH]; simpl; [done|].
  by rewrite insert_desc_perm, IH.
Qed.

Lemma insert_desc_sorted p l :
  StronglySorted desc l → StronglySorted desc (insert_desc p l).
Proof.
  induction 1 as [|q l Hl IH Hq]; simpl; [repeat constructor|].
  case_bool_decide as Hle.
  - constructor; [by constructor|].
    constructor; [unfold desc; lia|].
    eapply Forall_impl; [exact Hq|]. unfold desc; intros; lia.
  - constructor; [done|].
    apply Forall_forall. intros x Hx.
    rewrite (elem_of_Permutation_proper _ _ _ (insert_desc_perm p l)) in Hx.
    apply elem_of_cons in Hx as [->|Hx]; [unfold desc; lia|].
    by eapply Forall_forall in Hq.
Qed.

Lemma sort_desc_sorted l : StronglySorted desc (sort_desc l).
Proof.
  induction l as [|p l IH]; simpl; [constructor|]. by apply insert_desc_sorted.
Qed.

Definition with_score (s : Z) (p : P) : bool := bool_decide (score p = s).

Lemma insert_desc_filter s p l :
  filter (λ q, with_score s q = true) (insert_desc p l) =
  filter (λ q, with_score s q = true) (p :: l).
Proof.
  induction l as [|q l IH]; simpl; [done|].
  case_bool_decide as Hle; [done|].
  rewrite filter_cons, IH. unfold with_score.
  rewrite !filter_cons. repeat case_bool_decide; try done; lia.
Qed.

(** The sort is stable: players of one score keep their input order. *)
Lemma sort_desc_stable s l :
  filter (λ q, with_score s q = true) (sort_desc l) =
  filter (λ q, with_score s q = true) l.
Proof.
  induction l as [|p l IH]; simpl; [done|].
  rewrite insert_desc_filter, !filter_cons. by rewrite IH.
Qed.

(** ** Tie bands *)

Lemma take_run_spec s l r rest :
  take_run s l = (r, rest) →
  l = r ++ rest ∧ Forall (λ q, score q = s) r ∧
  (∀ q l', rest = q :: l' → score q ≠ s).
Proof.
  revert r rest. induction l as [|q l IH]; intros r rest H; simpl in H.
  - simplify_eq. split_and!; [done|constructor|done].
  - case_bool_decide as Hq.
    + destruct (take_run s l) as [r' rest'] eqn:E. injection H as <- <-.
      destruct (IH r' rest' eq_refl) as (-> & ? & ?).
      split_and!; [done|by constructor|done].
    + simplify_eq. split_and!; [done|constructor|]. intros ?? [= -> ->]. done.
Qed.

Lemma tie_bands_concat fuel i l :
  length l ≤ fuel → concat (snd <$> tie_bands fuel i l) = l.
Proof.
  revert i l. induction fuel as [|f IH]; intros i l Hl; simpl.
  - destruct l; simpl in *; [done|lia].
  - destruct l as [|p l']; [done|]. simpl in Hl.
    destruct (take_run (score p) l') as [r rest] eqn:E.
    destruct (take_run_spec _ _ _ _ E) as (-> & _ & _). simpl.
    rewrite IH; [done|]. rewrite length_app in Hl. lia.
Qed.

(** Sums indexed by 1-based places are split by the bands. *)
Lemma tie_bands_seq_sum (g : nat → Z) fuel i l :
  length l ≤ fuel →
  Σ ((λ ib : nat * list P, Σ (g <$> seq (S ib.1) (length ib.2))) <$> tie_bands fuel i l)
  = Σ (g <$> seq (S i) (length l)).
Proof.
  revert i l. induction fuel as [|f IH]; intros i l Hl; simpl.
  - destruct l; simpl in *; [done|lia].
  - destruct l as [|p l']; [done|]. simpl in Hl.
    destruct (take_run (score p) l') as [r rest] eqn:E.
    destruct (take_run_spec _ _ _ _ E) as (-> & _ & _).
    rewrite fmap_cons, sumZ_cons, IH by (rewrite length_app in Hl; lia).
    cbn [fst snd length]. rewrite length_app.
    replace (S (length r + length rest)) with (S (length r) + length rest)%nat by lia.
    rewrite seq_app, fmap_app, sumZ_app.
    assert (S i + S (length r) = S (i + S (length r)))%nat as -> by lia.
    reflexivity.
Qed.

(** ** Base allocations *)

Lemma weights_nonneg ms n : Forall (λ w, 0 <= w)%Q (weights ms n).
Proof.
  unfold weights. apply Forall_fmap, Forall_forall. intros w _. simpl.
  apply Q.le_max_l.
Qed.

Lemma length_weights ms n : (n ≤ length ms)%nat → length (weights ms n) = n.
Proof. intros H. unfold weights. rewrite length_fmap, length_take. lia. Qed.

Lemma sumQ_scale (c d : Q) (ws : list Q) :
  ~ d == 0 → (sumQ ((λ w, c * w / d) <$> ws) == c * sumQ ws / d)%Q.
Proof.
  intros Hd. induction ws as [|w ws IH].
  - unfold sumQ; simpl. field. exact Hd.
  - change (sumQ ((λ w, c * w / d)%Q <$> w :: ws))
      with (c * w / d + sumQ ((λ w, c * w / d)%Q <$> ws))%Q.
    change (sumQ (w :: ws)) with (w + sumQ ws)%Q.
    rewrite IH. field. exact Hd.
Qed.

Lemma sumQ_nonneg ws : Forall (λ w, 0 <= w)%Q ws → (0 <= sumQ ws)%Q.
Proof.
  induction 1 as [|w ws Hw _ IH]; [apply Qle_refl|].
  change (sumQ (w :: ws)) with (w + sumQ ws)%Q.
  rewrite <- (Qplus_0_l 0). by apply Qplus_le_compat.
Qed.

Lemma share_nonneg (pool : Z) (w S : Q) :
  (0 ≤ pool)%Z → (0 <= w)%Q → (0 < S)%Q → (0 <= inject_Z pool * w / S)%Q.
Proof.
  intros Hp Hw HS. apply Qle_shift_div_l; [done|].
  rewrite Qmult_0_l. apply Qmult_le_0_compat; [|done].
  change 0%Q with (inject_Z 0). by rewrite <- Zle_Qle.
Qed.

Lemma clamp_floor (v : Q) : (0 <= v)%Q → clampToNonNegativeInt v = Qfloor v.
Proof. intros H. unfold clampToNonNegativeInt. pose proof (Qfloor_nonneg v H). lia. Qed.

(** The rounded-down amounts never exceed the pool. *)
Lemma amounts_sum_le (pool : Z) ws :
  (0 ≤ pool)%Z → Forall (λ w, 0 <= w)%Q ws → (0 < sumQ ws)%Q →
  (Σ ((λ w, clampToNonNegativeInt (inject_Z pool * w / sumQ ws)%Q) <$> ws) ≤ pool)%Z.
Proof.
  intros Hp Hws HS.
  assert ((λ w, clampToNonNegativeInt (inject_Z pool * w / sumQ ws)%Q) <$> ws
          = Qfloor <$> ((λ w, inject_Z pool * w / sumQ ws)%Q <$> ws)) as ->.
  { rewrite <- list_fmap_compose. apply list_fmap_ext. intros i w Hw.
    assert (w ∈ ws) as Hin by (by eapply list_elem_of_lookup_2).
    rewrite Forall_forall in Hws.
    apply clamp_floor, share_nonneg; [done|by apply Hws|done]. }
  etransitivity; [apply sum_floor_le|].
  rewrite sumQ_scale by (intros H; rewrite H in HS; apply (Qlt_irrefl 0); done).
  rewrite <- (Qfloor_Z pool) at 2. apply Z.eq_le_incl, Qfloor_comp.
  field. intros H. rewrite H in HS. apply (Qlt_irrefl 0). done.
Qed.

Lemma amounts_nonneg (pool : Z) ws S :
  Forall (λ a, 0 ≤ a)%Z ((λ w, clampToNonNegativeInt (inject_Z pool * w / S)%Q) <$> ws).
Proof.
  apply Forall_fmap, Forall_forall. intros w _. simpl.
  unfold clampToNonNegativeInt. lia.
Qed.

Lemma add_to_first_sum x l : l ≠ [] → Σ (add_to_first x l) = (Σ l + x)%Z.
Proof. destruct l as [|a l]; [done|]. intros _. cbn [add_to_first]. rewrite !sumZ_cons. lia. Qed.

Lemma add_to_first_nonneg x l :
  Forall (λ a, 0 ≤ a)%Z l → (0 ≤ x)%Z → Forall (λ a, 0 ≤ a)%Z (add_to_first x l).
Proof. intros Hl Hx. destruct Hl; constructor; [lia|done]. Qed.

Lemma length_add_to_first x l : length (add_to_first x l) = length l.
Proof. by destruct l. Qed.

Lemma length_base_amounts pool ws : length (base_amounts pool ws) = length ws.
Proof.
  unfold base_amounts. destruct (Qlt_le_dec _ _).
  - case_bool_decide; rewrite ?length_add_to_first; apply length_fmap.
  - apply length_replicate.
Qed.

Lemma base_amounts_nonneg pool ws : Forall (λ a, 0 ≤ a)%Z (base_amounts pool ws).
Proof.
  unfold base_amounts. destruct (Qlt_le_dec _ _).
  - case_bool_decide as Hr; [|apply amounts_nonneg].
    apply add_to_first_nonneg; [apply amounts_nonneg|lia].
  - apply Forall_replicate. lia.
Qed.

(** With positive weights the base allocations add up to the pool exactly. *)
Lemma base_amounts_sum pool ws :
  (0 ≤ pool)%Z → Forall (λ w, 0 <= w)%Q ws →
  Σ (base_amounts pool ws) = if Qlt_le_dec 0 (sumQ ws) then pool else 0%Z.
Proof.
  intros Hp Hws. unfold base_amounts. destruct (Qlt_le_dec _ _) as [HS|HS].
  - pose proof (amounts_sum_le pool ws Hp Hws HS) as Hle.
    pose proof (sumZ_nonneg _ (amounts_nonneg pool ws (sumQ ws))) as Hge.
    case_bool_decide as Hr; [|lia].
    rewrite add_to_first_sum; [lia|].
    destruct ws; [by compute in HS|done].
  - by rewrite sumZ_replicate, Z.mul_0_r.
Qed.

(** ** Band totals *)

Lemma sum_lookup_seq (l : list Z) k :
  Σ ((λ r, l !!! (r - k)%nat) <$> seq k (length l)) = Σ l.
Proof.
  revert k. induction l as [|x l IH]; intros k; [done|].
  simpl. rewrite Nat.sub_diag, !sumZ_cons. f_equal.
  rewrite <- (IH (S k)). f_equal. apply list_fmap_ext.
  intros j r Hr. apply list_elem_of_lookup_2, elem_of_seq in Hr.
  by replace (r - k)%nat with (S (r - S k)) by lia.
Qed.

(** Over all places [1 .. length ordered], the band totals add up to the
    base allocations. *)
Lemma groupTotal_all n base len :
  length base = n → (n ≤ len)%nat → groupTotal n base 0 len = Σ base.
Proof.
  intros Hb Hn. unfold groupTotal.
  replace len with (n + (len - n))%nat by lia.
  rewrite seq_app, fmap_app, sumZ_app.
  rewrite (list_fmap_ext _ (λ r, base !!! (r - 1)%nat) (seq 1 n)).
  2: { intros j r Hr. apply list_elem_of_lookup_2, elem_of_seq in Hr.
       by case_bool_decide; [|lia]. }
  rewrite (list_fmap_ext _ (λ _, 0%Z) (seq (1 + n) (len - n))).
  2: { intros j r Hr. apply list_elem_of_lookup_2, elem_of_seq in Hr.
       by case_bool_decide; [lia|]. }
  rewrite <- Hb, sum_lookup_seq, fmap_const_replicate, sumZ_replicate. lia.
Qed.

Lemma groupTotal_nonneg n base i size :
  Forall (λ a, 0 ≤ a)%Z base → (0 ≤ groupTotal n base i size)%Z.
Proof.
  intros Hb. apply sumZ_nonneg, Forall_fmap, Forall_forall. intros r _. simpl.
  case_bool_decide; [|lia].
  destruct (decide (r - 1 < length base))%nat as [Hlt|Hge].
  - apply Forall_lookup_total_1; [done|lia].
  - rewrite list_lookup_total_alt, lookup_ge_None_2 by lia. simpl. lia.
Qed.

(** ** Band payouts *)

Lemma winnings_of_with_result p r w :
  winnings_of (MatchPlayer.with_result p r w) = w.
Proof. reflexivity. Qed.

Lemma total_winnings_app l1 l2 :
  total_winnings (l1 ++ l2) = (total_winnings l1 + total_winnings l2)%Z.
Proof. unfold total_winnings. by rewrite fmap_app, sumZ_app. Qed.

Lemma total_winnings_concat (ls : list (list P)) :
  total_winnings (concat ls) = Σ (total_winnings <$> ls).
Proof.
  induction ls as [|l ls IH]; [done|].
  simpl. by rewrite total_winnings_app, IH, sumZ_cons.
Qed.

Lemma zero_band_total i band : total_winnings (zero_band i band) = 0%Z.
Proof.
  unfold total_winnings, zero_band. rewrite <- list_fmap_compose.
  rewrite (list_fmap_ext _ (λ _, 0%Z)) by done.
  by rewrite fmap_const_replicate, sumZ_replicate, Z.mul_0_r.
Qed.

Lemma distribute_total per rem r band :
  (0 ≤ rem ≤ Z.of_nat (length band))%Z →
  total_winnings (distribute per rem r band) = (per * Z.of_nat (length band) + rem)%Z.
Proof.
  revert rem. induction band as [|p band IH]; intros rem Hrem; simpl.
  - simpl in Hrem. change (total_winnings []) with 0%Z. lia.
  - unfold total_winnings in *. rewrite fmap_cons, sumZ_cons, winnings_of_with_result.
    simpl length in *. case_bool_decide; rewrite IH by lia; lia.
Qed.

Lemma allocate_band_total n base i band :
  Forall (λ a, 0 ≤ a)%Z base →
  total_winnings (allocate_band n base i band) = groupTotal n base i (length band).
Proof.
  intros Hb. unfold allocate_band.
  pose proof (groupTotal_nonneg n base i (length band) Hb).
  case_bool_decide as Ht.
  - rewrite zero_band_total. lia.
  - destruct band as [|p band']; [exfalso; apply Ht; unfold groupTotal; simpl; rewrite sumZ_nil; lia|].
    set (T := groupTotal _ _ _ _) in *. set (k := Z.of_nat (length (p :: band'))).
    assert (0 < k)%Z by (subst k; simpl; lia).
    pose proof (Z.mod_pos_bound T k ltac:(lia)). pose proof (Z.div_mod T k ltac:(lia)).
    rewrite distribute_total by (subst k; lia). lia.
Qed.

Lemma length_sort_desc l : length (sort_desc l) = length l.
Proof. apply Permutation_length, sort_desc_perm. Qed.

(** ** Total paid out *)

(** The total paid out by the allocator. *)
Lemma total_winnings_result players pool multipliers :
  let n := min (length players) (length multipliers) in
  total_winnings (rankAndAllocateWinnings players pool multipliers) =
  if bool_decide (0 < pool)%Z && bool_decide (n ≠ 0%nat) then
    (if Qlt_le_dec 0 (sumQ (weights multipliers n)) then pool else 0%Z)
  else 0%Z.
Proof.
  intros n. unfold rankAndAllocateWinnings. rewrite length_sort_desc. fold n.
  destruct (bool_decide (pool ≤ 0)%Z || bool_decide (n = 0%nat)) eqn:Hz.
  - rewrite total_winnings_concat, <- list_fmap_compose.
    rewrite (list_fmap_ext _ (λ _, 0%Z)) by (intros; apply zero_band_total).
    rewrite fmap_const_replicate, sumZ_replicate, Z.mul_0_r.
    apply orb_true_iff in Hz as [Hz|Hz]; apply bool_decide_eq_true in Hz;
      repeat case_bool_decide; simpl; done || lia.
  - apply orb_false_iff in Hz as [Hp Hn].
    apply bool_decide_eq_false in Hp, Hn.
    rewrite (bool_decide_eq_true_2 (0 < pool)%Z), (bool_decide_eq_true_2 (n ≠ 0%nat))
      by lia. simpl.
    set (ws := weights multipliers n).
    assert (length ws = n) as Hws by (apply length_weights; lia).
    pose proof (base_amounts_nonneg pool ws) as Hb.
    rewrite total_winnings_concat, <- list_fmap_compose.
    rewrite (list_fmap_ext _ (λ ib : nat * list P, groupTotal n (base_amounts pool ws) ib.1 (length ib.2)))
      by (intros; by apply allocate_band_total).
    unfold groupTotal at 1.
    rewrite (tie_bands_seq_sum (λ r, if bool_decide (1 ≤ r ≤ n)%nat
                                      then base_amounts pool ws !!! (r - 1)%nat else 0%Z))
      by (by rewrite length_sort_desc).
    fold (groupTotal n (base_amounts pool ws) 0 (length (sort_desc players))).
    rewrite groupTotal_all by (rewrite ?length_base_amounts, ?length_sort_desc; lia).
    apply base_amounts_sum; [lia|apply weights_nonneg].
Qed.

(** C27: the prize pool is paid out exactly when there is something to pay
    (positive pool, at least one paid place, positive total weight) and
    nothing is paid otherwise; in particular winnings never exceed the pool. *)
Theorem rankAndAllocateWinnings_total players pool multipliers :
  let n := min (length players) (length multipliers) in
  total_winnings (rankAndAllocateWinnings players pool multipliers) =
  if bool_decide (0 < pool)%Z && bool_decide (n ≠ 0%nat) then
    (if Qlt_le_dec 0 (sumQ (weights multipliers n)) then pool else 0%Z)
  else 0%Z.
Proof. exact (total_winnings_result players pool multipliers). Qed.

(** ** Shape of the result: the sorted players with rank and winnings *)

(** A player with the two fields the allocator writes cleared. *)
Definition strip (p : P) : P :=
  MatchPlayer.mk p.(MatchPlayer.id) p.(MatchPlayer.name) p.(MatchPlayer.words)
    p.(MatchPlayer.score) p.(MatchPlayer.wordScore) p.(MatchPlayer.timeBonus)
    p.(MatchPlayer.joinedAt) p.(MatchPlayer.deadlineAt) p.(MatchPlayer.paidEntry)
    p.(MatchPlayer.submittedAt) None None.

Lemma strip_with_result p r w : strip (MatchPlayer.with_result p r w) = strip p.
Proof. reflexivity. Qed.

Lemma distribute_strip per rem r band :
  strip <$> distribute per rem r band = strip <$> band.
Proof.
  revert rem. induction band as [|p band IH]; intros rem; [done|].
  cbn [distribute]. rewrite !fmap_cons, strip_with_result. by rewrite IH.
Qed.

Lemma zero_band_strip i band : strip <$> zero_band i band = strip <$> band.
Proof.
  unfold zero_band. rewrite <- list_fmap_compose. by apply list_fmap_ext.
Qed.

Lemma allocate_band_strip n base i band :
  strip <$> allocate_band n base i band = strip <$> band.
Proof.
  unfold allocate_band. case_bool_decide;
    [apply zero_band_strip|apply distribute_strip].
Qed.

Lemma distribute_elem per rem r band q :
  q ∈ distribute per rem r band →
  ∃ p, p ∈ band ∧ q = MatchPlayer.with_result p r (winnings_of q).
Proof.
  revert rem. induction band as [|p band IH]; intros rem Hq; [set_solver|].
  cbn [distribute] in Hq. apply elem_of_cons in Hq as [->|Hq].
  - exists p. split; [set_solver|done].
  - destruct (IH _ Hq) as (p' & ? & ?). exists p'. split; [set_solver|done].
Qed.

Lemma allocate_band_elem n base i band q :
  q ∈ allocate_band n base i band ∨ q ∈ zero_band i band →
  ∃ p, p ∈ band ∧ q = MatchPlayer.with_result p (S i) (winnings_of q).
Proof.
  unfold allocate_band.
  assert (q ∈ zero_band i band → ∃ p, p ∈ band ∧
            q = MatchPlayer.with_result p (S i) (winnings_of q)) as Hz.
  { unfold zero_band. intros (p & -> & Hp)%list_elem_of_fmap. eauto. }
  intros [Hq|Hq]; [|auto]. case_bool_decide; [auto|]. by eapply distribute_elem.
Qed.

Lemma result_elem players pool multipliers q :
  q ∈ rankAndAllocateWinnings players pool multipliers →
  ∃ i band p, (i, band) ∈ tie_bands (length (sort_desc players)) 0 (sort_desc players) ∧
    p ∈ band ∧ q = MatchPlayer.with_result p (S i) (winnings_of q).
Proof.
  unfold rankAndAllocateWinnings.
  destruct (_ || _); intros (l & Hl & Hq)%elem_of_concat;
    apply list_elem_of_fmap in Hl as ([i band] & -> & Hib);
    simpl in Hq;
    [destruct (allocate_band_elem 0 [] i band q (or_intror Hq)) as (p & ? & ?)
    |destruct (allocate_band_elem _ _ i band q (or_introl Hq)) as (p & ? & ?)];
    eauto 10.
Qed.

Lemma rankAndAllocateWinnings_strip players pool multipliers :
  strip <$> rankAndAllocateWinnings players pool multipliers = strip <$> sort_desc players.
Proof.
  unfold rankAndAllocateWinnings.
  set (L := sort_desc players). set (bs := tie_bands (length L) 0 L).
  transitivity (strip <$> concat (snd <$> bs)); [|subst bs; by rewrite tie_bands_concat].
  destruct (_ || _); rewrite !fmap_concat, <- !list_fmap_compose;
    f_equal; apply list_fmap_ext; intros j [i band] _; simpl;
    [apply zero_band_strip|apply allocate_band_strip].
Qed.

(** The allocator returns the input players, each exactly once, in
    sorted order; it writes [rank] and [winnings] and nothing else. *)
Theorem rankAndAllocateWinnings_players players pool multipliers :
  strip <$> rankAndAllocateWinnings players pool multipliers
  = strip <$> sort_desc players ∧
  strip <$> rankAndAllocateWinnings players pool multipliers ≡ₚ strip <$> players.
Proof.
  pose proof (rankAndAllocateWinnings_strip players pool multipliers) as Heq.
  split; [done|]. rewrite Heq. apply fmap_Permutation, sort_desc_perm.
Qed.

(** ** Ranks *)

Lemma StronglySorted_app_r {A} (R : A → A → Prop) l1 l2 :
  StronglySorted R (l1 ++ l2) → StronglySorted R l2.
Proof.
  induction l1 as [|x l1 IH]; [done|]. intros [H _]%StronglySorted_inv. by apply IH.
Qed.

(** The start position of every band counts the players placed strictly
    above it: every player before the band scores more, none after. *)
Lemma tie_bands_rank fuel Pre L i j band p :
  StronglySorted desc L → i = length Pre →
  (∀ x y, x ∈ Pre → y ∈ L → score y < score x)%Z →
  (j, band) ∈ tie_bands fuel i L → p ∈ band →
  j = length (filter (λ x, score p < score x)%Z (Pre ++ L)).
Proof.
  revert Pre L i. induction fuel as [|f IH]; intros Pre L i HL -> Hlt Hj Hp;
    [simpl in Hj; set_solver|].
  destruct L as [|p0 l']; [simpl in Hj; set_solver|]. cbn [tie_bands] in Hj.
  destruct (take_run (score p0) l') as [r rest] eqn:E.
  destruct (take_run_spec _ _ _ _ E) as (-> & Hr & Hrest).
  apply StronglySorted_inv in HL as [HL Hhd].
  apply elem_of_cons in Hj as [[= -> ->]|Hj].
  - assert (score p = score p0) as Hsp.
    { apply elem_of_cons in Hp as [->|Hp]; [done|].
      by eapply Forall_forall in Hr. }
    rewrite filter_app, length_app.
    rewrite (filter_all _ Pre), filter_none; [simpl; lia| |].
    + intros x Hx Hlt'. apply elem_of_cons in Hx as [->|Hx]; [lia|].
      eapply Forall_forall in Hhd; [|exact Hx]. unfold desc in Hhd. lia.
    + intros x Hx. rewrite Hsp. apply Hlt; [done|set_solver].
  - rewrite (IH (Pre ++ p0 :: r) rest (length Pre + S (length r))
               (StronglySorted_app_r _ r rest HL));
      [by rewrite <- !app_assoc| | |done|done].
    + rewrite length_app. simpl. lia.
    + intros x y Hx Hy.
      destruct rest as [|q rest']; [set_solver|].
      assert (score q ≠ score p0) by (eapply Hrest; done).
      assert (score q ≤ score p0)%Z.
      { eapply Forall_forall in Hhd; [exact Hhd|set_solver]. }
      assert (score y ≤ score q)%Z.
      { apply elem_of_cons in Hy as [->|Hy]; [lia|].
        apply StronglySorted_app_r in HL. apply StronglySorted_inv in HL as [_ Hq].
        by eapply Forall_forall in Hq. }
      apply elem_of_app in Hx as [Hx|Hx]; [apply Hlt; set_solver|].
      assert (score x = score p0) as ->; [|lia].
      apply elem_of_cons in Hx as [->|Hx]; [done|]. by eapply Forall_forall in Hr.
Qed.

(** Standard competition ranking: every returned player's rank is one
    plus the number of players with a strictly higher score, so tied
    players share the band's first place and the next band skips ahead;
    every other field comes from one input player. *)
Theorem rankAndAllocateWinnings_rank players pool multipliers q :
  q ∈ rankAndAllocateWinnings players pool multipliers →
  ∃ p, p ∈ players ∧
    q = MatchPlayer.with_result p
          (S (length (filter (λ x, score p < score x)%Z players))) (winnings_of q).
Proof.
  intros Hq. destruct (result_elem _ _ _ _ Hq) as (i & band & p & Hib & Hp & Hqe).
  exists p. split.
  - rewrite <- (sort_desc_perm players).
    rewrite <- (tie_bands_concat (length (sort_desc players)) 0 (sort_desc players)) by done.
    apply elem_of_concat. exists band. split; [|done].
    apply list_elem_of_fmap. by exists (i, band).
  - rewrite Hqe at 1. unfold MatchPlayer.with_result. do 2 f_equal.
    rewrite (tie_bands_rank (length (sort_desc players)) [] (sort_desc players) 0 i band p); [|apply sort_desc_sorted|done|set_solver|done|done].
    simpl. by rewrite (sort_desc_perm players).
Qed.

(** ** Ties *)

Lemma tie_bands_start_ge fuel i L j band :
  (j, band) ∈ tie_bands fuel i L → (i ≤ j)%nat.
Proof.
  revert i L. induction fuel as [|f IH]; intros i L Hj; [simpl in Hj; set_solver|].
  destruct L as [|p0 l']; [simpl in Hj; set_solver|]. cbn [tie_bands] in Hj.
  destruct (take_run (score p0) l') as [r rest].
  apply elem_of_cons in Hj as [[= -> ->]|Hj]; [lia|].
  apply IH in Hj. lia.
Qed.

(** Band starts are distinct, so a start determines its band. *)
Lemma tie_bands_start_unique fuel i L j b1 b2 :
  (j, b1) ∈ tie_bands fuel i L → (j, b2) ∈ tie_bands fuel i L → b1 = b2.
Proof.
  revert i L. induction fuel as [|f IH]; intros i L H1 H2; [simpl in H1; set_solver|].
  destruct L as [|p0 l']; [simpl in H1; set_solver|]. cbn [tie_bands] in H1, H2.
  destruct (take_run (score p0) l') as [r rest].
  apply elem_of_cons in H1 as [[= -> ->]|H1], H2 as [[= ->]|H2];
    [done|..|by eapply IH].
  - apply tie_bands_start_ge in H2. lia.
  - apply tie_bands_start_ge in H1. lia.
Qed.

(** The payout of one band, whichever branch the allocator takes. *)
Definition band_payout (players : list P) (pool : Z) (multipliers : list Q)
    (i : nat) (band : list P) : list P :=
  let n := min (length (sort_desc players)) (length multipliers) in
  if bool_decide (pool ≤ 0)%Z || bool_decide (n = 0%nat) then zero_band i band
  else allocate_band n (base_amounts pool (weights multipliers n)) i band.

Lemma result_bands players pool multipliers :
  rankAndAllocateWinnings players pool multipliers =
  concat ((λ ib, band_payout players pool multipliers ib.1 ib.2)
            <$> tie_bands (length (sort_desc players)) 0 (sort_desc players)).
Proof. unfold rankAndAllocateWinnings, band_payout. by destruct (_ || _). Qed.

Lemma distribute_range per rem r band q :
  q ∈ distribute per rem r band → (per ≤ winnings_of q ≤ per + 1)%Z.
Proof.
  revert rem. induction band as [|p band IH]; intros rem Hq; [set_solver|].
  cbn [distribute] in Hq. apply elem_of_cons in Hq as [->|Hq]; [|by eapply IH].
  rewrite winnings_of_with_result. case_bool_decide; lia.
Qed.

Lemma zero_band_winnings i band q : q ∈ zero_band i band → winnings_of q = 0%Z.
Proof. unfold zero_band. by intros (p & -> & _)%list_elem_of_fmap. Qed.

Lemma band_payout_close players pool multipliers i band q1 q2 :
  q1 ∈ band_payout players pool multipliers i band →
  q2 ∈ band_payout players pool multipliers i band →
  (Z.abs (winnings_of q1 - winnings_of q2) ≤ 1)%Z.
Proof.
  unfold band_payout, allocate_band. destruct (_ || _).
  - intros ?%zero_band_winnings ?%zero_band_winnings. lia.
  - case_bool_decide.
    + intros ?%zero_band_winnings ?%zero_band_winnings. lia.
    + intros ?%distribute_range ?%distribute_range. lia.
Qed.

(** C28: players with equal scores get the same rank, and their winnings
    differ by at most one gem (the band's rounding remainder goes to the
    earliest of them). *)
Theorem rankAndAllocateWinnings_ties players pool multipliers q1 q2 :
  q1 ∈ rankAndAllocateWinnings players pool multipliers →
  q2 ∈ rankAndAllocateWinnings players pool multipliers →
  score q1 = score q2 →
  q1.(MatchPlayer.rank) = q2.(MatchPlayer.rank) ∧
  (Z.abs (winnings_of q1 - winnings_of q2) ≤ 1)%Z.
Proof.
  intros H1 H2 Hs.
  destruct (result_elem _ _ _ _ H1) as (i1 & b1 & p1 & Hb1 & Hp1 & E1).
  destruct (result_elem _ _ _ _ H2) as (i2 & b2 & p2 & Hb2 & Hp2 & E2).
  assert (score p1 = score p2) as Hps by (rewrite E1, E2 in Hs; exact Hs).
  set (L := sort_desc players) in *.
  assert (i1 = i2) as <-.
  { rewrite (tie_bands_rank (length L) [] L 0 i1 b1 p1),
      (tie_bands_rank (length L) [] L 0 i2 b2 p2);
      [by rewrite Hps|apply sort_desc_sorted|done|set_solver|done|done
      |apply sort_desc_sorted|done|set_solver|done|done]. }
  assert (b1 = b2) as <- by (by eapply tie_bands_start_unique).
  split; [by rewrite E1, E2|].
  rewrite result_bands in H1, H2.
  apply elem_of_concat in H1 as (l1 & Hl1 & Hq1), H2 as (l2 & Hl2 & Hq2).
  apply list_elem_of_fmap in Hl1 as ([j1 c1] & -> & Hc1),
                           Hl2 as ([j2 c2] & -> & Hc2).
  simpl in Hq1, Hq2.
  (* each returned player lies in the payout of the band it was ranked in *)
  assert (∀ j c q, (j, c) ∈ tie_bands (length L) 0 L →
            q ∈ band_payout players pool multipliers j c →
            ∃ p, p ∈ c ∧ q = MatchPlayer.with_result p (S j) (winnings_of q)) as Hin.
  { intros j c q _ Hq. unfold band_payout in Hq. destruct (_ || _);
      [by apply (allocate_band_elem 0 [] j c q); right
      |eapply (allocate_band_elem _ _ j c q); left; exact Hq]. }
  destruct (Hin _ _ _ Hc1 Hq1) as (p1' & Hp1' & E1').
  destruct (Hin _ _ _ Hc2 Hq2) as (p2' & Hp2' & E2').
  apply (f_equal MatchPlayer.rank) in E1, E2, E1', E2'. simpl in E1, E2, E1', E2'.
  assert (j1 = i1) as -> by congruence.
  assert (j2 = i1) as -> by congruence.
  assert (c1 = b1) as -> by (by eapply tie_bands_start_unique).
  assert (c2 = b1) as -> by (by eapply tie_bands_start_unique).
  by eapply band_payout_close.
Qed.

(** ** Higher scores never earn less, when the multipliers decrease *)

Definition desc_Q (ms : list Q) : Prop := StronglySorted (λ a b, b <= a)%Q ms.
Definition desc_Z (l : list Z) : Prop := StronglySorted (λ a b, b ≤ a)%Z l.

Lemma StronglySorted_lookup {A} (R : A → A → Prop) l i j a b :
  StronglySorted R l → (i < j)%nat → l !! i = Some a → l !! j = Some b → R a b.
Proof.
  intros HS. revert i j. induction HS as [|x l HS IH Hx]; intros i j Hij Ha Hb; [done|].
  destruct i as [|i], j as [|j]; simpl in *; [lia| |lia|].
  - simplify_eq. eapply Forall_forall; [exact Hx|]. by eapply list_elem_of_lookup_2.
  - eapply IH; [|done|done]. lia.
Qed.

Lemma StronglySorted_fmap {A B} (R : A → A → Prop) (R' : B → B → Prop) (f : B → A) l :
  (∀ x y, R' x y → R (f x) (f y)) → StronglySorted R' l → StronglySorted R (f <$> l).
Proof.
  intros Hf. induction 1 as [|x l HS IH Hx]; simpl; constructor; [done|].
  apply Forall_fmap. eapply Forall_impl; [exact Hx|]. intros y. apply Hf.
Qed.

Lemma StronglySorted_take {A} (R : A → A → Prop) n l :
  StronglySorted R l → StronglySorted R (take n l).
Proof.
  revert l. induction n as [|n IH]; intros l HS; [constructor|].
  destruct HS as [|x l HS Hx]; simpl; constructor; [by apply IH|].
  apply Forall_forall. intros y (j & Hj & _)%elem_of_take.
  eapply Forall_forall; [exact Hx|]. by eapply list_elem_of_lookup_2.
Qed.

Lemma StronglySorted_replicate {A} (R : A → A → Prop) n x :
  R x x → StronglySorted R (replicate n x).
Proof.
  intros Hx. induction n as [|n IH]; simpl; constructor; [done|].
  by apply Forall_replicate.
Qed.

Lemma weights_desc ms n : desc_Q ms → desc_Q (weights ms n).
Proof.
  intros H. apply StronglySorted_fmap with (R' := (λ a b, b <= a)%Q);
    [|by apply StronglySorted_take].
  intros x y Hxy. by apply Q.max_le_compat_l.
Qed.

Lemma share_mono (pool : Z) (x y S : Q) :
  (0 ≤ pool)%Z → (0 < S)%Q → (y <= x)%Q →
  (inject_Z pool * y / S <= inject_Z pool * x / S)%Q.
Proof.
  intros Hp HS Hxy. unfold Qdiv. apply Qmult_le_compat_r.
  - rewrite !(Qmult_comm (inject_Z pool)). apply Qmult_le_compat_r; [done|].
    change 0%Q with (inject_Z 0). by rewrite <- Zle_Qle.
  - apply Qlt_le_weak, Qinv_lt_0_compat. done.
Qed.

Lemma add_to_first_desc x l : (0 ≤ x)%Z → desc_Z l → desc_Z (add_to_first x l).
Proof.
  intros Hx [|a l' Hl Ha]; simpl; [constructor|]. constructor; [done|].
  eapply Forall_impl; [exact Ha|]. simpl. lia.
Qed.

Lemma base_amounts_desc pool ws :
  (0 ≤ pool)%Z → desc_Q ws → desc_Z (base_amounts pool ws).
Proof.
  intros Hp Hd. unfold base_amounts. destruct (Qlt_le_dec _ _) as [HS|HS].
  - assert (desc_Z ((λ w, clampToNonNegativeInt (inject_Z pool * w / sumQ ws)%Q) <$> ws)) as Ha.
    { apply StronglySorted_fmap with (R' := (λ a b, b <= a)%Q); [|done].
      intros x y Hxy. unfold clampToNonNegativeInt.
      pose proof (Qfloor_resp_le _ _ (share_mono pool x y (sumQ ws) Hp HS Hxy)). lia. }
    case_bool_decide; [|done]. apply add_to_first_desc; [lia|done].
  - apply StronglySorted_replicate. simpl. lia.
Qed.

(** The allocation of 1-based place [r]: its base amount within the paid
    places, 0 beyond. *)
Definition place_amount (n : nat) (base : list Z) (r : nat) : Z :=
  if bool_decide (1 ≤ r ≤ n)%nat then base !!! (r - 1)%nat else 0%Z.

Lemma place_amount_nonneg n base r :
  Forall (λ a, 0 ≤ a)%Z base → (0 ≤ place_amount n base r)%Z.
Proof.
  intros Hb. unfold place_amount. case_bool_decide; [|lia].
  destruct (decide (r - 1 < length base))%nat.
  - apply Forall_lookup_total_1; [done|lia].
  - rewrite list_lookup_total_alt, lookup_ge_None_2 by lia. simpl. lia.
Qed.

Lemma place_amount_mono n base r1 r2 :
  length base = n → Forall (λ a, 0 ≤ a)%Z base → desc_Z base →
  (1 ≤ r1 ≤ r2)%nat → (place_amount n base r2 ≤ place_amount n base r1)%Z.
Proof.
  intros Hl Hb Hd Hr. pose proof (place_amount_nonneg n base r1 Hb).
  unfold place_amount at 1. case_bool_decide; [|lia].
  unfold place_amount. rewrite bool_decide_eq_true_2 by lia.
  destruct (decide (r1 = r2)) as [->|Hne]; [lia|].
  destruct (lookup_lt_is_Some_2 base (r1 - 1)) as [a Ha]; [lia|].
  destruct (lookup_lt_is_Some_2 base (r2 - 1)) as [b Hb'']; [lia|].
  rewrite !list_lookup_total_alt, Ha, Hb''. simpl.
  exact (StronglySorted_lookup (λ a b, b ≤ a)%Z base (r1 - 1) (r2 - 1) a b
           Hd ltac:(lia) Ha Hb'').
Qed.

Lemma groupTotal_bounds n base i k :
  length base = n → Forall (λ a, 0 ≤ a)%Z base → desc_Z base →
  (Z.of_nat k * place_amount n base (i + k) ≤ groupTotal n base i k ≤
   Z.of_nat k * place_amount n base (S i))%Z.
Proof.
  intros Hl Hb Hd. unfold groupTotal. fold (place_amount n base).
  pose proof (sumZ_bounds (place_amount n base) (seq (S i) k)
                (place_amount n base (i + k)) (place_amount n base (S i))) as Hs.
  rewrite length_seq in Hs. apply Hs. intros r Hr%elem_of_seq.
  split; apply place_amount_mono; done || lia.
Qed.

Lemma distribute_norem per rem r band q :
  (rem ≤ 0)%Z → q ∈ distribute per rem r band → winnings_of q = per.
Proof.
  intros Hr. revert rem Hr. induction band as [|p band IH]; intros rem Hr Hq; [set_solver|].
  cbn [distribute] in Hq. rewrite bool_decide_eq_false_2 in Hq by lia.
  apply elem_of_cons in Hq as [->|Hq]; [|by eapply IH].
  rewrite winnings_of_with_result. lia.
Qed.

(** Every winner of a band gets between the amount of its last place and
    the amount of its first place. *)
Lemma allocate_band_range n base i band q :
  length base = n → Forall (λ a, 0 ≤ a)%Z base → desc_Z base → band ≠ [] →
  q ∈ allocate_band n base i band →
  (place_amount n base (i + length band) ≤ winnings_of q ≤ place_amount n base (S i))%Z.
Proof.
  intros Hl Hb Hd Hne Hq.
  pose proof (groupTotal_bounds n base i (length band) Hl Hb Hd) as [Hlo Hhi].
  pose proof (place_amount_nonneg n base (i + length band) Hb).
  pose proof (place_amount_nonneg n base (S i) Hb).
  assert (0 < Z.of_nat (length band))%Z by (destruct band; simpl; [done|lia]).
  unfold allocate_band in Hq. case_bool_decide as Ht.
  - apply zero_band_winnings in Hq. rewrite Hq. nia.
  - set (T := groupTotal n base i (length band)) in *.
    set (k := Z.of_nat (length band)) in *.
    pose proof (Z.mod_pos_bound T k ltac:(lia)). pose proof (Z.div_mod T k ltac:(lia)).
    assert (T - T `div` k * k = T `mod` k)%Z as Hm' by (rewrite Z.mod_eq; lia).
    rewrite Hm' in Hq.
    assert (place_amount n base (i + length band) ≤ T `div` k)%Z
      by (apply Z.div_le_lower_bound; lia).
    assert (T `div` k ≤ place_amount n base (S i))%Z
      by (apply Z.div_le_upper_bound; lia).
    destruct (decide (T `mod` k = 0))%Z as [Hm|Hm].
    + rewrite (distribute_norem _ (T `mod` k) _ _ _ ltac:(lia) Hq). lia.
    + pose proof (distribute_range _ _ _ _ _ Hq).
      assert (T `div` k < place_amount n base (S i))%Z; [|lia].
      apply (Z.mul_lt_mono_pos_l k); [lia|]. lia.
Qed.

Lemma tie_bands_ordered fuel i L i1 b1 i2 b2 :
  (i1, b1) ∈ tie_bands fuel i L → (i2, b2) ∈ tie_bands fuel i L →
  (i1 < i2)%nat → (i1 + length b1 ≤ i2)%nat.
Proof.
  revert i L. induction fuel as [|f IH]; intros i L H1 H2 Hlt; [simpl in H1; set_solver|].
  destruct L as [|p0 l']; [simpl in H1; set_solver|]. cbn [tie_bands] in H1, H2.
  destruct (take_run (score p0) l') as [r rest].
  apply elem_of_cons in H1 as [[= -> ->]|H1], H2 as [[= -> ->]|H2];
    [lia| |apply tie_bands_start_ge in H1; lia|by eapply IH].
  apply tie_bands_start_ge in H2. simpl. lia.
Qed.

Lemma tie_bands_nonempty fuel i L j band :
  (j, band) ∈ tie_bands fuel i L → band ≠ [].
Proof.
  revert i L. induction fuel as [|f IH]; intros i L H; [simpl in H; set_solver|].
  destruct L as [|p0 l']; [simpl in H; set_solver|]. cbn [tie_bands] in H.
  destruct (take_run (score p0) l') as [r rest].
  apply elem_of_cons in H as [[= -> ->]|H]; [done|by eapply IH].
Qed.

(** A returned player lies in the payout of the band it was ranked in. *)
Lemma result_in_band players pool multipliers q :
  q ∈ rankAndAllocateWinnings players pool multipliers →
  ∃ i band p, (i, band) ∈ tie_bands (length (sort_desc players)) 0 (sort_desc players) ∧
    p ∈ band ∧ q = MatchPlayer.with_result p (S i) (winnings_of q) ∧
    q ∈ band_payout players pool multipliers i band.
Proof.
  rewrite result_bands. intros (l & Hl & Hq)%elem_of_concat.
  apply list_elem_of_fmap in Hl as ([i band] & -> & Hib). simpl in Hq.
  exists i, band.
  assert (∃ p, p ∈ band ∧ q = MatchPlayer.with_result p (S i) (winnings_of q))
    as (p & ? & ?); [|eauto 10].
  unfold band_payout in Hq. destruct (_ || _);
    [by apply (allocate_band_elem 0 [] i band q); right
    |eapply (allocate_band_elem _ _ i band q); left; exact Hq].
Qed.

Lemma filter_length_mono {A} (P1 P2 : A → Prop)
    `{∀ x, Decision (P1 x)} `{∀ x, Decision (P2 x)} (l : list A) :
  (∀ x, P1 x → P2 x) → (length (filter P1 l) ≤ length (filter P2 l))%nat.
Proof.
  intros Himp. induction l as [|x l IH]; [done|]. rewrite !filter_cons.
  repeat case_decide; simpl; try lia. exfalso; eauto.
Qed.

Lemma count_higher_lt (L : list P) (p1 p2 : P) :
  p1 ∈ L → (score p2 < score p1)%Z →
  (length (filter (λ x, score p1 < score x)%Z L) <
   length (filter (λ x, score p2 < score x)%Z L))%nat.
Proof.
  intros Hin Hlt. induction L as [|x L IH]; [set_solver|].
  pose proof (filter_length_mono (λ x, score p1 < score x)%Z (λ x, score p2 < score x)%Z L
                ltac:(intros; simpl in *; lia)).
  rewrite !filter_cons. apply elem_of_cons in Hin as [<-|Hin].
  - repeat case_decide; simpl; lia.
  - specialize (IH Hin). repeat case_decide; simpl; lia.
Qed.

(** C29: with non-increasing payout multipliers, a player with a strictly
    higher score never receives less than one with a lower score. *)
Theorem rankAndAllocateWinnings_monotone players pool multipliers q1 q2 :
  desc_Q multipliers →
  q1 ∈ rankAndAllocateWinnings players pool multipliers →
  q2 ∈ rankAndAllocateWinnings players pool multipliers →
  (score q2 < score q1)%Z → (winnings_of q2 ≤ winnings_of q1)%Z.
Proof.
  intros Hms H1 H2 Hs.
  destruct (result_in_band _ _ _ _ H1) as (i1 & b1 & p1 & Hb1 & Hp1 & E1 & Hq1).
  destruct (result_in_band _ _ _ _ H2) as (i2 & b2 & p2 & Hb2 & Hp2 & E2 & Hq2).
  assert (score p2 < score p1)%Z as Hps by (rewrite E1, E2 in Hs; exact Hs).
  set (L := sort_desc players) in *.
  assert (p1 ∈ L).
  { rewrite <- (tie_bands_concat (length L) 0 L) by done.
    apply elem_of_concat. exists b1. split; [|done].
    apply list_elem_of_fmap. by exists (i1, b1). }
  assert (i1 < i2)%nat as Hi.
  { rewrite (tie_bands_rank (length L) [] L 0 i1 b1 p1),
      (tie_bands_rank (length L) [] L 0 i2 b2 p2);
      [|apply sort_desc_sorted|done|set_solver|done|done
       |apply sort_desc_sorted|done|set_solver|done|done].
    by apply count_higher_lt. }
  pose proof (tie_bands_ordered _ _ _ _ _ _ _ Hb1 Hb2 Hi) as Hord.
  pose proof (tie_bands_nonempty _ _ _ _ _ Hb1) as Hne1.
  pose proof (tie_bands_nonempty _ _ _ _ _ Hb2) as Hne2.
  unfold band_payout in Hq1, Hq2. destruct (_ || _) eqn:Hz.
  - by rewrite (zero_band_winnings _ _ _ Hq1), (zero_band_winnings _ _ _ Hq2).
  - apply orb_false_iff in Hz as [Hp Hn]. apply bool_decide_eq_false in Hp, Hn.
    set (n := min (length L) (length multipliers)) in *.
    set (base := base_amounts pool (weights multipliers n)) in *.
    assert (length base = n) as Hl.
    { subst base. rewrite length_base_amounts. apply length_weights. lia. }
    assert (desc_Z base) as Hd.
    { apply base_amounts_desc; [lia|by apply weights_desc]. }
    pose proof (base_amounts_nonneg pool (weights multipliers n)) as Hb.
    pose proof (allocate_band_range n base i1 b1 q1 Hl Hb Hd Hne1 Hq1).
    pose proof (allocate_band_range n base i2 b2 q2 Hl Hb Hd Hne2 Hq2).
    assert (1 ≤ i1 + length b1)%nat by (destruct b1; simpl; [done|lia]).
    pose proof (place_amount_mono n base (i1 + length b1) (S i2) Hl Hb Hd ltac:(lia)).
    lia.
Qed.

(** ** Winnings are nonnegative *)

Lemma allocate_band_nonneg n base i band q :
  Forall (λ a, 0 ≤ a)%Z base → q ∈ allocate_band n base i band → (0 ≤ winnings_of q)%Z.
Proof.
  intros Hb Hq. unfold allocate_band in Hq. case_bool_decide as Ht.
  - apply zero_band_winnings in Hq. lia.
  - pose proof (distribute_range _ _ _ _ _ Hq) as [Hlo _].
    assert (0 < Z.of_nat (length band))%Z by (destruct band; [done|simpl; lia]).
    pose proof (Z.div_pos (groupTotal n base i (length band)) (Z.of_nat (length band)) ltac:(lia) ltac:(lia)).
    lia.
Qed.

Lemma rankAndAllocateWinnings_nonneg players pool ms q :
  q ∈ rankAndAllocateWinnings players pool ms → (0 ≤ winnings_of q)%Z.
Proof.
  intros Hq. destruct (result_in_band _ _ _ q Hq) as (i & band & p & _ & _ & _ & Hb).
  unfold band_payout in Hb. destruct (_ || _).
  - apply zero_band_winnings in Hb. lia.
  - eapply allocate_band_nonneg; [apply base_amounts_nonneg|exact Hb].
Qed.

(** ** Re-ranking the result

    The allocator looks at nothing but the ids' order and the scores of
    the sorted players: two inputs whose sorted (id, score) sequences
    agree get the same ranks and winnings.  Its own result is sorted, so
    ranking it again, after any change that keeps ids and scores, gives
    the same ranks and winnings. *)

Definition key (p : P) : string * Z := (MatchPlayer.id p, score p).
Definition res (p : P) : string * Z * option nat * option Z :=
  (MatchPlayer.id p, score p, MatchPlayer.rank p, MatchPlayer.winnings p).

Lemma key_cons a b l1 l2 :
  key <$> a :: l1 = key <$> b :: l2 → key a = key b ∧ key <$> l1 = key <$> l2.
Proof.
  intros Hk. split; [exact (f_equal (λ l, default (key a) (head l)) Hk)|exact (f_equal tail Hk)].
Qed.

Lemma key_score a b : key a = key b → score a = score b.
Proof. intros Hk. exact (f_equal snd Hk). Qed.

Lemma take_run_key s l1 l2 :
  key <$> l1 = key <$> l2 →
  key <$> (take_run s l1).1 = key <$> (take_run s l2).1 ∧
  key <$> (take_run s l1).2 = key <$> (take_run s l2).2.
Proof.
  revert l2. induction l1 as [|a l1 IH]; intros [|b l2] Hk; try discriminate Hk; [done|].
  pose proof Hk as Hk0. apply key_cons in Hk as [Hab Hk]. pose proof (key_score a b Hab) as Hs.
  cbn [take_run]. rewrite Hs. case_bool_decide; [|split; [done|exact Hk0]].
  destruct (IH l2 Hk) as [H1 H2].
  destruct (take_run s l1) as [r1 t1], (take_run s l2) as [r2 t2]. cbn [fst snd] in *.
  rewrite !fmap_cons. split; [by rewrite Hab, H1|done].
Qed.

Definition band_key (ib : nat * list P) : nat * list (string * Z) := (ib.1, key <$> ib.2).

Lemma tie_bands_key fuel i l1 l2 :
  key <$> l1 = key <$> l2 → band_key <$> tie_bands fuel i l1 = band_key <$> tie_bands fuel i l2.
Proof.
  revert i l1 l2. induction fuel as [|f IH]; intros i [|a l1] [|b l2] Hk;
    try discriminate Hk; [done|done|done|].
  apply key_cons in Hk as [Hab Hk]. pose proof (key_score a b Hab) as Hs.
  cbn [tie_bands]. rewrite Hs. destruct (take_run_key (score b) l1 l2 Hk) as [H1 H2].
  destruct (take_run (score b) l1) as [r1 t1], (take_run (score b) l2) as [r2 t2]. cbn [fst snd] in *.
  assert (length r1 = length r2) as Hl by (erewrite <- (length_fmap key r1), H1; apply length_fmap).
  rewrite !fmap_cons, (IH _ t1 t2 H2), Hl. f_equal. unfold band_key. cbn [fst snd].
  rewrite !fmap_cons. by rewrite Hab, H1.
Qed.

Lemma res_with_result p q r w : key p = key q → res (MatchPlayer.with_result p r w) = res (MatchPlayer.with_result q r w).
Proof. unfold key, res. simpl. congruence. Qed.

Lemma distribute_key per rem r b1 b2 :
  key <$> b1 = key <$> b2 → res <$> distribute per rem r b1 = res <$> distribute per rem r b2.
Proof.
  revert rem b2. induction b1 as [|a b1 IH]; intros rem [|b b2] Hk; try discriminate Hk; [done|].
  apply key_cons in Hk as [Hab Hk]. cbn [distribute]. rewrite !fmap_cons.
  erewrite res_with_result by exact Hab. by rewrite (IH _ b2 Hk).
Qed.

Lemma allocate_band_key n base i b1 b2 :
  key <$> b1 = key <$> b2 →
  res <$> allocate_band n base i b1 = res <$> allocate_band n base i b2 ∧
  res <$> zero_band i b1 = res <$> zero_band i b2.
Proof.
  intros Hk. assert (length b1 = length b2) as Hl by (erewrite <- (length_fmap key b1), Hk; apply length_fmap).
  assert (Hz : res <$> zero_band i b1 = res <$> zero_band i b2).
  { unfold zero_band. rewrite <- !list_fmap_compose. clear Hl. revert b2 Hk.
    induction b1 as [|a b1 IH]; intros [|b b2] Hk; try discriminate Hk; [done|].
    apply key_cons in Hk as [Hab Hk]. rewrite !fmap_cons. f_equal; [by apply res_with_result|by apply IH]. }
  split; [|done]. unfold allocate_band. rewrite Hl.
  case_bool_decide; [done|]. by apply distribute_key.
Qed.

Lemma concat_bands_key (g : nat → list P → list P) B1 B2 :
  (∀ i b1 b2, key <$> b1 = key <$> b2 → res <$> g i b1 = res <$> g i b2) →
  band_key <$> B1 = band_key <$> B2 →
  res <$> concat ((λ ib, g ib.1 ib.2) <$> B1) = res <$> concat ((λ ib, g ib.1 ib.2) <$> B2).
Proof.
  intros Hg. revert B2. induction B1 as [|[i b1] B1 IH]; intros [|[j b2] B2] HB; try discriminate HB; [done|].
  injection HB as Hi Hb HB. simpl in Hi, Hb. subst j.
  rewrite !fmap_cons. cbn [concat fst snd]. rewrite !fmap_app, (Hg i b1 b2 Hb). f_equal. by apply IH.
Qed.

(** The result depends only on the sorted ids and scores. *)
Lemma rankAndAllocateWinnings_key l1 l2 pool ms :
  key <$> sort_desc l1 = key <$> sort_desc l2 →
  res <$> rankAndAllocateWinnings l1 pool ms = res <$> rankAndAllocateWinnings l2 pool ms.
Proof.
  intros Hk. unfold rankAndAllocateWinnings. cbv zeta.
  assert (length (sort_desc l1) = length (sort_desc l2)) as Hl
    by (erewrite <- (length_fmap key (sort_desc l1)), Hk; apply length_fmap).
  rewrite Hl. pose proof (tie_bands_key (length (sort_desc l2)) 0 _ _ Hk) as HB.
  destruct (_ || _).
  - apply (concat_bands_key (λ i b, zero_band i b)); [|exact HB].
    intros i b1 b2 Hb. exact (proj2 (allocate_band_key 0 [] i b1 b2 Hb)).
  - apply (concat_bands_key (λ i b, allocate_band _ _ i b)); [|exact HB].
    intros i b1 b2 Hb. exact (proj1 (allocate_band_key _ _ i b1 b2 Hb)).
Qed.

Lemma sort_desc_sorted_id l : StronglySorted desc l → sort_desc l = l.
Proof.
  induction 1 as [|p l Hl IH Hp]; [done|]. simpl. rewrite IH.
  destruct l as [|q l]; [done|]. simpl.
  rewrite bool_decide_true; [done|]. by apply Forall_inv in Hp.
Qed.

Lemma sorted_key l1 l2 : key <$> l1 = key <$> l2 → StronglySorted desc l1 → StronglySorted desc l2.
Proof.
  revert l2. induction l1 as [|a l1 IH]; intros [|b l2] Hk HS; try discriminate Hk; [constructor|].
  apply key_cons in Hk as [Hab Hk]. pose proof (key_score a b Hab) as Hs.
  apply StronglySorted_inv in HS as [HS Ha]. constructor; [by apply IH|].
  apply Forall_forall. intros y Hy.
  assert (key y ∈ key <$> l1) as Hy' by (rewrite Hk; by apply list_elem_of_fmap_2).
  apply list_elem_of_fmap in Hy' as (x & Hxy & Hx).
  rewrite Forall_forall in Ha. specialize (Ha x Hx). unfold desc, key in *. congruence.
Qed.

Lemma key_strip p : key (strip p) = key p.
Proof. reflexivity. Qed.

(** Ranking the allocator's result again, after a change that keeps ids
    and scores, yields the same ids, scores, ranks and winnings. *)
Lemma rankAndAllocateWinnings_rerank (f : P → P) players pool ms :
  (∀ p, key (f p) = key p) →
  res <$> rankAndAllocateWinnings (f <$> rankAndAllocateWinnings players pool ms) pool ms =
  res <$> rankAndAllocateWinnings players pool ms.
Proof.
  intros Hf. set (R := rankAndAllocateWinnings players pool ms).
  assert (HkR : key <$> R = key <$> sort_desc players).
  { rewrite <- (list_fmap_ext (key ∘ strip) key R) by done.
    rewrite <- (list_fmap_ext (key ∘ strip) key (sort_desc players)) by done.
    rewrite !list_fmap_compose. f_equal. apply rankAndAllocateWinnings_strip. }
  assert (Hkf : key <$> (f <$> R) = key <$> R).
  { rewrite <- list_fmap_compose. apply list_fmap_ext. intros _ x _. apply Hf. }
  apply rankAndAllocateWinnings_key.
  rewrite sort_desc_sorted_id; [congruence|].
  apply (sorted_key (sort_desc players)); [congruence|apply sort_desc_sorted].
Qed.

(** ** Scenarios *)

(** A fresh player with a given id and final score. *)
Definition scored (pid : string) (s : Z) : P :=
  MatchPlayer.mk pid "" [] s None None 0 None true (Some 0%Z) None None.

Definition outcome (ps : list P) : list (string * option nat * Z) :=
  (λ p, (p.(MatchPlayer.id), p.(MatchPlayer.rank), winnings_of p)) <$> ps.

(** The spec's scenario: multipliers [3, 1.5, 0.5], pool 500, scores
    90, 90, 70, 50: the two 90s share rank 1 and the allocations of places
    1 and 2 (225 each), the 70 gets place 3's 50, the 50 gets nothing. *)
Example payout_spec_scenario :
  outcome (rankAndAllocateWinnings
             [scored "a" 90; scored "b" 90; scored "c" 70; scored "d" 50]
             500 [3; 3#2; 1#2]%Q)
  = [("a", Some 1%nat, 225%Z); ("b", Some 1%nat, 225%Z); ("c", Some 3%nat, 50%Z); ("d", Some 4%nat, 0%Z)].
Proof. vm_compute. reflexivity. Qed.

(** Tied players do not always receive identical winnings: with a pool
    of 501 the band of the two 90s holds 451 gems, and the first of them
    gets the odd gem. *)
Theorem payout_tie_unequal :
  ∃ q1 q2,
    q1 ∈ rankAndAllocateWinnings [scored "a" 90; scored "b" 90; scored "c" 70]
           501 [3; 3#2; 1#2]%Q ∧
    q2 ∈ rankAndAllocateWinnings [scored "a" 90; scored "b" 90; scored "c" 70]
           501 [3; 3#2; 1#2]%Q ∧
    score q1 = score q2 ∧ winnings_of q1 ≠ winnings_of q2.
Proof.
  set (r := rankAndAllocateWinnings _ _ _).
  vm_compute in r.
  eexists _, _. split_and!; [by left|by right; left|reflexivity|discriminate].
Qed.

(** With multipliers that increase ([1, 3]), the lower score earns
    more: the allocator follows the table, whatever its order. *)
Theorem payout_increasing_multipliers :
  ∃ q1 q2,
    q1 ∈ rankAndAllocateWinnings [scored "a" 90; scored "b" 70] 100 [1; 3]%Q ∧
    q2 ∈ rankAndAllocateWinnings [scored "a" 90; scored "b" 70] 100 [1; 3]%Q ∧
    (score q2 < score q1)%Z ∧ (winnings_of q1 < winnings_of q2)%Z.
Proof.
  set (r := rankAndAllocateWinnings _ _ _).
  vm_compute in r.
  eexists _, _. split_and!; [by left|by right; left|reflexivity|reflexivity].
Qed.

(** ** Witnesses *)

Definition demo_players : list P :=
  [scored "a" 90; scored "b" 90; scored "c" 70; scored "d" 50].
Definition demo_multipliers : list Q := [3; 3#2; 1#2]%Q.

Lemma demo_c_in :
  MatchPlayer.with_result (scored "c" 70) 3 50 ∈
  rankAndAllocateWinnings demo_players 500 demo_multipliers.
Proof. apply (bool_decide_eq_true_1 (_ ∈ _)). vm_compute. reflexivity. Qed.

Lemma demo_a_in :
  MatchPlayer.with_result (scored "a" 90) 1 225 ∈
  rankAndAllocateWinnings demo_players 500 demo_multipliers.
Proof. apply (bool_decide_eq_true_1 (_ ∈ _)). vm_compute. reflexivity. Qed.

Lemma demo_b_in :
  MatchPlayer.with_result (scored "b" 90) 1 225 ∈
  rankAndAllocateWinnings demo_players 500 demo_multipliers.
Proof. apply (bool_decide_eq_true_1 (_ ∈ _)). vm_compute. reflexivity. Qed.

Lemma demo_multipliers_desc : desc_Q demo_multipliers.
Proof.
  repeat constructor; unfold Qle; simpl; lia.
Qed.

Lemma rankAndAllocateWinnings_rank_witness :
  ∃ p, p ∈ demo_players ∧
    MatchPlayer.with_result (scored "c" 70) 3 50 =
    MatchPlayer.with_result p
      (S (length (filter (λ x, score p < score x)%Z demo_players)))
      (winnings_of (MatchPlayer.with_result (scored "c" 70) 3 50)).
Proof. exact (rankAndAllocateWinnings_rank _ _ _ _ demo_c_in). Defined.

Lemma rankAndAllocateWinnings_ties_witness :
  (MatchPlayer.with_result (scored "a" 90) 1 225).(MatchPlayer.rank) =
  (MatchPlayer.with_result (scored "b" 90) 1 225).(MatchPlayer.rank) ∧
  (Z.abs (winnings_of (MatchPlayer.with_result (scored "a" 90) 1 225) -
          winnings_of (MatchPlayer.with_result (scored "b" 90) 1 225)) ≤ 1)%Z.
Proof.
  exact (rankAndAllocateWinnings_ties _ _ _ _ _ demo_a_in demo_b_in eq_refl).
Defined.

Lemma rankAndAllocateWinnings_monotone_witness :
  (winnings_of (MatchPlayer.with_result (scored "c" 70) 3 50) ≤
   winnings_of (MatchPlayer.with_result (scored "a" 90) 1 225))%Z.
Proof.
  exact (rankAndAllocateWinnings_monotone _ _ _ _ _ demo_multipliers_desc
           demo_a_in demo_c_in ltac:(simpl; lia)).
Defined.

End Payout.
