(* ===== verification/JsString.v ===== *)
(** * JavaScript string built-ins used by the program

    Strings are sequences of code units; a Rocq [ascii] is one code unit
    in 0..255 (Latin-1).  [String.prototype.toUpperCase], [toLowerCase],
    [trim] and the
    test [/^[A-Z]+$/] are written out on that range:
    - toUpperCase maps a..z and the Latin-1 letters U+00E0..U+00FE (except
      U+00F7) down by 32 and U+00DF to "SS"; U+00B5 and U+00FF, whose upper
      case lies outside Latin-1, are left as they are (both before and after
      they fail [/^[A-Z]+$/] and match no board token, so nothing the
      program computes depends on it);
    - trim removes the ECMAScript white space and line terminators of the
      range: U+0009..U+000D, U+0020 and U+00A0. *)

From S2P Require Import Prelude.
From Stdlib Require Import Ascii String.

Module JsString.

Definition code (c : ascii) : nat := nat_of_ascii c.

(** The code units of a string. *)
Definition chars (s : string) : list ascii := list_ascii_of_string s.

Definition upper_char (c : ascii) : list ascii :=
  let n := code c in
  if bool_decide (97 ≤ n ≤ 122) then [ascii_of_nat (n - 32)]
  else if bool_decide (n = 223) then ["S"; "S"]%char
  else if bool_decide (224 ≤ n ≤ 254 ∧ n ≠ 247) then [ascii_of_nat (n - 32)]
  else [c].

(** [s.toUpperCase()] *)
Definition toUpperCase (s : list ascii) : list ascii := s ≫= upper_char.

Definition is_space (c : ascii) : bool :=
  bool_decide (9 ≤ code c ≤ 13 ∨ code c = 32 ∨ code c = 160).

Fixpoint trim_start (s : list ascii) : list ascii :=
  match s with
  | c :: s' => if is_space c then trim_start s' else s
  | [] => []
  end.

(** [s.trim()] *)
Definition trim (s : list ascii) : list ascii :=
  reverse (trim_start (reverse (trim_start s))).

Definition is_AZ (c : ascii) : bool := bool_decide (65 ≤ code c ≤ 90).

(** [/^[A-Z]+$/.test(s)] *)
Definition upper_alpha (s : list ascii) : bool :=
  bool_decide (s ≠ []) && forallb is_AZ s.

(** [String(w).trim().toUpperCase()] on a JS string. *)
Definition normalize (w : string) : list ascii :=
  toUpperCase (trim (chars w)).

Definition lower_char (c : ascii) : ascii :=
  let n := code c in
  if bool_decide (65 ≤ n ≤ 90 ∨ (192 ≤ n ≤ 222 ∧ n ≠ 215)) then ascii_of_nat (n + 32) else c.

(** [s.toLowerCase()]: A..Z and the Latin-1 capitals U+00C0..U+00DE
    (except U+00D7) move up by 32. *)
Definition toLowerCase (s : list ascii) : list ascii := lower_char <$> s.

(** A string built from code units. *)
Definition of_chars (l : list ascii) : string := string_of_list_ascii l.

Lemma chars_of_chars l : chars (of_chars l) = l.
Proof. apply list_ascii_of_string_of_list_ascii. Qed.

Lemma toUpperCase_AZ s : forallb is_AZ s = true → toUpperCase s = s.
Proof.
  induction s as [|c s IH]; [done|]. simpl. intros [Hc Hs]%andb_true_iff.
  rewrite IH by done. unfold is_AZ in Hc. apply bool_decide_eq_true in Hc.
  unfold upper_char. rewrite !bool_decide_eq_false_2 by (unfold code in *; lia).
  done.
Qed.

Lemma upper_char_upper c : toUpperCase (upper_char c) = upper_char c.
Proof. destruct c as [[] [] [] [] [] [] [] []]; vm_compute; reflexivity. Qed.

Lemma toUpperCase_app s t : toUpperCase (s ++ t) = toUpperCase s ++ toUpperCase t.
Proof. apply bind_app. Qed.

(** Upper-casing twice is upper-casing once. *)
Lemma toUpperCase_idem s : toUpperCase (toUpperCase s) = toUpperCase s.
Proof.
  induction s as [|c s IH]; [done|]. change (toUpperCase (c :: s)) with (upper_char c ++ toUpperCase s).
  by rewrite toUpperCase_app, IH, upper_char_upper.
Qed.

End JsString.
