(* ===== verification/JsDate.v ===== *)
(** * JavaScript dates: [toISOString] and the parse of its output

    The program keeps every instant of a match as the string
    [new Date(ms).toISOString()] (join, deadline, submission, end and
    payout times of matches.ts) and reads it back with
    [new Date(s).getTime()] (the deadline of matches.ts lines 430-432 and
    server.ts, and [new Date(match.createdAt)] of [saveCompletedMatch]).
    The other files keep these instants as milliseconds; this file shows
    that nothing is lost: on every time value of years 0 to 9999 the
    parse of the printed string gives the time value back
    ([parse_toISOString]), so the deadline the words handler computes
    from a stored player's strings is the deadline of the millisecond
    model ([deadline_refines]).

    The parse side uses ECMAScript's own [MakeDay] (DayFromYear and the
    month table); the print side (YearFromTime, MonthFromTime,
    DateFromTime) the era-based conversion [civil_from_days].  They agree
    on one 400-year era by evaluation ([civil_ok_era], 146097 days) and on
    every era because both calendars repeat every 400 years
    ([civil_from_days_spec]).  [Date.parse] is modelled on the full UTC
    form [YYYY-MM-DDTHH:mm:ss.sssZ] only, the one form the program
    stores. *)

From S2P Require Import Prelude Model.
From Stdlib Require Import Ascii String.

Module JsDate.

Local Open Scope Z_scope.

Definition msPerDay : Z := 86400000.

(** ** ECMAScript's calendar (ECMA-262 21.4.1) *)

(** [DayFromYear(y)] *)
Definition dayFromYear (y : Z) : Z :=
  365 * (y - 1970) + (y - 1969) / 4 - (y - 1901) / 100 + (y - 1601) / 400.

Definition inLeapYear (y : Z) : bool :=
  (y mod 4 =? 0) && (negb (y mod 100 =? 0) || (y mod 400 =? 0)).

(** Days before the first of month [m] (1-based) of a year. *)
Definition daysBeforeMonth (leap : bool) (m : Z) : Z :=
  let l := if leap then 1 else 0 in
  match m with
  | 1 => 0 | 2 => 31 | 3 => 59 + l | 4 => 90 + l | 5 => 120 + l | 6 => 151 + l
  | 7 => 181 + l | 8 => 212 + l | 9 => 243 + l | 10 => 273 + l | 11 => 304 + l
  | _ => 334 + l
  end.

Definition daysInMonth (y m : Z) : Z :=
  match m with
  | 2 => if inLeapYear y then 29 else 28
  | 4 | 6 | 9 | 11 => 30
  | _ => 31
  end.

(** [MakeDay(year, month - 1, date)] for a month in 1..12. *)
Definition makeDay (y m d : Z) : Z := dayFromYear y + daysBeforeMonth (inLeapYear y) m + d - 1.

(** [MakeTime(h, min, s, ms)] *)
Definition makeTime (h mi s ms : Z) : Z := h * 3600000 + mi * 60000 + s * 1000 + ms.

(** ** The print side: [YearFromTime], [MonthFromTime], [DateFromTime] *)

(** The day number [z] (days since 1970-01-01) as (year, month, day),
    through the 400-year era containing it. *)
Definition civil_from_days (z : Z) : Z * Z * Z :=
  let z := z + 719468 in
  let era := z / 146097 in
  let doe := z - era * 146097 in
  let yoe := (doe - doe / 1460 + doe / 36524 - doe / 146096) / 365 in
  let doy := doe - (365 * yoe + yoe / 4 - yoe / 100) in
  let mp := (5 * doy + 2) / 153 in
  let d := doy - (153 * mp + 2) / 5 + 1 in
  let m := if mp <? 10 then mp + 3 else mp - 9 in
  (yoe + era * 400 + (if m <=? 2 then 1 else 0), m, d).

(** ** Digits *)

Definition digit (n : Z) : ascii := ascii_of_nat (48 + Z.to_nat n).

(** [n] in decimal on exactly [w] digits, with leading zeros. *)
Fixpoint pad (w : nat) (n : Z) : list ascii :=
  match w with
  | O => []
  | S w' => pad w' (n / 10) ++ [digit (n mod 10)]
  end.

Definition digit_val (c : ascii) : option Z :=
  let k := nat_of_ascii c in
  if bool_decide (48 ≤ k ≤ 57)%nat then Some (Z.of_nat k - 48) else None.

(** The value of a run of decimal digits. *)
Fixpoint digits_val (acc : Z) (l : list ascii) : option Z :=
  match l with
  | [] => Some acc
  | c :: l' => d ← digit_val c; digits_val (10 * acc + d) l'
  end.

(** ** [Date.prototype.toISOString] *)

(** [YYYY-MM-DDTHH:mm:ss.sssZ]; years outside 0..9999 take the expanded
    form with a sign and six digits. *)
Definition toISOString_chars (t : Z) : list ascii :=
  let '(y, m, d) := civil_from_days (t / msPerDay) in
  let r := t mod msPerDay in
  let year := if (0 <=? y) && (y <=? 9999) then pad 4 y
              else (if y <? 0 then "-"%char else "+"%char) :: pad 6 (Z.abs y) in
  year ++ ["-"%char] ++ pad 2 m ++ ["-"%char] ++ pad 2 d ++ ["T"%char] ++
  pad 2 (r / 3600000) ++ [":"%char] ++ pad 2 (r / 60000 mod 60) ++ [":"%char] ++
  pad 2 (r / 1000 mod 60) ++ ["."%char] ++ pad 3 (r mod 1000) ++ ["Z"%char].

Definition toISOString (t : Z) : string := string_of_list_ascii (toISOString_chars t).

(** ** [Date.parse] on the form [toISOString] writes *)

(** The fields of [YYYY-MM-DDTHH:mm:ss.sssZ], when the separators are in
    place and every other character is a digit. *)
Definition iso_fields (s : list ascii) : option (Z * Z * Z * Z * Z * Z * Z) :=
  match s with
  | [y1; y2; y3; y4; "-"; m1; m2; "-"; d1; d2; "T"; h1; h2; ":"; i1; i2; ":";
     s1; s2; "."; f1; f2; f3; "Z"]%char =>
      y ← digits_val 0 [y1; y2; y3; y4]; m ← digits_val 0 [m1; m2]; d ← digits_val 0 [d1; d2];
      h ← digits_val 0 [h1; h2]; mi ← digits_val 0 [i1; i2]; sec ← digits_val 0 [s1; s2];
      ms ← digits_val 0 [f1; f2; f3];
      Some (y, m, d, h, mi, sec, ms)
  | _ => None
  end.

(** The time value of a date-time string, or [None] for NaN: a field out
    of its range makes the string invalid; [24:00:00.000] is the end of
    the day (ECMA-262 21.4.1.32). *)
Definition parse_chars (s : list ascii) : option Z :=
  '(y, m, d, h, mi, sec, ms) ← iso_fields s;
  if (1 <=? m) && (m <=? 12) && (1 <=? d) && (d <=? daysInMonth y m) &&
     (mi <=? 59) && (sec <=? 59) &&
     ((h <=? 23) || ((h =? 24) && (mi =? 0) && (sec =? 0) && (ms =? 0)))
  then Some (makeDay y m d * msPerDay + makeTime h mi sec ms)
  else None.

(** [new Date(s).getTime()] *)
Definition parse (s : string) : option Z := parse_chars (list_ascii_of_string s).

(** ** Checking a property on an interval by evaluation *)

Fixpoint all_from (f : Z → bool) (z : Z) (n : nat) : bool :=
  match n with
  | O => true
  | S k => f z && all_from f (z + 1) k
  end.

Lemma all_from_spec f z n j : all_from f z n = true → z ≤ j < z + Z.of_nat n → f j = true.
Proof.
  revert z. induction n as [|n IH]; simpl; intros z Hall Hj; [lia|].
  apply andb_true_iff in Hall as [Hf Hall].
  destruct (decide (j = z)) as [->|Hne]; [done|]. apply (IH (z + 1)); [done|lia].
Qed.

(** The same on an interval of [c] values given as an integer. *)
Lemma all_from_range f z c j : all_from f z (Z.to_nat c) = true → z ≤ j < z + c → f j = true.
Proof. intros Hall Hj. apply (all_from_spec f z (Z.to_nat c)); [done|lia]. Qed.

(** ** The calendar is periodic with 400 years of 146097 days *)

Lemma dayFromYear_shift y k : dayFromYear (y + 400 * k) = dayFromYear y + 146097 * k.
Proof.
  unfold dayFromYear.
  replace (y + 400 * k - 1969) with ((y - 1969) + k * 100 * 4) by lia.
  replace (y + 400 * k - 1901) with ((y - 1901) + k * 4 * 100) by lia.
  replace (y + 400 * k - 1601) with ((y - 1601) + k * 400) by lia.
  rewrite !Z.div_add by lia. lia.
Qed.

Lemma inLeapYear_shift y k : inLeapYear (y + 400 * k) = inLeapYear y.
Proof.
  unfold inLeapYear.
  replace (y + 400 * k) with (y + (k * 100) * 4) at 1 by lia.
  rewrite Z_mod_plus_full.
  replace (y + 400 * k) with (y + (k * 4) * 100) at 1 by lia.
  rewrite Z_mod_plus_full.
  replace (y + 400 * k) with (y + k * 400) by lia. by rewrite Z_mod_plus_full.
Qed.

Lemma makeDay_shift y m d k : makeDay (y + 400 * k) m d = makeDay y m d + 146097 * k.
Proof. unfold makeDay. rewrite dayFromYear_shift, inLeapYear_shift. lia. Qed.

Lemma daysInMonth_shift y m k : daysInMonth (y + 400 * k) m = daysInMonth y m.
Proof. unfold daysInMonth. by rewrite inLeapYear_shift. Qed.

Lemma civil_from_days_shift z k :
  civil_from_days (z + 146097 * k) =
  let '(y, m, d) := civil_from_days z in (y + 400 * k, m, d).
Proof.
  unfold civil_from_days.
  replace (z + 146097 * k + 719468) with ((z + 719468) + k * 146097) by lia.
  rewrite Z.div_add by lia.
  replace (z + 719468 + k * 146097 - ((z + 719468) / 146097 + k) * 146097)
    with (z + 719468 - (z + 719468) / 146097 * 146097) by lia.
  f_equal. f_equal. lia.
Qed.

(** ** The two calendars agree *)

Definition civil_ok (z : Z) : bool :=
  let '(y, m, d) := civil_from_days z in
  (makeDay y m d =? z) && (1 <=? m) && (m <=? 12) && (1 <=? d) && (d <=? daysInMonth y m) &&
  (dayFromYear y <=? z) && (z <? dayFromYear (y + 1)).

Lemma civil_ok_era : all_from civil_ok (-719468) (Z.to_nat 146097) = true.
Proof. vm_compute. reflexivity. Qed.

Lemma civil_ok_spec z : civil_ok z = true →
  let '(y, m, d) := civil_from_days z in
  makeDay y m d = z ∧ 1 ≤ m ≤ 12 ∧ 1 ≤ d ≤ daysInMonth y m ∧
  dayFromYear y ≤ z < dayFromYear (y + 1).
Proof.
  unfold civil_ok. destruct (civil_from_days z) as [[y m] d].
  rewrite !andb_true_iff, !Z.eqb_eq, !Z.leb_le, !Z.ltb_lt. lia.
Qed.

(** [civil_from_days] inverts [MakeDay]: it gives a valid date of the
    year whose days contain [z], and [MakeDay] of that date is [z]. *)
Lemma civil_from_days_spec z :
  let '(y, m, d) := civil_from_days z in
  makeDay y m d = z ∧ 1 ≤ m ≤ 12 ∧ 1 ≤ d ≤ daysInMonth y m ∧
  dayFromYear y ≤ z < dayFromYear (y + 1).
Proof.
  assert (Hz0 : -719468 ≤ z - 146097 * ((z + 719468) / 146097) < -719468 + 146097)
    by (zdivmod (z + 719468) 146097; lia).
  pose proof (civil_ok_spec _ (all_from_range _ _ _ _ civil_ok_era Hz0)) as Hok.
  revert Hok. generalize ((z + 719468) / 146097) as k. intros k Hok.
  replace (civil_from_days z) with (civil_from_days ((z - 146097 * k) + 146097 * k)) by (f_equal; lia).
  rewrite civil_from_days_shift.
  destruct (civil_from_days (z - 146097 * k)) as [[y m] d].
  rewrite makeDay_shift, daysInMonth_shift, dayFromYear_shift.
  replace (y + 400 * k + 1) with ((y + 1) + 400 * k) by lia. rewrite dayFromYear_shift. lia.
Qed.

(** ** Digits *)

Lemma digit_val_digit k : 0 ≤ k < 10 → digit_val (digit k) = Some k.
Proof.
  intros Hk. unfold digit_val, digit. rewrite nat_ascii_embedding by lia.
  rewrite bool_decide_true by lia. f_equal. lia.
Qed.

Lemma digits_val_app acc l1 l2 :
  digits_val acc (l1 ++ l2) = digits_val acc l1 ≫= λ a, digits_val a l2.
Proof.
  revert acc. induction l1 as [|c l1 IH]; intros acc; [done|]. simpl.
  destruct (digit_val c); [apply IH|done].
Qed.

Lemma digits_val_pad w n acc :
  0 ≤ n < 10 ^ Z.of_nat w → digits_val acc (pad w n) = Some (acc * 10 ^ Z.of_nat w + n).
Proof.
  revert n acc. induction w as [|w IH]; intros n acc Hn.
  - cbn [pad digits_val]. change (10 ^ Z.of_nat 0) with 1 in *. f_equal. lia.
  - cbn [pad]. rewrite Nat2Z.inj_succ, Z.pow_succ_r in * by lia.
    remember (10 ^ Z.of_nat w) as P eqn:HP. assert (0 < P) by (subst P; apply Z.pow_pos_nonneg; lia).
    zdivmod n 10.
    rewrite digits_val_app, (IH (n / 10)) by (split; [apply Z.div_pos; lia|apply Z.div_lt_upper_bound; lia]).
    cbn [mbind option_bind digits_val]. rewrite digit_val_digit by lia. cbn [mbind option_bind].
    f_equal. clear -H0. nia.
Qed.

Lemma dayFromYear_mono y1 y2 : y1 ≤ y2 → dayFromYear y1 ≤ dayFromYear y2.
Proof.
  intros Hy. unfold dayFromYear.
  assert ((y1 - 1969) / 4 ≤ (y2 - 1969) / 4) by (apply Z.div_le_mono; lia).
  assert ((y1 - 1601) / 400 ≤ (y2 - 1601) / 400) by (apply Z.div_le_mono; lia).
  assert (100 * ((y2 - 1901) / 100 - (y1 - 1901) / 100) ≤ y2 - y1 + 99)
    by (zdivmod (y1 - 1901) 100; zdivmod (y2 - 1901) 100; lia).
  lia.
Qed.

(** The instants [toISOString] writes with a four-digit year: from the
    start of year 0 ([dayFromYear 0 * msPerDay]) to the end of year 9999
    ([dayFromYear 10000 * msPerDay]). *)
Definition four_digit_year (t : Z) : Prop := -62167219200000 ≤ t < 253402300800000.

Lemma toISOString_year t :
  four_digit_year t → let '(y, _, _) := civil_from_days (t / msPerDay) in 0 ≤ y ≤ 9999.
Proof.
  unfold four_digit_year, msPerDay. intros Ht. pose proof (civil_from_days_spec (t / 86400000)) as Hs.
  destruct (civil_from_days (t / 86400000)) as [[y m] d]. destruct Hs as (_ & _ & _ & Hlo & Hhi).
  zdivmod t 86400000. split.
  - destruct (decide (0 ≤ y)); [done|]. pose proof (dayFromYear_mono (y + 1) 0 ltac:(lia)).
    assert (dayFromYear 0 = -719528) by reflexivity. lia.
  - destruct (decide (y ≤ 9999)); [done|]. pose proof (dayFromYear_mono 10000 y ltac:(lia)).
    assert (dayFromYear 10000 = 2932897) by reflexivity. lia.
Qed.

Lemma digits_val0_pad w n : 0 ≤ n < 10 ^ Z.of_nat w → digits_val 0 (pad w n) = Some n.
Proof. intros Hn. by rewrite digits_val_pad. Qed.

(** The fields of a printed date-time are read back. *)
Lemma iso_fields_print y m d h mi sec ms :
  0 ≤ y < 10000 → 0 ≤ m < 100 → 0 ≤ d < 100 → 0 ≤ h < 100 → 0 ≤ mi < 100 → 0 ≤ sec < 100 →
  0 ≤ ms < 1000 →
  iso_fields (pad 4 y ++ ["-"%char] ++ pad 2 m ++ ["-"%char] ++ pad 2 d ++ ["T"%char] ++
              pad 2 h ++ [":"%char] ++ pad 2 mi ++ [":"%char] ++ pad 2 sec ++ ["."%char] ++
              pad 3 ms ++ ["Z"%char]) = Some (y, m, d, h, mi, sec, ms).
Proof.
  intros Hy Hm Hd Hh Hmi Hs Hms.
  pose proof (digits_val0_pad 4 y Hy) as Ey. pose proof (digits_val0_pad 2 m Hm) as Em.
  pose proof (digits_val0_pad 2 d Hd) as Ed. pose proof (digits_val0_pad 2 h Hh) as Eh.
  pose proof (digits_val0_pad 2 mi Hmi) as Emi. pose proof (digits_val0_pad 2 sec Hs) as Es.
  pose proof (digits_val0_pad 3 ms Hms) as Ems.
  cbn [pad app] in *. unfold iso_fields. cbn -[digits_val].
  by rewrite Ey, Em, Ed, Eh, Emi, Es, Ems.
Qed.

(** The time of day is the sum of its printed fields. *)
Lemma makeTime_split r :
  0 ≤ r < msPerDay →
  makeTime (r / 3600000) (r / 60000 mod 60) (r / 1000 mod 60) (r mod 1000) = r ∧
  r / 3600000 ≤ 23 ∧ 0 ≤ r / 3600000.
Proof.
  unfold makeTime, msPerDay. intros Hr.
  replace (r / 3600000) with (r / 1000 / 60 / 60) by (rewrite !Z.div_div by lia; reflexivity).
  replace (r / 60000) with (r / 1000 / 60) by (rewrite !Z.div_div by lia; reflexivity).
  zdivmod r 1000. zdivmod (r / 1000) 60. zdivmod (r / 1000 / 60) 60. lia.
Qed.

Lemma iso_roundtrip t : four_digit_year t → parse (toISOString t) = Some t.
Proof.
  intros Ht. pose proof (toISOString_year t Ht) as Hy.
  unfold parse, toISOString. rewrite list_ascii_of_string_of_list_ascii.
  unfold toISOString_chars. pose proof (civil_from_days_spec (t / msPerDay)) as Hs.
  destruct (civil_from_days (t / msPerDay)) as [[y m] d].
  destruct Hs as (Hmd & Hm & Hd & _).
  assert (Hdim : daysInMonth y m ≤ 31) by (unfold daysInMonth; repeat case_match; lia).
  assert (Hr : 0 ≤ t mod msPerDay < msPerDay) by (apply Z.mod_pos_bound; done).
  destruct (makeTime_split _ Hr) as (Ht' & Hh & Hh0).
  rewrite (proj2 (andb_true_iff _ _) (conj (proj2 (Z.leb_le _ _) (proj1 Hy)) (proj2 (Z.leb_le _ _) (proj2 Hy)))).
  pose proof (Z.mod_pos_bound (t mod msPerDay / 60000) 60 ltac:(lia)).
  pose proof (Z.mod_pos_bound (t mod msPerDay / 1000) 60 ltac:(lia)).
  pose proof (Z.mod_pos_bound (t mod msPerDay) 1000 ltac:(lia)).
  unfold parse_chars. rewrite iso_fields_print by lia.
  cbn [mbind option_bind].
  replace ((1 <=? m) && (m <=? 12) && (1 <=? d) && (d <=? daysInMonth y m) && (t mod msPerDay / 60000 mod 60 <=? 59)
           && (t mod msPerDay / 1000 mod 60 <=? 59)) with true.
  2: { symmetry. rewrite !andb_true_iff, !Z.leb_le. pose proof (Z.mod_pos_bound (t mod msPerDay / 60000) 60).
       pose proof (Z.mod_pos_bound (t mod msPerDay / 1000) 60). lia. }
  rewrite (proj2 (Z.leb_le _ _) Hh). simpl. f_equal. rewrite Hmd, Ht'.
  unfold msPerDay. zdivmod t 86400000. lia.
Qed.

(** The parse of [toISOString t] is [t], for every instant of years 0
    to 9999: storing an instant as its ISO string and reading it back with
    [new Date(s).getTime()] loses nothing. *)
Theorem parse_toISOString t : four_digit_year t → parse (toISOString t) = Some t.
Proof. apply iso_roundtrip. Qed.

(** ** The deadline read from the stored strings *)

(** [player.deadlineAt ? new Date(player.deadlineAt).getTime()
      : new Date(player.joinedAt).getTime() + match.gameDuration * 1000]
    (matches.ts lines 430-432) on the strings a stored player holds; NaN
    is [None]. *)
Definition deadlineAtMs_stored (gameDuration : Z) (deadlineAt : option string) (joinedAt : string) : option Z :=
  let fromJoin := (λ j, j + gameDuration * 1000) <$> parse joinedAt in
  match deadlineAt with
  | Some s => if bool_decide (s = ""%string) then fromJoin else parse s
  | None => fromJoin
  end.

Lemma toISOString_nonempty t : toISOString t ≠ ""%string.
Proof.
  unfold toISOString, toISOString_chars. destruct (civil_from_days (t / msPerDay)) as [[y m] d].
  intros H. apply (f_equal (λ s, List.length (list_ascii_of_string s))) in H.
  rewrite list_ascii_of_string_of_list_ascii in H. simpl in H. rewrite length_app in H. simpl in H. lia.
Qed.

(** The deadline the words handler reads from a stored player — its
    ISO strings parsed back — is the deadline [deadline_ms] of the player
    the development keeps in milliseconds. *)
Theorem deadline_refines (gameDuration : Z) (p : MatchPlayer.t) :
  four_digit_year (MatchPlayer.joinedAt p) →
  (∀ d, MatchPlayer.deadlineAt p = Some d → four_digit_year d) →
  deadlineAtMs_stored gameDuration (toISOString <$> MatchPlayer.deadlineAt p) (toISOString (MatchPlayer.joinedAt p))
  = Some (deadline_ms gameDuration p).
Proof.
  intros Hj Hd. unfold deadlineAtMs_stored, deadline_ms.
  destruct (MatchPlayer.deadlineAt p) as [d|]; simpl.
  - rewrite bool_decide_false by apply toISOString_nonempty. by apply iso_roundtrip, Hd.
  - by rewrite iso_roundtrip.
Qed.

Lemma parse_toISOString_witness :
  four_digit_year 1700000000000 ∧ parse (toISOString 1700000000000) = Some 1700000000000.
Proof.
  assert (H : four_digit_year 1700000000000) by (unfold four_digit_year; lia).
  split; [exact H|exact (parse_toISOString 1700000000000 H)].
Defined.

Lemma deadline_refines_witness :
  let p := MatchPlayer.mk "alice" "Alice" [] 0 None None 1700000000000 (Some 1700000120000) true None None None in
  deadlineAtMs_stored 120 (toISOString <$> MatchPlayer.deadlineAt p) (toISOString (MatchPlayer.joinedAt p))
  = Some 1700000120000.
Proof.
  exact (deadline_refines 120 (MatchPlayer.mk "alice" "Alice" [] 0 None None 1700000000000 (Some 1700000120000)
                                 true None None None)
           ltac:(unfold four_digit_year; simpl; lia)
           ltac:(intros d Hd; injection Hd as <-; unfold four_digit_year; lia)).
Defined.

End JsDate.
