(* ===== verification/Json.v ===== *)
(** * JSON text and the history filter of GET /users/matches

    GET /users/matches (users.ts lines 177-222) selects the history rows
    of a user with a text search on the stored players:
    [players: { string_contains: `"id":"${user.id}"` }].  The pattern is
    written for the compact text [JSON.stringify] gives [rankedPlayers]
    (matches.ts line 80); the column keeps a jsonb value instead, whose
    text is in [Jsonb].  This file models the JSON values and the compact
    text:

    - JSON values [json] with [JSON.stringify] ([stringify]) as the
      rendering of their tokens ([tokens], [render_tok]); strings are
      escaped as QuoteJSONString does ([esc_char]), integers printed in
      decimal ([number]);
    - the objects a [MatchPlayer] is written as ([playerJson]), with the
      keys in the order the program creates them;
    - the lexing argument: in the text of well-formed tokens
      ([tokens_ok]), the pattern ["k":"u"] of a plain key and a plain value
      occurs exactly where the tokens hold the member [k: u]
      ([lex_member]); on a JSON value, exactly where one of its objects has
      the member ([member_in_stringify]).

    A character is plain when [JSON.stringify] writes it as it is: not a
    quote, not a backslash, not a control character.  Strings are lists
    of code units below 256 (Latin-1), as in [JsString]. *)

From S2P Require Import Prelude Model JsString JsDate.
From Stdlib Require Import Ascii String Decimal DecimalPos.

Module Json.

(** ** Occurrences of a list in a list *)

Section Infix.
Context {A : Type}.
Implicit Types (p l a b : list A).

(** [p] occurs in [l] ([String.prototype.includes]). *)
Definition infix p l : Prop := ∃ a b, l = a ++ p ++ b.

Lemma infix_app_inv p a b :
  infix p (a ++ b) → infix p b ∨ ∃ a1 a2, a = a1 ++ a2 ∧ a2 ≠ [] ∧ p `prefix_of` a2 ++ b.
Proof.
  intros (k1 & k2 & E). destruct (app_eq_app _ _ _ _ E) as (k & [[-> E2] | [-> E2]]).
  - destruct k as [|x k]; [left; exists [], k2; by rewrite E2|].
    right. exists k1, (x :: k). split_and!; [done|done|]. exists k2. by rewrite E2.
  - left. by exists k, k2.
Qed.

Lemma infix_cons_r p x l : infix p l → infix p (x :: l).
Proof. intros (a & b & ->). by exists (x :: a), b. Qed.

Lemma infix_app_r p a b : infix p b → infix p (a ++ b).
Proof. intros (a' & b' & ->). exists (a ++ a'), b'. by rewrite app_assoc. Qed.

Lemma infix_prefix p l : p `prefix_of` l → infix p l.
Proof. intros [b ->]. by exists [], b. Qed.

Lemma infix_cons_inv p x l : infix p (x :: l) → p `prefix_of` x :: l ∨ infix p l.
Proof.
  intros ([|y a] & b & E); [left; exists b; done|].
  right. injection E as -> ->. by exists a, b.
Qed.

End Infix.

(** [text.includes(pat)], executable. *)
Fixpoint contains `{EqDecision A} (text pat : list A) : bool :=
  bool_decide (pat `prefix_of` text) ||
  match text with [] => false | _ :: text' => contains text' pat end.

Lemma contains_spec `{EqDecision A} (text pat : list A) : contains text pat = true ↔ infix pat text.
Proof.
  induction text as [|x text IH]; simpl; rewrite orb_true_iff, bool_decide_eq_true.
  - split; [intros [H|H]; [by apply infix_prefix|done]|].
    intros ([|? ?] & b & E); [left; by exists b|done].
  - rewrite IH. split; [intros [H|H]; [by apply infix_prefix|by apply infix_cons_r]|].
    apply infix_cons_inv.
Qed.

(** ** Characters *)

Definition quote : ascii := "034"%char.
Definition bslash : ascii := "092"%char.

Definition hexDigit (n : nat) : ascii := ascii_of_nat (if n <? 10 then 48 + n else 87 + n).

(** The control characters below U+0020 (ECMA-262 QuoteJSONString, the
    table of JSON single character escapes, then [\u00XX]). *)
Definition esc_control (n : nat) : list ascii :=
  match n with
  | 8 => [bslash; "b"%char]
  | 9 => [bslash; "t"%char]
  | 10 => [bslash; "n"%char]
  | 12 => [bslash; "f"%char]
  | 13 => [bslash; "r"%char]
  | _ => [bslash; "u"%char; "0"%char; "0"%char; hexDigit (n / 16); hexDigit (n mod 16)]
  end.

Definition esc_char (c : ascii) : list ascii :=
  if decide (c = quote) then [bslash; quote]
  else if decide (c = bslash) then [bslash; bslash]
  else if nat_of_ascii c <? 32 then esc_control (nat_of_ascii c)
  else [c].

(** The body of QuoteJSONString. *)
Definition escape (s : list ascii) : list ascii := s ≫= esc_char.

Lemma escape_cons c s : escape (c :: s) = esc_char c ++ escape s.
Proof. reflexivity. Qed.

Definition plain_char (c : ascii) : Prop := c ≠ quote ∧ c ≠ bslash ∧ 32 ≤ nat_of_ascii c.

Definition plain (s : list ascii) : Prop := Forall plain_char s.

#[export] Instance plain_char_dec c : Decision (plain_char c).
Proof. unfold plain_char. apply _. Defined.

#[export] Instance plain_dec s : Decision (plain s).
Proof. unfold plain. apply _. Defined.

(** Every quote of the list follows a backslash. *)
Fixpoint escaped_quotes (l : list ascii) : bool :=
  match l with
  | c :: ((d :: _) as l') => (negb (bool_decide (d = quote)) || bool_decide (c = bslash)) && escaped_quotes l'
  | _ => true
  end.

(** The list does not start with a quote. *)
Definition lead_ok (l : list ascii) : bool := negb (bool_decide (head l = Some quote)).

(** What one character becomes: itself when plain, else an escape. *)
Definition esc_char_shape (c : ascii) : bool :=
  escaped_quotes (esc_char c) && lead_ok (esc_char c) &&
  (if decide (plain_char c) then bool_decide (esc_char c = [c])
   else bool_decide (head (esc_char c) = Some bslash)).

(** All 256 characters, by evaluation. *)
Lemma esc_char_shape_all c : esc_char_shape c = true.
Proof. destruct c as [[] [] [] [] [] [] [] []]; reflexivity. Qed.

Lemma esc_char_quotes c : escaped_quotes (esc_char c) = true ∧ lead_ok (esc_char c) = true.
Proof.
  pose proof (esc_char_shape_all c) as H. unfold esc_char_shape in H.
  apply andb_true_iff in H as [[H1 H2]%andb_true_iff _]. done.
Qed.

Lemma esc_char_plain c : plain_char c → esc_char c = [c].
Proof.
  intros Hc. pose proof (esc_char_shape_all c) as H. unfold esc_char_shape in H.
  rewrite decide_True in H by done. apply andb_true_iff in H as [_ H]. by apply bool_decide_eq_true in H.
Qed.

Lemma esc_char_not_plain c : ¬ plain_char c → ∃ t, esc_char c = bslash :: t.
Proof.
  intros Hc. pose proof (esc_char_shape_all c) as H. unfold esc_char_shape in H.
  rewrite decide_False in H by done. apply andb_true_iff in H as [_ H]. apply bool_decide_eq_true in H.
  destruct (esc_char c) as [|x t]; simplify_eq/=. by exists t.
Qed.

(** ** Quotes in escaped text *)

Lemma escaped_quotes_app a b :
  escaped_quotes a = true → escaped_quotes b = true → lead_ok b = true → escaped_quotes (a ++ b) = true.
Proof.
  intros Ha Hb Hl. induction a as [|x [|y a] IH]; [done| |].
  - destruct b as [|d b]; [done|]. simpl in *. rewrite Hb, andb_true_r.
    unfold lead_ok in Hl. simpl in Hl. destruct (decide (d = quote)) as [->|Hd].
    + by rewrite bool_decide_true in Hl.
    + by rewrite bool_decide_false.
  - simpl in Ha |- *. apply andb_true_iff in Ha as [H1 H2]. rewrite H1. simpl. by apply IH.
Qed.

Lemma lead_ok_app a b : a ≠ [] → lead_ok (a ++ b) = lead_ok a.
Proof. by destruct a. Qed.

Lemma esc_char_nonempty c : esc_char c ≠ [].
Proof.
  unfold esc_char. repeat case_decide; [done|done|]. destruct (_ <? 32); [|done].
  unfold esc_control. repeat case_match; done.
Qed.

Lemma escape_quotes s : escaped_quotes (escape s) = true ∧ lead_ok (escape s) = true.
Proof.
  induction s as [|c s [IH1 IH2]]; [done|]. rewrite escape_cons.
  destruct (esc_char_quotes c) as [H1 H2].
  rewrite lead_ok_app by apply esc_char_nonempty. split; [|done].
  by apply escaped_quotes_app.
Qed.

Lemma escaped_quotes_suffix a r : escaped_quotes (a ++ r) = true → escaped_quotes r = true.
Proof.
  induction a as [|x a IH]; [done|]. intros H. apply IH.
  destruct a as [|y a]; simpl in H.
  - destruct r; [done|]. by apply andb_true_iff in H as [_ H].
  - by apply andb_true_iff in H as [_ H].
Qed.

(** A quote of escaped text that is not its first character follows a
    backslash. *)
Lemma escaped_quotes_split l a b :
  escaped_quotes l = true → l = a ++ quote :: b → a = [] ∨ ∃ a', a = a' ++ [bslash].
Proof.
  intros Hl ->. induction a as [|x a IH] using rev_ind; [by left|]. right.
  rewrite <-app_assoc in Hl. apply escaped_quotes_suffix in Hl. simpl in Hl.
  apply andb_true_iff in Hl as [Hx _]. apply bool_decide_eq_true in Hx as ->. by exists a.
Qed.

Lemma escape_plain s : plain s → escape s = s.
Proof.
  induction 1 as [|c s Hc Hs IH]; [done|]. by rewrite escape_cons, esc_char_plain, IH.
Qed.

(** Escaped text without a backslash is the text itself. *)
Lemma escape_inj_plain t u : escape t = u → plain u → t = u.
Proof.
  revert u. induction t as [|c t IH]; intros u E Hu; [done|]. rewrite escape_cons in E.
  destruct (decide (plain_char c)) as [Hc|Hc].
  - rewrite esc_char_plain in E by done. subst u. apply Forall_cons in Hu as [_ Hu].
    f_equal. by apply IH.
  - destruct (esc_char_not_plain c Hc) as [t' Ht]. rewrite Ht in E. subst u.
    apply Forall_cons in Hu as [[_ [Hb _]] _]. done.
Qed.

(** Reading escaped text up to its closing quote: the text before the
    quote is all of it. *)
Lemma prefix_closing r w x y :
  escaped_quotes r = true → plain w → (w = [] → lead_ok r = true) →
  (w ++ quote :: x) `prefix_of` (r ++ quote :: y) → r = w ∧ x `prefix_of` y.
Proof.
  revert r. induction w as [|c w IH]; intros r Hr Hw Hl Hp; simpl in Hp.
  - destruct r as [|d r]; [split; [done|by apply prefix_cons_inv_2 in Hp]|].
    apply prefix_cons_inv_1 in Hp as <-. specialize (Hl eq_refl). unfold lead_ok in Hl.
    by rewrite bool_decide_true in Hl.
  - apply Forall_cons in Hw as [Hc Hw]. destruct r as [|d r].
    + apply prefix_cons_inv_1 in Hp as ->. by destruct Hc.
    + simpl in Hp. pose proof (prefix_cons_inv_1 _ _ _ _ Hp) as <-.
      apply prefix_cons_inv_2 in Hp.
      destruct (IH r) as [-> Hxy]; [|done| |done|done].
      * destruct r; [done|]. by apply andb_true_iff in Hr as [_ Hr].
      * intros ->. destruct r as [|e r]; [done|]. simpl in Hr. apply andb_true_iff in Hr as [Hr _].
        unfold lead_ok. simpl. destruct (decide (e = quote)) as [->|He]; [|by rewrite bool_decide_false by congruence].
        rewrite (bool_decide_true (quote = quote)) in Hr by done. simpl in Hr. apply bool_decide_eq_true in Hr.
        by destruct Hc as [_ [? _]].
Qed.

(** ** Tokens and their text *)

Inductive tok :=
  | TPunct (c : ascii)         (** one of [ [ ] { } : , ] *)
  | TStr (s : list ascii)      (** a string, written quoted and escaped *)
  | TLit (l : list ascii).     (** a number, [true], [false] or [null] *)

Definition render_tok (t : tok) : list ascii :=
  match t with
  | TPunct c => [c]
  | TStr s => quote :: escape s ++ [quote]
  | TLit l => l
  end.

Definition render (ts : list tok) : list ascii := ts ≫= render_tok.

Lemma render_cons t ts : render (t :: ts) = render_tok t ++ render ts.
Proof. reflexivity. Qed.

Lemma render_app ts1 ts2 : render (ts1 ++ ts2) = render ts1 ++ render ts2.
Proof. unfold render. by rewrite bind_app. Qed.

Definition punct (c : ascii) : Prop := c ∈ ["["; "]"; "{"; "}"; ":"; ","]%char.

#[export] Instance punct_dec c : Decision (punct c).
Proof. unfold punct. apply _. Defined.

(** The characters of literals: digits, the minus sign and lower-case
    letters. *)
Definition lit_char (c : ascii) : Prop :=
  c = "-"%char ∨ (48 ≤ nat_of_ascii c ≤ 57) ∨ (97 ≤ nat_of_ascii c ≤ 122).

#[export] Instance lit_char_dec c : Decision (lit_char c).
Proof. unfold lit_char. apply _. Defined.

Lemma lit_no_quote l : Forall lit_char l → quote ∉ l.
Proof.
  intros H Hin. rewrite Forall_forall in H. apply H in Hin.
  unfold lit_char in Hin. change (nat_of_ascii quote) with 34 in Hin. destruct Hin as [Hq|[Hq|Hq]]; [discriminate|lia|lia].
Qed.

(** Nothing or punctuation comes next. *)
Definition punct_next (ts : list tok) : Prop :=
  match ts with [] | TPunct _ :: _ => True | _ => False end.

(** The token lists [JSON.stringify] writes: punctuation is punctuation,
    a literal is non-empty, made of literal characters and followed by
    punctuation, a string is followed by punctuation, and a string
    followed by a colon (a key) is plain. *)
Fixpoint tokens_ok (ts : list tok) : Prop :=
  match ts with
  | [] => True
  | TPunct c :: ts' => punct c ∧ tokens_ok ts'
  | TLit l :: ts' => l ≠ [] ∧ Forall lit_char l ∧ punct_next ts' ∧ tokens_ok ts'
  | TStr s :: ts' =>
      match ts' with
      | [] => True
      | TPunct c :: _ => c = ":"%char → plain s
      | _ => False
      end ∧ tokens_ok ts'
  end.

(** The text of the member [k: u]: ["k":"u"]. *)
Definition member_text (k u : list ascii) : list ascii :=
  quote :: k ++ quote :: ":"%char :: quote :: u ++ [quote].

Lemma member_text_render k u :
  plain k → plain u → render [TStr k; TPunct ":"; TStr u] = member_text k u.
Proof.
  intros Hk Hu. unfold member_text. rewrite !render_cons. unfold render_tok.
  rewrite !escape_plain by done. simpl. by rewrite <-!app_assoc.
Qed.

Lemma quote_not_punct : ¬ punct quote.
Proof. apply (bool_decide_eq_false (punct quote)). reflexivity. Qed.

(** What follows a string token: a punctuation token. *)
Lemma after_string s ts c x :
  tokens_ok (TStr s :: ts) → (c :: x) `prefix_of` render ts →
  ∃ ts', ts = TPunct c :: ts' ∧ x `prefix_of` render ts' ∧ (c = ":"%char → plain s) ∧ punct c ∧ tokens_ok ts'.
Proof.
  intros [Hn Hts] Hp. destruct ts as [|[c'|s'|l'] ts']; [by apply prefix_nil_not in Hp|..|done|done].
  rewrite render_cons in Hp. simpl in Hp. pose proof (prefix_cons_inv_1 _ _ _ _ Hp) as <-.
  apply prefix_cons_inv_2 in Hp. destruct Hts as [Hc Hts]. by exists ts'.
Qed.

(** A quoted plain text at the start of the text of well-formed tokens is
    a string token. *)
Lemma string_at ts u x :
  tokens_ok ts → plain u → (quote :: u ++ quote :: x) `prefix_of` render ts →
  ∃ ts', ts = TStr u :: ts' ∧ x `prefix_of` render ts'.
Proof.
  intros Hts Hu Hp. destruct ts as [|[c|v|l] ts']; [by apply prefix_nil_not in Hp| | |].
  - rewrite render_cons in Hp. simpl in Hp. apply prefix_cons_inv_1 in Hp as <-.
    destruct Hts as [Hc _]. by apply quote_not_punct in Hc.
  - rewrite render_cons in Hp. simpl in Hp. apply prefix_cons_inv_2 in Hp.
    rewrite <-app_assoc in Hp. destruct (escape_quotes v) as [Hq Hl].
    apply prefix_closing in Hp as [Hv Hx]; [|done|done|done].
    apply escape_inj_plain in Hv as ->; [|done]. by exists ts'.
  - destruct Hts as [Hl [Hq%lit_no_quote _]]. rewrite render_cons in Hp. simpl in Hp.
    destruct l as [|y l]; [done|]. simpl in Hp. apply prefix_cons_inv_1 in Hp as <-.
    destruct Hq. constructor.
Qed.

(** A non-empty suffix of the text of a string token: all of it, or the
    rest of the escaped body followed by the closing quote. *)
Lemma string_suffix s a1 a2 :
  quote :: escape s ++ [quote] = a1 ++ a2 → a2 ≠ [] →
  a2 = quote :: escape s ++ [quote] ∨ ∃ e r, escape s = e ++ r ∧ a2 = r ++ [quote].
Proof.
  intros E Ha2. destruct a1 as [|x a1]; [by left|right]. injection E as _ E.
  destruct (app_eq_app _ _ _ _ E) as (k & [[-> E2] | [-> E2]]).
  - exists a1, k. by rewrite E2.
  - destruct k as [|y k]; [|destruct k; simplify_eq/=; done].
    exists (escape s), []. rewrite app_nil_r. simpl in E2. by subst.
Qed.

Section Lex.
Variables (k u : list ascii).
Hypotheses (Hk : plain k) (Hk0 : k ≠ []) (Hkp : ∀ c, head k = Some c → ¬ punct c) (Hu : plain u).

Definition member_toks : list tok := [TStr k; TPunct ":"; TStr u].

(** The pattern starting at the opening quote of a string token: the
    string is the key, the colon and the value follow. *)
Lemma lex_at_open s ts :
  tokens_ok (TStr s :: ts) → member_text k u `prefix_of` render (TStr s :: ts) →
  infix member_toks (TStr s :: ts).
Proof.
  intros Hts Hp. rewrite render_cons in Hp. simpl in Hp. apply prefix_cons_inv_2 in Hp.
  rewrite <-app_assoc in Hp. destruct (escape_quotes s) as [Hq Hl].
  apply prefix_closing in Hp as [Hs Hp]; [|done|done|done].
  apply escape_inj_plain in Hs as ->; [|done].
  destruct (after_string k ts ":" _ Hts Hp) as (ts1 & -> & Hp1 & _ & _ & Hts1).
  destruct (string_at ts1 u [] Hts1 Hu Hp1) as (ts2 & -> & _).
  by exists [], ts2.
Qed.

(** The pattern cannot start at a closing quote: punctuation follows it,
    and the key does not start with punctuation. *)
Lemma lex_at_close s ts :
  tokens_ok (TStr s :: ts) → ¬ member_text k u `prefix_of` quote :: render ts.
Proof.
  intros Hts Hp. apply prefix_cons_inv_2 in Hp. destruct k as [|c k']; [done|].
  destruct (after_string s ts c _ Hts Hp) as (ts1 & _ & _ & _ & Hc & _).
  by apply (Hkp c).
Qed.

(** Nor at an escaped quote inside a string: the string would be a key
    holding a backslash, and keys are plain. *)
Lemma lex_inside s ts e r :
  tokens_ok (TStr s :: ts) → escape s = e ++ quote :: r →
  ¬ member_text k u `prefix_of` (quote :: r) ++ quote :: render ts.
Proof.
  intros Hts Es Hp. destruct (escape_quotes s) as [Hq Hl].
  destruct (escaped_quotes_split _ e r Hq Es) as [->|[e' ->]].
  { rewrite Es in Hl. unfold lead_ok in Hl. by rewrite bool_decide_true in Hl. }
  simpl in Hp. apply prefix_cons_inv_2 in Hp.
  rewrite Es, <-app_assoc in Hq. simpl in Hq. apply escaped_quotes_suffix in Hq.
  assert (Hq' : escaped_quotes r = true).
  { destruct r; [done|]. simpl in Hq. by apply andb_true_iff in Hq as [_ Hq]. }
  apply prefix_closing in Hp as [-> Hp]; [|done|done|done].
  destruct (after_string s ts ":" _ Hts Hp) as (_ & _ & _ & Hs & _ & _).
  specialize (Hs eq_refl). rewrite escape_plain in Es by done. subst s.
  apply Forall_app in Hs as [Hs _]. apply Forall_app in Hs as [_ Hs].
  apply Forall_cons in Hs as [[_ [Hb _]] _]. done.
Qed.

Lemma member_text_head : ∃ x, member_text k u = quote :: x.
Proof. by eexists. Qed.

(** The lexing lemma: in the text of well-formed tokens, ["k":"u"] occurs
    exactly where the tokens hold [k], a colon and [u]. *)
Theorem lex_member ts :
  tokens_ok ts → infix (member_text k u) (render ts) ↔ infix member_toks ts.
Proof.
  intros Hts. split.
  - induction ts as [|t ts IH]; intros Hi.
    { destruct Hi as (a & b & E). unfold member_text in E. destruct a; discriminate. }
    rewrite render_cons in Hi. apply infix_app_inv in Hi as [Hi | (a1 & a2 & Ea & Ha2 & Hp)].
    { apply infix_cons_r, IH; [|done]. destruct t as [|s|]; [apply Hts|apply Hts|apply Hts]. }
    destruct member_text_head as [x Hx]. rewrite Hx in Hp.
    destruct t as [c|s|l]; simpl in Ea.
    + destruct a1 as [|? a1]; simpl in Ea; [subst a2|destruct a1; simplify_eq/=; done]. simpl in Hp.
      apply prefix_cons_inv_1 in Hp as <-. by destruct Hts as [?%quote_not_punct _].
    + rewrite <-Hx in Hp. destruct (string_suffix s a1 a2 Ea Ha2) as [-> | (e & r & Es & ->)].
      * apply lex_at_open; [done|]. by rewrite render_cons.
      * rewrite <-app_assoc in Hp. destruct r as [|y r].
        -- by apply (lex_at_close s ts) in Hp.
        -- pose proof Hp as Hy. rewrite Hx in Hy. apply prefix_cons_inv_1 in Hy as <-.
           by apply (lex_inside s ts e r) in Hp.
    + destruct Hts as [_ [Hq%lit_no_quote _]]. subst l. destruct a2 as [|y a2]; [done|].
      simpl in Hp. apply prefix_cons_inv_1 in Hp as <-. destruct Hq. set_solver.
  - intros (a & b & ->). rewrite !render_app. unfold member_toks. rewrite member_text_render by done.
    apply infix_app_r. by exists [], (render b).
Qed.

End Lex.

(** ** JSON values and [JSON.stringify] *)

Inductive json :=
  | JNull
  | JBool (b : bool)
  | JNum (z : Z)
  | JStr (s : string)
  | JArr (vs : list json)
  | JObj (kvs : list (string * json)).

(** Induction through the lists of arrays and objects. *)
Section json_ind.
Variable P : json → Prop.
Hypotheses (Hnull : P JNull) (Hbool : ∀ b, P (JBool b)) (Hnum : ∀ z, P (JNum z)) (Hstr : ∀ s, P (JStr s))
  (Harr : ∀ vs, Forall P vs → P (JArr vs)) (Hobj : ∀ kvs, Forall (λ kv, P kv.2) kvs → P (JObj kvs)).

Fixpoint json_ind' (v : json) : P v :=
  match v with
  | JNull => Hnull
  | JBool b => Hbool b
  | JNum z => Hnum z
  | JStr s => Hstr s
  | JArr vs => Harr vs ((fix go (l : list json) : Forall P l :=
      match l with [] => @List.Forall_nil _ P | x :: l' => @List.Forall_cons _ P x l' (json_ind' x) (go l') end) vs)
  | JObj kvs => Hobj kvs ((fix go (l : list (string * json)) : Forall (λ kv, P kv.2) l :=
      match l with [] => @List.Forall_nil _ _ | kv :: l' => @List.Forall_cons _ _ kv l' (json_ind' kv.2) (go l') end) kvs)
  end.
End json_ind.

(** The digits of a decimal numeral. *)
Fixpoint uint_chars (d : uint) : list ascii :=
  match d with
  | Nil => []
  | D0 d => "0"%char :: uint_chars d | D1 d => "1"%char :: uint_chars d
  | D2 d => "2"%char :: uint_chars d | D3 d => "3"%char :: uint_chars d
  | D4 d => "4"%char :: uint_chars d | D5 d => "5"%char :: uint_chars d
  | D6 d => "6"%char :: uint_chars d | D7 d => "7"%char :: uint_chars d
  | D8 d => "8"%char :: uint_chars d | D9 d => "9"%char :: uint_chars d
  end.

(** [String(n)] of an integer-valued number below [10^21]: its decimal
    form. *)
Definition number (z : Z) : list ascii :=
  match Z.to_int z with
  | Decimal.Pos d => uint_chars d
  | Decimal.Neg d => "-"%char :: uint_chars d
  end.

(** [arr.join(",")] on token lists. *)
Fixpoint join (ls : list (list tok)) : list tok :=
  match ls with
  | [] => []
  | [x] => x
  | x :: ls' => x ++ TPunct "," :: join ls'
  end.

Definition member_tokens (k : string) (vt : list tok) : list tok := TStr (JsString.chars k) :: TPunct ":" :: vt.

(** SerializeJSONProperty: the tokens of a value. *)
Fixpoint tokens (v : json) : list tok :=
  match v with
  | JNull => [TLit (JsString.chars "null")]
  | JBool b => [TLit (JsString.chars (if b then "true" else "false"))]
  | JNum z => [TLit (number z)]
  | JStr s => [TStr (JsString.chars s)]
  | JArr vs => TPunct "[" :: join (tokens <$> vs) ++ [TPunct "]"]
  | JObj kvs => TPunct "{" :: join ((λ kv, member_tokens kv.1 (tokens kv.2)) <$> kvs) ++ [TPunct "}"]
  end.

(** [JSON.stringify(v)] *)
Definition stringify (v : json) : list ascii := render (tokens v).

(** The members of every object of a value, outer ones first. *)
Fixpoint fields (v : json) : list (string * json) :=
  match v with
  | JArr vs => List.concat (fields <$> vs)
  | JObj kvs => List.concat ((λ kv, kv :: fields kv.2) <$> kvs)
  | _ => []
  end.

(** Every key of every object is plain. *)
Fixpoint keys_ok (v : json) : bool :=
  match v with
  | JArr vs => forallb keys_ok vs
  | JObj kvs => forallb (λ kv, bool_decide (plain (JsString.chars kv.1)) && keys_ok kv.2) kvs
  | _ => true
  end.

(** ** The tokens of a value are well formed *)

Lemma uint_chars_digits d : Forall lit_char (uint_chars d).
Proof.
  induction d; simpl; [done|..];
    (constructor; [apply (bool_decide_unpack _); vm_compute; exact I|done]).
Qed.

Lemma number_ok z : number z ≠ [] ∧ Forall lit_char (number z).
Proof.
  unfold number. destruct z as [|p|p]; simpl.
  - split; [done|]. apply (uint_chars_digits (D0 Nil)).
  - split; [|apply uint_chars_digits].
    destruct (Pos.to_uint p) eqn:E; [|done..].
    pose proof (DecimalPos.Unsigned.of_to p) as H. by rewrite E in H.
  - split; [done|]. constructor; [by left|apply uint_chars_digits].
Qed.

Lemma tokens_ok_app_punct a c r :
  tokens_ok a → c ≠ ":"%char → tokens_ok (TPunct c :: r) → tokens_ok (a ++ TPunct c :: r).
Proof.
  intros Ha Hc Hr. induction a as [|t a IH]; [done|].
  destruct t as [c'|s|l]; simpl in Ha |- *.
  - destruct Ha as [? Ha]. by split; [|apply IH].
  - destruct Ha as [Hn Ha]. split; [|by apply IH].
    destruct a as [|[]]; [by intros ->|done|done|done].
  - destruct Ha as (? & ? & Hn & Ha). split_and!; [done|done| |by apply IH].
    destruct a; [done|exact Hn].
Qed.

Lemma tokens_ok_join ls c r :
  Forall tokens_ok ls → c ∈ ["]"; "}"]%char → tokens_ok (TPunct c :: r) →
  tokens_ok (join ls ++ TPunct c :: r).
Proof.
  intros Hls Hc Hr. assert (Hc' : c ≠ ":"%char) by (intros ->; set_solver).
  induction Hls as [|x ls Hx Hls IH]; [done|]. destruct ls as [|y ls].
  - by apply tokens_ok_app_punct.
  - change (join (x :: y :: ls)) with (x ++ TPunct "," :: join (y :: ls)).
    rewrite <-app_assoc. simpl. apply tokens_ok_app_punct; [done|done|]. split; [set_solver|done].
Qed.

(** A value whose keys are plain is written as well-formed tokens. *)
Lemma tokens_ok_tokens v : keys_ok v = true → tokens_ok (tokens v).
Proof.
  induction v as [| | | |vs IH|kvs IH] using json_ind'; intros Hv; simpl in Hv |- *.
  - split_and!; [done|apply (bool_decide_unpack _); vm_compute; exact I|done|done].
  - split_and!; [by destruct b|destruct b; apply (bool_decide_unpack _); vm_compute; exact I|done|done].
  - destruct (number_ok z). by split_and!.
  - done.
  - split; [set_solver|]. apply tokens_ok_join; [|set_solver|split; [set_solver|done]].
    rewrite Forall_fmap, Forall_forall. intros x Hx. rewrite Forall_forall in IH. apply IH; [done|].
    rewrite forallb_forall in Hv. apply Hv. by apply list_elem_of_In.
  - split; [set_solver|]. apply tokens_ok_join; [|set_solver|split; [set_solver|done]].
    rewrite Forall_fmap, Forall_forall. intros [k x] Hx. rewrite Forall_forall in IH.
    rewrite forallb_forall in Hv. pose proof Hx as Hx'. apply list_elem_of_In, Hv in Hx'.
    apply andb_true_iff in Hx' as [Hk Hx2]. apply bool_decide_eq_true in Hk.
    simpl. split_and!; [by intros _|set_solver|by apply (IH (k, x))].
Qed.

(** ** The members in the tokens *)

(** The members [k: x] of a token list: a string, a colon, the token
    after it. *)
Fixpoint pairs (ts : list tok) : list (list ascii * tok) :=
  match ts with
  | [] => []
  | t :: ts' =>
      match t, ts' with
      | TStr k, TPunct c :: x :: _ => if decide (c = ":"%char) then (k, x) :: pairs ts' else pairs ts'
      | _, _ => pairs ts'
      end
  end.

Lemma pairs_cons t ts :
  pairs (t :: ts) =
    match t, ts with
    | TStr k, TPunct c :: x :: _ => if decide (c = ":"%char) then (k, x) :: pairs ts else pairs ts
    | _, _ => pairs ts
    end.
Proof. reflexivity. Qed.

Lemma pairs_str_punct k c x r :
  pairs (TStr k :: TPunct c :: x :: r) =
    if decide (c = ":"%char) then (k, x) :: pairs (TPunct c :: x :: r) else pairs (TPunct c :: x :: r).
Proof. reflexivity. Qed.

Lemma pairs_sub t ts : pairs ts ⊆ pairs (t :: ts).
Proof.
  rewrite pairs_cons. destruct t; [done| |done].
  destruct ts as [|[] [|? ?]]; try done. case_decide; set_solver.
Qed.

Lemma pairs_cons_inv k x t ts :
  (k, x) ∈ pairs (t :: ts) → (t = TStr k ∧ ∃ r, ts = TPunct ":" :: x :: r) ∨ (k, x) ∈ pairs ts.
Proof.
  rewrite pairs_cons. destruct t as [|s|]; [by right| |by right].
  destruct ts as [|[c|?|?] [|y r]]; try by right.
  case_decide; [|by right]. subst c. intros [[= -> ->]|?]%elem_of_cons; [left|right]; eauto.
Qed.

Lemma pairs_infix k x ts : infix [TStr k; TPunct ":"; x] ts ↔ (k, x) ∈ pairs ts.
Proof.
  split.
  - induction ts as [|t ts IH]; intros Hi.
    { by destruct Hi as ([|? ?] & b & E). }
    apply infix_cons_inv in Hi as [[b E]|Hi]; [|by apply pairs_sub, IH].
    simpl in E. simplify_eq. rewrite pairs_cons. simpl. set_solver.
  - induction ts as [|t ts IH]; [set_solver|].
    intros [[-> [r ->]]|Hin]%pairs_cons_inv; [by exists [], r|by apply infix_cons_r, IH].
Qed.

Lemma pairs_app_punct a c r :
  last a ≠ Some (TPunct ":") → c ≠ ":"%char → pairs (a ++ TPunct c :: r) = pairs a ++ pairs r.
Proof.
  intros Hl Hc. induction a as [|t a IH]; [done|].
  assert (IH' : pairs (a ++ TPunct c :: r) = pairs a ++ pairs r).
  { apply IH. destruct a; [done|]. exact Hl. }
  destruct t as [c'|s|l]; [exact IH'| |exact IH'].
  destruct a as [|y [|z a]]; rewrite <-?app_comm_cons, ?app_nil_l in *.
  - destruct r as [|x r]; [done|]. by rewrite pairs_str_punct, decide_False.
  - destruct y as [c''|?|?]; [|exact IH'|exact IH'].
    rewrite pairs_str_punct, decide_False; [exact IH'|]. intros ->. by apply Hl.
  - destruct y as [c''|?|?]; [|exact IH'|exact IH'].
    rewrite !pairs_str_punct. case_decide; [|exact IH']. rewrite <-app_comm_cons. f_equal. exact IH'.
Qed.

Lemma pairs_join ls c r :
  Forall (λ l, last l ≠ Some (TPunct ":")) ls → c ≠ ":"%char →
  pairs (join ls ++ TPunct c :: r) = List.concat (pairs <$> ls) ++ pairs r.
Proof.
  intros Hls Hc. induction Hls as [|x ls Hx Hls IH]; [done|]. destruct ls as [|y ls].
  - rewrite pairs_app_punct by done. simpl. by rewrite app_nil_r.
  - change (join (x :: y :: ls)) with (x ++ TPunct "," :: join (y :: ls)).
    rewrite <-app_assoc. simpl. rewrite pairs_app_punct by done. simpl in IH. rewrite IH.
    by rewrite app_assoc.
Qed.

(** The first token of a value. *)
Definition first_tok (v : json) : tok :=
  match v with
  | JNull => TLit (JsString.chars "null")
  | JBool b => TLit (JsString.chars (if b then "true" else "false"))
  | JNum z => TLit (number z)
  | JStr s => TStr (JsString.chars s)
  | JArr _ => TPunct "["
  | JObj _ => TPunct "{"
  end.

Lemma tokens_first v : ∃ rest, tokens v = first_tok v :: rest.
Proof. destruct v; eexists; reflexivity. Qed.

Lemma tokens_last v : last (tokens v) ≠ Some (TPunct ":").
Proof.
  destruct v; simpl; try done; rewrite app_comm_cons, last_snoc; done.
Qed.

Lemma member_tokens_last k v : last (member_tokens k (tokens v)) ≠ Some (TPunct ":").
Proof.
  pose proof (tokens_last v) as H. destruct (tokens_first v) as [rest Hr].
  unfold member_tokens. rewrite Hr in *. exact H.
Qed.

(** The members the tokens of a value hold are the members of its
    objects. *)
Lemma pairs_tokens v :
  pairs (tokens v) = (λ kv, (JsString.chars kv.1, first_tok kv.2)) <$> fields v.
Proof.
  induction v as [| | | |vs IH|kvs IH] using json_ind'; try done; simpl.
  - rewrite pairs_join; [|by apply Forall_fmap, Forall_true, tokens_last|done].
    change (pairs []) with (@nil (list ascii * tok)).
    rewrite app_nil_r, fmap_concat, <-!list_fmap_compose. f_equal. apply Forall_fmap_ext_1.
    eapply Forall_impl; [exact IH|]. intros x Hx. simpl. by rewrite Hx.
  - rewrite pairs_join; [|apply Forall_fmap, Forall_true; intros [k x]; apply member_tokens_last|done].
    change (pairs []) with (@nil (list ascii * tok)).
    rewrite app_nil_r, fmap_concat, <-!list_fmap_compose. f_equal. apply Forall_fmap_ext_1.
    eapply Forall_impl; [exact IH|]. intros [k x] Hx. simpl in *.
    destruct (tokens_first x) as [rest Hr]. rewrite Hr. cbv beta iota. f_equal. rewrite <-Hr. exact Hx.
Qed.

Lemma chars_inj (s t : string) : JsString.chars s = JsString.chars t → s = t.
Proof.
  intros E. rewrite <-(string_of_list_ascii_of_string s), <-(string_of_list_ascii_of_string t).
  unfold JsString.chars in E. by rewrite E.
Qed.

Lemma first_tok_str v s : first_tok v = TStr (JsString.chars s) ↔ v = JStr s.
Proof.
  split; [|by intros ->]. destruct v; try done. intros [= E]. by apply chars_inj in E as ->.
Qed.

(** A key the pattern can name: plain, non-empty, and not starting with
    punctuation. *)
Definition key_like (k : string) : Prop :=
  plain (JsString.chars k) ∧ JsString.chars k ≠ [] ∧
  ∀ c, head (JsString.chars k) = Some c → ¬ punct c.

(** The text search on [JSON.stringify(v)]: for a value whose keys are
    plain, a key [k] and a plain value [s], the text ["k":"s"] occurs in
    the JSON text exactly when some object of the value has the member
    [k: s]. *)
Theorem member_in_stringify v k s :
  keys_ok v = true → key_like k → plain (JsString.chars s) →
  infix (member_text (JsString.chars k) (JsString.chars s)) (stringify v) ↔ (k, JStr s) ∈ fields v.
Proof.
  intros Hv (Hk & Hk0 & Hkp) Hs. unfold stringify.
  rewrite lex_member by auto using tokens_ok_tokens. unfold member_toks.
  rewrite pairs_infix, pairs_tokens, list_elem_of_fmap. split.
  - intros ([k' x] & [= Ek Ex] & Hin). apply chars_inj in Ek as ->.
    symmetry in Ex. apply first_tok_str in Ex as ->. done.
  - intros Hin. by exists (k, JStr s).
Qed.

(** ** The stored players *)

(** An optional property: [undefined] ones are left out. *)
Definition opt {A} (k : string) (f : A → json) (o : option A) : list (string * json) :=
  match o with Some x => [(k, f x)] | None => [] end.

(** A date string [new Date(t).toISOString()]. *)
Definition iso (t : Z) : json := JStr (JsDate.toISOString t).

(** The properties of a player after the requests: the object literal of
    join (matches.ts lines 203-211 and 236-246), then the properties the
    words handler and the sweep add (matches.ts lines 449-453, server.ts
    lines 86-90), then [rank] and [winnings] of [{ ...p, rank, winnings }]
    (payout.ts). *)
Definition playerMembers (p : MatchPlayer.t) : list (string * json) :=
  [("id", JStr p.(MatchPlayer.id)); ("name", JStr p.(MatchPlayer.name));
   ("words", JArr (JStr <$> p.(MatchPlayer.words))); ("score", JNum p.(MatchPlayer.score));
   ("joinedAt", iso p.(MatchPlayer.joinedAt))] ++
  opt "deadlineAt" iso p.(MatchPlayer.deadlineAt) ++
  [("paidEntry", JBool p.(MatchPlayer.paidEntry))] ++
  opt "wordScore" JNum p.(MatchPlayer.wordScore) ++
  opt "timeBonus" JNum p.(MatchPlayer.timeBonus) ++
  opt "submittedAt" iso p.(MatchPlayer.submittedAt) ++
  opt "rank" (λ r, JNum (Z.of_nat r)) p.(MatchPlayer.rank) ++
  opt "winnings" JNum p.(MatchPlayer.winnings).

Definition playerJson (p : MatchPlayer.t) : json := JObj (playerMembers p).

(** The [players] column of a history row ([rankedPlayers as any]). *)
Definition playersJson (ps : list MatchPlayer.t) : json := JArr (playerJson <$> ps).

Lemma fields_strs ws : fields (JArr (JStr <$> ws)) = [].
Proof. by induction ws. Qed.

Lemma keys_ok_strs ws : keys_ok (JArr (JStr <$> ws)) = true.
Proof. by induction ws. Qed.

(** The members after [id], by their keys. *)
Definition rest_keys (p : MatchPlayer.t) : list string := (λ kv, kv.1) <$> (tail (playerMembers p)).

(** A member with a plain key and a flat value. *)
Definition member_ok (kv : string * json) : Prop :=
  plain (JsString.chars kv.1) ∧ fields kv.2 = [] ∧ keys_ok kv.2 = true.

Lemma opt_ok {A} k (f : A → json) o :
  plain (JsString.chars k) → (∀ x, fields (f x) = [] ∧ keys_ok (f x) = true) → Forall member_ok (opt k f o).
Proof. intros Hk Hf. destruct o as [x|]; [|constructor]. constructor; [|constructor]. split; [done|apply Hf]. Qed.

Lemma opt_keys {A} k (f : A → json) o : (λ kv : string * json, kv.1) <$> opt k f o ⊆ [k].
Proof. destruct o; set_solver. Qed.

Definition player_keys : list string :=
  ["name"; "words"; "score"; "joinedAt"; "deadlineAt"; "paidEntry"; "wordScore"; "timeBonus";
   "submittedAt"; "rank"; "winnings"].

Lemma member_okI k v :
  bool_decide (plain (JsString.chars k)) = true → fields v = [] → keys_ok v = true → member_ok (k, v).
Proof. intros Hk Hf Hv. split_and!; [by apply bool_decide_eq_true in Hk|done|done]. Qed.

Ltac member_ok_tac :=
  apply member_okI; [vm_compute; reflexivity|first [apply fields_strs|reflexivity]|first [apply keys_ok_strs|reflexivity]].

Ltac opt_ok_tac :=
  apply opt_ok; [apply (bool_decide_unpack _); vm_compute; exact I|intros; split; reflexivity].

Lemma rest_keys_spec p : "id" ∉ rest_keys p ∧ Forall member_ok (playerMembers p).
Proof.
  split.
  - assert (Hid : "id" ∉ player_keys) by (apply (bool_decide_unpack _); vm_compute; exact I).
    intros Hin. apply Hid. revert Hin. unfold rest_keys, playerMembers. cbn [tail Datatypes.app].
    pose proof (opt_keys "deadlineAt" iso (MatchPlayer.deadlineAt p)).
    pose proof (opt_keys "wordScore" JNum (MatchPlayer.wordScore p)).
    pose proof (opt_keys "timeBonus" JNum (MatchPlayer.timeBonus p)).
    pose proof (opt_keys "submittedAt" iso (MatchPlayer.submittedAt p)).
    pose proof (opt_keys "rank" (λ r, JNum (Z.of_nat r)) (MatchPlayer.rank p)).
    pose proof (opt_keys "winnings" JNum (MatchPlayer.winnings p)).
    rewrite !fmap_cons, !fmap_app, !fmap_cons. unfold player_keys. set_solver.
  - unfold playerMembers. repeat apply Forall_app_2;
      first [opt_ok_tac | repeat (apply List.Forall_cons; [member_ok_tac|]); apply List.Forall_nil].
Qed.

Lemma fields_flat kvs : Forall (λ kv, fields kv.2 = []) kvs → fields (JObj kvs) = kvs.
Proof.
  induction 1 as [|[k v] kvs Hv Hkvs IH]; [done|].
  change (fields (JObj ((k, v) :: kvs))) with (((k, v) :: fields v) ++ fields (JObj kvs)).
  simpl in Hv. by rewrite Hv, IH.
Qed.

Lemma keys_ok_playerJson p : keys_ok (playerJson p) = true.
Proof.
  destruct (rest_keys_spec p) as [_ Hp]. unfold playerJson. cbn [keys_ok].
  apply forallb_forall. intros [k v] Hin%list_elem_of_In.
  rewrite Forall_forall in Hp. destruct (Hp _ Hin) as (Hk & _ & Hv). simpl.
  simpl in Hk, Hv. rewrite Hv, andb_true_r. by apply bool_decide_eq_true.
Qed.

Lemma keys_ok_playersJson ps : keys_ok (playersJson ps) = true.
Proof.
  induction ps as [|p ps IH]; [done|].
  change (keys_ok (playersJson (p :: ps))) with (keys_ok (playerJson p) && keys_ok (playersJson ps)).
  by rewrite keys_ok_playerJson, IH.
Qed.

Lemma id_member p u : ("id", JStr u) ∈ fields (playerJson p) ↔ MatchPlayer.id p = u.
Proof.
  destruct (rest_keys_spec p) as [Hid Hp]. unfold playerJson.
  rewrite fields_flat by (eapply Forall_impl; [exact Hp|]; intros kv (_ & Hf & _); exact Hf).
  unfold rest_keys in Hid. unfold playerMembers at 1. simpl. rewrite elem_of_cons. split.
  - intros [[= ->]|Hin]; [done|]. destruct Hid. apply list_elem_of_fmap. by exists ("id", JStr u).
  - intros <-. by left.
Qed.

(** The text search of GET /users/matches on the players of a row: for
    a plain id, the text ["id":"u"] occurs in the JSON text of the players
    exactly when one of them has the id [u]. *)
Theorem players_text_has_id ps u :
  plain (JsString.chars u) →
  infix (member_text (JsString.chars "id") (JsString.chars u)) (stringify (playersJson ps)) ↔
  ∃ p, p ∈ ps ∧ MatchPlayer.id p = u.
Proof.
  intros Hu. rewrite member_in_stringify.
  - unfold playersJson. simpl. rewrite elem_of_concat. setoid_rewrite list_elem_of_fmap. split.
    + intros (l & (x & -> & (p & -> & Hp)%list_elem_of_fmap) & Hin). apply id_member in Hin. eauto.
    + intros (p & Hp & Hid). exists (fields (playerJson p)). split; [|by apply id_member].
      exists (playerJson p). split; [done|]. apply list_elem_of_fmap. by exists p.
  - apply keys_ok_playersJson.
  - split_and!; [by apply (bool_decide_unpack _); vm_compute|done|]. intros c [= <-]. by apply (bool_decide_unpack _); vm_compute.
  - done.
Qed.

End Json.
