(* ===== verification/Jsonb.v ===== *)
(** * Postgres jsonb: the stored text of a JSON column and Prisma's
      [string_contains]

    The history table keeps the players of a completed match in a Json
    column ([completedMatch.players]), which Prisma maps to a Postgres
    [jsonb] column: the value written (matches.ts line 80, the ranked
    players) is parsed into jsonb, which keeps no text.  This file models
    what Postgres makes of it, from the Postgres documentation and
    sources (not under src/):

    - [norm]: the jsonb value.  Object keys are sorted, a shorter key
      first and keys of one length by their bytes
      (lengthCompareJsonbStringValue); of two equal keys the later value
      is kept (uniqueifyJsonbObject);
    - [jsonb_text]: [col::text], the text JsonbToCString prints: a space
      after every colon and every comma of the structure, strings
      escaped as JSON does ([Json.esc_char]: escape_json escapes the same
      characters the same way), integers in decimal;
    - [string_contains]: Prisma's [string_contains] filter on a Json
      column without a path, [jsonb_typeof(col) = 'string' AND col::text
      LIKE '%pat%'] (ids hold no [%] or [_], so LIKE is a substring test).

    The theorem [compact_member_absent]: a pattern written without the
    space after the colon, ["k":"u"] for a key ending in a letter, never
    occurs in the text of a jsonb value.  Keys are compared as code
    units, which for the ASCII keys of the program are its UTF-8
    bytes. *)

From S2P Require Import Prelude JsString Json.
From Stdlib Require Import Ascii.

Module Jsonb.
Import Json.

(** ** The jsonb value *)

(** [memcmp] on keys of one length. *)
Fixpoint bytes_le (a b : list ascii) : bool :=
  match a, b with
  | [], _ => true
  | _ :: _, [] => false
  | x :: a', y :: b' =>
      (nat_of_ascii x <? nat_of_ascii y) || ((nat_of_ascii x =? nat_of_ascii y) && bytes_le a' b')
  end.

(** lengthCompareJsonbStringValue, as the order of object members. *)
Definition key_le (kv1 kv2 : string * json) : Prop :=
  let a := JsString.chars kv1.1 in let b := JsString.chars kv2.1 in
  length a < length b ∨ (length a = length b ∧ bytes_le a b = true).

#[export] Instance key_le_dec : RelDecision key_le.
Proof. intros [k1 v1] [k2 v2]. unfold key_le. apply _. Defined.

(** Of a run of equal keys in the sorted members, the last one written. *)
Fixpoint dedup_last (kvs : list (string * json)) : list (string * json) :=
  match kvs with
  | kv :: ((kv' :: _) as rest) => if decide (kv.1 = kv'.1) then dedup_last rest else kv :: dedup_last rest
  | _ => kvs
  end.

(** The jsonb value a JSON text is parsed into. *)
Fixpoint norm (v : json) : json :=
  match v with
  | JArr vs => JArr (norm <$> vs)
  | JObj kvs => JObj (dedup_last (merge_sort key_le ((λ kv, (kv.1, norm kv.2)) <$> kvs)))
  | _ => v
  end.

(** ** Its text *)

(** JsonbToCString: [": "] between a key and its value, [", "] between
    members and elements. *)
Definition out_tok (t : tok) : list ascii :=
  match t with
  | TPunct c => if decide (c = ":"%char ∨ c = ","%char) then [c; " "%char] else [c]
  | _ => render_tok t
  end.

Definition out (ts : list tok) : list ascii := ts ≫= out_tok.

(** [col::text] *)
Definition jsonb_text (v : json) : list ascii := out (tokens (norm v)).

(** [jsonb_typeof] *)
Definition jsonb_typeof (v : json) : string :=
  match v with
  | JNull => "null" | JBool _ => "boolean" | JNum _ => "number"
  | JStr _ => "string" | JArr _ => "array" | JObj _ => "object"
  end.

(** Prisma's [string_contains] on a Json column without a path. *)
Definition string_contains (v : json) (pat : list ascii) : bool :=
  bool_decide (jsonb_typeof v = "string") && contains (jsonb_text v) pat.

(** ** A compact member does not occur in the text *)

Lemma out_cons t ts : out (t :: ts) = out_tok t ++ out ts.
Proof. reflexivity. Qed.

Lemma tokens_ok_tail t ts : tokens_ok (t :: ts) → tokens_ok ts.
Proof. destruct t; simpl; tauto. Qed.

(** A literal character is none of the characters around a member. *)
Definition sep_check (c : ascii) : bool :=
  bool_decide (lit_char c → c ≠ quote ∧ c ≠ bslash ∧ c ≠ " "%char ∧ ¬ punct c).

Lemma sep_check_all c : sep_check c = true.
Proof. destruct c as [[] [] [] [] [] [] [] []]; reflexivity. Qed.

Lemma lit_char_sep c : lit_char c → c ≠ quote ∧ c ≠ bslash ∧ c ≠ " "%char ∧ ¬ punct c.
Proof. pose proof (sep_check_all c) as H. unfold sep_check in H. by apply bool_decide_eq_true in H. Qed.

(** What a string token or a literal is followed by: a punctuation
    character, and a space when it is a colon. *)
Lemma out_next ts c r :
  tokens_ok ts → punct_next ts → (c :: r) `prefix_of` out ts →
  punct c ∧ (c = ":"%char → ∀ d r', r = d :: r' → d = " "%char).
Proof.
  intros Hts Hn Hp. destruct ts as [|[c'|s|l] ts']; [by apply prefix_nil_not in Hp|..|done|done].
  destruct Hts as [Hc' _]. rewrite out_cons in Hp. unfold out_tok in Hp. case_decide as Hd; simpl in Hp.
  - pose proof (prefix_cons_inv_1 _ _ _ _ Hp) as <-. apply prefix_cons_inv_2 in Hp.
    split; [done|]. intros _ d r' ->. by apply prefix_cons_inv_1 in Hp.
  - pose proof (prefix_cons_inv_1 _ _ _ _ Hp) as <-. split; [done|]. intros ->. destruct Hd. by left.
Qed.

Lemma str_next s ts : tokens_ok (TStr s :: ts) → punct_next ts ∧ tokens_ok ts.
Proof. intros [Hn Hts]. split; [|done]. by destruct ts as [|[]]. Qed.

Section Absent.
Variable x : ascii.
Hypothesis Hx : lit_char x.

(** The four characters [x":"] around the colon of a compact member. *)
Definition pat : list ascii := [x; quote; ":"%char; quote].

Lemma pat_not_in_punct c a1 a2 :
  punct c → out_tok (TPunct c) = a1 ++ x :: a2 → False.
Proof.
  intros Hc Ea. destruct (lit_char_sep x Hx) as (_ & _ & Hs & Hpx).
  assert (Hin : x ∈ out_tok (TPunct c)) by (rewrite Ea; set_solver).
  unfold out_tok in Hin. case_decide; repeat apply elem_of_cons in Hin as [Hin|Hin];
    try (subst c; by apply Hpx); try done; by apply not_elem_of_nil in Hin.
Qed.

Lemma pat_not_in_lit l a1 a2 ts :
  tokens_ok (TLit l :: ts) → l = a1 ++ x :: a2 → ¬ pat `prefix_of` (x :: a2) ++ out ts.
Proof.
  intros (_ & Hl & Hn & Hts) -> Hp. apply prefix_cons_inv_2 in Hp.
  destruct a2 as [|z a2]; simpl in Hp.
  - destruct (out_next ts quote _ Hts Hn Hp) as [Hq _]. by apply quote_not_punct in Hq.
  - apply prefix_cons_inv_1 in Hp as <-. apply lit_no_quote in Hl. set_solver.
Qed.

Lemma pat_not_in_str s e r ts :
  tokens_ok (TStr s :: ts) → escape s = e ++ x :: r → ¬ pat `prefix_of` ((x :: r) ++ [quote]) ++ out ts.
Proof.
  intros Hts Es Hp. destruct (lit_char_sep x Hx) as (_ & Hb & _ & _). apply prefix_cons_inv_2 in Hp.
  destruct r as [|z r]; simpl in Hp.
  - apply prefix_cons_inv_2 in Hp. destruct (str_next s ts Hts) as [Hn Hts'].
    destruct (out_next ts ":" _ Hts' Hn Hp) as [_ Hsp]. by specialize (Hsp eq_refl quote [] eq_refl).
  - apply prefix_cons_inv_1 in Hp as <-. destruct (escape_quotes s) as [Hq _].
    destruct (escaped_quotes_split (escape s) (e ++ [x]) r Hq) as [He|(e' & He)].
    + by rewrite Es, <-app_assoc.
    + by destruct e.
    + apply app_inj_tail in He as [_ Hxb]. by apply Hb.
Qed.

(** In the text of well-formed tokens, [x":"] never occurs. *)
Lemma out_no_pat ts : tokens_ok ts → ¬ infix pat (out ts).
Proof.
  destruct (lit_char_sep x Hx) as (Hq & _ & _ & _).
  induction ts as [|t ts IH]; intros Hts Hi.
  { destruct Hi as ([|] & ? & ?); discriminate. }
  rewrite out_cons in Hi. apply infix_app_inv in Hi as [Hi | (a1 & a2 & Ea & Ha2 & Hp)].
  { exact (IH (tokens_ok_tail _ _ Hts) Hi). }
  destruct a2 as [|y a2]; [done|]. pose proof (prefix_cons_inv_1 _ _ _ _ Hp) as <-.
  destruct t as [c|s|l].
  - exact (pat_not_in_punct c a1 a2 (proj1 Hts) Ea).
  - simpl in Ea. destruct (string_suffix s a1 (x :: a2) Ea Ha2) as [Ea2 | (e & r & Es & Ea2)].
    + by injection Ea2 as ? _.
    + destruct r as [|y r]; [by injection Ea2 as ? _|]. injection Ea2 as <- ->.
      exact (pat_not_in_str s e r ts Hts Es Hp).
  - exact (pat_not_in_lit l a1 a2 ts Hts Ea Hp).
Qed.

End Absent.

(** ** The jsonb value of a value with plain keys has plain keys *)

Lemma dedup_last_sub kvs kv : kv ∈ dedup_last kvs → kv ∈ kvs.
Proof.
  induction kvs as [|kv0 kvs IH]; [done|]. destruct kvs as [|kv1 kvs]; [done|].
  simpl. case_decide; [set_solver|]. intros [->|Hin]%elem_of_cons; [set_solver|]. set_solver.
Qed.

Lemma keys_ok_norm v : keys_ok v = true → keys_ok (norm v) = true.
Proof.
  induction v as [| | | |vs IH|kvs IH] using json_ind'; intros Hv; simpl in Hv |- *; [done..| |].
  - apply forallb_forall. intros w Hw%list_elem_of_In. apply list_elem_of_fmap in Hw as (w0 & -> & Hw0).
    rewrite Forall_forall in IH. apply IH; [done|]. rewrite forallb_forall in Hv. by apply Hv, list_elem_of_In.
  - apply forallb_forall. intros kv Hkv%list_elem_of_In.
    apply dedup_last_sub in Hkv. rewrite (merge_sort_Permutation key_le) in Hkv.
    apply list_elem_of_fmap in Hkv as ([k w] & -> & Hkw). rewrite forallb_forall in Hv.
    pose proof (Hv (k, w) (proj1 (list_elem_of_In _ _) Hkw)) as Hk. apply andb_true_iff in Hk as [Hk Hw].
    simpl in Hk |- *. rewrite Hk. rewrite Forall_forall in IH. by apply (IH (k, w)).
Qed.

(** A member written without the space after the colon
    ([member_text k u]), for a key ending in a letter, a digit or a
    minus sign, occurs in the text of no jsonb value with plain keys. *)
Theorem compact_member_absent v k x u :
  keys_ok v = true → lit_char x → contains (jsonb_text v) (member_text (k ++ [x]) u) = false.
Proof.
  intros Hv Hx. apply not_true_iff_false. rewrite contains_spec. intros (a & b & E).
  apply (out_no_pat x Hx (tokens (norm v))); [by apply tokens_ok_tokens, keys_ok_norm|].
  exists (a ++ quote :: k), (u ++ [quote] ++ b). change (out (tokens (norm v))) with (jsonb_text v). rewrite E. unfold member_text, pat.
  rewrite <-!app_assoc. simpl. by rewrite <-!app_assoc, <-!app_comm_cons, <-!app_assoc.
Qed.

End Jsonb.
