(* ===== verification/JsonParse.v ===== *)
(** * [JSON.parse] and its round trip with [JSON.stringify]

    The program writes JSON text and reads it back in three places: the
    Redis repository stores a match as [JSON.stringify(match)] and reads
    it with [JSON.parse] (redisMatchRepository.ts lines 45, 54, 79, 103
    and 118), and the history row's [players] and [board] columns are
    JSON values Prisma writes and reads.  This file models [JSON.parse]
    on the token level of [Json]:

    - the lexer [lex]: punctuation, strings with their escapes ([unesc],
      [lex_string]), literals ([span_lit]), and the white space JSON
      allows between tokens;
    - the parser [parse_value], [parse_elems], [parse_members] over the
      tokens, with fuel;
    - [JSON_parse]: the two, the whole text being one value.

    Literals are [null], [true], [false] and integers: the program stores
    no fractions.  [\uXXXX] escapes decode code units below 256, as
    strings are Latin-1 here.

    The theorem [parse_stringify] shows that [JSON.parse] gives back
    every value [JSON.stringify] writes whose keys are plain; the fuel the
    parser gets, the number of characters or tokens plus one, is enough
    ([lex_render], [parse_tokens]). *)

From S2P Require Import Prelude Model JsString Json.
From Stdlib Require Import Ascii Decimal DecimalPos DecimalZ.

Module JsonParse.
Import Json.

(** ** Characters of string bodies *)

Definition hexVal (c : ascii) : option nat :=
  let n := nat_of_ascii c in
  if (48 <=? n) && (n <=? 57) then Some (n - 48)
  else if (97 <=? n) && (n <=? 102) then Some (n - 87)
  else if (65 <=? n) && (n <=? 70) then Some (n - 55)
  else None.

(** One character of a string body, escaped or not, and the rest of the
    text.  A raw quote ends the body and a raw control character is an
    error. *)
Definition unesc (s : list ascii) : option (ascii * list ascii) :=
  match s with
  | [] => None
  | c :: r =>
      if decide (c = bslash) then
        match r with
        | [] => None
        | e :: r' =>
            if decide (e = quote) then Some (quote, r')
            else if decide (e = bslash) then Some (bslash, r')
            else if decide (e = "/"%char) then Some ("/"%char, r')
            else if decide (e = "b"%char) then Some (ascii_of_nat 8, r')
            else if decide (e = "f"%char) then Some (ascii_of_nat 12, r')
            else if decide (e = "n"%char) then Some (ascii_of_nat 10, r')
            else if decide (e = "r"%char) then Some (ascii_of_nat 13, r')
            else if decide (e = "t"%char) then Some (ascii_of_nat 9, r')
            else if decide (e = "u"%char) then
              match r' with
              | h1 :: h2 :: h3 :: h4 :: r'' =>
                  d1 ← hexVal h1; d2 ← hexVal h2; d3 ← hexVal h3; d4 ← hexVal h4;
                  let n := ((d1 * 16 + d2) * 16 + d3) * 16 + d4 in
                  if n <? 256 then Some (ascii_of_nat n, r'') else None
              | _ => None
              end
            else None
        end
      else if decide (c = quote) then None
      else if nat_of_ascii c <? 32 then None
      else Some (c, r)
  end.

(** Every character, escaped as [JSON.stringify] does, reads back as
    itself: all 256 by evaluation. *)
Lemma unesc_esc_char c r : unesc (esc_char c ++ r) = Some (c, r).
Proof. destruct c as [[] [] [] [] [] [] [] []]; reflexivity. Qed.

(** The body of a string up to its closing quote. *)
Fixpoint lex_string (fuel : nat) (s : list ascii) : option (list ascii * list ascii) :=
  match fuel with
  | 0 => None
  | S f =>
      match s with
      | [] => None
      | c :: r =>
          if decide (c = quote) then Some ([], r)
          else match unesc s with
               | Some (x, r') =>
                   match lex_string f r' with
                   | Some (body, rest) => Some (x :: body, rest)
                   | None => None
                   end
               | None => None
               end
      end
  end.

Lemma lex_string_escape f s rest :
  length s < f → lex_string f (escape s ++ quote :: rest) = Some (s, rest).
Proof.
  revert f. induction s as [|c s IH]; intros f Hf; destruct f as [|f]; simpl in Hf; try lia.
  - reflexivity.
  - rewrite escape_cons, <-app_assoc. destruct (esc_char_quotes c) as [_ Hl].
    pose proof (unesc_esc_char c (escape s ++ quote :: rest)) as Hu.
    destruct (esc_char c) as [|x t] eqn:E; [by destruct (esc_char_nonempty c)|].
    cbn [lex_string]. rewrite Hu, <-app_comm_cons. cbv beta iota. rewrite decide_False.
    + rewrite IH by lia. done.
    + intros ->. unfold lead_ok in Hl. by rewrite bool_decide_true in Hl.
Qed.

(** ** Literals *)

(** The longest run of literal characters. *)
Fixpoint span_lit (s : list ascii) : list ascii * list ascii :=
  match s with
  | c :: r => if decide (lit_char c) then let '(l, r') := span_lit r in (c :: l, r') else ([], s)
  | [] => ([], [])
  end.

(** The decimal digits of a numeral. *)
Fixpoint uint_of_chars (l : list ascii) : option uint :=
  match l with
  | [] => Some Nil
  | c :: r =>
      d ← uint_of_chars r;
      match nat_of_ascii c with
      | 48 => Some (D0 d) | 49 => Some (D1 d) | 50 => Some (D2 d) | 51 => Some (D3 d)
      | 52 => Some (D4 d) | 53 => Some (D5 d) | 54 => Some (D6 d) | 55 => Some (D7 d)
      | 56 => Some (D8 d) | 57 => Some (D9 d)
      | _ => None
      end
  end.

(** An integer literal: an optional minus sign and at least one digit. *)
Definition parse_int (l : list ascii) : option Z :=
  match l with
  | [] => None
  | c :: r =>
      if decide (c = "-"%char) then
        match r with [] => None | _ => d ← uint_of_chars r; Some (Z.of_int (Decimal.Neg d)) end
      else d ← uint_of_chars l; Some (Z.of_int (Decimal.Pos d))
  end.

Definition lit_value (l : list ascii) : option json :=
  if decide (l = JsString.chars "null") then Some JNull
  else if decide (l = JsString.chars "true") then Some (JBool true)
  else if decide (l = JsString.chars "false") then Some (JBool false)
  else JNum <$> parse_int l.

Lemma uint_of_chars_uint_chars d : uint_of_chars (uint_chars d) = Some d.
Proof. induction d; simpl; try rewrite IHd; done. Qed.

Lemma uint_chars_head d : uint_chars d ≠ [] → ∃ c t, uint_chars d = c :: t ∧ 48 ≤ nat_of_ascii c ≤ 57.
Proof. destruct d; simpl; try done; intros _; eexists _, _; (split; [done|apply (bool_decide_unpack _); vm_compute; exact I]). Qed.

Lemma digit_not_lead c : 48 ≤ nat_of_ascii c ≤ 57 → c ≠ "n"%char ∧ c ≠ "t"%char ∧ c ≠ "f"%char ∧ c ≠ "-"%char.
Proof. intros H. split_and!; intros ->; revert H; vm_compute; lia. Qed.

Lemma lit_value_number z : lit_value (number z) = Some (JNum z).
Proof.
  destruct (number_ok z) as [Hn _]. unfold number in *.
  assert (Hz : Z.of_int (Z.to_int z) = z) by apply DecimalZ.of_to.
  destruct (Z.to_int z) as [d|d] eqn:Ez.
  - destruct (uint_chars_head d Hn) as (c & t & Hd & Hc).
    destruct (digit_not_lead c Hc) as (Hn' & Ht & Hf & Hm).
    unfold lit_value. rewrite Hd. unfold JsString.chars. cbn [String.list_ascii_of_string].
    rewrite !decide_False by congruence.
    unfold parse_int. rewrite decide_False by done.
    rewrite <-Hd, uint_of_chars_uint_chars, <-Hz. reflexivity.
  - unfold lit_value. repeat (rewrite decide_False; [|discriminate]).
    unfold parse_int. rewrite decide_True by done.
    destruct (uint_chars d) eqn:Hd.
    + exfalso. destruct d; simpl in Hd; try discriminate.
      vm_compute in Hz. subst z. vm_compute in Ez. discriminate.
    + rewrite <-Hd, uint_of_chars_uint_chars, <-Hz. reflexivity.
Qed.

(** ** The lexer *)

(** The white space JSON allows between tokens. *)
Definition json_ws (c : ascii) : Prop :=
  c = " "%char ∨ nat_of_ascii c = 9 ∨ nat_of_ascii c = 10 ∨ nat_of_ascii c = 13.

#[export] Instance json_ws_dec c : Decision (json_ws c).
Proof. unfold json_ws. apply _. Defined.

Fixpoint lex (fuel : nat) (s : list ascii) : option (list tok) :=
  match fuel with
  | 0 => None
  | S f =>
      match s with
      | [] => Some []
      | c :: r =>
          if decide (json_ws c) then lex f r
          else if decide (punct c) then ts ← lex f r; Some (TPunct c :: ts)
          else if decide (c = quote) then
            match lex_string (length r) r with
            | Some (body, r') => ts ← lex f r'; Some (TStr body :: ts)
            | None => None
            end
          else if decide (lit_char c) then
            let '(l, r') := span_lit s in ts ← lex f r'; Some (TLit l :: ts)
          else None
      end
  end.

Lemma lit_code c : lit_char c → nat_of_ascii c = 45 ∨ 48 ≤ nat_of_ascii c ≤ 57 ∨ 97 ≤ nat_of_ascii c ≤ 122.
Proof. intros [->|H]; [by left|by right]. Qed.

Lemma ws_code c : json_ws c → nat_of_ascii c = 32 ∨ nat_of_ascii c = 9 ∨ nat_of_ascii c = 10 ∨ nat_of_ascii c = 13.
Proof. intros [->|H]; [by left|by right]. Qed.

Lemma punct_cases c : punct c → c = "["%char ∨ c = "]"%char ∨ c = "{"%char ∨ c = "}"%char ∨ c = ":"%char ∨ c = ","%char.
Proof. unfold punct. intros H. repeat (apply elem_of_cons in H as [->|H]; [naive_solver|]). by apply not_elem_of_nil in H. Qed.

Lemma punct_code c : punct c → nat_of_ascii c ∈ [91; 93; 123; 125; 58; 44].
Proof. intros H. apply punct_cases in H. by repeat destruct H as [->|H]; [..|subst c]; vm_compute; set_solver. Qed.

Lemma lit_not_ws c : lit_char c → ¬ json_ws c.
Proof. intros Hl%lit_code Hw%ws_code. lia. Qed.

Lemma punct_not_ws c : punct c → ¬ json_ws c.
Proof. intros Hp%punct_code Hw%ws_code. set_solver by lia. Qed.

Lemma punct_not_lit c : punct c → ¬ lit_char c.
Proof. intros Hp%punct_code Hl%lit_code. set_solver by lia. Qed.

Lemma quote_not_ws : ¬ json_ws quote.
Proof. intros Hw%ws_code. change (nat_of_ascii quote) with 34 in Hw. lia. Qed.

Lemma escape_length s : length s ≤ length (escape s).
Proof.
  induction s as [|c s IH]; [done|]. rewrite escape_cons, length_app.
  pose proof (esc_char_nonempty c). destruct (esc_char c); [done|]. simpl. lia.
Qed.

Lemma span_lit_app l rest :
  Forall lit_char l → (∀ c r, rest = c :: r → ¬ lit_char c) → span_lit (l ++ rest) = (l, rest).
Proof.
  intros Hl Hr. induction Hl as [|c l Hc Hl IH]; simpl.
  - destruct rest as [|c r]; [done|]. simpl. rewrite decide_False; [done|by apply (Hr c r)].
  - by rewrite decide_True, IH.
Qed.

(** The lexer reads back the tokens of well-formed token lists; one unit
    of fuel per character and one more is enough. *)
Lemma lex_render ts f : tokens_ok ts → length (render ts) < f → lex f (render ts) = Some ts.
Proof.
  revert f. induction ts as [|t ts IH]; intros f Hts Hf; destruct f as [|f]; [lia|done|lia|].
  rewrite render_cons in Hf |- *. rewrite length_app in Hf.
  destruct t as [c|s|l]; simpl in Hts.
  - destruct Hts as [Hc Hts]. simpl.
    rewrite decide_False by (by apply punct_not_ws). rewrite decide_True by done.
    rewrite IH by (done || simpl in Hf; lia). done.
  - destruct Hts as [_ Hts]. cbn [render_tok]. rewrite <-app_comm_cons, <-app_assoc. simpl. rewrite lex_string_escape.
    + rewrite IH by (done || simpl in Hf; lia). done.
    + rewrite length_app. simpl. pose proof (escape_length s). lia.
  - destruct Hts as (Hne & Hl & Hn & Hts). destruct l as [|c l']; [done|].
    pose proof (Forall_inv Hl) as Hc. cbn [render_tok]. simpl.
    rewrite decide_False by (by apply lit_not_ws).
    rewrite decide_False by (intros Hp; by apply (punct_not_lit c)).
    rewrite decide_False by (intros ->; by apply (lit_no_quote [quote]); [constructor|left]).
    rewrite decide_True by done. rewrite span_lit_app; [|by apply Forall_inv_tail in Hl|].
    + rewrite decide_True by done. simpl. rewrite IH by (done || simpl in Hf; lia). done.
    + intros c' r' Hr. destruct ts as [|[c''|?|?] ts]; try done.
      rewrite render_cons in Hr. simpl in Hr. injection Hr as <- _.
      apply punct_not_lit. by destruct Hts.
Qed.

(** ** The parser *)

Fixpoint parse_value (fuel : nat) (ts : list tok) : option (json * list tok) :=
  match fuel with
  | 0 => None
  | S f =>
      match ts with
      | TLit l :: r => v ← lit_value l; Some (v, r)
      | TStr s :: r => Some (JStr (JsString.of_chars s), r)
      | TPunct c :: r =>
          if decide (c = "["%char) then
            match r with
            | TPunct "]" :: r' => Some (JArr [], r')
            | _ => '(vs, r') ← parse_elems f r; Some (JArr vs, r')
            end
          else if decide (c = "{"%char) then
            match r with
            | TPunct "}" :: r' => Some (JObj [], r')
            | _ => '(kvs, r') ← parse_members f r; Some (JObj kvs, r')
            end
          else None
      | [] => None
      end
  end
(** The elements of a non-empty array and its closing bracket. *)
with parse_elems (fuel : nat) (ts : list tok) : option (list json * list tok) :=
  match fuel with
  | 0 => None
  | S f =>
      '(v, r) ← parse_value f ts;
      match r with
      | TPunct "," :: r' => '(vs, r'') ← parse_elems f r'; Some (v :: vs, r'')
      | TPunct "]" :: r' => Some ([v], r')
      | _ => None
      end
  end
(** The members of a non-empty object and its closing brace. *)
with parse_members (fuel : nat) (ts : list tok) : option (list (string * json) * list tok) :=
  match fuel with
  | 0 => None
  | S f =>
      match ts with
      | TStr k :: TPunct ":" :: r =>
          '(v, r') ← parse_value f r;
          match r' with
          | TPunct "," :: r'' => '(kvs, r3) ← parse_members f r''; Some ((JsString.of_chars k, v) :: kvs, r3)
          | TPunct "}" :: r'' => Some ([(JsString.of_chars k, v)], r'')
          | _ => None
          end
      | _ => None
      end
  end.

(** [JSON.parse(text)]: [None] where it throws. *)
Definition JSON_parse (text : list ascii) : option json :=
  ts ← lex (S (length text)) text;
  '(v, r) ← parse_value (S (length ts)) ts;
  match r with [] => Some v | _ => None end.

(** ** The round trip *)

Lemma of_chars_chars (k : string) : JsString.of_chars (JsString.chars k) = k.
Proof. apply String.string_of_list_ascii_of_string. Qed.

Lemma join_fmap_cons2 {A} (g : A → list tok) x y ls :
  join (g <$> x :: y :: ls) = g x ++ TPunct "," :: join (g <$> y :: ls).
Proof. reflexivity. Qed.

Section RoundTrip.

(** The parser reads a value back from its tokens, with any tokens after
    it, given more fuel than tokens. *)
Definition reads_back (v : json) : Prop :=
  ∀ f rest, length (tokens v) < f → parse_value f (tokens v ++ rest) = Some (v, rest).

Lemma parse_elems_cons f v r :
  reads_back v → length (tokens v) < f →
  parse_elems (S f) (tokens v ++ r) =
    match r with
    | TPunct "," :: r' => '(vs, r'') ← parse_elems f r'; Some (v :: vs, r'')
    | TPunct "]" :: r' => Some ([v], r')
    | _ => None
    end.
Proof. intros Hv Hf. cbn [parse_elems]. by rewrite Hv. Qed.

Lemma parse_members_cons f k v r :
  reads_back v → length (tokens v) < f →
  parse_members (S f) (member_tokens k (tokens v) ++ r) =
    match r with
    | TPunct "," :: r'' => '(kvs, r3) ← parse_members f r''; Some ((k, v) :: kvs, r3)
    | TPunct "}" :: r'' => Some ([(k, v)], r'')
    | _ => None
    end.
Proof.
  intros Hv Hf. unfold member_tokens. rewrite <-!app_comm_cons. simpl. rewrite Hv by done. simpl.
  by rewrite String.string_of_list_ascii_of_string.
Qed.

Lemma parse_elems_join vs f rest :
  vs ≠ [] → Forall reads_back vs → S (length (join (tokens <$> vs))) < f →
  parse_elems f (join (tokens <$> vs) ++ TPunct "]" :: rest) = Some (vs, rest).
Proof.
  intros Hne Hvs. revert f. induction Hvs as [|v vs Hv Hvs IH]; [done|]. intros [|f] Hf; [lia|].
  destruct vs as [|v2 vs].
  - change (join (tokens <$> [v])) with (tokens v) in Hf |- *.
    rewrite parse_elems_cons by (done || lia). reflexivity.
  - rewrite join_fmap_cons2 in Hf |- *. rewrite <-app_assoc. rewrite length_app, length_cons in Hf.
    rewrite parse_elems_cons by (done || lia). rewrite <-app_comm_cons. cbv beta iota. rewrite IH by (done || lia). reflexivity.
Qed.

Lemma parse_members_join kvs f rest :
  kvs ≠ [] → Forall (λ kv, reads_back kv.2) kvs →
  S (length (join ((λ kv, member_tokens kv.1 (tokens kv.2)) <$> kvs))) < f →
  parse_members f (join ((λ kv, member_tokens kv.1 (tokens kv.2)) <$> kvs) ++ TPunct "}" :: rest) = Some (kvs, rest).
Proof.
  intros Hne Hkvs. revert f. induction Hkvs as [|[k v] kvs Hv Hkvs IH]; [done|]. intros [|f] Hf; [lia|].
  destruct kvs as [|kv2 kvs].
  - change (join ((λ kv, member_tokens kv.1 (tokens kv.2)) <$> [(k, v)])) with (member_tokens k (tokens v)) in Hf |- *.
    unfold member_tokens at 1 in Hf. rewrite !length_cons in Hf.
    rewrite parse_members_cons by (done || lia). reflexivity.
  - rewrite join_fmap_cons2 in Hf |- *. rewrite <-app_assoc. rewrite length_app, length_cons in Hf.
    unfold member_tokens at 1 in Hf. rewrite !length_cons in Hf.
    rewrite parse_members_cons by (done || lia). rewrite <-app_comm_cons. cbv beta iota. rewrite IH by (done || lia). reflexivity.
Qed.

Lemma join_cons_app x xs : ∃ K, join (x :: xs) = x ++ K.
Proof. destruct xs as [|y xs]; [exists []; by rewrite app_nil_r|by eexists]. Qed.

(** Every value reads back from its tokens. *)
Lemma parse_tokens v : reads_back v.
Proof.
  induction v as [| | | |vs IH|kvs IH] using json_ind'; intros [|f] rest Hf; try (simpl in Hf; lia).
  - reflexivity.
  - by destruct b.
  - cbn [tokens Datatypes.app parse_value]. by rewrite lit_value_number.
  - cbn [tokens Datatypes.app parse_value]. by rewrite of_chars_chars.
  - cbn [tokens] in *. rewrite length_cons, length_app in Hf. simpl in Hf.
    rewrite <-app_comm_cons, <-app_assoc. cbn [Datatypes.app].
    destruct vs as [|v vs]; [reflexivity|].
    assert (Hpe := parse_elems_join (v :: vs) f rest ltac:(done) IH ltac:(lia)).
    change (tokens <$> v :: vs) with (tokens v :: (tokens <$> vs)) in Hpe |- *.
    destruct (join_cons_app (tokens v) (tokens <$> vs)) as [K HK]. rewrite HK in Hpe |- *.
    destruct (tokens_first v) as [r0 Hr0]. rewrite Hr0 in Hpe |- *.
    rewrite <-!app_comm_cons in Hpe |- *.
    destruct v; simpl in Hr0, Hpe |- *; rewrite Hpe; reflexivity.
  - cbn [tokens] in *. rewrite length_cons, length_app in Hf. simpl in Hf.
    rewrite <-app_comm_cons, <-app_assoc. cbn [Datatypes.app].
    destruct kvs as [|[k v] kvs]; [reflexivity|].
    assert (Hpe := parse_members_join ((k, v) :: kvs) f rest ltac:(done) IH ltac:(lia)).
    change ((λ kv, member_tokens kv.1 (tokens kv.2)) <$> (k, v) :: kvs)
      with (member_tokens k (tokens v) :: ((λ kv, member_tokens kv.1 (tokens kv.2)) <$> kvs)) in Hpe |- *.
    destruct (join_cons_app (member_tokens k (tokens v)) ((λ kv, member_tokens kv.1 (tokens kv.2)) <$> kvs))
      as [K HK]. rewrite HK in Hpe |- *.
    unfold member_tokens at 1 in Hpe. unfold member_tokens at 1.
    rewrite <-!app_comm_cons in Hpe |- *. simpl. rewrite Hpe. reflexivity.
Qed.

(** [JSON.parse(JSON.stringify(v))] gives back every value whose keys are
    plain. *)
Lemma parse_stringify v : keys_ok v = true → JSON_parse (stringify v) = Some v.
Proof.
  intros Hv. unfold JSON_parse, stringify. rewrite lex_render by auto using tokens_ok_tokens.
  pose proof (parse_tokens v (S (length (tokens v))) [] ltac:(lia)) as H. rewrite app_nil_r in H.
  cbn [mbind option_bind]. by rewrite H.
Qed.

End RoundTrip.

End JsonParse.
