(* ===== verification/MatchJson.v ===== *)
(** * The JSON text of a stored match

    The Redis repository keeps a match as the text
    [JSON.stringify(match)] under [match:<id>] (redisMatchRepository.ts
    line 54) and gives back [JSON.parse(text) as InternalMatch] (lines
    45, 79, 103 and 118); the handlers then read its properties by name.
    [Store] keeps the match itself.  This file shows that nothing is lost
    on the way:

    - [matchJson] is the object the program stores, its properties in
      the order the object literals of matches.ts (lines 104-118 and
      225-251) create them, [payoutAt] added by the settlement; a player
      is [Json.playerJson];
    - [matchOfJson] reads the properties back: a missing property is
      [undefined], instants are read with [new Date(s).getTime()]
      ([JsDate.parse]);
    - [redis_roundtrip]: for every match whose instants lie in years 0 to
      9999, reading the parsed text gives the match back. *)

From S2P Require Import Prelude Model JsString JsDate Json JsonParse.
From Stdlib Require Import Ascii.

Module MatchJson.
Import Json.

(** ** Encoding *)

(** A property holding [string | null]. *)
Definition nullable {A} (f : A → json) (o : option A) : json :=
  match o with Some x => f x | None => JNull end.

Definition statusStr (s : Status) : string :=
  match s with waiting => "waiting" | started => "started" | completed => "completed" end.

Definition boardJson (b : Board) : json := JArr ((λ row, JArr (JStr <$> row)) <$> b).

Definition matchMembers (m : InternalMatch.t) : list (string * json) :=
  [("id", JStr m.(InternalMatch.id)); ("lobbyType", JStr m.(InternalMatch.lobbyType));
   ("board", boardJson m.(InternalMatch.board)); ("createdAt", iso m.(InternalMatch.createdAt));
   ("startedAt", nullable iso m.(InternalMatch.startedAt)); ("endedAt", nullable iso m.(InternalMatch.endedAt));
   ("entryFee", JNum m.(InternalMatch.entryFee)); ("prizePool", JNum m.(InternalMatch.prizePool));
   ("gameDuration", JNum m.(InternalMatch.gameDuration)); ("players", playersJson m.(InternalMatch.players));
   ("status", JStr (statusStr m.(InternalMatch.status))); ("autoCompleteAt", iso m.(InternalMatch.autoCompleteAt))] ++
  opt "payoutAt" iso m.(InternalMatch.payoutAt).

(** The value [JSON.stringify(match)] writes. *)
Definition matchJson (m : InternalMatch.t) : json := JObj (matchMembers m).

(** ** Decoding *)

(** [obj[k]]: the last member with that key, as [JSON.parse] keeps the
    last of duplicate keys. *)
Definition prop (k : string) (kvs : list (string * json)) : option json :=
  (λ kv, kv.2) <$> last (filter (λ kv, kv.1 = k) kvs).

Definition str_of (v : json) : option string := match v with JStr s => Some s | _ => None end.
Definition num_of (v : json) : option Z := match v with JNum z => Some z | _ => None end.
Definition bool_of (v : json) : option bool := match v with JBool b => Some b | _ => None end.

(** [new Date(s).getTime()] of a string property. *)
Definition time_of (v : json) : option Z := str_of v ≫= JsDate.parse.

(** A property that may be [undefined] or [null]. *)
Definition opt_of {A} (f : json → option A) (o : option json) : option (option A) :=
  match o with None | Some JNull => Some None | Some v => Some <$> f v end.

Definition list_of {A} (f : json → option A) (v : json) : option (list A) :=
  match v with JArr vs => mapM f vs | _ => None end.

Definition status_of (v : json) : option Status :=
  s ← str_of v;
  if bool_decide (s = "waiting") then Some waiting
  else if bool_decide (s = "started") then Some started
  else if bool_decide (s = "completed") then Some completed
  else None.

Definition playerOfJson (v : json) : option MatchPlayer.t :=
  match v with
  | JObj kvs =>
      i ← prop "id" kvs ≫= str_of; n ← prop "name" kvs ≫= str_of;
      ws ← prop "words" kvs ≫= list_of str_of; sc ← prop "score" kvs ≫= num_of;
      wsc ← opt_of num_of (prop "wordScore" kvs); tb ← opt_of num_of (prop "timeBonus" kvs);
      j ← prop "joinedAt" kvs ≫= time_of; dl ← opt_of time_of (prop "deadlineAt" kvs);
      pe ← prop "paidEntry" kvs ≫= bool_of; sa ← opt_of time_of (prop "submittedAt" kvs);
      rk ← opt_of (λ v, Z.to_nat <$> num_of v) (prop "rank" kvs);
      wn ← opt_of num_of (prop "winnings" kvs);
      Some (MatchPlayer.mk i n ws sc wsc tb j dl pe sa rk wn)
  | _ => None
  end.

Definition matchOfJson (v : json) : option InternalMatch.t :=
  match v with
  | JObj kvs =>
      i ← prop "id" kvs ≫= str_of; lt ← prop "lobbyType" kvs ≫= str_of;
      b ← prop "board" kvs ≫= list_of (list_of str_of); c ← prop "createdAt" kvs ≫= time_of;
      st ← opt_of time_of (prop "startedAt" kvs); en ← opt_of time_of (prop "endedAt" kvs);
      fee ← prop "entryFee" kvs ≫= num_of; pool ← prop "prizePool" kvs ≫= num_of;
      dur ← prop "gameDuration" kvs ≫= num_of; ps ← prop "players" kvs ≫= list_of playerOfJson;
      s ← prop "status" kvs ≫= status_of; ac ← prop "autoCompleteAt" kvs ≫= time_of;
      pa ← opt_of time_of (prop "payoutAt" kvs);
      Some (InternalMatch.mk i lt b c st en fee pool dur ps s ac pa)
  | _ => None
  end.

(** [JSON.parse(matchData) as InternalMatch], read by property. *)
Definition readMatch (text : list ascii) : option InternalMatch.t := JsonParse.JSON_parse text ≫= matchOfJson.

(** ** Reading back what was written *)

(** The instants [toISOString] writes with a four-digit year. *)
Definition opt_time_ok (o : option Z) : Prop :=
  match o with Some t => JsDate.four_digit_year t | None => True end.

Definition player_times_ok (p : MatchPlayer.t) : Prop :=
  JsDate.four_digit_year p.(MatchPlayer.joinedAt) ∧ opt_time_ok p.(MatchPlayer.deadlineAt) ∧
  opt_time_ok p.(MatchPlayer.submittedAt).

Definition match_times_ok (m : InternalMatch.t) : Prop :=
  JsDate.four_digit_year m.(InternalMatch.createdAt) ∧ opt_time_ok m.(InternalMatch.startedAt) ∧
  opt_time_ok m.(InternalMatch.endedAt) ∧ JsDate.four_digit_year m.(InternalMatch.autoCompleteAt) ∧
  opt_time_ok m.(InternalMatch.payoutAt) ∧ Forall player_times_ok m.(InternalMatch.players).

Lemma time_of_iso t : JsDate.four_digit_year t → time_of (iso t) = Some t.
Proof. apply JsDate.iso_roundtrip. Qed.

Lemma mapM_strs ws : mapM str_of (JStr <$> ws) = Some ws.
Proof. by apply mapM_fmap_Some. Qed.

Lemma list_of_strs ws : list_of str_of (JArr (JStr <$> ws)) = Some ws.
Proof. apply mapM_strs. Qed.

Lemma list_of_board b : list_of (list_of str_of) (boardJson b) = Some b.
Proof. apply mapM_fmap_Some. intros row. apply list_of_strs. Qed.

Lemma status_of_statusStr s : status_of (JStr (statusStr s)) = Some s.
Proof. by destruct s. Qed.

(** The property reads of a player object, one per key. *)
Lemma player_props p :
  prop "id" (playerMembers p) = Some (JStr p.(MatchPlayer.id)) ∧
  prop "name" (playerMembers p) = Some (JStr p.(MatchPlayer.name)) ∧
  prop "words" (playerMembers p) = Some (JArr (JStr <$> p.(MatchPlayer.words))) ∧
  prop "score" (playerMembers p) = Some (JNum p.(MatchPlayer.score)) ∧
  prop "wordScore" (playerMembers p) = JNum <$> p.(MatchPlayer.wordScore) ∧
  prop "timeBonus" (playerMembers p) = JNum <$> p.(MatchPlayer.timeBonus) ∧
  prop "joinedAt" (playerMembers p) = Some (iso p.(MatchPlayer.joinedAt)) ∧
  prop "deadlineAt" (playerMembers p) = iso <$> p.(MatchPlayer.deadlineAt) ∧
  prop "paidEntry" (playerMembers p) = Some (JBool p.(MatchPlayer.paidEntry)) ∧
  prop "submittedAt" (playerMembers p) = iso <$> p.(MatchPlayer.submittedAt) ∧
  prop "rank" (playerMembers p) = (λ r, JNum (Z.of_nat r)) <$> p.(MatchPlayer.rank) ∧
  prop "winnings" (playerMembers p) = JNum <$> p.(MatchPlayer.winnings).
Proof.
  destruct p as [i n ws sc wsc tb j dl pe sa rk wn].
  destruct wsc, tb, dl, sa, rk, wn; split_and!; reflexivity.
Qed.

Lemma opt_of_num o : opt_of num_of (JNum <$> o) = Some o.
Proof. by destruct o. Qed.

Lemma opt_of_rank o : opt_of (λ v, Z.to_nat <$> num_of v) ((λ r, JNum (Z.of_nat r)) <$> o) = Some o.
Proof. destruct o; simpl; by rewrite ?Nat2Z.id. Qed.

Lemma opt_of_time o : opt_time_ok o → opt_of time_of (iso <$> o) = Some o.
Proof.
  destruct o as [t|]; [|done]. intros H.
  change (opt_of time_of (iso <$> Some t)) with (Some <$> time_of (iso t)). by rewrite (time_of_iso t H).
Qed.

Local Opaque JsDate.parse JsDate.toISOString.

Lemma playerOfJson_playerJson p : player_times_ok p → playerOfJson (playerJson p) = Some p.
Proof.
  intros (Hj & Hdl & Hsa). destruct (player_props p) as (E1 & E2 & E3 & E4 & E5 & E6 & E7 & E8 & E9 & E10 & E11 & E12).
  unfold playerOfJson, playerJson. cbv beta iota.
  rewrite E1, E2, E3, E4, E5, E6, E7, E8, E9, E10, E11, E12, !opt_of_num, opt_of_rank, (opt_of_time _ Hdl), (opt_of_time _ Hsa).
  cbn [mbind option_bind]. rewrite (time_of_iso _ Hj), list_of_strs. by destruct p.
Qed.

Lemma list_of_players ps : Forall player_times_ok ps → list_of playerOfJson (playersJson ps) = Some ps.
Proof.
  intros Hps. apply mapM_fmap_Forall_Some. eapply Forall_impl; [exact Hps|]. apply playerOfJson_playerJson.
Qed.

Lemma matchOfJson_matchJson m : match_times_ok m → matchOfJson (matchJson m) = Some m.
Proof.
  destruct m as [i lt b c st en fee pool dur ps s ac pa]. intros (Hc & Hst & Hen & Hac & Hpa & Hps).
  simpl in *. assert (Hp : mapM playerOfJson (playerJson <$> ps) = Some ps) by exact (list_of_players ps Hps).
  assert (Hb : mapM (list_of str_of) ((λ row, JArr (JStr <$> row)) <$> b) = Some b) by exact (list_of_board b).
  repeat match goal with
  | H : opt_time_ok ?o |- _ => destruct o; simpl in H
  end;
  unfold prop; simpl;
  repeat match goal with
  | H : JsDate.four_digit_year ?t |- _ => rewrite (time_of_iso t H); clear H
  end;
  rewrite ?Hb, ?status_of_statusStr, Hp; simpl; reflexivity.
Qed.

Lemma keys_ok_board b : keys_ok (boardJson b) = true.
Proof.
  induction b as [|row b IH]; [done|].
  change (keys_ok (JArr (JStr <$> row)) && keys_ok (boardJson b) = true). by rewrite keys_ok_strs, IH.
Qed.

Lemma keys_ok_JObj kvs :
  Forall (λ kv, plain (JsString.chars kv.1) ∧ keys_ok kv.2 = true) kvs → keys_ok (JObj kvs) = true.
Proof.
  induction 1 as [|[k v] kvs [Hk Hv] _ IH]; [done|]. simpl in Hk, Hv.
  change (bool_decide (plain (JsString.chars k)) && keys_ok v && keys_ok (JObj kvs) = true).
  by rewrite bool_decide_true, Hv, IH.
Qed.

Lemma keys_ok_matchJson m : keys_ok (matchJson m) = true.
Proof.
  pose proof (keys_ok_board m.(InternalMatch.board)) as Hb.
  pose proof (keys_ok_playersJson m.(InternalMatch.players)) as Hp.
  apply keys_ok_JObj. unfold matchMembers.
  destruct m.(InternalMatch.startedAt), m.(InternalMatch.endedAt), m.(InternalMatch.payoutAt); simpl;
    repeat (constructor; [split; [apply (bool_decide_unpack _); vm_compute; exact I|try done]|]); constructor.
Qed.

(** The Redis text of a match reads back as the match: for every
    match whose instants lie in years 0 to 9999, [JSON.parse] of the text
    [JSON.stringify(match)] the repository stores, read by property,
    gives back every field of the match, its players and its board, so
    the repository loses nothing between [save] and [get]. *)
Theorem redis_roundtrip m : match_times_ok m → readMatch (stringify (matchJson m)) = Some m.
Proof.
  intros Hm. unfold readMatch. rewrite JsonParse.parse_stringify by apply keys_ok_matchJson.
  by apply matchOfJson_matchJson.
Qed.

(** A waiting match of two players, one of whom has submitted; Bob's
    name holds a backslash, which [JSON.stringify] escapes. *)
Definition demo_match : InternalMatch.t :=
  InternalMatch.mk "duo-lx1" "duo" [["A"; "B"]; ["QU"; "E"]] 1700000000000 None None 100 180 60
    [MatchPlayer.mk "alice" "Alice" ["ABE"] 9 (Some 9%Z) (Some 0%Z) 1700000000000 (Some 1700000060000%Z) true
       (Some 1700000030000%Z) None None;
     MatchPlayer.mk "bob" "Bob\x" [] 0 None None 1700000001000 (Some 1700000061000%Z) true None None None]
    waiting 1700003600000 None.

Lemma redis_roundtrip_witness :
  match_times_ok demo_match ∧ readMatch (stringify (matchJson demo_match)) = Some demo_match.
Proof.
  assert (H : match_times_ok demo_match).
  { unfold match_times_ok, player_times_ok, JsDate.four_digit_year. simpl.
    split_and!; try lia.
    repeat (apply List.Forall_cons; [unfold opt_time_ok, JsDate.four_digit_year; simpl; split_and!; lia|]).
    apply List.Forall_nil. }
  split; [exact H|exact (redis_roundtrip demo_match H)].
Defined.

End MatchJson.
