(* ===== verification/WordValidation.v ===== *)
(** * Word legality on the board (src/backend/src/utils/wordValidation.ts)

    [canFormWordOnBoard board rawWord] searches, from every cell, a path of
    8-neighbour cells used at most once whose tokens, each consumed whole,
    spell the upper-cased word.  The recursive [dfs] marks the current cell
    visited for the duration of its branch; here the visited set is passed
    down as a list, which is the same as the code's mark-and-unmark since a
    branch always restores the array before returning.  The code has no
    fuel: each call adds a cell to the visited set, so the depth is at most
    [rows * cols], the fuel [canFormWordOnBoard] gives ([dfs_complete],
    [path_length_le]).  Reading a cell missing from a short row is the
    TypeError of [token.length] on [undefined]: [None]. *)

From S2P Require Import Prelude Model JsString.
From Stdlib Require Import Ascii.

Module WordValidation.

Abbreviation cellpos := (Z * Z)%type.

(** [board[r][c]] for [0 <= r < rows], [0 <= c < cols]. *)
Definition cell (board : Board) (rc : cellpos) : option string :=
  board !! Z.to_nat rc.1 ≫= λ row, row !! Z.to_nat rc.2.

(** [tokenMatchesAtIndex] (lines 18-26). *)
Definition tokenMatchesAtIndex (word token : list ascii) (index : nat) : bool :=
  if bool_decide (length word < index + length token) then false
  else forallb (λ i, bool_decide (word !! (index + i) = token !! i))
         (seq 0 (length token)).

(** The two nested [for] loops over [dr] and [dc], skipping [(0, 0)]. *)
Definition offsets : list cellpos :=
  filter (λ d, d ≠ (0, 0)%Z) (list_prod [-1; 0; 1] [-1; 0; 1])%Z.

(** [dfs(r, c, index)] (lines 28-53) with the visited cells as a list. *)
Fixpoint dfs (board : Board) (word : list ascii) (rows cols : Z) (fuel : nat)
    (visited : list cellpos) (rc : cellpos) (index : nat) : option bool :=
  match fuel with
  | O => Some false
  | S f =>
      match cell board rc with
      | None => None
      | Some token =>
          if negb (tokenMatchesAtIndex word (JsString.chars token) index) then Some false
          else
            let nextIndex := index + length (JsString.chars token) in
            if bool_decide (nextIndex = length word) then Some true
            else
              exists_opt (λ d : cellpos,
                  let n := (rc.1 + d.1, rc.2 + d.2)%Z in
                  if bool_decide (n.1 < 0 ∨ rows ≤ n.1 ∨ n.2 < 0 ∨ cols ≤ n.2)%Z
                  then Some false
                  else if bool_decide (n ∈ rc :: visited) then Some false
                  else dfs board word rows cols f (rc :: visited) n nextIndex)
                offsets
      end
  end.

(** All cells in row-major order: the two outer [for] loops. *)
Definition grid_cells (rows cols : nat) : list cellpos :=
  (λ rc : nat * nat, (Z.of_nat rc.1, Z.of_nat rc.2)) <$> list_prod (seq 0 rows) (seq 0 cols).

(** [canFormWordOnBoard] (lines 1-62). *)
Definition canFormWordOnBoard (board : Board) (rawWord : string) : option bool :=
  match board with
  | [] => Some false
  | row0 :: _ =>
      let word := JsString.toUpperCase (JsString.chars rawWord) in
      if bool_decide (length word < 1) then Some false
      else
        let rows := length board in
        let cols := length row0 in
        if bool_decide (cols = 0) then Some false
        else exists_opt (λ rc, dfs board word (Z.of_nat rows) (Z.of_nat cols)
                                   (rows * cols) [] rc 0)
               (grid_cells rows cols)
  end.

(** ** Specification: a legal word is spelled by a path on the board *)

Definition board_rows (board : Board) : nat := length board.
Definition board_cols (board : Board) : nat :=
  match board with [] => 0 | row0 :: _ => length row0 end.

(** The grid the code searches ([rows] from the board, [cols] from row 0). *)
Definition in_grid (rows cols : Z) (p : cellpos) : Prop :=
  (0 ≤ p.1 < rows ∧ 0 ≤ p.2 < cols)%Z.

(** One of the eight neighbours. *)
Definition adjacent (a b : cellpos) : Prop :=
  a ≠ b ∧ (Z.abs (a.1 - b.1) ≤ 1 ∧ Z.abs (a.2 - b.2) ≤ 1)%Z.

Fixpoint chain (l : list cellpos) : Prop :=
  match l with
  | a :: ((b :: _) as l') => adjacent a b ∧ chain l'
  | _ => True
  end.

(** The tokens of the cells, read whole, spell [w]. *)
Definition spells (board : Board) (cells : list cellpos) (w : list ascii) : Prop :=
  ∃ toks, Forall2 (λ p t, cell board p = Some t) cells toks ∧
          w = concat (JsString.chars <$> toks).

Definition board_path (board : Board) (cells : list cellpos) (w : list ascii) : Prop :=
  NoDup cells ∧
  Forall (in_grid (Z.of_nat (board_rows board)) (Z.of_nat (board_cols board))) cells ∧
  chain cells ∧ spells board cells w.

(** A word is legal on a board when it is non-empty and some non-empty
    path of adjacent, pairwise distinct cells spells it. *)
Definition legal (board : Board) (w : list ascii) : Prop :=
  w ≠ [] ∧ ∃ cells, cells ≠ [] ∧ board_path board cells w.

(** Every row has the length of row 0 (boards of [generateDiceBoard] do). *)
Definition rectangular (board : Board) : Prop :=
  Forall (λ row, length row = board_cols board) board.

(** ** Token matching *)

Lemma tokenMatchesAtIndex_spec word token index :
  tokenMatchesAtIndex word token index = true ↔
  index ≤ length word ∧ ∃ rest, drop index word = token ++ rest.
Proof.
  unfold tokenMatchesAtIndex. case_bool_decide as Hlen.
  - split; [done|]. intros [Hi [rest Hd]].
    apply (f_equal length) in Hd. rewrite length_drop, length_app in Hd. lia.
  - rewrite forallb_forall. split.
    + intros Hall. split; [lia|]. exists (drop (index + length token) word).
      apply list_eq. intros j. rewrite lookup_drop, lookup_app.
      destruct (token !! j) as [t|] eqn:Ht.
      * apply lookup_lt_Some in Ht as Hj.
        assert (In j (seq 0 (length token))) as Hin by (apply in_seq; lia).
        specialize (Hall j Hin). apply bool_decide_eq_true in Hall.
        by rewrite Hall, Ht.
      * apply lookup_ge_None_1 in Ht. rewrite lookup_drop. f_equal. lia.
    + intros [_ [rest Hd]] j Hj. apply in_seq in Hj.
      apply bool_decide_eq_true.
      rewrite <- lookup_drop, Hd, lookup_app_l by lia. done.
Qed.

Lemma offsets_spec d : d ∈ offsets ↔ d ≠ (0, 0)%Z ∧ (Z.abs d.1 ≤ 1 ∧ Z.abs d.2 ≤ 1)%Z.
Proof.
  unfold offsets. rewrite list_elem_of_filter, list_elem_of_In.
  destruct d as [a b]. rewrite in_prod_iff. simpl.
  split.
  - intros [Hne [Ha Hb]]. split; [done|].
    destruct_or! Ha; destruct_or! Hb; subst; simpl; lia.
  - intros [? [Ha Hb]]. split; [done|]. split; lia.
Qed.

Lemma cell_in_grid board p :
  rectangular board →
  in_grid (Z.of_nat (board_rows board)) (Z.of_nat (board_cols board)) p →
  ∃ t, cell board p = Some t.
Proof.
  intros Hrect [[Hr1 Hr2] [Hc1 Hc2]]. unfold cell, board_rows in *.
  destruct (lookup_lt_is_Some_2 board (Z.to_nat p.1)) as [row Hrow]; [lia|].
  rewrite Hrow. simpl.
  assert (length row = board_cols board) as Hl.
  { unfold rectangular in Hrect. rewrite Forall_forall in Hrect.
    apply Hrect. by eapply list_elem_of_lookup_2. }
  apply lookup_lt_is_Some_2. lia.
Qed.

(** ** The search *)

Section Dfs.
Context (board : Board) (word : list ascii).

Local Notation R := (Z.of_nat (board_rows board)).
Local Notation C := (Z.of_nat (board_cols board)).
Local Notation search := (dfs board word R C).

(** The branch taken for one neighbour offset. *)
Lemma dfs_S f V rc i :
  search (S f) V rc i =
  match cell board rc with
  | None => None
  | Some token =>
      if negb (tokenMatchesAtIndex word (JsString.chars token) i) then Some false
      else if bool_decide (i + length (JsString.chars token) = length word) then Some true
      else exists_opt (λ d : cellpos,
             let n := (rc.1 + d.1, rc.2 + d.2)%Z in
             if bool_decide (n.1 < 0 ∨ R ≤ n.1 ∨ n.2 < 0 ∨ C ≤ n.2)%Z then Some false
             else if bool_decide (n ∈ rc :: V) then Some false
             else search f (rc :: V) n (i + length (JsString.chars token))) offsets
  end.
Proof. reflexivity. Qed.

(** On a rectangular board the search never reads a missing cell. *)
Lemma dfs_defined f V rc i :
  rectangular board → in_grid R C rc → search f V rc i ≠ None.
Proof.
  intros Hrect. revert V rc i. induction f as [|f IH]; intros V rc i Hg; [done|].
  rewrite dfs_S. destruct (cell_in_grid _ _ Hrect Hg) as [t ->].
  destruct (negb _); [done|]. case_bool_decide; [done|].
  apply exists_opt_defined. intros d _. simpl.
  repeat case_bool_decide; try done. apply IH. unfold in_grid. simpl. lia.
Qed.

Lemma drop_token i (t rest : list ascii) :
  drop i word = t ++ rest → drop (i + length t) word = rest.
Proof.
  intros Hd. rewrite <- drop_drop, Hd. by rewrite drop_app_length.
Qed.

(** Soundness: a successful search from [rc] traces a path that avoids the
    visited cells and spells the rest of the word. *)
Lemma dfs_sound f V rc i :
  in_grid R C rc → rc ∉ V → search f V rc i = Some true →
  ∃ cells, board_path board (rc :: cells) (drop i word) ∧
           Forall (λ p, p ∉ V) (rc :: cells).
Proof.
  revert V rc i. induction f as [|f IH]; intros V rc i Hg Hv H; [done|].
  rewrite dfs_S in H. destruct (cell board rc) as [t|] eqn:Ht; [|done].
  destruct (tokenMatchesAtIndex _ _ _) eqn:Hm; cbn [negb] in H; [|done].
  apply tokenMatchesAtIndex_spec in Hm as [Hi [rest Hd]].
  pose proof (drop_token _ _ _ Hd) as Hnext.
  case_bool_decide as Hn.
  - exists []. assert (rest = []) as ->.
    { apply (f_equal length) in Hd. rewrite length_drop, length_app in Hd.
      destruct rest; [done|simpl in Hd; lia]. }
    split; [|by repeat constructor].
    split; [apply NoDup_singleton|]. split; [by apply Forall_singleton|]. split; [done|].
    exists [t]. split; [by repeat constructor|]. simpl. by rewrite Hd, app_nil_r.
  - apply exists_opt_true_inv in H as (d & Hd' & Hb). simpl in Hb.
    repeat case_bool_decide; try done.
    set (n := (rc.1 + d.1, rc.2 + d.2)%Z) in *.
    destruct (IH (rc :: V) n (i + length (JsString.chars t))) as (cells & [Hnd [Hgr [Hch [toks [Hf2 Hsp]]]]] & Hav);
      [unfold in_grid; simpl; lia|done|done|].
    apply offsets_spec in Hd' as [Hd0 Hd1].
    exists (n :: cells). split; [split; [|split; [|split]]|].
    + constructor; [|done]. intros Hin. apply Forall_cons_1 in Hav as [Hn' Hav].
      apply elem_of_cons in Hin as [<-|Hin]; [set_solver|].
      eapply Forall_forall in Hav; [|exact Hin]. set_solver.
    + by constructor.
    + split; [|done]. split.
      * intros Heq. apply Hd0. destruct d as [d1 d2]. subst n.
        pose proof (f_equal fst Heq) as H1. pose proof (f_equal snd Heq) as H2.
        simpl in H1, H2. f_equal; lia.
      * subst n. simpl. lia.
    + exists (t :: toks). split; [by constructor|].
      simpl. rewrite Hd, <- Hnext, Hsp. done.
    + constructor; [done|]. eapply Forall_impl; [exact Hav|]. set_solver.
Qed.

(** Completeness: a path avoiding the visited cells that spells the rest
    of the word is found, given fuel for its length. *)
Lemma dfs_complete f V rc cells i :
  rectangular board →
  board_path board (rc :: cells) (drop i word) →
  Forall (λ p, p ∉ V) (rc :: cells) →
  (length (rc :: cells) ≤ f)%nat → (i ≤ length word)%nat →
  search f V rc i = Some true.
Proof.
  intros Hrect. revert V rc cells i.
  induction f as [|f IH]; intros V rc cells i [Hnd [Hgr [Hch [toks [Hf2 Hsp]]]]] Hav Hlen Hi;
    [simpl in Hlen; lia|].
  rewrite dfs_S. apply Forall2_cons_inv_l in Hf2 as (t & toks' & Ht & Hf2 & ->).
  rewrite Ht. simpl in Hsp.
  rewrite (proj2 (tokenMatchesAtIndex_spec _ _ _)) by eauto. cbn [negb].
  pose proof (drop_token _ _ _ Hsp) as Hnext.
  case_bool_decide as Hn; [done|].
  destruct cells as [|n cells'].
  - apply Forall2_nil_inv_l in Hf2 as ->. simpl in Hsp. rewrite app_nil_r in Hsp.
    apply (f_equal length) in Hsp. rewrite length_drop in Hsp. lia.
  - destruct Hch as [[Hne Hadj] Hch].
    apply NoDup_cons in Hnd as [Hrc Hnd].
    apply Forall_cons in Hgr as [Hgrc Hgr]. apply Forall_cons in Hav as [Hvrc Hav].
    apply (exists_opt_some_true _ _ (n.1 - rc.1, n.2 - rc.2)%Z).
    + intros d _. simpl. repeat case_bool_decide; try done.
      apply dfs_defined; [done|]. unfold in_grid. simpl. lia.
    + apply offsets_spec. simpl. split; [|lia].
      intros [= H1 H2]. apply Hne. destruct rc, n. simpl in *. f_equal; lia.
    + simpl. replace (rc.1 + (n.1 - rc.1))%Z with n.1 by lia.
      replace (rc.2 + (n.2 - rc.2))%Z with n.2 by lia. rewrite <- surjective_pairing.
      apply Forall_cons in Hgr as [Hgn Hgr'].
      rewrite bool_decide_eq_false_2 by (unfold in_grid in Hgn; lia).
      rewrite bool_decide_eq_false_2.
      2:{ apply Forall_cons in Hav as [Hvn _]. intros Hin.
          apply elem_of_cons in Hin as [->|Hin]; [set_solver|done]. }
      apply (IH _ _ cells').
      * split_and!; [done|by constructor|done|].
        exists toks'. split; [done|]. by rewrite Hnext.
      * apply Forall_cons. split.
        -- apply Forall_cons in Hav as [Hvn _]. intros Hin.
           apply elem_of_cons in Hin as [->|Hin]; [set_solver|done].
        -- apply Forall_forall. intros x Hx Hin.
           apply elem_of_cons in Hin as [->|Hin].
           ++ apply Hrc. set_solver.
           ++ apply Forall_cons in Hav as [_ Hav]. eapply Forall_forall in Hav; eauto.
      * simpl in Hlen. simpl. lia.
      * apply (f_equal length) in Hsp. rewrite length_drop, length_app in Hsp. lia.
Qed.

End Dfs.

(** ** Fuel: a path of distinct cells is no longer than the grid *)

Lemma grid_cells_sound rows cols p :
  p ∈ grid_cells rows cols → in_grid (Z.of_nat rows) (Z.of_nat cols) p.
Proof.
  unfold grid_cells. intros ([r c] & -> & Hrc)%list_elem_of_fmap.
  apply list_elem_of_In, in_prod_iff in Hrc as [Hr Hc].
  apply in_seq in Hr, Hc. unfold in_grid. simpl. lia.
Qed.

Lemma grid_cells_complete rows cols p :
  in_grid (Z.of_nat rows) (Z.of_nat cols) p → p ∈ grid_cells rows cols.
Proof.
  intros [[? ?] [? ?]]. unfold grid_cells. apply list_elem_of_fmap.
  exists (Z.to_nat p.1, Z.to_nat p.2). split.
  - destruct p; simpl in *. f_equal; lia.
  - apply list_elem_of_In, in_prod_iff. split; apply in_seq; lia.
Qed.

Lemma length_grid_cells rows cols : length (grid_cells rows cols) = (rows * cols)%nat.
Proof. unfold grid_cells. by rewrite length_fmap, length_prod, !length_seq. Qed.

Lemma path_length_le rows cols (cells : list cellpos) :
  NoDup cells → Forall (in_grid (Z.of_nat rows) (Z.of_nat cols)) cells →
  (length cells ≤ rows * cols)%nat.
Proof.
  intros Hnd Hg. rewrite <- length_grid_cells.
  apply NoDup_incl_length; [by apply NoDup_ListNoDup|]. intros p Hp.
  apply list_elem_of_In, grid_cells_complete.
  apply list_elem_of_In in Hp. by eapply Forall_forall in Hg.
Qed.

Lemma no_path_empty_grid board (w : list ascii) :
  (board_rows board = 0 ∨ board_cols board = 0)%nat → ¬ legal board w.
Proof.
  intros Hz [_ (cells & Hne & _ & Hg & _)].
  destruct cells as [|p cells]; [done|].
  apply Forall_cons in Hg as [[? ?] _]. lia.
Qed.

(** [canFormWordOnBoard] decides [legal] on rectangular boards. *)
Lemma canFormWordOnBoard_legal board w :
  rectangular board →
  canFormWordOnBoard board w ≠ None ∧
  (canFormWordOnBoard board w = Some true ↔
   legal board (JsString.toUpperCase (JsString.chars w))).
Proof.
  intros Hrect. unfold canFormWordOnBoard.
  set (word := JsString.toUpperCase (JsString.chars w)).
  destruct board as [|row0 rest] eqn:Hb.
  - split; [done|]. split; [done|]. intros HL. exfalso. revert HL.
    apply no_path_empty_grid. by left.
  - case_bool_decide as Hw.
    { split; [done|]. split; [done|]. intros [Hne _]. exfalso.
      apply Hne, nil_length_inv. lia. }
    case_bool_decide as Hc.
    { split; [done|]. split; [done|]. intros HL. exfalso. revert HL.
      apply no_path_empty_grid. by right. }
    split; [|split].
    + apply exists_opt_defined. intros rc Hrc. apply dfs_defined; [done|].
      by apply grid_cells_sound.
    + intros (rc & Hrc & Hs)%exists_opt_true_inv.
      destruct (dfs_sound (row0 :: rest) word (length (row0 :: rest) * length row0) [] rc 0)
        as (cells & Hp & _);
        [by apply grid_cells_sound|set_solver|exact Hs|].
      split; [intros Hnil; rewrite Hnil in Hw; simpl in Hw; lia|].
      exists (rc :: cells). split; [done|]. by rewrite drop_0 in Hp.
    + intros [Hne (cells & Hcne & Hp)]. destruct cells as [|rc cells]; [done|].
      apply (exists_opt_some_true _ _ rc).
      * intros y Hy. apply dfs_defined; [done|]. by apply grid_cells_sound.
      * apply grid_cells_complete. destruct Hp as [_ [Hg _]].
        by apply Forall_cons in Hg as [? _].
      * apply (dfs_complete (row0 :: rest) word (length (row0 :: rest) * length row0) [] rc cells 0); [done|by rewrite drop_0| | |lia].
        -- apply Forall_forall. set_solver.
        -- destruct Hp as [Hnd [Hg _]]. by apply path_length_le.
Qed.

(** C36: On a rectangular board [canFormWordOnBoard] never throws, and it
    accepts exactly the legal words: those that, upper-cased, are spelled
    by a non-empty path of pairwise distinct, 8-adjacent cells whose tokens
    are consumed whole.  The fuel [rows * cols] is therefore never short. *)
Theorem canFormWordOnBoard_correct board w :
  rectangular board →
  canFormWordOnBoard board w ≠ None ∧
  (canFormWordOnBoard board w = Some true ↔
   legal board (JsString.toUpperCase (JsString.chars w))).
Proof. exact (canFormWordOnBoard_legal board w). Qed.

(** ** Scenarios *)

(** ** Fuel: the search stops before the fuel runs out *)

Lemma dfs_fuel board word rows cols f k V rc i :
  NoDup (rc :: V) → Forall (in_grid (Z.of_nat rows) (Z.of_nat cols)) (rc :: V) →
  (rows * cols ≤ f + length V)%nat →
  dfs board word (Z.of_nat rows) (Z.of_nat cols) (f + k) V rc i =
  dfs board word (Z.of_nat rows) (Z.of_nat cols) f V rc i.
Proof.
  revert V rc i. induction f as [|f IH]; intros V rc i Hnd Hg Hf.
  - pose proof (path_length_le rows cols _ Hnd Hg). simpl in *. lia.
  - cbn [Nat.add dfs]. destruct (cell board rc) as [t|]; [|done].
    destruct (negb _); [done|]. case_bool_decide; [done|].
    apply exists_opt_ext. intros d _. simpl.
    case_bool_decide as Hout; [done|]. case_bool_decide as Hin; [done|].
    apply IH; [by constructor| |simpl; lia].
    constructor; [|done]. unfold in_grid. simpl. lia.
Qed.

(** C17: the recursion of [dfs] in the code has no fuel; it stops because
    every call adds a cell to the visited set.  The fuel [rows * cols] that
    [canFormWordOnBoard] gives every start cell is therefore never the
    reason the search stops: any larger fuel gives the same verdict. *)
Theorem dfs_fuel_enough board word rows cols k rc i :
  in_grid (Z.of_nat rows) (Z.of_nat cols) rc →
  dfs board word (Z.of_nat rows) (Z.of_nat cols) (rows * cols + k) [] rc i =
  dfs board word (Z.of_nat rows) (Z.of_nat cols) (rows * cols) [] rc i.
Proof.
  intros Hg. apply dfs_fuel; [by constructor; [set_solver|constructor]|by constructor|simpl; lia].
Qed.

Definition cat_board : Board := [["C"; "A"; "T"]; ["X"; "X"; "X"]; ["X"; "X"; "X"]].

Lemma cat_board_rectangular : rectangular cat_board.
Proof. repeat constructor. Qed.

(** The spec's scenario: "CAT" is legal on the board whose first row is
    C, A, T (the path C, A, T of orthogonal neighbours), and the checker
    accepts it; a word over a missing letter is rejected. *)
Example canFormWordOnBoard_cat :
  canFormWordOnBoard cat_board "CAT" = Some true ∧
  legal cat_board (JsString.toUpperCase (JsString.chars "cat")) ∧
  canFormWordOnBoard cat_board "CAB" = Some false.
Proof.
  split_and!; [vm_compute; reflexivity| |vm_compute; reflexivity].
  apply (canFormWordOnBoard_legal cat_board "cat" cat_board_rectangular).
  vm_compute. reflexivity.
Qed.

(** A multi-letter token is consumed whole: on a board with the face "QU",
    "QUIT" is found and "QIT" is not. *)
Example canFormWordOnBoard_whole_token :
  canFormWordOnBoard [["QU"; "I"; "T"]; ["X"; "X"; "X"]] "QUIT" = Some true ∧
  canFormWordOnBoard [["QU"; "I"; "T"]; ["X"; "X"; "X"]] "QIT" = Some false.
Proof. split; vm_compute; reflexivity. Qed.

Lemma canFormWordOnBoard_correct_witness :
  canFormWordOnBoard cat_board "CAT" ≠ None ∧
  (canFormWordOnBoard cat_board "CAT" = Some true ↔
   legal cat_board (JsString.toUpperCase (JsString.chars "CAT"))).
Proof. exact (canFormWordOnBoard_correct cat_board "CAT" cat_board_rectangular). Defined.

Lemma dfs_fuel_enough_witness :
  in_grid 3 3 (0, 0)%Z ∧
  dfs cat_board ["C"; "A"; "T"]%char 3 3 (3 * 3 + 5) [] (0, 0)%Z 0 =
  dfs cat_board ["C"; "A"; "T"]%char 3 3 (3 * 3) [] (0, 0)%Z 0.
Proof.
  split; [unfold in_grid; simpl; lia|].
  exact (dfs_fuel_enough cat_board ["C"; "A"; "T"]%char 3 3 5 (0, 0)%Z 0 ltac:(unfold in_grid; simpl; lia)).
Defined.

End WordValidation.
