(* ===== verification/Dictionary.v ===== *)
(** * The dictionary (src/backend/src/services/dictionary.ts)

    A trie of upper-case words.  A [TrieNode] holds a JS [Map] from a
    character to a child; a [Map] keeps its keys unique and in insertion
    order, and [set] on a new key appends it: an association list whose
    keys are pairwise distinct ([wf]).  [Trie.insert] walks down the word
    creating missing children and marks the last node; as a function it
    rebuilds the path, which gives the same tree as the in-place updates.
    [initDictionary] reads the word file (an [option string]: [None] when
    the read throws and the built-in list is used), splits it into lines,
    trims and upper-cases them, keeps words of at least three letters A-Z
    and inserts them. *)

From S2P Require Import Prelude JsString.
From Stdlib Require Import Ascii.

Module Dictionary.

Inductive TrieNode := mkNode {
  children : list (ascii * TrieNode);
  isWordFlag : bool
}.

(** [new TrieNode()] *)
Definition emptyNode : TrieNode := mkNode [] false.

(** [node.children.get(ch)] *)
Fixpoint map_get (ch : ascii) (l : list (ascii * TrieNode)) : option TrieNode :=
  match l with
  | [] => None
  | (k, v) :: l' => if bool_decide (k = ch) then Some v else map_get ch l'
  end.

(** [node.children.set(ch, v)]: replace in place, or append a new key. *)
Fixpoint map_set (ch : ascii) (v : TrieNode) (l : list (ascii * TrieNode))
    : list (ascii * TrieNode) :=
  match l with
  | [] => [(ch, v)]
  | (k, v') :: l' => if bool_decide (k = ch) then (k, v) :: l' else (k, v') :: map_set ch v l'
  end.

(** [Trie.insert] (lines 13-24). *)
Fixpoint insert (node : TrieNode) (w : list ascii) : TrieNode :=
  match w with
  | [] => mkNode (children node) true
  | ch :: w' =>
      let next := default emptyNode (map_get ch (children node)) in
      mkNode (map_set ch (insert next w') (children node)) (isWordFlag node)
  end.

(** [Trie.hasPrefix] (lines 26-34). *)
Fixpoint hasPrefix (node : TrieNode) (p : list ascii) : bool :=
  match p with
  | [] => true
  | ch :: p' =>
      match map_get ch (children node) with
      | None => false
      | Some next => hasPrefix next p'
      end
  end.

(** [Trie.isWord] (lines 36-44). *)
Fixpoint isWord (node : TrieNode) (w : list ascii) : bool :=
  match w with
  | [] => isWordFlag node
  | ch :: w' =>
      match map_get ch (children node) with
      | None => false
      | Some next => isWord next w'
      end
  end.

(** [content.split(/\r?\n/)]: split at each LF, dropping a CR just before it. *)
Fixpoint split_lines_acc (cur : list ascii) (s : list ascii) : list (list ascii) :=
  match s with
  | [] => [reverse cur]
  | c :: s' =>
      if bool_decide (c = "010"%char) then
        let line := match cur with
                    | c' :: cur' => if bool_decide (c' = "013"%char) then cur' else cur
                    | [] => []
                    end in
        reverse line :: split_lines_acc [] s'
      else split_lines_acc (c :: cur) s'
  end.

Definition split_lines (s : list ascii) : list (list ascii) := split_lines_acc [] s.

(** The built-in list used when the file cannot be read (lines 81-93). *)
Definition fallback_words : list string :=
  ["CAT"; "CATS"; "DOG"; "DO"; "GO"; "GONE"; "QUIET"; "QUIZ"; "TREE"; "READ"; "WORD"].

Fixpoint join_lines (ws : list string) : list ascii :=
  match ws with
  | [] => []
  | [w] => JsString.chars w
  | w :: ws' => JsString.chars w ++ ["010"%char] ++ join_lines ws'
  end.

(** Lines 95-98: the words kept from the file's content. *)
Definition dictionary_words (content : list ascii) : list (list ascii) :=
  filter (λ w, 3 ≤ length w ∧ JsString.upper_alpha w = true)
    ((λ w, JsString.toUpperCase (JsString.trim w)) <$> split_lines content).

(** Lines 99-100: [const t = new Trie(); for (const w of words) t.insert(w)]. *)
Definition build (ws : list (list ascii)) : TrieNode := foldl insert emptyNode ws.

(** The module state: [trie] and [initialized]. *)
Record DictState := mkDict { trie : option TrieNode; initialized : bool }.

Definition uninitialized : DictState := mkDict None false.

(** Lines 76-94: the file's text, or the built-in list when
    [readFileSync] throws ([None]). *)
Definition file_content (file : option string) : list ascii :=
  match file with
  | Some s => JsString.chars s
  | None => join_lines fallback_words
  end.

(** [initDictionary] (lines 73-103); [file] is the read's result. *)
Definition initDictionary (st : DictState) (file : option string) : DictState :=
  if initialized st then st
  else mkDict (Some (build (dictionary_words (file_content file)))) true.

(** [isWord] (lines 105-110). *)
Definition isWordExported (st : DictState) (word : string) : bool :=
  match initialized st, trie st with
  | true, Some t => isWord t (JsString.toUpperCase (JsString.chars word))
  | _, _ => false
  end.

(** [hasPrefix] (lines 112-115). *)
Definition hasPrefixExported (st : DictState) (p : string) : bool :=
  match initialized st, trie st with
  | true, Some t => hasPrefix t (JsString.toUpperCase (JsString.chars p))
  | _, _ => false
  end.

(** ** The map operations *)

Lemma map_get_set ch ch' v cs :
  map_get ch' (map_set ch v cs) = if bool_decide (ch = ch') then Some v else map_get ch' cs.
Proof.
  induction cs as [|[k v'] cs IH]; simpl; [by case_bool_decide|].
  destruct (decide (k = ch)) as [->|Hne].
  - rewrite bool_decide_true by done. simpl. by case_bool_decide.
  - rewrite (bool_decide_false (k = ch)) by done. simpl. rewrite IH.
    case_bool_decide; [subst; by rewrite bool_decide_false|done].
Qed.

Lemma map_get_elem ch cs v : map_get ch cs = Some v → (ch, v) ∈ cs.
Proof.
  induction cs as [|[k v'] cs IH]; simpl; [done|].
  case_bool_decide as Hk; intros Hg; simplify_eq; [set_solver|].
  apply IH in Hg. set_solver.
Qed.

Lemma map_get_None ch cs : map_get ch cs = None ↔ ch ∉ cs.*1.
Proof.
  induction cs as [|[k v'] cs IH]; simpl; [set_solver|].
  rewrite elem_of_cons. case_bool_decide as Hk; [subst; naive_solver|].
  rewrite IH. naive_solver.
Qed.

Lemma map_set_keys ch v cs :
  (map_set ch v cs).*1 = if bool_decide (ch ∈ cs.*1) then cs.*1 else cs.*1 ++ [ch].
Proof.
  induction cs as [|[k v'] cs IH]; [done|]. cbn [map_set].
  destruct (decide (k = ch)) as [->|Hk].
  - rewrite !bool_decide_true; [done|set_solver|done].
  - rewrite (bool_decide_false (k = ch)) by done. cbn [fmap list_fmap fst].
    rewrite IH. destruct (decide (ch ∈ cs.*1)).
    + rewrite !bool_decide_true; set_solver.
    + rewrite !bool_decide_false; [done|set_solver..].
Qed.

Lemma map_set_elem ch v cs k c :
  (k, c) ∈ map_set ch v cs → (k, c) ∈ cs ∨ (k = ch ∧ c = v).
Proof.
  induction cs as [|[k' v'] cs IH]; simpl; [set_solver|].
  case_bool_decide as Hk; rewrite !elem_of_cons; [naive_solver|].
  intros [?|Hin]; [by left; left|]. destruct (IH Hin); [by left; right|by right].
Qed.

(** ** The trie as a set of words *)

(** The JS [Map] invariant: a node's keys are pairwise distinct, at every
    depth. *)
Inductive wf : TrieNode → Prop :=
  | wf_intro cs b : NoDup cs.*1 → (∀ k c, (k, c) ∈ cs → wf c) → wf (mkNode cs b).

Lemma isWord_empty w : isWord emptyNode w = false.
Proof. by destruct w. Qed.

Lemma hasPrefix_empty p : hasPrefix emptyNode p = true ↔ p = [].
Proof. destruct p; simpl; done. Qed.

Lemma isWord_cons t ch w :
  isWord t (ch :: w) = isWord (default emptyNode (map_get ch (children t))) w.
Proof. simpl. destruct (map_get _ _); [done|]. by rewrite isWord_empty. Qed.

#[export] Hint Resolve isWord_empty : gem.

Lemma prefix_cons_iff {A} (x y : A) l1 l2 :
  x :: l1 `prefix_of` y :: l2 ↔ x = y ∧ l1 `prefix_of` l2.
Proof.
  split; [intros H; split; [by eapply prefix_cons_inv_1|by eapply prefix_cons_inv_2]|].
  intros [-> ?]. by apply prefix_cons.
Qed.

(** The word found after [Trie.insert t w] are those of [t] and [w]. *)
Lemma isWord_insert t w w' :
  isWord (insert t w) w' = true ↔ w' = w ∨ isWord t w' = true.
Proof.
  revert t w'. induction w as [|ch w IH]; intros t [|c w']; cbn [insert isWord children isWordFlag].
  - naive_solver.
  - naive_solver.
  - naive_solver.
  - rewrite map_get_set. destruct (decide (ch = c)) as [<-|Hne].
    + rewrite bool_decide_true, IH by done.
      destruct (map_get ch (children t)); simpl; rewrite ?isWord_empty; naive_solver.
    + rewrite bool_decide_false by done. naive_solver.
Qed.

(** The prefixes present after [Trie.insert t w] are those of [t] and
    the prefixes of [w]. *)
Lemma hasPrefix_insert t w p :
  hasPrefix (insert t w) p = true ↔ p `prefix_of` w ∨ hasPrefix t p = true.
Proof.
  revert t p. induction w as [|ch w IH]; intros t [|c p]; cbn [insert hasPrefix children].
  - split; [left; apply prefix_nil|done].
  - pose proof (prefix_nil_not c p). naive_solver.
  - split; [left; apply prefix_nil|done].
  - rewrite map_get_set, prefix_cons_iff. destruct (decide (ch = c)) as [<-|Hne].
    + rewrite bool_decide_true, IH by done.
      destruct (map_get ch (children t)); simpl; rewrite ?hasPrefix_empty;
        [naive_solver|].
      pose proof (prefix_nil w). naive_solver.
    + rewrite bool_decide_false by done. naive_solver.
Qed.

(** [Trie.insert] keeps the [Map] invariant. *)
Lemma insert_wf t w : wf t → wf (insert t w).
Proof.
  revert t. induction w as [|ch w IH]; intros t Ht; inversion Ht as [cs b Hnd Hc]; subst; simpl.
  - by constructor.
  - constructor.
    + rewrite map_set_keys. case_bool_decide as Hin; [done|].
      apply NoDup_app. split_and!; [done|set_solver|apply NoDup_singleton].
    + intros k c Hkc. apply map_set_elem in Hkc as [Hkc|[-> ->]]; [by eapply Hc|].
      apply IH. destruct (map_get ch cs) as [n|] eqn:E; simpl;
        [by eapply Hc, map_get_elem|constructor; [constructor|set_solver]].
Qed.

#[export] Hint Resolve insert_wf : gem.

Lemma emptyNode_wf : wf emptyNode.
Proof. constructor; [constructor|set_solver]. Qed.

Lemma build_acc_isWord t ws w :
  isWord (foldl insert t ws) w = true ↔ w ∈ ws ∨ isWord t w = true.
Proof.
  revert t. induction ws as [|w0 ws IH]; intros t; simpl; [set_solver|].
  rewrite IH, isWord_insert, elem_of_cons. naive_solver.
Qed.

Lemma build_acc_hasPrefix t ws p :
  hasPrefix (foldl insert t ws) p = true ↔
  (∃ w, w ∈ ws ∧ p `prefix_of` w) ∨ hasPrefix t p = true.
Proof.
  revert t. induction ws as [|w0 ws IH]; intros t; simpl; [set_solver|].
  rewrite IH, hasPrefix_insert. setoid_rewrite elem_of_cons. naive_solver.
Qed.

(** The trie built from a word list holds exactly those words. *)
Theorem build_isWord ws w : isWord (build ws) w = true ↔ w ∈ ws.
Proof. unfold build. rewrite build_acc_isWord, isWord_empty. naive_solver. Qed.

(** A prefix query succeeds exactly on the empty string and the
    prefixes of the words inserted. *)
Theorem build_hasPrefix ws p :
  hasPrefix (build ws) p = true ↔ p = [] ∨ ∃ w, w ∈ ws ∧ p `prefix_of` w.
Proof. unfold build. rewrite build_acc_hasPrefix, hasPrefix_empty. naive_solver. Qed.

Lemma build_wf ws : wf (build ws).
Proof.
  unfold build. generalize emptyNode_wf. generalize emptyNode.
  induction ws as [|w ws IH]; intros t Ht; simpl; auto with gem.
Qed.

(** ** The exported functions *)

Lemma dictionary_words_spec c w :
  w ∈ dictionary_words c ↔
  (3 ≤ length w ∧ JsString.upper_alpha w = true) ∧
  ∃ l, l ∈ split_lines c ∧ w = JsString.toUpperCase (JsString.trim l).
Proof.
  unfold dictionary_words. rewrite list_elem_of_filter, list_elem_of_fmap. naive_solver.
Qed.

(** After [initDictionary], [isWord] is a case-insensitive membership
    test in the filtered word list of the file (or of the built-in list
    when the read fails). *)
Theorem isWordExported_init file word :
  isWordExported (initDictionary uninitialized file) word = true ↔
  JsString.toUpperCase (JsString.chars word) ∈ dictionary_words (file_content file).
Proof. apply build_isWord. Qed.

(** The states the module goes through: the initial one and the results
    of [initDictionary] calls. *)
Inductive reachable : DictState → Prop :=
  | reach_start : reachable uninitialized
  | reach_init st file : reachable st → reachable (initDictionary st file).

Definition dict_inv (st : DictState) : Prop :=
  match trie st with
  | None => initialized st = false
  | Some t => initialized st = true ∧ wf t ∧
      ∃ ws, t = build ws ∧ Forall (λ w, 3 ≤ length w ∧ JsString.upper_alpha w = true) ws
  end.

Lemma dict_inv_reachable st : reachable st → dict_inv st.
Proof.
  induction 1 as [|st file Hr IH]; [done|].
  unfold initDictionary. destruct (initialized st) eqn:Ei; [done|].
  split_and!; [done|apply build_wf|]. eexists; split; [done|].
  apply Forall_forall. intros w Hw. by apply dictionary_words_spec in Hw as [? _].
Qed.

(** In every reachable state, a word accepted by [isWord] has at least
    three letters, all in A-Z, once upper-cased (spec 4.4). *)
Theorem isWordExported_shape st word :
  reachable st → isWordExported st word = true →
  3 ≤ length (JsString.toUpperCase (JsString.chars word)) ∧
  JsString.upper_alpha (JsString.toUpperCase (JsString.chars word)) = true.
Proof.
  intros Hr. apply dict_inv_reachable in Hr. unfold isWordExported, dict_inv in *.
  destruct (trie st) as [t|]; [|by destruct (initialized st)].
  destruct Hr as (-> & _ & ws & -> & Hws). rewrite build_isWord.
  rewrite Forall_forall in Hws. exact (Hws _).
Qed.

(** [initDictionary] runs once: later calls leave the index unchanged. *)
Lemma initDictionary_idem st f g :
  initDictionary (initDictionary st f) g = initDictionary st f.
Proof. unfold initDictionary. destruct (initialized st) eqn:E; simpl; by rewrite ?E. Qed.

(** Before initialisation nothing is a word and nothing a prefix. *)
Lemma uninitialized_rejects w :
  isWordExported uninitialized w = false ∧ hasPrefixExported uninitialized w = false.
Proof. done. Qed.

(** The built-in list: the lookup is case-insensitive and ignores the
    two-letter entries. *)
Example fallback_dictionary :
  let st := initDictionary uninitialized None in
  isWordExported st "cat" = true ∧ isWordExported st "Quiz" = true ∧
  isWordExported st "do" = false ∧ isWordExported st "ca" = false ∧
  hasPrefixExported st "qui" = true ∧ hasPrefixExported st "x" = false.
Proof. vm_compute. repeat split. Qed.

Lemma isWordExported_shape_witness :
  reachable (initDictionary uninitialized None) ∧
  isWordExported (initDictionary uninitialized None) "cat" = true ∧
  3 ≤ length (JsString.toUpperCase (JsString.chars "cat")) ∧
  JsString.upper_alpha (JsString.toUpperCase (JsString.chars "cat")) = true.
Proof.
  assert (Hr : reachable (initDictionary uninitialized None)) by (constructor; constructor).
  assert (Hw : isWordExported (initDictionary uninitialized None) "cat" = true)
    by (vm_compute; reflexivity).
  split; [exact Hr|]. split; [exact Hw|]. exact (isWordExported_shape _ _ Hr Hw).
Defined.

End Dictionary.
