(* ===== verification/Scoring.v ===== *)
(** * Submission scoring (src/backend/src/modules/matches.ts, server.ts)

    The pure part of the submit handler (matches.ts lines 415-448), of the
    sweep's automatic submission (server.ts lines 71-84) and of the
    validate handler (matches.ts lines 382-388): normalisation of the
    candidate words, the dictionary and board filter (which may throw, on
    a ragged board, as [canFormWordOnBoard] does), the first-occurrence
    deduplication of [Array.from(new Set(...))], the base score
    [Σ length²] and the capped time bonus. *)

From S2P Require Import Prelude Model JsString WordValidation Dictionary.
From Stdlib Require Import Ascii.

Module Scoring.

(** [String(w).trim().toUpperCase()] *)
Definition normalizeWord (w : string) : string := JsString.of_chars (JsString.normalize w).

(** [w.length >= 3 && /^[A-Z]+$/.test(w)] *)
Definition basicOk (w : string) : bool :=
  bool_decide (3 ≤ length (JsString.chars w)) && JsString.upper_alpha (JsString.chars w).

(** [words.map(normalize).filter(basicOk)] (matches.ts 416-418,
    server.ts 73-75). *)
Definition normalizeWords (words : list string) : list string :=
  filter (λ w, basicOk w = true) (normalizeWord <$> words).

(** [isWord(w) && canFormWordOnBoard(match.board, w)]: the board is only
    searched for dictionary words. *)
Definition acceptable (d : Dictionary.DictState) (board : Board) (w : string) : option bool :=
  if Dictionary.isWordExported d w then WordValidation.canFormWordOnBoard board w
  else Some false.

(** [Array.from(new Set(normalized.filter(acceptable)))] (matches.ts
    421-425, server.ts 76-80). *)
Definition uniqueWords (d : Dictionary.DictState) (board : Board) (words : list string)
    : option (list string) :=
  set_add_all [] <$> filter_opt (acceptable d board) (normalizeWords words).

Definition wordPoints (w : string) : Z :=
  let n := Z.of_nat (length (JsString.chars w)) in (n * n)%Z.

(** [unique.reduce((acc, w) => acc + w.length * w.length, 0)] *)
Definition baseScore (ws : list string) : Z :=
  foldl (λ acc w, acc + wordPoints w)%Z 0%Z ws.

(** [Math.max(0, Math.floor((deadlineAtMs - nowMs) / 1000))] *)
Definition remainingSeconds (deadlineMs nowMs : Z) : Z :=
  Z.max 0 ((deadlineMs - nowMs) / 1000).

(** [Math.min(Math.floor(remainingSeconds * perSecond), maxBonus)];
    [maxBonus = None] is [Infinity]. *)
Definition timeBonus (remaining : Z) (perSecond : Q) (maxBonus : option Z) : Z :=
  let b := Qfloor (inject_Z remaining * perSecond) in
  match maxBonus with
  | Some m => Z.min b m
  | None => b
  end.

(** [cfgForScore?.timeBonusPerSecond ?? 0] *)
Definition bonusRate (cfg : option LobbyConfig.t) : Q :=
  default 0%Q (cfg ≫= LobbyConfig.timeBonusPerSecond).

(** [cfgForScore?.timeBonusMaxPoints ?? Infinity] *)
Definition bonusCap (cfg : option LobbyConfig.t) : option Z :=
  cfg ≫= LobbyConfig.timeBonusMaxPoints.

(** The [valid] of the validate handler (matches.ts 383-388). *)
Definition validWord (d : Dictionary.DictState) (board : Board) (word : string) : option bool :=
  let normalized := normalizeWord word in
  if basicOk normalized then acceptable d board normalized else Some false.

(** ** Properties *)

Lemma basicOk_upper w : basicOk w = true → JsString.toUpperCase (JsString.chars w) = JsString.chars w.
Proof.
  unfold basicOk, JsString.upper_alpha. rewrite !andb_true_iff. intros (_ & _ & H).
  by apply JsString.toUpperCase_AZ.
Qed.

Lemma acceptable_spec d board w :
  WordValidation.rectangular board → basicOk w = true →
  acceptable d board w ≠ None ∧
  (acceptable d board w = Some true ↔
   Dictionary.isWordExported d w = true ∧ WordValidation.legal board (JsString.chars w)).
Proof.
  intros Hr Hb. unfold acceptable.
  destruct (WordValidation.canFormWordOnBoard_legal board w Hr) as [Hnn Hiff].
  rewrite (basicOk_upper w Hb) in Hiff.
  destruct (Dictionary.isWordExported d w); [|naive_solver]. split; [done|]. rewrite Hiff. naive_solver.
Qed.

Lemma normalizeWords_elem words w :
  w ∈ normalizeWords words ↔ basicOk w = true ∧ ∃ raw, raw ∈ words ∧ w = normalizeWord raw.
Proof.
  unfold normalizeWords. rewrite list_elem_of_filter, list_elem_of_fmap. naive_solver.
Qed.

(** The word filter on a rectangular board never throws and keeps exactly the acceptable normalised words, each once. *)
Lemma uniqueWords_filter d board words :
  WordValidation.rectangular board →
  ∃ ws, uniqueWords d board words = Some ws ∧ NoDup ws ∧
    ∀ w, w ∈ ws ↔
      (∃ raw, raw ∈ words ∧ w = normalizeWord raw) ∧ basicOk w = true ∧
      Dictionary.isWordExported d w = true ∧ WordValidation.legal board (JsString.chars w).
Proof.
  intros Hr. unfold uniqueWords.
  rewrite filter_opt_Some; last first.
  { intros w Hw. apply normalizeWords_elem in Hw as [Hb _].
    by apply (acceptable_spec d board w Hr Hb). }
  eexists; split; [done|]. split; [apply set_add_all_NoDup; constructor|].
  intros w. rewrite set_add_all_elem, list_elem_of_filter, normalizeWords_elem.
  split.
  - intros [Hnil|[Ha [Hb Hraw]]]; [set_solver|].
    apply (acceptable_spec d board w Hr Hb) in Ha. naive_solver.
  - intros (Hraw & Hb & Hd & Hl). right. split; [|done].
    by apply (acceptable_spec d board w Hr Hb).
Qed.

(** C37: On a rectangular board the word filter of a submission never
    throws; it keeps each word once, and a word is kept exactly when it is
    the normalisation of a submitted word, has at least three letters A-Z,
    is in the dictionary and is spelled by a path on the board. *)
Theorem uniqueWords_spec d board words :
  WordValidation.rectangular board →
  ∃ ws, uniqueWords d board words = Some ws ∧ NoDup ws ∧
    ∀ w, w ∈ ws ↔
      (∃ raw, raw ∈ words ∧ w = normalizeWord raw) ∧ basicOk w = true ∧
      Dictionary.isWordExported d w = true ∧ WordValidation.legal board (JsString.chars w).
Proof. exact (uniqueWords_filter d board words). Qed.

(** The validate handler and the submit handler agree: a submitted word
    survives the submission's filter exactly when the validate handler
    reports it valid. *)
Theorem validWord_agrees d board words w :
  WordValidation.rectangular board →
  (∃ ws, uniqueWords d board words = Some ws ∧
         (w ∈ ws ↔ ∃ raw, raw ∈ words ∧ w = normalizeWord raw ∧
                          validWord d board raw = Some true)).
Proof.
  intros Hr. destruct (uniqueWords_filter d board words Hr) as (ws & Hws & _ & Hin).
  exists ws. split; [done|]. rewrite Hin. unfold validWord. split.
  - intros ((raw & Hraw & ->) & Hb & Hd & Hl). exists raw. split_and!; [done|done|].
    rewrite Hb. by apply acceptable_spec.
  - intros (raw & Hraw & -> & Hv). destruct (basicOk (normalizeWord raw)) eqn:Hb; [|done].
    apply acceptable_spec in Hv; [|done|done]. naive_solver.
Qed.

Lemma baseScore_acc acc ws :
  foldl (λ acc w, acc + wordPoints w)%Z acc ws = (acc + Σ (wordPoints <$> ws))%Z.
Proof.
  revert acc. induction ws as [|w ws IH]; intros acc; cbn [foldl]; [rewrite fmap_nil, sumZ_nil; lia|].
  rewrite IH, fmap_cons, sumZ_cons. lia.

Qed.

Lemma baseScore_sum ws : baseScore ws = Σ (wordPoints <$> ws).
Proof. unfold baseScore. rewrite baseScore_acc. lia. Qed.

(** Every kept word has at least three letters, so the base score is at
    least nine points a word. *)
Theorem baseScore_lower ws :
  Forall (λ w, basicOk w = true) ws → (9 * Z.of_nat (length ws) ≤ baseScore ws)%Z.
Proof.
  intros Hws. rewrite baseScore_sum.
  enough (Z.of_nat (length ws) * 9 ≤ Σ (wordPoints <$> ws))%Z by lia.
  apply sumZ_lower. intros w Hw. rewrite Forall_forall in Hws.
  apply Hws in Hw. unfold basicOk in Hw. apply andb_true_iff in Hw as [Hl _].
  apply bool_decide_eq_true in Hl. unfold wordPoints. nia.
Qed.

Lemma remainingSeconds_bounds d now :
  (now ≤ d)%Z →
  (0 ≤ remainingSeconds d now ∧ remainingSeconds d now * 1000 ≤ d - now < remainingSeconds d now * 1000 + 1000)%Z.
Proof.
  intros Hle. unfold remainingSeconds.
  pose proof (Z.div_pos (d - now) 1000). pose proof (Z.mul_div_le (d - now) 1000).
  pose proof (Z.mod_pos_bound (d - now) 1000). pose proof (Z.div_mod (d - now) 1000).
  rewrite Z.max_r by lia. lia.
Qed.

(** The time bonus of the lobbies (nonnegative rate and cap) lies
    between zero and the cap, never exceeds [floor(remaining * rate)], and
    does not decrease when more time remains. *)
Theorem timeBonus_bounds r r' perSecond maxBonus :
  (0 <= perSecond)%Q → (0 ≤ r ≤ r')%Z → (∀ m, maxBonus = Some m → 0 ≤ m)%Z →
  (0 ≤ timeBonus r perSecond maxBonus)%Z ∧
  (timeBonus r perSecond maxBonus ≤ Qfloor (inject_Z r * perSecond))%Z ∧
  (∀ m, maxBonus = Some m → timeBonus r perSecond maxBonus ≤ m)%Z ∧
  (timeBonus r perSecond maxBonus ≤ timeBonus r' perSecond maxBonus)%Z.
Proof.
  intros Hq Hr Hm.
  assert (H0 : (0 ≤ Qfloor (inject_Z r * perSecond))%Z).
  { apply Qfloor_nonneg. apply Qmult_le_0_compat; [|done].
    change 0%Q with (inject_Z 0). rewrite <- Zle_Qle. lia. }
  assert (H1 : (Qfloor (inject_Z r * perSecond) ≤ Qfloor (inject_Z r' * perSecond))%Z).
  { apply Qfloor_resp_le. apply Qmult_le_compat_r; [|done]. rewrite <- Zle_Qle. lia. }
  unfold timeBonus. destruct maxBonus as [m|].
  - specialize (Hm m eq_refl). split_and!; try lia. intros m' [= <-]. lia.
  - split_and!; [lia|lia|done|lia].
Qed.
(** ** Scenarios *)

Definition fallback_dict : Dictionary.DictState :=
  Dictionary.initDictionary Dictionary.uninitialized None.

(** A submission on the board whose first row spells CAT, with the
    built-in dictionary: " cat", "CAT " and "Cat" count once, "do" is too
    short, "tac" is not a word, "cats" has no S on the board; one word of
    three letters scores 9, and with 65 s left at half a point a second
    capped at 30 the bonus is the cap. *)
Example submission_scenario :
  uniqueWords fallback_dict WordValidation.cat_board [" cat"; "CAT "; "do"; "tac"; "Cat"; "cats"]
    = Some ["CAT"] ∧
  baseScore ["CAT"] = 9%Z ∧
  timeBonus (remainingSeconds 100000 35000) (1#2) (Some 30%Z) = 30%Z ∧
  timeBonus (remainingSeconds 100000 75500) (1#2) (Some 30%Z) = 12%Z.
Proof. split_and!; vm_compute; reflexivity. Qed.

Lemma uniqueWords_spec_witness :
  WordValidation.rectangular WordValidation.cat_board ∧
  ∃ ws, uniqueWords fallback_dict WordValidation.cat_board ["cat"] = Some ws ∧ NoDup ws ∧
    ∀ w, w ∈ ws ↔
      (∃ raw, raw ∈ ["cat"] ∧ w = normalizeWord raw) ∧ basicOk w = true ∧
      Dictionary.isWordExported fallback_dict w = true ∧
      WordValidation.legal WordValidation.cat_board (JsString.chars w).
Proof.
  split; [exact WordValidation.cat_board_rectangular|].
  exact (uniqueWords_spec fallback_dict WordValidation.cat_board ["cat"]
           WordValidation.cat_board_rectangular).
Defined.

Lemma validWord_agrees_witness :
  WordValidation.rectangular WordValidation.cat_board ∧
  ∃ ws, uniqueWords fallback_dict WordValidation.cat_board ["cat"] = Some ws ∧
    ("CAT" ∈ ws ↔ ∃ raw, raw ∈ ["cat"] ∧ "CAT" = normalizeWord raw ∧
                        validWord fallback_dict WordValidation.cat_board raw = Some true).
Proof.
  split; [exact WordValidation.cat_board_rectangular|].
  exact (validWord_agrees fallback_dict WordValidation.cat_board ["cat"] "CAT"
           WordValidation.cat_board_rectangular).
Defined.

Lemma baseScore_lower_witness :
  Forall (λ w, basicOk w = true) ["CAT"; "QUIZ"] ∧
  (9 * Z.of_nat (length ["CAT"; "QUIZ"]) ≤ baseScore ["CAT"; "QUIZ"])%Z.
Proof.
  assert (H : Forall (λ w, basicOk w = true) ["CAT"; "QUIZ"])
    by (repeat constructor).
  split; [exact H|exact (baseScore_lower _ H)].
Defined.

Lemma timeBonus_bounds_witness :
  (0 ≤ timeBonus 30 (1#2) (Some 30) ≤ 30)%Z ∧ (timeBonus 30 (1#2) (Some 30) ≤ timeBonus 60 (1#2) (Some 30))%Z.
Proof.
  destruct (timeBonus_bounds 30 60 (1#2) (Some 30%Z)) as (H0 & _ & Hm & Hmono).
  - vm_compute. discriminate.
  - lia.
  - intros m [= <-]. lia.
  - split; [split; [exact H0|exact (Hm 30%Z eq_refl)]|exact Hmono].
Defined.

End Scoring.
