(* ===== verification/BoardGen.v ===== *)
(** * Board generation (src/backend/src/utils/board.ts)

    [generateDiceBoard size] shuffles the sixteen dice with a linear
    congruential generator seeded by the clock, then rolls one face per
    cell in row-major order, writing the face "Q" as "QU".  JS numbers are
    doubles, and the bit operators work on 32-bit integers: [^] and [&]
    apply [ToInt32] to their operands ([toInt32]).  The product
    [1664525 * seed + 1013904223] of the generator is exact in a double
    because it stays below 2^53 ([lcg_exact]), so it is computed in [Z];
    [%] on the nonnegative seed is [Z.rem]. *)

From S2P Require Import Prelude Model WordValidation.

Module BoardGen.

(** The dice (lines 2-19). *)
Definition dice : list (list string) := [
  ["A"; "A"; "E"; "E"; "G"; "N"]; ["E"; "L"; "R"; "T"; "T"; "Y"];
  ["A"; "O"; "O"; "T"; "T"; "W"]; ["A"; "B"; "B"; "J"; "O"; "O"];
  ["E"; "H"; "R"; "T"; "V"; "W"]; ["C"; "I"; "M"; "O"; "T"; "U"];
  ["D"; "I"; "S"; "T"; "T"; "Y"]; ["E"; "I"; "O"; "S"; "S"; "T"];
  ["D"; "E"; "L"; "R"; "V"; "Y"]; ["A"; "C"; "H"; "O"; "P"; "S"];
  ["H"; "I"; "M"; "N"; "Q"; "U"]; ["E"; "E"; "I"; "N"; "S"; "U"];
  ["E"; "E"; "G"; "H"; "N"; "W"]; ["A"; "F"; "F"; "K"; "P"; "S"];
  ["H"; "L"; "N"; "N"; "R"; "Z"]; ["D"; "E"; "I"; "L"; "R"; "X"]].

(** ECMAScript [ToInt32] on an integral number. *)
Definition toInt32 (x : Z) : Z :=
  let y := (x mod 2 ^ 32)%Z in if (2 ^ 31 <=? y)%Z then (y - 2 ^ 32)%Z else y.

(** [Date.now() ^ 0x9e3779b9] (line 21). *)
Definition initialSeed (now : Z) : Z := Z.lxor (toInt32 now) (toInt32 0x9e3779b9).

(** [nextInt(max)] (lines 22-25): the new seed and the result. *)
Definition nextInt (seed max : Z) : Z * Z :=
  let seed' := Z.land (toInt32 (1664525 * seed + 1013904223)) (toInt32 0x7fffffff) in
  (seed', Z.rem seed' max).

(** [[bag[i], bag[j]] = [bag[j], bag[i]]]: the right-hand side is read
    first, then [bag[i]] and [bag[j]] are written in that order.  The
    indices are always in range ([shuffle_perm]). *)
Definition swap {A} (bag : list A) (i j : nat) : list A :=
  match bag !! i, bag !! j with
  | Some a, Some b => <[j := a]> (<[i := b]> bag)
  | _, _ => bag
  end.

(** The Fisher-Yates loop (lines 27-30); [i] is the loop index, the loop
    runs for [i = bag.length - 1] down to [1]. *)
Fixpoint shuffle_loop {A} (i : nat) (seed : Z) (bag : list A) : Z * list A :=
  match i with
  | 0 => (seed, bag)
  | S i' =>
      let '(seed', j) := nextInt seed (Z.of_nat (S i)) in
      shuffle_loop i' seed' (swap bag i (Z.to_nat j))
  end.

Definition faceToken (face : string) : string := if bool_decide (face = "Q") then "QU" else face.

(** The inner loop (lines 36-41) over the [cols] remaining cells of a
    row, [idx] counting the cells filled so far. *)
Fixpoint fill_row (bag : list (list string)) (cols idx : nat) (seed : Z) : Z * list string :=
  match cols with
  | 0 => (seed, [])
  | S k =>
      let die := bag !!! (idx mod length bag) in
      let '(seed', n) := nextInt seed (Z.of_nat (length die)) in
      let face := die !!! Z.to_nat n in
      let '(seed'', rest) := fill_row bag k (S idx) seed' in
      (seed'', faceToken face :: rest)
  end.

(** The outer loop (lines 35-42) over the [rows] remaining rows. *)
Fixpoint fill_rows (bag : list (list string)) (rows size idx : nat) (seed : Z)
    : Z * list (list string) :=
  match rows with
  | 0 => (seed, [])
  | S k =>
      let '(seed', row) := fill_row bag size idx seed in
      let '(seed'', rest) := fill_rows bag k size (idx + size) seed' in
      (seed'', row :: rest)
  end.

(** [generateDiceBoard(size)] at clock [now]. *)
Definition generateDiceBoard (now : Z) (size : nat) : Board :=
  let '(seed, bag) := shuffle_loop (length dice - 1) (initialSeed now) dice in
  (fill_rows bag size size 0 seed).2.

(** ** The generator's arithmetic *)

Lemma toInt32_mod x : (toInt32 x mod 2 ^ 31 = x mod 2 ^ 31)%Z.
Proof.
  unfold toInt32.
  assert (H : ((x mod 2 ^ 32) mod 2 ^ 31 = x mod 2 ^ 31)%Z).
  { apply Z.mod_mod_divide. exists 2%Z. reflexivity. }
  destruct (2 ^ 31 <=? x mod 2 ^ 32)%Z; [|exact H].
  replace (x mod 2 ^ 32 - 2 ^ 32)%Z with (x mod 2 ^ 32 + (-2) * 2 ^ 31)%Z by lia.
  by rewrite Z.mod_add by lia.
Qed.

Lemma toInt32_range x : (- 2 ^ 31 ≤ toInt32 x < 2 ^ 31)%Z.
Proof.
  unfold toInt32. pose proof (Z.mod_pos_bound x (2 ^ 32)).
  destruct (Z.leb_spec (2 ^ 31) (x mod 2 ^ 32)); lia.
Qed.

Lemma int32_shiftr a :
  (- 2 ^ 31 ≤ a < 2 ^ 31)%Z ↔ Z.shiftr a 31 = 0%Z ∨ Z.shiftr a 31 = (-1)%Z.
Proof.
  rewrite Z.shiftr_div_pow2 by lia.
  pose proof (Z.div_mod a (2 ^ 31)). pose proof (Z.mod_pos_bound a (2 ^ 31)).
  change (2 ^ 31)%Z with 2147483648%Z in *. lia.
Qed.

(** The clock seed is a 32-bit integer whatever the clock reads. *)
Lemma initialSeed_range now : (- 2 ^ 31 ≤ initialSeed now < 2 ^ 31)%Z.
Proof.
  unfold initialSeed. apply int32_shiftr. rewrite Z.shiftr_lxor.
  destruct (proj1 (int32_shiftr _) (toInt32_range now)) as [-> | ->];
    destruct (proj1 (int32_shiftr _) (toInt32_range 0x9e3779b9)) as [-> | ->];
    vm_compute; auto.
Qed.

(** One step of the generator is [seed' = (1664525 * seed +
    1013904223) mod 2^31] and [nextInt(max)] lies in [0, max). *)
Theorem nextInt_spec seed max :
  (0 < max)%Z →
  (nextInt seed max).1 = ((1664525 * seed + 1013904223) mod 2 ^ 31)%Z ∧
  (0 ≤ (nextInt seed max).1 < 2 ^ 31)%Z ∧
  (0 ≤ (nextInt seed max).2 < max)%Z.
Proof.
  intros Hm. unfold nextInt. simpl.
  change (toInt32 0x7fffffff) with (Z.ones 31). rewrite Z.land_ones, toInt32_mod by lia.
  pose proof (Z.mod_pos_bound (1664525 * seed + 1013904223) (2 ^ 31)).
  split_and!; [done|lia|lia|apply Z.rem_nonneg; lia|].
  destruct (Z.rem_bound_pos ((1664525 * seed + 1013904223) mod 2 ^ 31) max); lia.
Qed.

(** C24: Every seed the generator multiplies is a 32-bit integer, so
    [1664525 * seed + 1013904223] stays below 2^53 in absolute value: the
    double arithmetic of the code is exact and computing in [Z] is
    faithful. *)
Theorem lcg_exact now seed :
  (seed = initialSeed now ∨ ∃ s m, 0 < m ∧ seed = (nextInt s m).1)%Z →
  (Z.abs (1664525 * seed + 1013904223) < 2 ^ 53)%Z.
Proof.
  intros [->|(s & m & Hm & ->)].
  - pose proof (initialSeed_range now). lia.
  - destruct (nextInt_spec s m Hm) as (_ & Hr & _). lia.
Qed.

(** ** The shuffle and the grid *)

Lemma lookup_total_elem {A} `{Inhabited A} (l : list A) i : i < length l → l !!! i ∈ l.
Proof.
  intros Hi. destruct (lookup_lt_is_Some_2 l i Hi) as [x Hx].
  rewrite list_lookup_total_alt, Hx. simpl. by eapply list_elem_of_lookup_2.
Qed.

Lemma swap_perm {A} (bag : list A) i j :
  i < length bag → j < length bag → swap bag i j ≡ₚ bag.
Proof.
  intros Hi Hj. unfold swap.
  destruct (lookup_lt_is_Some_2 bag i Hi) as [a Ha].
  destruct (lookup_lt_is_Some_2 bag j Hj) as [b Hb].
  rewrite Ha, Hb. by apply Permutation_insert_swap.
Qed.

(** The shuffle permutes the bag. *)
Lemma shuffle_loop_perm {A} i seed (bag : list A) :
  i < length bag → (shuffle_loop i seed bag).2 ≡ₚ bag.
Proof.
  revert seed bag. induction i as [|i IH]; intros seed bag Hi; [done|].
  cbn [shuffle_loop].
  destruct (nextInt_spec seed (Z.of_nat (S (S i)))) as (_ & _ & Hj); [lia|].
  destruct (nextInt seed _) as [seed' j] eqn:E. simpl in Hj.
  assert (Hp : swap bag (S i) (Z.to_nat j) ≡ₚ bag) by (apply swap_perm; lia).
  rewrite IH; [done|]. rewrite Hp. lia.
Qed.

(** The Fisher-Yates loop only swaps entries at valid indices, so the
    shuffled bag is a permutation of the dice. *)
Theorem shuffle_perm {A} i seed (bag : list A) :
  i < length bag → (shuffle_loop i seed bag).2 ≡ₚ bag.
Proof. exact (shuffle_loop_perm i seed bag). Qed.

Definition rolled (bag : list (list string)) (t : string) : Prop :=
  ∃ die f, die ∈ bag ∧ f ∈ die ∧ t = faceToken f.

Lemma fill_row_spec bag cols idx seed :
  bag ≠ [] → Forall (λ d, d ≠ []) bag →
  length (fill_row bag cols idx seed).2 = cols ∧
  Forall (rolled bag) (fill_row bag cols idx seed).2.
Proof.
  intros Hne Hd. revert idx seed. induction cols as [|k IH]; intros idx seed; [done|].
  cbn [fill_row].
  set (die := bag !!! (idx mod length bag)).
  assert (Hdie : die ∈ bag).
  { apply lookup_total_elem, Nat.mod_upper_bound. by destruct bag. }
  assert (Hdne : die ≠ []) by (rewrite Forall_forall in Hd; auto).
  destruct (nextInt_spec seed (Z.of_nat (length die))) as (_ & _ & Hn);
    [destruct die; [done|simpl; lia]|].
  destruct (nextInt seed _) as [seed' n]. simpl in Hn.
  destruct (IH (S idx) seed') as [Hl Hf].
  destruct (fill_row bag k (S idx) seed') as [seed'' rest]. simpl in *.
  split; [by rewrite Hl|]. constructor; [|done].
  exists die, (die !!! Z.to_nat n). split_and!; [done| |done].
  apply lookup_total_elem. lia.
Qed.

Lemma fill_rows_spec bag rows size idx seed :
  bag ≠ [] → Forall (λ d, d ≠ []) bag →
  length (fill_rows bag rows size idx seed).2 = rows ∧
  Forall (λ row, length row = size ∧ Forall (rolled bag) row) (fill_rows bag rows size idx seed).2.
Proof.
  intros Hne Hd. revert idx seed. induction rows as [|k IH]; intros idx seed; [done|].
  cbn [fill_rows].
  destruct (fill_row_spec bag size idx seed Hne Hd) as [Hl Hf].
  destruct (fill_row bag size idx seed) as [seed' row]. simpl in Hl, Hf.
  destruct (IH (idx + size) seed') as [Hl' Hf'].
  destruct (fill_rows bag k size (idx + size) seed') as [seed'' rest]. simpl in *.
  split; [by rewrite Hl'|]. by constructor.
Qed.

(** The shape and the faces of a generated board. *)
Lemma generateDiceBoard_grid now size :
  length (generateDiceBoard now size) = size ∧
  WordValidation.rectangular (generateDiceBoard now size) ∧
  Forall (λ row, length row = size ∧ Forall (rolled dice) row) (generateDiceBoard now size).
Proof.
  unfold generateDiceBoard.
  pose proof (shuffle_loop_perm (length dice - 1) (initialSeed now) dice) as Hp.
  specialize (Hp ltac:(vm_compute; lia)).
  destruct (shuffle_loop _ _ dice) as [seed bag]. simpl in Hp.
  assert (Hne : bag ≠ []) by (intros ->; by apply Permutation_nil in Hp).
  assert (Hd : Forall (λ d, d ≠ []) bag)
    by (rewrite Hp; apply (bool_decide_unpack _); vm_compute; reflexivity).
  destruct (fill_rows_spec bag size size 0 seed Hne Hd) as [Hl Hf].
  assert (Hf' : Forall (λ row, length row = size ∧ Forall (rolled dice) row)
                  (fill_rows bag size size 0 seed).2).
  { eapply Forall_impl; [exact Hf|]. intros row [? Hr]. split; [done|].
    eapply Forall_impl; [exact Hr|]. intros t (die & f & Hdie & Hf1 & ->).
    exists die, f. split_and!; [|done|done]. by rewrite <- Hp. }
  split_and!; [done| |done].
  unfold WordValidation.rectangular, WordValidation.board_cols.
  destruct (fill_rows bag size size 0 seed).2 as [|row0 rest] eqn:E; [constructor|].
  apply Forall_cons in Hf' as [[Hr0 _] Hrest]. rewrite Hr0.
  constructor; [done|]. eapply Forall_impl; [exact Hrest|]. naive_solver.
Qed.

(** A generated board has [size] rows of [size] tokens, and every token
    is a face of one of the dice, with "Q" written "QU": the board is
    rectangular, so the word checker never throws on it. *)
Theorem generateDiceBoard_shape now size :
  length (generateDiceBoard now size) = size ∧
  WordValidation.rectangular (generateDiceBoard now size) ∧
  Forall (λ row, length row = size ∧ Forall (rolled dice) row) (generateDiceBoard now size).
Proof. exact (generateDiceBoard_grid now size). Qed.

(** No token of a generated board is the bare "Q". *)
Lemma generated_no_Q now size row t :
  row ∈ generateDiceBoard now size → t ∈ row → t ≠ "Q".
Proof.
  intros Hrow Ht. destruct (generateDiceBoard_grid now size) as (_ & _ & Hf).
  rewrite Forall_forall in Hf. destruct (Hf row Hrow) as [_ Hr].
  rewrite Forall_forall in Hr. destruct (Hr t Ht) as (die & f & _ & _ & ->).
  unfold faceToken. case_bool_decide; done.
Qed.

(** The board of a 4x4 lobby at a given clock reading. *)
Example generateDiceBoard_example :
  generateDiceBoard 1700000000000 4 =
    [["L"; "M"; "O"; "S"]; ["Z"; "G"; "W"; "F"]; ["T"; "D"; "H"; "L"]; ["J"; "I"; "I"; "V"]].
Proof. vm_compute. reflexivity. Qed.

Lemma nextInt_spec_witness :
  (nextInt 12345 16).1 = ((1664525 * 12345 + 1013904223) mod 2 ^ 31)%Z ∧
  (0 ≤ (nextInt 12345 16).1 < 2 ^ 31)%Z ∧ (0 ≤ (nextInt 12345 16).2 < 16)%Z.
Proof. apply nextInt_spec. lia. Defined.

Lemma lcg_exact_witness :
  (Z.abs (1664525 * initialSeed 1700000000000 + 1013904223) < 2 ^ 53)%Z.
Proof. apply (lcg_exact 1700000000000). by left. Defined.

Lemma shuffle_perm_witness :
  (shuffle_loop (length dice - 1) (initialSeed 1700000000000) dice).2 ≡ₚ dice.
Proof. apply shuffle_perm. vm_compute. lia. Defined.

End BoardGen.
