(* ===== verification/Ledger.v ===== *)
(** * The ledger (src/backend/src/services/database.ts)

    The relational store behind Prisma, as far as the match engine uses
    it: user balances, the transaction table and the completed-match
    history.  The table constraints are not in the repository's sources:
    as the spec states (section 4.1), a transaction is unique by
    (user, match, type), a second insert failing with [P2002], and a
    completed match is unique by its id.  [db_up] says whether the
    database answers: when it does not, every query throws.

    Each function returns the JS result with the new state: [tryDebitUser]
    its boolean, [creditPrize] [Some e] when it throws (the lookup of the
    user is outside its [try]), [None] when it returns. *)

From S2P Require Import Prelude Model.

Module Ledger.

Record User := mkUser { gemBalance : Z; bonusGems : Z }.

(** A row of the transaction table ([tx.transaction.create]'s [data]). *)
Record Txn := mkTxn {
  tx_user : string;
  tx_type : string;
  tx_amount : Z;
  tx_currency : string;
  tx_note : string;
  tx_match : option string;
  tx_lobby : option string
}.

(** A row of the completed-match history ([prisma.completedMatch.create]). *)
Record CompletedMatch := mkCompleted {
  cm_id : string;
  cm_lobbyType : string;
  cm_entryFee : Z;
  cm_prizePool : Z;
  cm_gameDuration : Z;
  cm_status : Status;
  cm_createdAt : Z;
  cm_startedAt : option Z;
  cm_endedAt : option Z;
  cm_board : Board;
  cm_players : list MatchPlayer.t
}.

(** The [endedAt] column (never null in the rows [saveCompletedMatch]
    writes). *)
Definition ended (cm : CompletedMatch) : Z := default 0%Z (cm_endedAt cm).

(** [orderBy: { endedAt: "desc" }] *)
Definition ended_later (a b : CompletedMatch) : Prop := (ended b ≤ ended a)%Z.

#[global] Instance ended_later_dec : RelDecision ended_later.
Proof. intros a b. unfold ended_later. apply _. Defined.

Record Db := mkDb {
  users : gmap string User;
  txns : list Txn;
  history : gmap string CompletedMatch;
  db_up : bool
}.

Inductive DbError := P2002 | DbDown.

#[export] Instance DbError_eq_dec : EqDecision DbError.
Proof. solve_decision. Defined.

(** The unique key (userId, matchId, type); rows without a match never
    conflict (SQL NULLs are distinct). *)
Definition same_key (t t' : Txn) : Prop :=
  tx_user t = tx_user t' ∧ tx_type t = tx_type t' ∧ tx_match t = tx_match t' ∧ is_Some (tx_match t).

#[export] Instance same_key_dec t t' : Decision (same_key t t').
Proof. unfold same_key. apply _. Defined.

(** [tx.transaction.create]. *)
Definition txn_create (db : Db) (t : Txn) : DbError + Db :=
  if negb (db_up db) then inl DbDown
  else if bool_decide (Exists (same_key t) (txns db)) then inl P2002
  else inr (mkDb (users db) (txns db ++ [t]) (history db) (db_up db)).

(** [tx.user.update({ data: { gemBalance: {increment: dg}, bonusGems:
    {increment: db} } })]: the update of a missing user throws. *)
Definition user_increment (db : Db) (u : string) (dg dbn : Z) : option Db :=
  match users db !! u with
  | None => None
  | Some usr =>
      Some (mkDb (<[u := mkUser (gemBalance usr + dg) (bonusGems usr + dbn)]> (users db))
                 (txns db) (history db) (db_up db))
  end.

(** [addTransaction] (lines 52-95): the transaction row and the balance
    update in one [$transaction] (rolled back if either fails); a
    duplicate is the idempotent success [null]. *)
Definition addTransaction (db : Db) (userId type : string) (amount : Z) (currency note : string)
    (matchId lobbyType : option string) : (DbError + option Txn) * Db :=
  let t := mkTxn userId type amount currency note matchId lobbyType in
  match txn_create db t with
  | inl P2002 => (inr None, db)
  | inl e => (inl e, db)
  | inr db1 =>
      let dg := if bool_decide (currency = "gems") then amount else 0%Z in
      let dbn := if bool_decide (currency = "gems") then 0%Z else amount in
      match user_increment db1 userId dg dbn with
      | None => (inl DbDown, db)
      | Some db2 => (inr (Some t), db2)
      end
  end.

(** The note of the entry fee row (lines 140-143). *)
Definition entryFeeNote (usedGems usedBonusGems : Z) : string :=
  if bool_decide (0 < usedBonusGems)%Z
  then "Match entry fee (" +:+ pretty usedGems +:+ " gems, " +:+ pretty usedBonusGems +:+ " bonus gems)"
  else "Match entry fee (" +:+ pretty usedGems +:+ " gems)".

(** [tryDebitUser] (lines 108-172). *)
Definition tryDebitUser (db : Db) (userId : string) (amountGems : Z)
    (lobbyType matchId : option string) : bool * Db :=
  if negb (db_up db) then (false, db)
  else
    match users db !! userId with
    | None => (false, db)
    | Some usr =>
        let usedGems := Z.min (gemBalance usr) amountGems in
        let usedBonusGems :=
          if bool_decide (usedGems < amountGems)%Z
          then Z.min (bonusGems usr) (amountGems - usedGems) else 0%Z in
        if bool_decide (usedGems + usedBonusGems < amountGems)%Z then (false, db)
        else
          let t := mkTxn userId "entryFee" (- (usedGems + usedBonusGems)) "gems"
                         (entryFeeNote usedGems usedBonusGems) matchId lobbyType in
          match txn_create db t with
          | inl P2002 => (true, db)
          | inl DbDown => (false, db)
          | inr db1 =>
              match user_increment db1 userId (- usedGems) (- usedBonusGems) with
              | None => (false, db)
              | Some db2 => (true, db2)
              end
          end
    end.

(** The ordinal suffix of the prize note (lines 185-192). *)
Definition placeSuffix (place : Z) : string :=
  if bool_decide (place `mod` 10 = 1 ∧ place `mod` 100 ≠ 11)%Z then "st"
  else if bool_decide (place `mod` 10 = 2 ∧ place `mod` 100 ≠ 12)%Z then "nd"
  else if bool_decide (place `mod` 10 = 3 ∧ place `mod` 100 ≠ 13)%Z then "rd"
  else "th".

(** [creditPrize] (lines 175-212): [Some e] when the user lookup throws;
    the errors of [addTransaction] are caught and logged. *)
Definition creditPrize (db : Db) (userId : string) (amountGems : Z)
    (lobbyType matchId : option string) (place : Z) : option DbError * Db :=
  if bool_decide (amountGems ≤ 0)%Z then (None, db)
  else if negb (db_up db) then (Some DbDown, db)
  else
    match users db !! userId with
    | None => (None, db)
    | Some _ =>
        let note := "Prize for " +:+ pretty place +:+ placeSuffix place +:+ " place" in
        (None, (addTransaction db userId "prize" amountGems "gems" note matchId lobbyType).2)
    end.

(** [prisma.completedMatch.create]: throws when the id exists. *)
Definition saveHistory (db : Db) (cm : CompletedMatch) : option DbError * Db :=
  if negb (db_up db) then (Some DbDown, db)
  else if bool_decide (is_Some (history db !! cm_id cm)) then (Some P2002, db)
  else (None, mkDb (users db) (txns db) (<[cm_id cm := cm]> (history db)) (db_up db)).

(** [prisma.user.upsert({ where: { id }, update: {}, create: { id,
    username, ..., gemBalance: 0 } })]: a missing user is created with no
    gems.  The create also sets a username, whose unique column is not
    part of this record: the create is taken to succeed. *)
Definition upsertUser (db : Db) (u : string) : option DbError * Db :=
  if negb (db_up db) then (Some DbDown, db)
  else match users db !! u with
       | Some _ => (None, db)
       | None => (None, mkDb (<[u := mkUser 0 0]> (users db)) (txns db) (history db) (db_up db))
       end.

(** ** Invariants of the tables *)

(** The unique key of a row that has a match. *)
Definition txn_key (t : Txn) : option (string * string * string) :=
  (λ m, (tx_user t, tx_type t, m)) <$> tx_match t.

(** No two rows share a key: the state the constraint maintains. *)
Definition keys_unique (db : Db) : Prop := NoDup (omap txn_key (txns db)).

(** The gems a user holds, both currencies together. *)
Definition wallet (db : Db) (u : string) : Z :=
  match users db !! u with
  | Some usr => gemBalance usr + bonusGems usr
  | None => 0
  end.

(** The sum of the user's transaction amounts. *)
Definition txsum (db : Db) (u : string) : Z :=
  Σ (tx_amount <$> filter (λ t, tx_user t = u) (txns db)).

(** Every balance change is recorded: [wallet - txsum] is the same in
    the states before and after an operation. *)
Definition conserves (db db' : Db) : Prop :=
  ∀ u, (wallet db' u - txsum db' u = wallet db u - txsum db u)%Z.

Definition balances_nonneg (db : Db) : Prop :=
  map_Forall (λ _ usr, 0 ≤ gemBalance usr ∧ 0 ≤ bonusGems usr)%Z (users db).

Definition has_txn (db : Db) (u type m : string) : Prop :=
  Exists (λ t, tx_user t = u ∧ tx_type t = type ∧ tx_match t = Some m) (txns db).

Lemma same_key_has_txn db t m :
  tx_match t = Some m →
  Exists (same_key t) (txns db) ↔ has_txn db (tx_user t) (tx_type t) m.
Proof.
  intros Hm. unfold has_txn, same_key. rewrite Hm.
  split; intros H; (eapply Exists_impl; [exact H|]); simpl; intros t' Ht'; naive_solver.
Qed.

Lemma txn_key_same t t' : is_Some (txn_key t) → txn_key t = txn_key t' → same_key t t'.
Proof.
  unfold txn_key, same_key. destruct (tx_match t), (tx_match t'); simpl; intros Hs Heq;
    simplify_eq; [naive_solver|by destruct Hs..].
Qed.

Lemma txn_create_keys db t db' :
  txn_create db t = inr db' → keys_unique db → keys_unique db'.
Proof.
  unfold txn_create, keys_unique. destruct (db_up db); [|done]. simpl.
  case_bool_decide as Hex; [done|]. intros [= <-] Hu. simpl.
  rewrite omap_app. apply NoDup_app. split_and!; [exact Hu| |].
  - intros k Hk. simpl. destruct (txn_key t) as [k'|] eqn:Ek; simpl; [|set_solver].
    rewrite list_elem_of_singleton. intros ->. apply Hex.
    apply list_elem_of_omap in Hk as (t' & Ht' & Ek').
    apply Exists_exists. exists t'. split; [done|]. apply txn_key_same; [by rewrite Ek|congruence].
  - simpl. destruct (txn_key t); simpl; [apply NoDup_singleton|constructor].
Qed.

Lemma txsum_app db t db' u :
  txns db' = txns db ++ [t] →
  txsum db' u = (txsum db u + if bool_decide (tx_user t = u) then tx_amount t else 0)%Z.
Proof.
  intros Ht. unfold txsum. rewrite Ht, filter_app, fmap_app, sumZ_app, filter_cons.
  case_decide; case_bool_decide; try done; simpl; rewrite ?sumZ_cons, ?sumZ_nil; lia.
Qed.

Lemma wallet_increment db u dg dbn db' v :
  user_increment db u dg dbn = Some db' →
  wallet db' v = (wallet db v + if bool_decide (u = v) then dg + dbn else 0)%Z.
Proof.
  unfold user_increment, wallet. destruct (users db !! u) as [usr|] eqn:E; [|done].
  intros [= <-]. simpl. destruct (decide (u = v)) as [<-|Hne].
  - rewrite lookup_insert_eq, E, bool_decide_true by done. simpl. lia.
  - rewrite lookup_insert_ne, bool_decide_false by done. lia.
Qed.

Lemma user_increment_txns db u dg dbn db' :
  user_increment db u dg dbn = Some db' → txns db' = txns db ∧ history db' = history db ∧ db_up db' = db_up db.
Proof. unfold user_increment. destruct (users db !! u); [|done]. by intros [= <-]. Qed.

Lemma txn_create_txns db t db' :
  txn_create db t = inr db' →
  txns db' = txns db ++ [t] ∧ users db' = users db ∧ history db' = history db ∧ db_up db' = db_up db.
Proof.
  unfold txn_create. destruct (db_up db); [|done]. simpl. case_bool_decide; [done|].
  by intros [= <-].
Qed.

Lemma wallet_users db db' u : users db' = users db → wallet db' u = wallet db u.
Proof. unfold wallet. by intros ->. Qed.

(** A row inserted together with the matching balance change conserves. *)
Lemma create_increment_conserves db t db1 db2 dg dbn :
  txn_create db t = inr db1 → user_increment db1 (tx_user t) dg dbn = Some db2 →
  tx_amount t = (dg + dbn)%Z → conserves db db2.
Proof.
  intros Hc Hi Ha u.
  destruct (txn_create_txns _ _ _ Hc) as (Ht & Hu & _).
  destruct (user_increment_txns _ _ _ _ _ Hi) as (Ht2 & _).
  rewrite (wallet_increment _ _ _ _ _ _ Hi), (txsum_app db t db2 u) by (by rewrite Ht2, Ht).
  rewrite (wallet_users db db1 u Hu). case_bool_decide; lia.
Qed.

#[export] Hint Resolve txn_create_keys : gem.

(** ** The debit *)

Lemma debit_amounts (g b A : Z) :
  (0 ≤ b)%Z →
  let ug := Z.min g A in
  let ub := if bool_decide (ug < A)%Z then Z.min b (A - ug) else 0%Z in
  ((ug + ub < A)%Z ↔ (g + b < A)%Z) ∧
  (¬ (ug + ub < A)%Z → ug + ub = A)%Z ∧ (ug ≤ g)%Z ∧ (ub ≤ b)%Z.
Proof. intros Hb ug ub. subst ug ub. case_bool_decide; lia. Qed.

Lemma tryDebitUser_cases db u A l m :
  tryDebitUser db u A l m = (false, db) ∨ tryDebitUser db u A l m = (true, db) ∨
  ∃ usr t db1,
    users db !! u = Some usr ∧ tx_user t = u ∧ tx_type t = "entryFee" ∧ tx_match t = m ∧
    txn_create db t = inr db1 ∧
    let ug := Z.min (gemBalance usr) A in
    let ub := if bool_decide (ug < A)%Z then Z.min (bonusGems usr) (A - ug) else 0%Z in
    ¬ (ug + ub < A)%Z ∧ tx_amount t = (- (ug + ub))%Z ∧
    user_increment db1 u (- ug) (- ub) = Some (tryDebitUser db u A l m).2 ∧
    (tryDebitUser db u A l m).1 = true.
Proof.
  unfold tryDebitUser. destruct (db_up db); simpl; [|by left].
  destruct (users db !! u) as [usr|] eqn:Eu; [|by left].
  case_bool_decide as Hlt; [by left|].
  match goal with |- context [txn_create db ?t] => destruct (txn_create db t) as [[]|db1] eqn:Ec end;
    [by right; left|by left|].
  destruct (user_increment _ _ _ _) as [db2|] eqn:Ei; [|by left].
  right; right. eexists _, _, db1. simpl. split_and!; try done; reflexivity.
Qed.

(** C11: The entry-fee debit records every balance change in the
    transaction table, keeps the transaction keys unique and the balances
    nonnegative. *)
Theorem tryDebitUser_invariants db u A l m :
  keys_unique db → balances_nonneg db →
  conserves db (tryDebitUser db u A l m).2 ∧
  keys_unique (tryDebitUser db u A l m).2 ∧
  balances_nonneg (tryDebitUser db u A l m).2.
Proof.
  intros Hk Hn.
  destruct (tryDebitUser_cases db u A l m) as [->|[->|(usr & t & db1 & Eu & <- & _ & _ & Ec & Hlt & Ha & Ei & _)]];
    [done|done|].
  destruct (txn_create_txns _ _ _ Ec) as (_ & Hu1 & _).
  split_and!.
  - eapply create_increment_conserves; [exact Ec|exact Ei|lia].
  - destruct (user_increment_txns _ _ _ _ _ Ei) as (Ht & _). unfold keys_unique.
    rewrite Ht. eapply txn_create_keys; [exact Ec|exact Hk].
  - unfold user_increment in Ei. rewrite Hu1, Eu in Ei. injection Ei as <-.
    unfold balances_nonneg. simpl. apply map_Forall_insert_2; [|exact Hn].
    apply Hn in Eu as [Hg Hb]. simpl.
    destruct (debit_amounts (gemBalance usr) (bonusGems usr) A Hb) as (_ & _ & ? & ?). lia.
Qed.

Lemma has_txn_app db db' t u type m :
  txns db' = txns db ++ [t] →
  has_txn db' u type m ↔ has_txn db u type m ∨ (tx_user t = u ∧ tx_type t = type ∧ tx_match t = Some m).
Proof.
  unfold has_txn. intros ->. rewrite Exists_app, Exists_cons, Exists_nil. naive_solver.
Qed.

(** The debit of an entry fee on an available database and an existing
    user: with fewer gems (both kinds) than the fee it fails and changes
    nothing; when the user was already charged for this match it succeeds
    and changes nothing; otherwise it succeeds, takes exactly the fee from
    that user and from no one else, and records the charge. *)
Theorem tryDebitUser_spec db u A l mid usr :
  db_up db = true → users db !! u = Some usr → (0 ≤ bonusGems usr)%Z →
  ((gemBalance usr + bonusGems usr < A)%Z → tryDebitUser db u A l (Some mid) = (false, db)) ∧
  ((A ≤ gemBalance usr + bonusGems usr)%Z → has_txn db u "entryFee" mid →
     tryDebitUser db u A l (Some mid) = (true, db)) ∧
  ((A ≤ gemBalance usr + bonusGems usr)%Z → ¬ has_txn db u "entryFee" mid →
     (tryDebitUser db u A l (Some mid)).1 = true ∧
     wallet (tryDebitUser db u A l (Some mid)).2 u = (wallet db u - A)%Z ∧
     has_txn (tryDebitUser db u A l (Some mid)).2 u "entryFee" mid ∧
     ∀ v, v ≠ u → wallet (tryDebitUser db u A l (Some mid)).2 v = wallet db v).
Proof.
  intros Hup Eu Hb.
  destruct (debit_amounts (gemBalance usr) (bonusGems usr) A Hb) as (Hiff & Heq & _ & _).
  unfold tryDebitUser. rewrite Hup, Eu. simpl.
  set (ug := Z.min (gemBalance usr) A) in *.
  set (ub := if bool_decide (ug < A)%Z then Z.min (bonusGems usr) (A - ug) else 0%Z) in *.
  split_and!.
  - intros Hlt. rewrite bool_decide_true by lia. done.
  - intros Hge Hh. rewrite bool_decide_false by lia. unfold txn_create. rewrite Hup. simpl.
    rewrite bool_decide_true; [done|]. by apply (same_key_has_txn db _ mid).
  - intros Hge Hh. rewrite bool_decide_false by lia.
    match goal with |- context [txn_create db ?t0] => set (t := t0) end.
    destruct (txn_create db t) as [e|db1] eqn:Ec.
    { exfalso. unfold txn_create in Ec. rewrite Hup in Ec. simpl in Ec.
      case_bool_decide as Hex; [|done]. apply Hh. by apply (same_key_has_txn db t mid) in Hex. }
    destruct (txn_create_txns _ _ _ Ec) as (Ht1 & Hu1 & _).
    destruct (user_increment db1 u (- ug) (- ub)) as [db2|] eqn:Ei;
      [|unfold user_increment in Ei; by rewrite Hu1, Eu in Ei].
    destruct (user_increment_txns _ _ _ _ _ Ei) as (Ht2 & _).
    simpl. split_and!; [done| | |].
    + rewrite (wallet_increment _ _ _ _ _ _ Ei), bool_decide_true, (wallet_users db db1) by done.
      assert (ug + ub = A)%Z by (apply Heq; lia). lia.
    + apply (has_txn_app db db2 t); [by rewrite Ht2|]. right. done.
    + intros v Hv. rewrite (wallet_increment _ _ _ _ _ _ Ei), bool_decide_false by done.
      rewrite (wallet_users db db1) by done. lia.
Qed.

(** C9: A debit for a match the user was already charged for never
    changes the ledger, whatever the balance: a retried or concurrent
    join cannot charge twice. *)
Theorem tryDebitUser_no_double_charge db u A l mid :
  has_txn db u "entryFee" mid → (tryDebitUser db u A l (Some mid)).2 = db.
Proof.
  intros Hh.
  destruct (tryDebitUser_cases db u A l (Some mid))
    as [->|[->|(usr & t & db1 & _ & Hu & Hty & Hm & Ec & _)]]; [done|done|].
  exfalso. unfold txn_create in Ec. destruct (db_up db); [|done]. simpl in Ec.
  case_bool_decide as Hex; [done|]. apply Hex. apply (same_key_has_txn db t mid Hm).
  by rewrite Hu, Hty.
Qed.

(** ** The prize credit *)

Lemma creditPrize_cases db u A l m p :
  creditPrize db u A l m p = (None, db) ∨ creditPrize db u A l m p = (Some DbDown, db) ∨
  ∃ note, creditPrize db u A l m p = (None, (addTransaction db u "prize" A "gems" note m l).2) ∧
          (0 < A)%Z.
Proof.
  unfold creditPrize. case_bool_decide; [by left|].
  destruct (db_up db); simpl; [|by right; left].
  destruct (users db !! u); [|by left]. right; right. eexists; split; [done|lia].
Qed.

Lemma addTransaction_cases db u ty A cur note m l :
  (addTransaction db u ty A cur note m l).2 = db ∨
  ∃ t db1 dg dbn, txn_create db t = inr db1 ∧ tx_user t = u ∧ tx_type t = ty ∧ tx_match t = m ∧
    tx_amount t = A ∧ (dg + dbn = A)%Z ∧
    (bool_decide (cur = "gems") = true → dg = A) ∧
    user_increment db1 u dg dbn = Some (addTransaction db u ty A cur note m l).2.
Proof.
  unfold addTransaction.
  destruct (txn_create db _) as [[]|db1] eqn:Ec; [by left|by left|].
  destruct (user_increment db1 u _ _) as [db2|] eqn:Ei; [|by left].
  right. do 4 eexists. split_and!; [exact Ec|done|done|done|done| | |exact Ei].
  - case_bool_decide; lia.
  - intros H. by rewrite H.
Qed.

(** C12: The prize credit keeps the ledger's invariants: every balance
    change recorded, keys unique, balances nonnegative. *)
Theorem creditPrize_invariants db u A l m p :
  keys_unique db → balances_nonneg db →
  conserves db (creditPrize db u A l m p).2 ∧
  keys_unique (creditPrize db u A l m p).2 ∧
  balances_nonneg (creditPrize db u A l m p).2.
Proof.
  intros Hk Hn.
  destruct (creditPrize_cases db u A l m p) as [->|[->|(note & -> & HA)]]; [done|done|]. simpl.
  destruct (addTransaction_cases db u "prize" A "gems" note m l)
    as [->|(t & db1 & dg & dbn & Ec & Hu & _ & _ & Ha & Hs & Hg & Ei)]; [done|].
  specialize (Hg eq_refl). assert (dbn = 0)%Z by lia. subst dg dbn.
  destruct (txn_create_txns _ _ _ Ec) as (_ & Hu1 & _).
  destruct (user_increment_txns _ _ _ _ _ Ei) as (Ht & _).
  split_and!.
  - eapply create_increment_conserves; [exact Ec|rewrite Hu; exact Ei|lia].
  - unfold keys_unique. rewrite Ht. by eapply txn_create_keys.
  - unfold user_increment in Ei. rewrite Hu1 in Ei.
    destruct (users db !! u) as [usr|] eqn:Eu; [|done]. injection Ei as <-.
    unfold balances_nonneg. simpl. apply map_Forall_insert_2; [|exact Hn].
    apply Hn in Eu as [? ?]. simpl. lia.
Qed.

(** C10: A prize is credited at most once per user and match: once a prize
    row exists, further credits for that match change nothing. *)
Theorem creditPrize_once db u A l mid p :
  has_txn db u "prize" mid → (creditPrize db u A l (Some mid) p).2 = db.
Proof.
  intros Hh.
  destruct (creditPrize_cases db u A l (Some mid) p) as [->|[->|(note & -> & _)]]; [done|done|].
  simpl. destruct (addTransaction_cases db u "prize" A "gems" note (Some mid) l)
    as [->|(t & db1 & dg & dbn & Ec & Hu & Hty & Hm & _)]; [done|].
  exfalso. unfold txn_create in Ec. destruct (db_up db); [|done]. simpl in Ec.
  case_bool_decide as Hex; [done|]. apply Hex. apply (same_key_has_txn db t mid Hm).
  by rewrite Hu, Hty.
Qed.

(** The prize credit, on an available database, an existing user, a
    positive amount and no earlier prize row for the match, adds exactly
    the amount to that user's gems and records it. *)
Theorem creditPrize_spec db u A l mid p usr :
  db_up db = true → users db !! u = Some usr → (0 < A)%Z → ¬ has_txn db u "prize" mid →
  (creditPrize db u A l (Some mid) p).1 = None ∧
  wallet (creditPrize db u A l (Some mid) p).2 u = (wallet db u + A)%Z ∧
  has_txn (creditPrize db u A l (Some mid) p).2 u "prize" mid ∧
  ∀ v, v ≠ u → wallet (creditPrize db u A l (Some mid) p).2 v = wallet db v.
Proof.
  intros Hup Eu HA Hh. unfold creditPrize.
  rewrite bool_decide_false by lia. rewrite Hup, Eu. simpl.
  unfold addTransaction.
  match goal with |- context [txn_create db ?t0] => set (t := t0) end.
  destruct (txn_create db t) as [e|db1] eqn:Ec.
  { exfalso. unfold txn_create in Ec. rewrite Hup in Ec. simpl in Ec.
    case_bool_decide as Hex; [|done]. apply Hh. by apply (same_key_has_txn db t mid) in Hex. }
  destruct (txn_create_txns _ _ _ Ec) as (Ht1 & Hu1 & _).
  rewrite bool_decide_true by done.
  destruct (user_increment db1 u A 0) as [db2|] eqn:Ei;
    [|unfold user_increment in Ei; by rewrite Hu1, Eu in Ei].
  destruct (user_increment_txns _ _ _ _ _ Ei) as (Ht2 & _).
  simpl. split_and!; [done| | |].
  - rewrite (wallet_increment _ _ _ _ _ _ Ei), bool_decide_true, (wallet_users db db1) by done. lia.
  - apply (has_txn_app db db2 t); [by rewrite Ht2|]. right. done.
  - intros v Hv. rewrite (wallet_increment _ _ _ _ _ _ Ei), bool_decide_false by done.
    rewrite (wallet_users db db1) by done. lia.
Qed.

(** A prize credit on an available database, for an existing user and no
    earlier prize row of the match, appends one prize row of the amount
    and keeps the set of users. *)
Lemma creditPrize_appends db u A l mid p :
  db_up db = true → is_Some (users db !! u) → (0 < A)%Z → ¬ has_txn db u "prize" mid →
  ∃ t, (creditPrize db u A l (Some mid) p).1 = None ∧
       txns (creditPrize db u A l (Some mid) p).2 = txns db ++ [t] ∧
       tx_user t = u ∧ tx_type t = "prize" ∧ tx_match t = Some mid ∧ tx_amount t = A ∧
       db_up (creditPrize db u A l (Some mid) p).2 = true ∧
       (∀ v, is_Some (users (creditPrize db u A l (Some mid) p).2 !! v) ↔ is_Some (users db !! v)).
Proof.
  intros Hup [usr Eu] HA Hh. unfold creditPrize.
  rewrite bool_decide_false by lia. rewrite Hup, Eu. simpl.
  unfold addTransaction.
  match goal with |- context [txn_create db ?t0] => set (t := t0) end.
  destruct (txn_create db t) as [e|db1] eqn:Ec.
  { exfalso. unfold txn_create in Ec. rewrite Hup in Ec. simpl in Ec.
    case_bool_decide as Hex; [|done]. apply Hh. by apply (same_key_has_txn db t mid) in Hex. }
  destruct (txn_create_txns _ _ _ Ec) as (Ht1 & Hu1 & _ & Hup1).
  rewrite bool_decide_true by done.
  destruct (user_increment db1 u A 0) as [db2|] eqn:Ei;
    [|unfold user_increment in Ei; by rewrite Hu1, Eu in Ei].
  destruct (user_increment_txns _ _ _ _ _ Ei) as (Ht2 & _ & Hup2).
  exists t. simpl. split_and!; try done; [congruence|congruence|].
  intros v. unfold user_increment in Ei. rewrite Hu1, Eu in Ei. injection Ei as <-. simpl.
  destruct (decide (v = u)) as [->|Hne]; [rewrite lookup_insert_eq, Eu; done|].
  by rewrite lookup_insert_ne.
Qed.

(** ** Scenarios *)

Definition demo_db : Db :=
  mkDb (<["alice" := mkUser 100 20]> (<["bob" := mkUser 40 0]> ∅)) [] ∅ true.

(** The ordinal of the prize note: 11th, 12th and 13th, but 21st. *)
Example placeSuffix_examples :
  placeSuffix <$> [1; 2; 3; 4; 11; 12; 13; 21; 22; 23; 101; 111; 112]%Z =
  ["st"; "nd"; "rd"; "th"; "th"; "th"; "th"; "st"; "nd"; "rd"; "st"; "th"; "th"].
Proof. vm_compute. reflexivity. Qed.

(** C38: A duplicate debit is not always the success the spec promises: the
    funds are checked before the duplicate is detected, so when the
    balance left after the first charge is below the fee the retry
    reports insufficient funds (with no charge). *)
Example tryDebitUser_retry_insufficient :
  let '(ok1, db1) := tryDebitUser demo_db "bob" 40 (Some "classic") (Some "m1") in
  ok1 = true ∧ wallet db1 "bob" = 0%Z ∧
  tryDebitUser db1 "bob" 40 (Some "classic") (Some "m1") = (false, db1).
Proof. vm_compute. split_and!; reflexivity. Qed.

Lemma tryDebitUser_spec_witness :
  (tryDebitUser demo_db "alice" 110 None (Some "m1")).1 = true ∧
  wallet (tryDebitUser demo_db "alice" 110 None (Some "m1")).2 "alice" = 10%Z.
Proof.
  destruct (tryDebitUser_spec demo_db "alice" 110 None "m1" (mkUser 100 20))
    as (_ & _ & H3); [reflexivity|reflexivity|simpl; lia|].
  destruct H3 as (H1 & H2 & _); [simpl; lia|unfold has_txn; simpl; inversion 1|].
  split; [exact H1|]. rewrite H2. reflexivity.
Defined.

Lemma tryDebitUser_no_double_charge_witness :
  let db1 := (tryDebitUser demo_db "alice" 100 None (Some "m1")).2 in
  (tryDebitUser db1 "alice" 100 None (Some "m1")).2 = db1.
Proof.
  apply tryDebitUser_no_double_charge. vm_compute. apply Exists_cons. left. split_and!; reflexivity.
Defined.

Lemma creditPrize_once_witness :
  let db1 := (creditPrize demo_db "bob" 50 None (Some "m1") 1).2 in
  (creditPrize db1 "bob" 50 None (Some "m1") 1).2 = db1.
Proof.
  apply creditPrize_once. vm_compute. apply Exists_cons. left. split_and!; reflexivity.
Defined.

Lemma creditPrize_spec_witness :
  wallet (creditPrize demo_db "bob" 50 None (Some "m1") 1).2 "bob" = 90%Z.
Proof.
  destruct (creditPrize_spec demo_db "bob" 50 None "m1" 1 (mkUser 40 0))
    as (_ & H & _); [reflexivity|reflexivity|lia|unfold has_txn; simpl; inversion 1|].
  rewrite H. reflexivity.
Defined.

Lemma demo_db_ok : keys_unique demo_db ∧ balances_nonneg demo_db.
Proof.
  split; [constructor|]. unfold balances_nonneg. simpl.
  apply map_Forall_insert_2; [simpl; lia|]. apply map_Forall_insert_2; [simpl; lia|].
  apply map_Forall_empty.
Qed.

Lemma tryDebitUser_invariants_witness :
  keys_unique demo_db ∧ balances_nonneg demo_db ∧
  conserves demo_db (tryDebitUser demo_db "bob" 40 None (Some "m1")).2.
Proof.
  destruct demo_db_ok as [Hk Hn].
  split_and!; [exact Hk|exact Hn|apply (tryDebitUser_invariants _ _ _ _ _ Hk Hn)].
Defined.

Lemma creditPrize_invariants_witness :
  keys_unique demo_db ∧ balances_nonneg demo_db ∧
  conserves demo_db (creditPrize demo_db "bob" 40 None (Some "m1") 1).2.
Proof.
  destruct demo_db_ok as [Hk Hn].
  split_and!; [exact Hk|exact Hn|apply (creditPrize_invariants _ _ _ _ _ _ Hk Hn)].
Defined.

End Ledger.
