(* ===== verification/Accounts.v ===== *)
(** * Accounts: authentication, users and the wallet listing

    The user table is shared by the ledger and by the account routes: the
    balances [gemBalance] and [bonusGems] are [Ledger.users]; the columns
    only the account routes use ([authUid], [username], [cashBalance],
    [bonusBalance] and the two timestamps) are [profiles].  An account
    database [AccDb] holds both, and the account code runs in a small
    state and error monad [AccM] over it, one constructor of [AccErr] per
    way a Prisma call or a handler throws.

    - config/auth.ts [getAuthMode], [isDevAuth];
    - middlewares/authFirebase.ts [authFirebase], with the token check
      [verifyIdToken] of config/firebase.ts as a parameter (it calls the
      Firebase Admin SDK);
    - services/database.ts [getOrCreateUserByAuthUid], [getUserById];
    - users.ts and wallet.ts [getRequestingUser], GET /users/me,
      POST /users/username, POST /users/login-or-register,
      GET /wallet/transactions and GET /users/matches, whose filter on
      the jsonb players column is [Jsonb.string_contains].

    Prisma's [findUnique] on [authUid] and on [username] requires both
    columns to be unique in the schema (not under src/), so [createUser]
    and [updateUsername] reject a duplicate with P2002 as the database
    would.  Ids are [fresh_string "user"] (the schema's generated id);
    transaction rows are listed newest first, which is table order
    reversed, and carry their position as id (the row ids and timestamps
    the database generates are not modelled). *)

From S2P Require Import Prelude Model JsString JsDate Json Jsonb Ledger.
From stdpp Require Import stringmap.
From Stdlib Require Import Ascii String.

Module Accounts.

(** ** The user table *)

Record Profile := mkProfile {
  authUid : option string;
  username : option string;
  cashBalance : option Z;
  bonusBalance : option Z;
  createdAt : Z;
  updatedAt : Z
}.

Record AccDb := mkAcc { profiles : gmap string Profile; ledger : Ledger.Db }.

(** A user as [prisma.user.findUnique] returns it. *)
Record UserRow := mkRow { row_id : string; row_profile : Profile; row_wallet : Ledger.User }.

Inductive AccErr :=
  | Thrown (msg : string)               (** [throw new Error(msg)] *)
  | DbError (e : Ledger.DbError)        (** unreachable database, unique violation *)
  | RecordNotFound.                     (** [update] of a missing row (P2025) *)

Definition errMessage (e : AccErr) : string :=
  match e with
  | Thrown msg => msg
  | DbError Ledger.P2002 => "Unique constraint failed"
  | DbError Ledger.DbDown => "Can't reach database server"
  | RecordNotFound => "Record to update not found."
  end.

(** ** The account monad *)

Definition AccM (A : Type) : Type := AccDb → (AccErr + A) * AccDb.

#[export] Instance AccM_ret : MRet AccM := λ A a s, (inr a, s).
#[export] Instance AccM_bind : MBind AccM := λ A B f m s,
  match m s with
  | (inr a, s') => f a s'
  | (inl e, s') => (inl e, s')
  end.

Definition throw {A} (e : AccErr) : AccM A := λ s, (inl e, s).

(** [try { m } catch (e) { h(e) }] *)
Definition catch {A} (m : AccM A) (h : AccErr → AccM A) : AccM A := λ s,
  match m s with
  | (inl e, s') => h e s'
  | r => r
  end.

(** Every Prisma call fails when the database is unreachable. *)
Definition prisma {A} (k : AccDb → (AccErr + A) * AccDb) : AccM A := λ a,
  if Ledger.db_up (ledger a) then k a else (inl (DbError Ledger.DbDown), a).

(** ** Prisma calls on the user table *)

Definition user_row (a : AccDb) (i : string) : option UserRow :=
  p ← profiles a !! i; w ← Ledger.users (ledger a) !! i; Some (mkRow i p w).

(** The row whose unique column [f] holds [v]. *)
Definition find_by (f : Profile → option string) (v : string) (a : AccDb) : option UserRow :=
  match filter (λ kp, f kp.2 = Some v) (map_to_list (profiles a)) with
  | (i, _) :: _ => user_row a i
  | [] => None
  end.

(** Some row other than [i] holds [v] in column [f]. *)
Definition taken (f : Profile → option string) (v : option string) (i : option string) (a : AccDb) : bool :=
  match v with
  | None => false
  | Some x => existsb (λ kp, bool_decide (f kp.2 = Some x ∧ Some kp.1 ≠ i)) (map_to_list (profiles a))
  end.

(** [prisma.user.findUnique({ where: { id } })] *)
Definition findById (i : string) : AccM (option UserRow) := prisma (λ a, (inr (user_row a i), a)).

(** [prisma.user.findUnique({ where: { authUid } })] *)
Definition findByAuthUid (uid : string) : AccM (option UserRow) := prisma (λ a, (inr (find_by authUid uid a), a)).

(** [prisma.user.findUnique({ where: { username } })] *)
Definition findByUsername (n : string) : AccM (option UserRow) := prisma (λ a, (inr (find_by username n a), a)).

(** [prisma.user.create({ data })] *)
Definition createUser (p : Profile) (w : Ledger.User) : AccM UserRow := prisma (λ a,
  if taken authUid (authUid p) None a || taken username (username p) None a
  then (inl (DbError Ledger.P2002), a)
  else
    let i := fresh_string "user" (profiles a) in
    let l := ledger a in
    (inr (mkRow i p w),
     mkAcc (<[i := p]> (profiles a))
           (Ledger.mkDb (<[i := w]> (Ledger.users l)) (Ledger.txns l) (Ledger.history l) (Ledger.db_up l)))).

Definition with_username (p : Profile) (n : string) (now : Z) : Profile :=
  mkProfile (authUid p) (Some n) (cashBalance p) (bonusBalance p) (createdAt p) now.

(** [prisma.user.update({ where: { id }, data: { username } })]; the
    [@updatedAt] column takes the time of the update. *)
Definition updateUsername (i n : string) (now : Z) : AccM UserRow := prisma (λ a,
  match user_row a i with
  | None => (inl RecordNotFound, a)
  | Some r =>
      if taken username (Some n) (Some i) a then (inl (DbError Ledger.P2002), a)
      else
        let p' := with_username (row_profile r) n now in
        (inr (mkRow i p' (row_wallet r)), mkAcc (<[i := p']> (profiles a)) (ledger a))
  end).

(** [prisma.transaction.findMany({ where: { userId }, orderBy: { createdAt:
    "desc" } })]: the user's rows, newest first, with their positions. *)
Definition userTxns (u : string) (a : AccDb) : list (nat * Ledger.Txn) :=
  reverse (filter (λ it, Ledger.tx_user it.2 = u) (imap pair (Ledger.txns (ledger a)))).

Definition findTxns (u : string) : AccM (list (nat * Ledger.Txn)) := prisma (λ a, (inr (userTxns u a), a)).

(** ** services/database.ts *)

(** [getOrCreateUserByAuthUid] (lines 11-32): new users start with 100
    gems and no bonus gems. *)
Definition getOrCreateUserByAuthUid (uid : string) (now : Z) : AccM UserRow :=
  existing ← findByAuthUid uid;
  match existing with
  | Some u => mret u
  | None => createUser (mkProfile (Some uid) None None None now now) (Ledger.mkUser 100 0)
  end.

(** [getUserById] (lines 40-49) *)
Definition getUserById (userId : string) : AccM UserRow :=
  u ← findById userId;
  match u with
  | Some u => mret u
  | None => throw (Thrown ("User with ID " +:+ userId +:+ " not found."))
  end.

(** ** Authentication *)

Inductive AuthMode := Dev | Firebase.

#[export] Instance AuthMode_eq_dec : EqDecision AuthMode.
Proof. solve_decision. Defined.

(** [getAuthMode] (config/auth.ts lines 3-12) over [process.env]. *)
Definition getAuthMode (AUTH_MODE NODE_ENV : option string) : AuthMode :=
  let explicit := JsString.toLowerCase (JsString.chars (default "" AUTH_MODE)) in
  if bool_decide (explicit = JsString.chars "dev") then Dev
  else if bool_decide (explicit = JsString.chars "firebase") then Firebase
  else if bool_decide (JsString.toLowerCase (JsString.chars (default "" NODE_ENV)) = JsString.chars "production") then Firebase
  else Dev.

(** [s.replace(pat, rep)] with a string pattern: the first occurrence. *)
Fixpoint replace_first (pat rep s : list ascii) : list ascii :=
  if bool_decide (take (List.length pat) s = pat) then rep ++ drop (List.length pat) s
  else match s with
       | [] => []
       | c :: s' => c :: replace_first pat rep s'
       end.

(** What [authFirebase] leaves in [req.user]. *)
Inductive ReqUser := DevUser | TokenUser (uid : string).

Inductive AuthResult := Next (u : ReqUser) | Unauthorized.

(** [authFirebase] (middlewares/authFirebase.ts lines 7-26);
    [verifyIdToken] gives the uid of a valid token. *)
Definition authFirebase (mode : AuthMode) (verifyIdToken : string → option string)
    (authorization : option string) : AuthResult :=
  match authorization with
  | Some auth =>
      if bool_decide (auth = "") then (if bool_decide (mode = Dev) then Next DevUser else Unauthorized)
      else
        match verifyIdToken (JsString.of_chars (replace_first (JsString.chars "Bearer ") [] (JsString.chars auth))) with
        | Some uid => Next (TokenUser uid)
        | None => Unauthorized
        end
  | None => if bool_decide (mode = Dev) then Next DevUser else Unauthorized
  end.

(** A field of [req.body] or [req.query]: a string, or another value,
    truthy or not. *)
Inductive Field := FStr (s : string) | FOther (truthy : bool).

Definition truthy (f : Field) : bool :=
  match f with FStr s => bool_decide (s ≠ "") | FOther b => b end.

(** [a || b] *)
Definition js_or (a b : Field) : Field := if truthy a then a else b.

(** What a handler knows of its request. *)
Record Req := mkReq {
  req_mode : AuthMode;
  req_user : ReqUser;
  body_userId : Field;
  query_userId : Field;
  req_now : Z
}.

(** [getRequestingUser] (users.ts lines 21-40). *)
Definition getRequestingUser (r : Req) : AccM UserRow :=
  match req_mode r with
  | Dev =>
      match js_or (body_userId r) (query_userId r) with
      | FStr u => getUserById u
      | FOther _ => throw (Thrown "A 'userId' is required in the body or query in dev mode.")
      end
  | Firebase =>
      match req_user r with
      | TokenUser uid => getOrCreateUserByAuthUid uid (req_now r)
      | DevUser => throw (Thrown "User not authenticated. No Firebase UID found in request.")
      end
  end.

(** wallet.ts declares its own [getRequestingUser] (lines 24-44), with
    the body of the one of users.ts. *)
Definition getRequestingUser_wallet : Req → AccM UserRow := getRequestingUser.

(** ** The routes *)

(** A transaction as the wallet lists it. *)
Record TxView := mkTxView {
  txId : nat;
  tv_type : string;
  tv_amount : Z;
  tv_currency : string;
  tv_description : string;
  tv_matchId : option string;
  tv_lobbyId : option string
}.

(** A history row as GET /users/matches lists it (users.ts lines 199-210). *)
Record MatchSummary := mkSummary {
  ms_matchId : string;
  ms_lobbyId : string;
  ms_status : Status;
  ms_createdAt : string;
  ms_startedAt : option string;
  ms_endedAt : string;
  ms_entryFee : Z;
  ms_prizePool : Z;
  ms_myScore : Z;
  ms_opponentScore : Z
}.

Inductive AccBody :=
  | ProfileView (id : string) (username : option string) (needsUsername : bool)
                (cash bonusCash : option Z) (gems : Z) (createdAt lastActiveAt : string)
  | UsernameView (id : string) (username : option string)
  | Transactions (txs : list TxView)
  | MatchList (matches : list MatchSummary)
  | Failure (error : string) (details : option string).

Record AccResp := aresp { acode : Z; abody : AccBody }.

(** The message of a failed zod parse. *)
Definition zodMessage : string := "Invalid input".

(** [z.string().min(1).max(20)] *)
Definition usernameSchema (f : Field) : option string :=
  match f with
  | FStr s => if bool_decide (1 ≤ String.length s ≤ 20)%nat then Some s else None
  | FOther _ => None
  end.

(** The profile fields of a user (users.ts lines 48-57, 153-162). *)
Definition profileView (u : UserRow) (needsUsername : bool) : AccBody :=
  let p := row_profile u in
  ProfileView (row_id u) (username p) needsUsername (cashBalance p) (bonusBalance p)
    (Ledger.gemBalance (row_wallet u)) (JsDate.toISOString (createdAt p)) (JsDate.toISOString (updatedAt p)).

(** [!user.username || user.username.trim() === ""] *)
Definition needsUsername_me (n : option string) : bool :=
  match n with
  | None => true
  | Some s => bool_decide (s = "") || bool_decide (JsString.trim (JsString.chars s) = [])
  end.

(** GET /users/me (users.ts lines 43-65) *)
Definition me (r : Req) : AccM AccResp :=
  catch (u ← getRequestingUser r;
         mret (aresp 200 (profileView u (needsUsername_me (username (row_profile u))))))
        (λ e, mret (aresp 500 (Failure "Failed to get user data" (Some (errMessage e))))).

(** POST /users/username (users.ts lines 72-107) *)
Definition setUsername (r : Req) (body_username : Field) : AccM AccResp :=
  match usernameSchema body_username with
  | None => mret (aresp 400 (Failure zodMessage None))
  | Some n =>
      catch (u ← getRequestingUser r;
             existing ← findByUsername n;
             if match existing with Some e => bool_decide (row_id e ≠ row_id u) | None => false end
             then mret (aresp 409 (Failure "Username already taken" None))
             else
               upd ← updateUsername (row_id u) n (req_now r);
               mret (aresp 200 (UsernameView (row_id upd) (username (row_profile upd)))))
            (λ e, mret (aresp 500 (Failure "Failed to set username" (Some (errMessage e)))))
  end.

(** POST /users/login-or-register (users.ts lines 114-174): a new user
    gets 10000 cash, 1000 bonus cash and 100 gems; [bonusGems] takes the
    column's default, 0. *)
Definition loginOrRegister (r : Req) (body_username : Field) : AccM AccResp :=
  if bool_decide (req_mode r ≠ Dev) then
    mret (aresp 403 (Failure "This endpoint is only available in dev mode." None))
  else
  match usernameSchema body_username with
  | None => mret (aresp 400 (Failure zodMessage None))
  | Some n =>
      catch (existing ← findByUsername n;
             user ← match existing with
                    | Some u => mret u
                    | None => createUser (mkProfile None (Some n) (Some 10000%Z) (Some 1000%Z) (req_now r) (req_now r))
                                         (Ledger.mkUser 100 0)
                    end;
             mret (aresp 200 (profileView user (negb (truthy (FStr (default "" (username (row_profile user)))))))))
            (λ e, mret (aresp 500 (Failure "Failed to login or register" (Some (errMessage e)))))
  end.

(** [z.coerce.number()] of a query parameter: absent, an integer, or
    anything else (NaN, a fraction). *)
Inductive NumArg := NAbsent | NInt (z : Z) | NBad.

(** [z.coerce.number().int().positive().default(50)] *)
Definition limitSchema (a : NumArg) : option Z :=
  match a with NAbsent => Some 50%Z | NInt z => if bool_decide (0 < z)%Z then Some z else None | NBad => None end.

(** [z.coerce.number().int().nonnegative().default(0)] *)
Definition offsetSchema (a : NumArg) : option Z :=
  match a with NAbsent => Some 0%Z | NInt z => if bool_decide (0 ≤ z)%Z then Some z else None | NBad => None end.

(** [x || undefined] on an optional string column. *)
Definition nonEmpty (o : option string) : option string :=
  match o with Some s => if bool_decide (s = "") then None else Some s | None => None end.

(** The formatting of one row (wallet.ts lines 64-74). *)
Definition formatTx (it : nat * Ledger.Txn) : TxView :=
  let '(i, t) := it in
  mkTxView i (Ledger.tx_type t) (Ledger.tx_amount t)
    (if bool_decide (Ledger.tx_currency t = "bonus") then "bonusCash" else Ledger.tx_currency t)
    (Ledger.tx_note t) (nonEmpty (Ledger.tx_match t)) (nonEmpty (Ledger.tx_lobby t)).

(** [take: limit, skip: offset] *)
Definition page {A} (limit offset : Z) (l : list A) : list A :=
  take (Z.to_nat limit) (drop (Z.to_nat offset) l).

(** GET /wallet/transactions (wallet.ts lines 47-84) *)
Definition transactions (r : Req) (limit offset : NumArg) : AccM AccResp :=
  catch (u ← getRequestingUser_wallet r;
         match limitSchema limit, offsetSchema offset with
         | Some l, Some o =>
             txs ← findTxns (row_id u);
             mret (aresp 200 (Transactions (formatTx <$> page l o txs)))
         | _, _ => mret (aresp 400 (Failure zodMessage None))
         end)
        (λ e, mret (aresp 500 (Failure "Failed to get transactions" (Some (errMessage e))))).

(** The [string_contains] pattern [`"id":"${user.id}"`]: the id is put
    between the quotes as it is, without JSON escaping. *)
Definition idPattern (u : string) : list ascii :=
  Json.member_text (JsString.chars "id") (JsString.chars u).

(** The JSON value of the [players] column of a history row: the ranked
    players the settlement writes, in a jsonb column. *)
Definition playersValue (cm : Ledger.CompletedMatch) : Json.json :=
  Json.playersJson (Ledger.cm_players cm).

(** [players: { string_contains: `"id":"${user.id}"` }] *)
Definition mentions (u : string) (cm : Ledger.CompletedMatch) : bool :=
  Jsonb.string_contains (playersValue cm) (idPattern u).

(** [prisma.completedMatch.findMany({ where: { players: { string_contains
    } }, orderBy: { endedAt: "desc" }, take: 50 })] (users.ts lines
    182-190): rows with equal [endedAt] come in table order. *)
Definition recentMatches (u : string) (a : AccDb) : list Ledger.CompletedMatch :=
  take 50 (merge_sort Ledger.ended_later
             (filter (λ cm, mentions u cm = true) (map_to_list (Ledger.history (ledger a))).*2)).

Definition findRecentMatches (u : string) : AccM (list Ledger.CompletedMatch) :=
  prisma (λ a, (inr (recentMatches u a), a)).

(** [p?.score || 0]: a missing player counts 0 (a score is never NaN). *)
Definition scoreOr0 (p : option MatchPlayer.t) : Z := default 0%Z (MatchPlayer.score <$> p).

(** The formatting of one row (users.ts lines 194-211): the requester's
    score and that of the first other player.  The stored [players] is
    always an array, so the [null] branch and the filter after it do
    nothing. *)
Definition formatMatch (u : string) (cm : Ledger.CompletedMatch) : MatchSummary :=
  let players := Ledger.cm_players cm in
  mkSummary (Ledger.cm_id cm) (Ledger.cm_lobbyType cm) (Ledger.cm_status cm)
    (JsDate.toISOString (Ledger.cm_createdAt cm)) (JsDate.toISOString <$> Ledger.cm_startedAt cm)
    (JsDate.toISOString (Ledger.ended cm)) (Ledger.cm_entryFee cm) (Ledger.cm_prizePool cm)
    (scoreOr0 (js_find (λ p, bool_decide (MatchPlayer.id p = u)) players))
    (scoreOr0 (js_find (λ p, bool_decide (MatchPlayer.id p ≠ u)) players)).

(** GET /users/matches (users.ts lines 177-222) *)
Definition matches (r : Req) : AccM AccResp :=
  catch (u ← getRequestingUser r;
         rows ← findRecentMatches (row_id u);
         mret (aresp 200 (MatchList (formatMatch (row_id u) <$> rows))))
        (λ e, mret (aresp 500 (Failure "Failed to get user matches" (Some (errMessage e))))).

(** ** The invariant of the user table *)

(** Every user has both parts, and no two users share a username or an
    authentication uid: the state the unique columns maintain. *)
Definition unique_col (f : Profile → option string) (a : AccDb) : Prop :=
  ∀ i j p q x, profiles a !! i = Some p → profiles a !! j = Some q →
    f p = Some x → f q = Some x → i = j.

Definition acc_wf (a : AccDb) : Prop :=
  (∀ i, is_Some (profiles a !! i) ↔ is_Some (Ledger.users (ledger a) !! i)) ∧
  unique_col username a ∧ unique_col authUid a.

Definition keeps_wf {A} (m : AccM A) : Prop := ∀ a, acc_wf a → acc_wf (m a).2.

Create HintDb accounts.

Lemma keeps_wf_ret {A} (x : A) : keeps_wf (mret x).
Proof. intros a Ha. exact Ha. Qed.

Lemma keeps_wf_throw {A} e : keeps_wf (throw (A:=A) e).
Proof. intros a Ha. exact Ha. Qed.

Lemma keeps_wf_bind {A B} (m : AccM A) (f : A → AccM B) :
  keeps_wf m → (∀ x, keeps_wf (f x)) → keeps_wf (m ≫= f).
Proof.
  intros Hm Hf a Ha. unfold mbind, AccM_bind. specialize (Hm a Ha).
  destruct (m a) as [[e|x] a']; [done|]. by apply Hf.
Qed.

Lemma keeps_wf_catch {A} (m : AccM A) h : keeps_wf m → (∀ e, keeps_wf (h e)) → keeps_wf (catch m h).
Proof.
  intros Hm Hh a Ha. unfold catch. specialize (Hm a Ha).
  destruct (m a) as [[e|x] a']; [by apply Hh|done].
Qed.

Lemma keeps_wf_read {A} (k : AccDb → AccErr + A) : keeps_wf (prisma (λ a, (k a, a))).
Proof. intros a Ha. unfold prisma. by destruct (Ledger.db_up (ledger a)). Qed.

Lemma acc_run_bind {A B} (m : AccM A) (f : A → AccM B) a :
  (m ≫= f) a = match m a with (inr x, a') => f x a' | (inl e, a') => (inl e, a') end.
Proof. reflexivity. Qed.

Lemma acc_run_catch {A} (m : AccM A) h a :
  catch m h a = match m a with (inl e, a') => h e a' | (inr x, a') => (inr x, a') end.
Proof. unfold catch. by destruct (m a) as [[]]. Qed.

Lemma acc_run_prisma {A} (k : AccDb → (AccErr + A) * AccDb) a :
  Ledger.db_up (ledger a) = true → prisma k a = k a.
Proof. unfold prisma. by intros ->. Qed.

Lemma taken_false f x oi a :
  taken f (Some x) oi a = false → ∀ k p, profiles a !! k = Some p → f p = Some x → Some k = oi.
Proof.
  unfold taken. intros Ht k p Hk Hf. destruct (decide (Some k = oi)) as [|Hne]; [done|].
  exfalso. apply not_true_iff_false in Ht. apply Ht, existsb_exists. exists (k, p).
  split; [by apply list_elem_of_In, elem_of_map_to_list|]. apply bool_decide_true. done.
Qed.

Lemma unique_col_insert f a a' i p :
  profiles a' = <[i := p]> (profiles a) → unique_col f a →
  (∀ x k q, f p = Some x → profiles a !! k = Some q → f q = Some x → k = i) →
  unique_col f a'.
Proof.
  intros Ha' Hu Hnew j1 j2 p1 p2 x H1 H2 Hx1 Hx2. rewrite Ha' in H1, H2.
  apply lookup_insert_Some in H1 as [[<- <-]|[Hne1 H1]];
  apply lookup_insert_Some in H2 as [[<- <-]|[Hne2 H2]]; [done| | |].
  - symmetry. by apply (Hnew x j2 p2).
  - by apply (Hnew x j1 p1).
  - by apply (Hu j1 j2 p1 p2 x).
Qed.

Lemma keeps_wf_createUser p w : keeps_wf (createUser p w).
Proof.
  intros a (Hdom & Hun & Hau). unfold createUser, prisma.
  destruct (Ledger.db_up (ledger a)) eqn:Hup; [|done].
  destruct (taken authUid (authUid p) None a) eqn:Ta; [done|].
  destruct (taken username (username p) None a) eqn:Tu; [done|]. simpl.
  pose proof (fresh_string_fresh (profiles a) "user") as Hfresh.
  remember (fresh_string "user" (profiles a)) as i eqn:Hi.
  split_and!.
  - intros j. simpl. rewrite !lookup_insert_is_Some'. by rewrite Hdom.
  - apply (unique_col_insert _ a _ i p); [done|done|].
    intros x k q Hx Hk Hq. rewrite Hx in Tu. exfalso. by pose proof (taken_false _ _ _ _ Tu k q Hk Hq).
  - apply (unique_col_insert _ a _ i p); [done|done|].
    intros x k q Hx Hk Hq. rewrite Hx in Ta. exfalso. by pose proof (taken_false _ _ _ _ Ta k q Hk Hq).
Qed.

Lemma user_row_Some a i r : user_row a i = Some r →
  profiles a !! i = Some (row_profile r) ∧ Ledger.users (ledger a) !! i = Some (row_wallet r) ∧ row_id r = i.
Proof.
  unfold user_row. destruct (profiles a !! i), (Ledger.users (ledger a) !! i); simpl; intros; simplify_eq; done.
Qed.

Lemma keeps_wf_updateUsername i n now : keeps_wf (updateUsername i n now).
Proof.
  intros a (Hdom & Hun & Hau). unfold updateUsername, prisma.
  destruct (Ledger.db_up (ledger a)); [|done].
  destruct (user_row a i) as [r|] eqn:Er; [|done].
  destruct (taken username (Some n) (Some i) a) eqn:Tu; [done|]. simpl.
  destruct (user_row_Some _ _ _ Er) as (Hp & Hw & Hid).
  split_and!.
  - intros j. simpl. rewrite lookup_insert_is_Some'. rewrite <- Hdom. destruct (decide (i = j)) as [->|]; naive_solver.
  - eapply unique_col_insert; [reflexivity|exact Hun|]. simpl. intros x k q [= <-] Hk Hq.
    by pose proof (taken_false _ _ _ _ Tu k q Hk Hq) as [=].
  - eapply unique_col_insert; [reflexivity|exact Hau|]. simpl. intros x k q Hx Hk Hq.
    by apply (Hau k i q (row_profile r) x).
Qed.

#[export] Hint Resolve keeps_wf_ret keeps_wf_throw keeps_wf_createUser keeps_wf_updateUsername : accounts.

(** Closes [keeps_wf] of a handler: through binds, catches and the
    branches of its tests. *)
Ltac solve_keeps :=
  repeat first
    [ apply keeps_wf_catch | apply keeps_wf_bind | progress intros
    | apply keeps_wf_read | solve [eauto with accounts] | case_match ].

Lemma keeps_wf_getRequestingUser r : keeps_wf (getRequestingUser r).
Proof.
  unfold getRequestingUser, getUserById, getOrCreateUserByAuthUid, findById, findByAuthUid. solve_keeps.
Qed.

#[export] Hint Resolve keeps_wf_getRequestingUser : accounts.

(** The requests of the account routes. *)
Inductive AccReq :=
  | RMe (r : Req)
  | RSetUsername (r : Req) (username : Field)
  | RLoginOrRegister (r : Req) (username : Field)
  | RTransactions (r : Req) (limit offset : NumArg)
  | RMatches (r : Req).

Definition serve (q : AccReq) : AccM AccResp :=
  match q with
  | RMe r => me r
  | RSetUsername r n => setUsername r n
  | RLoginOrRegister r n => loginOrRegister r n
  | RTransactions r l o => transactions r l o
  | RMatches r => matches r
  end.

Inductive acc_reachable (a0 : AccDb) : AccDb → Prop :=
  | acc_init : acc_reachable a0 a0
  | acc_step a q : acc_reachable a0 a → acc_reachable a0 (serve q a).2.

Lemma keeps_wf_serve q : keeps_wf (serve q).
Proof.
  destruct q; simpl; unfold me, setUsername, loginOrRegister, transactions, getRequestingUser_wallet, matches,
    findByUsername, findTxns, findRecentMatches;
    solve_keeps.
Qed.

(** From a well-formed user table, every sequence of account requests
    keeps every user with both its profile and its balances, and no
    username or authentication uid shared by two users. *)
Theorem acc_reachable_wf a0 a : acc_wf a0 → acc_reachable a0 a → acc_wf a.
Proof. intros H0 Hr. induction Hr as [|a q _ IH]; [done|]. by apply keeps_wf_serve. Qed.

(** ** Lookups by a unique column *)

Lemma find_by_None f v a :
  (∀ k, is_Some (profiles a !! k) → is_Some (Ledger.users (ledger a) !! k)) →
  find_by f v a = None → ∀ k p, profiles a !! k = Some p → f p ≠ Some v.
Proof.
  unfold find_by. intros Hdom Hf k p Hk Hv.
  destruct (filter _ _) as [|[i q] l] eqn:E.
  - eapply filter_nil_not_elem_of; [exact E| |by apply elem_of_map_to_list]. done.
  - assert (Hiq : (i, q) ∈ map_to_list (profiles a)).
    { apply (list_elem_of_filter (λ kp : string * Profile, f kp.2 = Some v)). rewrite E. set_solver. }
    apply elem_of_map_to_list in Hiq. destruct (Hdom i ltac:(by eexists)) as [w Hw].
    unfold user_row in Hf. rewrite Hiq, Hw in Hf. done.
Qed.

Lemma find_by_Some f v a r :
  find_by f v a = Some r →
  profiles a !! row_id r = Some (row_profile r) ∧ Ledger.users (ledger a) !! row_id r = Some (row_wallet r) ∧
  f (row_profile r) = Some v.
Proof.
  unfold find_by. destruct (filter _ _) as [|[i q] l] eqn:E; [done|]. intros Hr.
  destruct (user_row_Some _ _ _ Hr) as (Hp & Hw & <-). split_and!; [done|done|].
  assert (Hiq : (row_id r, q) ∈ filter (λ kp : string * Profile, f kp.2 = Some v) (map_to_list (profiles a)))
    by (rewrite E; set_solver).
  apply list_elem_of_filter in Hiq as [Hfq Hin]. apply elem_of_map_to_list in Hin. simpl in Hfq.
  rewrite Hp in Hin. by injection Hin as ->.
Qed.

(** Under the uniqueness of column [f], the lookup finds the one row that
    holds [v]. *)
Lemma find_by_unique f v a k p :
  acc_wf a → unique_col f a → profiles a !! k = Some p → f p = Some v →
  ∃ w, Ledger.users (ledger a) !! k = Some w ∧ find_by f v a = Some (mkRow k p w).
Proof.
  intros (Hdom & _) Hu Hk Hv. destruct (proj1 (Hdom k) ltac:(by eexists)) as [w Hw]. exists w. split; [done|].
  destruct (find_by f v a) as [r|] eqn:E.
  - destruct (find_by_Some _ _ _ _ E) as (Hp & Hw' & Hv').
    assert (row_id r = k) as Hid by (by apply (Hu (row_id r) k (row_profile r) p v)).
    destruct r as [i q w']; simpl in *; subst i. rewrite Hk in Hp. rewrite Hw in Hw'. by simplify_eq.
  - exfalso. eapply find_by_None; [|exact E|exact Hk|exact Hv]. intros j. apply Hdom.
Qed.

Lemma taken_false_unique f x i a :
  (∀ k q, profiles a !! k = Some q → f q = Some x → k = i) → taken f (Some x) (Some i) a = false.
Proof.
  intros Hu. unfold taken. apply not_true_iff_false. intros [[k q] [Hin Hb]]%existsb_exists.
  apply bool_decide_eq_true in Hb as [Hf Hne]. apply list_elem_of_In, elem_of_map_to_list in Hin.
  apply Hne. simpl. f_equal. by apply (Hu k q).
Qed.

(** ** The wallet listing *)

Lemma page_app {A} (xs : list A) L1 L2 O :
  (0 ≤ L1)%Z → (0 ≤ L2)%Z → (0 ≤ O)%Z → page L1 O xs ++ page L2 (O + L1) xs = page (L1 + L2) O xs.
Proof.
  intros. unfold page. rewrite !Z2Nat.inj_add by lia. rewrite <- drop_drop. apply take_take_drop.
Qed.

Lemma page_elem {A} (xs : list A) L O x : x ∈ page L O xs → x ∈ xs.
Proof. unfold page. intros Hx. apply (subseteq_drop (Z.to_nat O)), (subseteq_take (Z.to_nat L)), Hx. Qed.

Lemma userTxns_spec u a i x :
  (i, x) ∈ userTxns u a → Ledger.txns (ledger a) !! i = Some x ∧ Ledger.tx_user x = u.
Proof.
  unfold userTxns. rewrite elem_of_reverse. intros [Hu Hin]%list_elem_of_filter.
  apply list_elem_of_lookup in Hin as [j Hj]. rewrite list_lookup_imap in Hj.
  destruct (Ledger.txns (ledger a) !! j) eqn:E; simplify_eq/=. done.
Qed.

(** ** The username route *)

(** The user is one of the row's players. *)
Definition played (u : string) (cm : Ledger.CompletedMatch) : Prop :=
  Exists (λ q, MatchPlayer.id q = u) (Ledger.cm_players cm).

(** The pattern is in the text of no players column: jsonb prints a
    space after the colon. *)
Lemma idPattern_absent u cm : Json.contains (Jsonb.jsonb_text (playersValue cm)) (idPattern u) = false.
Proof.
  apply (Jsonb.compact_member_absent _ ["i"%char] "d"%char); [apply Json.keys_ok_playersJson|].
  apply (bool_decide_unpack _). vm_compute. exact I.
Qed.

(** The row filter selects no row: the players column is an array, not a
    string, and its text does not hold the pattern either. *)
Lemma mentions_false u cm : mentions u cm = false.
Proof. unfold mentions, Jsonb.string_contains. by rewrite idPattern_absent, andb_false_r. Qed.

Section Requester.
Variables (a : AccDb) (r : Req) (u n : string) (p : Profile) (w : Ledger.User).
Hypotheses (Hwf : acc_wf a) (Hup : Ledger.db_up (ledger a) = true) (Hdev : req_mode r = Dev)
           (Hid : js_or (body_userId r) (query_userId r) = FStr u)
           (Hp : profiles a !! u = Some p) (Hw : Ledger.users (ledger a) !! u = Some w).

Lemma getRequestingUser_dev : getRequestingUser r a = (inr (mkRow u p w), a).
Proof.
  unfold getRequestingUser. rewrite Hdev, Hid. unfold getUserById, findById, prisma, mbind, AccM_bind.
  rewrite Hup. unfold user_row. by rewrite Hp, Hw.
Qed.

(** C39: the username route, for a valid name and an existing user: when
    another user holds the name it answers 409 and changes nothing;
    otherwise it sets the name (and the update time) of that user only
    and answers 200 with it. *)
Theorem setUsername_spec :
  (1 ≤ String.length n ≤ 20)%nat →
  ((∃ k q, k ≠ u ∧ profiles a !! k = Some q ∧ username q = Some n) →
     setUsername r (FStr n) a = (inr (aresp 409 (Failure "Username already taken" None)), a)) ∧
  ((∀ k q, profiles a !! k = Some q → username q = Some n → k = u) →
     setUsername r (FStr n) a =
       (inr (aresp 200 (UsernameView u (Some n))),
        mkAcc (<[u := with_username p n (req_now r)]> (profiles a)) (ledger a))).
Proof.
  intros Hn. unfold setUsername, usernameSchema. rewrite bool_decide_true by done.
  rewrite acc_run_catch, acc_run_bind, getRequestingUser_dev, acc_run_bind. unfold findByUsername.
  rewrite acc_run_prisma by done. cbn [row_id]. split.
  - intros (k & q & Hne & Hk & Hq).
    destruct (find_by_unique username n a k q Hwf (proj1 (proj2 Hwf)) Hk Hq) as (w' & _ & ->).
    by rewrite bool_decide_true.
  - intros Honly.
    assert (Hupd : updateUsername u n (req_now r) a =
                   (inr (mkRow u (with_username p n (req_now r)) w),
                    mkAcc (<[u := with_username p n (req_now r)]> (profiles a)) (ledger a))).
    { unfold updateUsername. rewrite acc_run_prisma by done. rewrite taken_false_unique by done.
      unfold user_row at 1. by rewrite Hp, Hw. }
    destruct (find_by username n a) as [e|] eqn:E.
    + destruct (find_by_Some _ _ _ _ E) as (He & _ & Hv).
      rewrite bool_decide_false by (intros Hne; apply Hne; by apply (Honly _ _ He)).
      by rewrite acc_run_bind, Hupd.
    + by rewrite acc_run_bind, Hupd.
Qed.

Lemma transactions_run l o L O :
  limitSchema l = Some L → offsetSchema o = Some O →
  transactions r l o a = (inr (aresp 200 (Transactions (formatTx <$> page L O (userTxns u a)))), a).
Proof.
  intros HL HO. unfold transactions, getRequestingUser_wallet.
  rewrite acc_run_catch, acc_run_bind, getRequestingUser_dev. cbn [row_id].
  rewrite HL, HO, acc_run_bind. unfold findTxns. by rewrite acc_run_prisma.
Qed.

(** C26: The wallet listing pages through the requester's own rows: two
    consecutive pages (offset [O] and limit [L1], then offset [O + L1]
    and limit [L2]) are together the page of limit [L1 + L2], and every
    row listed is a transaction of the requester with the amount shown. *)
Theorem transactions_pages L1 L2 O :
  (0 < L1)%Z → (0 < L2)%Z → (0 ≤ O)%Z →
  ∃ t1 t2,
    transactions r (NInt L1) (NInt O) a = (inr (aresp 200 (Transactions t1)), a) ∧
    transactions r (NInt L2) (NInt (O + L1)) a = (inr (aresp 200 (Transactions t2)), a) ∧
    transactions r (NInt (L1 + L2)) (NInt O) a = (inr (aresp 200 (Transactions (t1 ++ t2))), a) ∧
    ∀ t, t ∈ t1 ++ t2 → ∃ x, Ledger.txns (ledger a) !! txId t = Some x ∧
                               Ledger.tx_user x = u ∧ Ledger.tx_amount x = tv_amount t.
Proof.
  intros H1 H2 HO.
  exists (formatTx <$> page L1 O (userTxns u a)), (formatTx <$> page L2 (O + L1) (userTxns u a)).
  split_and!.
  - apply transactions_run; simpl; by rewrite bool_decide_true.
  - apply transactions_run; simpl; rewrite bool_decide_true by lia; done.
  - rewrite <- fmap_app, page_app by lia. apply transactions_run; simpl; rewrite bool_decide_true by lia; done.
  - rewrite <- fmap_app, page_app by lia. intros t (it & -> & Hit)%list_elem_of_fmap.
    apply page_elem in Hit. destruct it as [i x]. apply userTxns_spec in Hit as [Hi Hu]. by exists x.
Qed.

(** C22: GET /users/matches lists no match.  For an existing requester it
    answers 200 with an empty list, whatever the history holds: the row
    filter [string_contains] on the jsonb [players] column holds only
    for a column that is a JSON string, and the players are an array;
    and even the text test alone fails on every row, because jsonb
    prints the column with a space after each colon ([{"id": "alice",
    ...}]) while the pattern [`"id":"${user.id}"`] has none. *)
Theorem matches_lists_nothing :
  matches r a = (inr (aresp 200 (MatchList [])), a) ∧
  ∀ cm, cm ∈ (map_to_list (Ledger.history (ledger a))).*2 →
    Json.contains (Jsonb.jsonb_text (playersValue cm)) (idPattern u) = false.
Proof.
  split; [|intros cm _; apply idPattern_absent].
  unfold matches. rewrite acc_run_catch, acc_run_bind, getRequestingUser_dev. cbn [row_id].
  rewrite acc_run_bind. unfold findRecentMatches. rewrite acc_run_prisma by done.
  unfold recentMatches. generalize (map_to_list (Ledger.history (ledger a))).*2. intros l.
  assert (filter (λ cm, mentions u cm = true) l = []) as ->; [|done].
  induction l as [|cm l IH]; [done|]. rewrite filter_cons_False; [done|by rewrite mentions_false].
Qed.

End Requester.

(** ** Users by authentication uid *)

Lemma createUser_run p w a :
  Ledger.db_up (ledger a) = true → taken authUid (authUid p) None a = false → taken username (username p) None a = false →
  createUser p w a =
    (inr (mkRow (fresh_string "user" (profiles a)) p w),
     mkAcc (<[fresh_string "user" (profiles a) := p]> (profiles a))
           (Ledger.mkDb (<[fresh_string "user" (profiles a) := w]> (Ledger.users (ledger a)))
              (Ledger.txns (ledger a)) (Ledger.history (ledger a)) (Ledger.db_up (ledger a)))).
Proof. intros Hup Ha Hu. unfold createUser. rewrite acc_run_prisma by done. by rewrite Ha, Hu. Qed.

Lemma createUser_inv p w a r a' :
  createUser p w a = (inr r, a') →
  row_profile r = p ∧ row_wallet r = w ∧ profiles a' !! row_id r = Some p ∧
  Ledger.users (ledger a') !! row_id r = Some w.
Proof.
  unfold createUser, prisma. destruct (Ledger.db_up (ledger a)); [|done].
  destruct (_ || _); [done|]. intros [= <- <-]. simpl. by rewrite !lookup_insert_eq.
Qed.

(** The row [getOrCreateUserByAuthUid uid] returns holds [uid], and is in
    the table afterwards. *)
Lemma getOrCreate_row uid now a r a' :
  getOrCreateUserByAuthUid uid now a = (inr r, a') →
  authUid (row_profile r) = Some uid ∧ profiles a' !! row_id r = Some (row_profile r) ∧
  Ledger.users (ledger a') !! row_id r = Some (row_wallet r).
Proof.
  unfold getOrCreateUserByAuthUid, findByAuthUid. rewrite acc_run_bind. unfold prisma.
  destruct (Ledger.db_up (ledger a)); [|done].
  destruct (find_by authUid uid a) as [r0|] eqn:E.
  - intros [= <- <-]. destruct (find_by_Some _ _ _ _ E) as (Hp & Hw & Hv). split; [exact Hv|split; [exact Hp|exact Hw]].
  - intros Hc. destruct (createUser_inv _ _ _ _ _ Hc) as (Hr & Hrw & Hp & Hw). rewrite Hr, Hrw. split; [reflexivity|split; [exact Hp|exact Hw]].
Qed.

(** C25: [getOrCreateUserByAuthUid] is idempotent: once it has returned a
    user for a uid, asking again returns the same user and changes
    nothing, so a uid never gets two accounts. *)
Theorem getOrCreate_idempotent uid now now' a r a' :
  acc_wf a → getOrCreateUserByAuthUid uid now a = (inr r, a') →
  getOrCreateUserByAuthUid uid now' a' = (inr r, a').
Proof.
  intros Hwf Hrun.
  assert (Hwf' : acc_wf a').
  { pose proof (keeps_wf_getRequestingUser (mkReq Firebase (TokenUser uid) (FOther false) (FOther false) now) a Hwf)
      as Hk. unfold getRequestingUser in Hk. simpl in Hk. by rewrite Hrun in Hk. }
  destruct (getOrCreate_row _ _ _ _ _ Hrun) as (Hv & Hp & Hw).
  assert (Hup : Ledger.db_up (ledger a') = true).
  { revert Hrun. unfold getOrCreateUserByAuthUid, findByAuthUid. rewrite acc_run_bind. unfold prisma.
    destruct (Ledger.db_up (ledger a)) eqn:Hu; [|done].
    destruct (find_by authUid uid a); [by intros [= _ <-]|].
    unfold createUser, prisma. rewrite Hu. destruct (_ || _); [done|]. by intros [= _ <-]. }
  destruct (find_by_unique authUid uid a' _ _ Hwf' (proj2 (proj2 Hwf')) Hp Hv) as (w & Hw' & Hf).
  rewrite Hw in Hw'. injection Hw' as <-.
  unfold getOrCreateUserByAuthUid, findByAuthUid. rewrite acc_run_bind, acc_run_prisma by done. simpl.
  rewrite Hf. by destruct r.
Qed.

(** C13: in Firebase mode a request reaches the account routes only with a
    token [verifyIdToken] accepts, and it acts as the user of that
    token's uid, whatever [userId] its body or query carries. *)
Theorem firebase_acts_as_token_user (verifyIdToken : string → option string) h ru bu qu now a row a' :
  authFirebase Firebase verifyIdToken h = Next ru →
  getRequestingUser (mkReq Firebase ru bu qu now) a = (inr row, a') →
  ∃ auth uid, h = Some auth ∧
    verifyIdToken (JsString.of_chars (replace_first (JsString.chars "Bearer ") [] (JsString.chars auth))) = Some uid ∧
    authUid (row_profile row) = Some uid.
Proof.
  unfold authFirebase. destruct h as [auth|]; [|done].
  case_bool_decide; [done|].
  destruct (verifyIdToken _) as [uid|] eqn:Hv; [|done]. intros [= <-] Hrun.
  exists auth, uid. split_and!; [done|done|]. by apply (getOrCreate_row uid now a row a').
Qed.

(** ** A concrete user table *)

Definition acc0 : AccDb :=
  mkAcc (<["alice" := mkProfile None (Some "alice") None None 0 0]>
           (<["bob" := mkProfile (Some "uid-bob") (Some "bob") None None 0 0]> ∅))
        (Ledger.mkDb (<["alice" := Ledger.mkUser 1000 0]> (<["bob" := Ledger.mkUser 1000 0]> ∅))
           [Ledger.mkTxn "alice" "entryFee" (-100) "gems" "Match entry fee (100 gems)" (Some "duo-1") (Some "duo");
            Ledger.mkTxn "bob" "entryFee" (-100) "gems" "Match entry fee (100 gems)" (Some "duo-1") (Some "duo");
            Ledger.mkTxn "alice" "prize" 200 "gems" "Prize for 1st place" (Some "duo-1") (Some "duo");
            Ledger.mkTxn "alice" "entryFee" (-100) "gems" "Match entry fee (100 gems)" (Some "duo-2") (Some "duo")]
           ∅ true).

Definition dev_req (u : string) : Req := mkReq Dev DevUser (FStr u) (FOther false) 1700000000000.

Ltac solve_concrete_unique :=
  intros i j p q x Hi Hj Hp Hq; simpl in *;
  repeat match goal with
         | H : <[_ := _]> _ !! _ = Some _ |- _ => apply lookup_insert_Some in H as [[<- <-]|[? H]]
         end;
  simplify_map_eq/=; congruence.

Lemma acc0_wf : acc_wf acc0.
Proof.
  split_and!; [|solve_concrete_unique|solve_concrete_unique].
  intros i. simpl. rewrite !lookup_insert_is_Some', !lookup_empty. naive_solver.
Qed.

(** Alice renames herself "ally"; the table stays well formed. *)
Lemma acc_reachable_wf_witness :
  acc_wf (serve (RSetUsername (dev_req "alice") (FStr "ally")) acc0).2.
Proof. exact (acc_reachable_wf acc0 _ acc0_wf (acc_step _ _ _ (acc_init _))). Defined.

(** Alice asks for Bob's name. *)
Lemma setUsername_spec_witness :
  setUsername (dev_req "alice") (FStr "bob") acc0 = (inr (aresp 409 (Failure "Username already taken" None)), acc0).
Proof.
  apply (proj1 (setUsername_spec acc0 (dev_req "alice") "alice" "bob" (mkProfile None (Some "alice") None None 0 0)
                  (Ledger.mkUser 1000 0) acc0_wf ltac:(vm_compute; reflexivity) ltac:(vm_compute; reflexivity)
                  ltac:(vm_compute; reflexivity) ltac:(vm_compute; reflexivity) ltac:(vm_compute; reflexivity)
                  ltac:(simpl; lia))).
  exists "bob", (mkProfile (Some "uid-bob") (Some "bob") None None 0 0).
  split_and!; [discriminate|vm_compute; reflexivity|reflexivity].
Defined.

Definition carol_profile : Profile := mkProfile (Some "uid-carol") None None None 5 5.

Definition acc_carol : AccDb :=
  mkAcc (<["user" := carol_profile]> (profiles acc0))
        (Ledger.mkDb (<["user" := Ledger.mkUser 100 0]> (Ledger.users (ledger acc0)))
           (Ledger.txns (ledger acc0)) ∅ true).

(** A first Firebase login of Carol creates the account; the next finds it. *)
Lemma getOrCreate_idempotent_witness :
  getOrCreateUserByAuthUid "uid-carol" 6 acc_carol = (inr (mkRow "user" carol_profile (Ledger.mkUser 100 0)), acc_carol).
Proof.
  exact (getOrCreate_idempotent "uid-carol" 5 6 acc0 (mkRow "user" carol_profile (Ledger.mkUser 100 0)) acc_carol
           acc0_wf ltac:(vm_compute; reflexivity)).
Defined.

Definition verify_bob (tok : string) : option string := if bool_decide (tok = "tok-bob") then Some "uid-bob" else None.

Lemma firebase_acts_as_token_user_witness :
  ∃ auth uid, Some "Bearer tok-bob"%string = Some auth ∧
    verify_bob (JsString.of_chars (replace_first (JsString.chars "Bearer ") [] (JsString.chars auth))) = Some uid ∧
    authUid (row_profile (mkRow "bob" (mkProfile (Some "uid-bob") (Some "bob") None None 0 0) (Ledger.mkUser 1000 0))) =
      Some uid.
Proof.
  exact (firebase_acts_as_token_user verify_bob (Some "Bearer tok-bob") (TokenUser "uid-bob") (FStr "alice")
           (FOther false) 7 acc0 (mkRow "bob" (mkProfile (Some "uid-bob") (Some "bob") None None 0 0) (Ledger.mkUser 1000 0))
           acc0 ltac:(vm_compute; reflexivity) ltac:(vm_compute; reflexivity)).
Defined.

Lemma transactions_pages_witness :
  ∃ t1 t2,
    transactions (dev_req "alice") (NInt 1) (NInt 0) acc0 = (inr (aresp 200 (Transactions t1)), acc0) ∧
    transactions (dev_req "alice") (NInt 1) (NInt (0 + 1)) acc0 = (inr (aresp 200 (Transactions t2)), acc0) ∧
    transactions (dev_req "alice") (NInt (1 + 1)) (NInt 0) acc0 = (inr (aresp 200 (Transactions (t1 ++ t2))), acc0) ∧
    ∀ t, t ∈ t1 ++ t2 → ∃ x, Ledger.txns (ledger acc0) !! txId t = Some x ∧
                              Ledger.tx_user x = "alice" ∧ Ledger.tx_amount x = tv_amount t.
Proof.
  exact (transactions_pages acc0 (dev_req "alice") "alice" (mkProfile None (Some "alice") None None 0 0)
           (Ledger.mkUser 1000 0) ltac:(vm_compute; reflexivity) ltac:(vm_compute; reflexivity)
           ltac:(vm_compute; reflexivity) ltac:(vm_compute; reflexivity) ltac:(vm_compute; reflexivity)
           1 1 0 ltac:(lia) ltac:(lia) ltac:(lia)).
Defined.

(** Two history rows: Alice and Bob played "duo-1"; Bob and "alice2",
    whose id extends Alice's, played "duo-2". *)
Definition hist_player (i : string) (sc : Z) (rk : nat) (wn : Z) : MatchPlayer.t :=
  MatchPlayer.mk i i [] sc (Some sc) (Some 0%Z) 1000 (Some 61000%Z) true (Some 2000%Z) (Some rk) (Some wn).

Definition hist_row (i : string) (ps : list MatchPlayer.t) (t : Z) : Ledger.CompletedMatch :=
  Ledger.mkCompleted i "duo" 100 200 60 completed 1000 (Some 1000%Z) (Some t) [] ps.

Definition acc_hist : AccDb :=
  mkAcc (profiles acc0)
        (Ledger.mkDb (Ledger.users (ledger acc0)) (Ledger.txns (ledger acc0))
           (<["duo-1" := hist_row "duo-1" [hist_player "alice" 30 1 200; hist_player "bob" 20 2 0] 2000]>
             (<["duo-2" := hist_row "duo-2" [hist_player "bob" 40 1 200; hist_player "alice2" 10 2 0] 3000]> ∅))
           true).

(** Alice played "duo-1", and the route lists nothing for her. *)
Lemma matches_lists_nothing_witness :
  played "alice" (hist_row "duo-1" [hist_player "alice" 30 1 200; hist_player "bob" 20 2 0] 2000) ∧
  matches (dev_req "alice") acc_hist = (inr (aresp 200 (MatchList [])), acc_hist).
Proof.
  split; [by constructor|].
  eapply matches_lists_nothing; [vm_compute; reflexivity..].
Defined.

(** The username route accepts a name of blanks (zod only bounds its
    length), which the profile route then reports as missing: after
    Alice sets "   ", GET /users/me answers [needsUsername = true]. *)
Theorem blank_username_accepted :
  let r := dev_req "alice" in
  let a1 := (setUsername r (FStr "   ") acc0).2 in
  (setUsername r (FStr "   ") acc0).1 = inr (aresp 200 (UsernameView "alice" (Some "   "))) ∧
  (me r a1).1 = inr (aresp 200 (ProfileView "alice" (Some "   ") true None None 1000
                                   (JsDate.toISOString 0) (JsDate.toISOString 1700000000000))).
Proof. split; vm_compute; reflexivity. Qed.

End Accounts.
