(* ===== verification/Store.v ===== *)
(** * The match store (src/backend/src/repositories)

    [MatchRepository] (matchRepository.interface.ts) is the interface the
    engine and the sweep use; here it is a typeclass over the store's
    state, and [RepoLaws] states what the engine relies on: a saved match
    is read back, a removed one is gone, the waiting pointers are separate
    from the matches, [listAll] lists the stored matches and, under the
    store's well-formedness, [listByUser] finds every stored match in
    which the user plays.

    [RedisMatchRepository] (redisMatchRepository.ts) implements it with
    three key spaces: [match:<id>] (the JSON of the match),
    [lobby:<lobby>:waiting] and the sets [user:<id>:matches].  The orders
    in which [SMEMBERS] and [SCAN] return keys are unspecified; the model
    returns them in the order of the finite map.  The hour-long expiry set
    on completed matches and the connection errors, which the read
    methods log and answer with [null] or [[]], are not modelled. *)

From S2P Require Import Prelude Model.

Class MatchRepository (S : Type) := {
  getWaiting : S → string → option string;
  setWaiting : S → string → string → S;
  clearWaiting : S → string → S;
  get : S → string → option InternalMatch.t;
  save : S → InternalMatch.t → S;
  listByUser : S → string → list InternalMatch.t;
  listAll : S → list InternalMatch.t;
  remove : S → string → S
}.

(** [p.id === userId] over the players of a match. *)
Definition plays_in (u : string) (m : InternalMatch.t) : Prop :=
  ∃ p, p ∈ m.(InternalMatch.players) ∧ p.(MatchPlayer.id) = u.

Class RepoLaws (S : Type) `{MatchRepository S} := {
  repo_wf : S → Prop;
  empty_store : S;
  get_empty i : get empty_store i = None;
  wf_empty : repo_wf empty_store;
  get_save s m : get (save s m) m.(InternalMatch.id) = Some m;
  get_save_ne s m i : i ≠ m.(InternalMatch.id) → get (save s m) i = get s i;
  get_remove s i : get (remove s i) i = None;
  get_remove_ne s i j : j ≠ i → get (remove s i) j = get s j;
  get_setWaiting s l i j : get (setWaiting s l i) j = get s j;
  get_clearWaiting s l j : get (clearWaiting s l) j = get s j;
  getWaiting_setWaiting s l i l' :
    getWaiting (setWaiting s l i) l' = if bool_decide (l = l') then Some i else getWaiting s l';
  getWaiting_clearWaiting s l l' :
    getWaiting (clearWaiting s l) l' = if bool_decide (l = l') then None else getWaiting s l';
  getWaiting_save s m l : getWaiting (save s m) l = getWaiting s l;
  getWaiting_remove s i l : getWaiting (remove s i) l = getWaiting s l;
  listAll_spec s m : m ∈ listAll s ↔ ∃ i, get s i = Some m;
  listByUser_setWaiting s l i u : listByUser (setWaiting s l i) u = listByUser s u;
  listByUser_clearWaiting s l u : listByUser (clearWaiting s l) u = listByUser s u;
  get_id s i m : repo_wf s → get s i = Some m → m.(InternalMatch.id) = i;
  listByUser_sound s u m : m ∈ listByUser s u → ∃ i, get s i = Some m;
  listByUser_complete s u i m :
    repo_wf s → u ≠ "" → get s i = Some m → plays_in u m → m ∈ listByUser s u;
  wf_save s m : repo_wf s → repo_wf (save s m);
  wf_remove s i : repo_wf s → repo_wf (remove s i);
  wf_setWaiting s l i : repo_wf s → repo_wf (setWaiting s l i);
  wf_clearWaiting s l : repo_wf s → repo_wf (clearWaiting s l)
}.

Arguments repo_wf {_ _ _} _.

#[export] Hint Resolve wf_save wf_remove wf_setWaiting wf_clearWaiting : gem.

Module Redis.

Record t := mk {
  matchKeys : gmap string InternalMatch.t;
  waitingKeys : gmap string string;
  userSets : gmap string (gset string)
}.

Definition empty : t := mk ∅ ∅ ∅.

(** [SADD user:<u>:matches id] *)
Definition sadd (sets : gmap string (gset string)) (u i : string) : gmap string (gset string) :=
  <[u := {[ i ]} ∪ default ∅ (sets !! u)]> sets.

(** [SREM user:<u>:matches id] *)
Definition srem (sets : gmap string (gset string)) (u i : string) : gmap string (gset string) :=
  <[u := default ∅ (sets !! u) ∖ {[ i ]}]> sets.

(** [for (const player of match.players) if (player.id) ...] *)
Definition player_ids (m : InternalMatch.t) : list string :=
  filter (λ u, u ≠ "") (MatchPlayer.id <$> m.(InternalMatch.players)).

(** [getWaiting] (lines 22-29) *)
Definition getWaiting (s : t) (lobbyId : string) : option string := waitingKeys s !! lobbyId.

(** [setWaiting] (lines 31-33) *)
Definition setWaiting (s : t) (lobbyId matchId : string) : t :=
  mk (matchKeys s) (<[lobbyId := matchId]> (waitingKeys s)) (userSets s).

(** [clearWaiting] (lines 35-37) *)
Definition clearWaiting (s : t) (lobbyId : string) : t :=
  mk (matchKeys s) (delete lobbyId (waitingKeys s)) (userSets s).

(** [get] (lines 39-50) *)
Definition get (s : t) (matchId : string) : option InternalMatch.t := matchKeys s !! matchId.

(** [save] (lines 52-64): [SET match:<id>] and one [SADD] per player. *)
Definition save (s : t) (m : InternalMatch.t) : t :=
  mk (<[m.(InternalMatch.id) := m]> (matchKeys s)) (waitingKeys s)
     (foldl (λ sets u, sadd sets u m.(InternalMatch.id)) (userSets s) (player_ids m)).

(** [listByUser] (lines 66-84): [SMEMBERS], then [MGET], dropping the
    [null]s of expired or removed matches. *)
Definition listByUser (s : t) (userId : string) : list InternalMatch.t :=
  omap (λ i, matchKeys s !! i) (elements (default ∅ (userSets s !! userId))).

(** [listAll] (lines 86-109): every [match:*] key. *)
Definition listAll (s : t) : list InternalMatch.t := (map_to_list (matchKeys s)).*2.

(** [remove] (lines 113-133): [DEL match:<id>] and, when the match was
    stored, one [SREM] per player of the stored copy. *)
Definition remove (s : t) (matchId : string) : t :=
  match matchKeys s !! matchId with
  | Some m =>
      mk (delete matchId (matchKeys s)) (waitingKeys s)
         (foldl (λ sets u, srem sets u matchId) (userSets s) (player_ids m))
  | None => mk (delete matchId (matchKeys s)) (waitingKeys s) (userSets s)
  end.

End Redis.

#[export] Instance Redis_repo : MatchRepository Redis.t := {|
  getWaiting := Redis.getWaiting;
  setWaiting := Redis.setWaiting;
  clearWaiting := Redis.clearWaiting;
  get := Redis.get;
  save := Redis.save;
  listByUser := Redis.listByUser;
  listAll := Redis.listAll;
  remove := Redis.remove
|}.

Module RedisLaws.
Import Redis.

(** The stored JSON sits under its own id, and the set of each of its
    players (with a non-empty id) holds that id. *)
Definition wf (s : t) : Prop :=
  ∀ i m, matchKeys s !! i = Some m →
    i = m.(InternalMatch.id) ∧ ∀ u, u ∈ player_ids m → i ∈ default ∅ (userSets s !! u).

Lemma sadd_all_spec sets us i v x :
  x ∈ default ∅ (foldl (λ sets u, sadd sets u i) sets us !! v) ↔
  x ∈ default ∅ (sets !! v) ∨ (v ∈ us ∧ x = i).
Proof.
  revert sets. induction us as [|u us IH]; intros sets; simpl; [set_solver|].
  rewrite IH. unfold sadd. destruct (decide (u = v)) as [<-|Hne].
  - rewrite lookup_insert_eq. simpl. set_solver.
  - rewrite lookup_insert_ne by done. set_solver.
Qed.

Lemma srem_all_spec sets us i v x :
  x ∈ default ∅ (foldl (λ sets u, srem sets u i) sets us !! v) ↔
  x ∈ default ∅ (sets !! v) ∧ ¬ (v ∈ us ∧ x = i).
Proof.
  revert sets. induction us as [|u us IH]; intros sets; simpl; [set_solver|].
  rewrite IH. unfold srem. destruct (decide (u = v)) as [<-|Hne].
  - rewrite lookup_insert_eq. simpl. set_solver.
  - rewrite lookup_insert_ne by done. set_solver.
Qed.

Lemma player_ids_spec u m : u ∈ player_ids m ↔ u ≠ "" ∧ plays_in u m.
Proof.
  unfold player_ids, plays_in. rewrite list_elem_of_filter, list_elem_of_fmap. naive_solver.
Qed.

Lemma wf_alt s :
  wf s ↔ map_Forall (λ i m, i = m.(InternalMatch.id) ∧
                            Forall (λ u, i ∈ default ∅ (userSets s !! u)) (player_ids m))
                    (matchKeys s).
Proof. unfold wf. rewrite map_Forall_lookup. by setoid_rewrite Forall_forall. Qed.

(** Well-formedness of a concrete key space is decided by evaluation. *)
#[export] Instance wf_dec s : Decision (wf s).
Proof.
  destruct (decide (map_Forall (λ i m, i = m.(InternalMatch.id) ∧
                    Forall (λ u, i ∈ default ∅ (userSets s !! u)) (player_ids m)) (matchKeys s))) as [Hy|Hn];
    [left|right]; by rewrite wf_alt.
Defined.

End RedisLaws.

#[export] Instance Redis_laws : RepoLaws Redis.t.
Proof.
  apply (Build_RepoLaws Redis.t _ RedisLaws.wf Redis.empty).
  - intros i. apply lookup_empty.
  - intros i m Hm. simpl in Hm. by rewrite lookup_empty in Hm.
  - intros s m. apply lookup_insert_eq.
  - intros s m i Hi. by apply lookup_insert_ne.
  - intros s i. simpl. unfold Redis.remove, Redis.get.
    destruct (Redis.matchKeys s !! i); apply lookup_delete_eq.
  - intros s i j Hj. simpl. unfold Redis.remove, Redis.get.
    destruct (Redis.matchKeys s !! i); by apply lookup_delete_ne.
  - done.
  - done.
  - intros s l i l'. simpl. unfold Redis.getWaiting. simpl.
    case_bool_decide; [subst; apply lookup_insert_eq|by apply lookup_insert_ne].
  - intros s l l'. simpl. unfold Redis.getWaiting. simpl.
    case_bool_decide; [subst; apply lookup_delete_eq|by apply lookup_delete_ne].
  - done.
  - intros s i l. simpl. unfold Redis.remove. by destruct (Redis.matchKeys s !! i).
  - intros s m. simpl. unfold Redis.listAll, Redis.get. rewrite list_elem_of_fmap.
    split; [intros ([i m'] & -> & Hin); exists i; by apply elem_of_map_to_list|].
    intros [i Hi]. exists (i, m). split; [done|]. by apply elem_of_map_to_list.
  - done.
  - done.
  - intros s i m Hwf Hg. symmetry. by apply (Hwf i m Hg).
  - intros s u m. simpl. unfold Redis.listByUser, Redis.get.
    rewrite list_elem_of_omap. intros (i & _ & Hi). by exists i.
  - intros s u i m Hwf Hu Hg Hp. simpl in *. unfold Redis.listByUser, Redis.get in *.
    apply list_elem_of_omap. exists i. split; [|done].
    apply elem_of_elements. apply (Hwf i m Hg). by apply RedisLaws.player_ids_spec.
  - intros s m Hwf i m' Hi. simpl in *.
    destruct (decide (i = m.(InternalMatch.id))) as [->|Hne].
    + rewrite lookup_insert_eq in Hi. injection Hi as <-. split; [done|].
      intros u Hu. apply RedisLaws.sadd_all_spec. by right.
    + rewrite lookup_insert_ne in Hi by done. destruct (Hwf i m' Hi) as [Hid Hs].
      split; [done|]. intros u Hu. apply RedisLaws.sadd_all_spec. left. by apply Hs.
  - intros s i Hwf j m' Hj. simpl in *. unfold Redis.remove in *.
    destruct (decide (j = i)) as [->|Hne].
    { destruct (Redis.matchKeys s !! i); simpl in Hj; by rewrite lookup_delete_eq in Hj. }
    destruct (Redis.matchKeys s !! i) as [m|] eqn:Ei; simpl in Hj;
      rewrite lookup_delete_ne in Hj by done; destruct (Hwf j m' Hj) as [Hid Hs];
      (split; [done|]); intros u Hu; simpl; [|by apply Hs].
    apply RedisLaws.srem_all_spec. split; [by apply Hs|naive_solver].
  - intros s l i Hwf. exact Hwf.
  - intros s l Hwf. exact Hwf.
Defined.
