(* ===== verification/Program.v ===== *)
(** * Handlers as programs over the store, the ledger and the clock

    The handlers of matches.ts and the sweep of server.ts are [async]
    functions: between two [await]s they run without interruption, and at
    an [await] another request or the sweep may run.  A handler is a value
    of [Prog A], a tree whose nodes are the operations it awaits (the
    repository's methods, the ledger's [tryDebitUser], [creditPrize] and
    history insert, the Prisma reads [Query] and the user upsert,
    [initDictionary]) and the
    synchronous reads of the clock ([Date.now()]) and of the sweep's
    run-in-progress flag; the
    continuation of a node is the rest of the handler.  A [Throw] is an
    exception that escapes the handler.

    [run] executes a program alone against a world ([World]); [step]
    executes one operation, and a turn of the event loop ([turn]) runs a
    program's synchronous prefix, one awaited I/O operation and the
    synchronous code after it, so that several programs interleave at
    their [await]s of I/O, as on the Node event loop ([run_sched]).
    [initDictionary] reads its file synchronously, so awaiting it is part
    of the synchronous prefix.  [run_as_turns] shows that a program run
    alone on the event loop computes what [run] computes. *)

From S2P Require Import Prelude Model Dictionary Ledger Store.

(** What escapes a handler: the [TypeError] of [canFormWordOnBoard] on a
    ragged board, a rejected ledger call, and an [Error] the code throws
    with its message. *)
Inductive Exn := TypeError | DbFailure (e : Ledger.DbError) | Failure (msg : string).

Inductive Prog (A : Type) : Type :=
  | Ret (a : A)
  | Throw (e : Exn)
  | Now (k : Z → Prog A)
  | TickFlag (k : bool → Prog A)
  | SetTickFlag (b : bool) (k : Prog A)
  | GetWaiting (lobby : string) (k : option string → Prog A)
  | SetWaiting (lobby mid : string) (k : Prog A)
  | ClearWaiting (lobby : string) (k : Prog A)
  | Get (mid : string) (k : option InternalMatch.t → Prog A)
  | Save (m : InternalMatch.t) (k : Prog A)
  | ListByUser (u : string) (k : list InternalMatch.t → Prog A)
  | ListAll (k : list InternalMatch.t → Prog A)
  | Remove (mid : string) (k : Prog A)
  | Debit (u : string) (amount : Z) (lobby mid : string) (k : bool → Prog A)
  | Credit (u : string) (amount : Z) (lobby mid : string) (place : Z) (k : option Ledger.DbError → Prog A)
  | SaveHistory (cm : Ledger.CompletedMatch) (k : option Ledger.DbError → Prog A)
  | InitDict (k : Dictionary.DictState → Prog A)
  | Query (k : Ledger.Db → Prog A)
  | Upsert (u : string) (k : option Ledger.DbError → Prog A).

Arguments Ret {A} a.
Arguments Throw {A} e.
Arguments Now {A} k.
Arguments TickFlag {A} k.
Arguments SetTickFlag {A} b k.
Arguments GetWaiting {A} lobby k.
Arguments SetWaiting {A} lobby mid k.
Arguments ClearWaiting {A} lobby k.
Arguments Get {A} mid k.
Arguments Save {A} m k.
Arguments ListByUser {A} u k.
Arguments ListAll {A} k.
Arguments Remove {A} mid k.
Arguments Debit {A} u amount lobby mid k.
Arguments Credit {A} u amount lobby mid place k.
Arguments SaveHistory {A} cm k.
Arguments InitDict {A} k.
Arguments Query {A} k.
Arguments Upsert {A} u k.

Fixpoint bind {A B} (p : Prog A) (f : A → Prog B) : Prog B :=
  match p with
  | Ret a => f a
  | Throw e => Throw e
  | Now k => Now (λ t, bind (k t) f)
  | TickFlag k => TickFlag (λ b, bind (k b) f)
  | SetTickFlag b k => SetTickFlag b (bind k f)
  | GetWaiting l k => GetWaiting l (λ r, bind (k r) f)
  | SetWaiting l i k => SetWaiting l i (bind k f)
  | ClearWaiting l k => ClearWaiting l (bind k f)
  | Get i k => Get i (λ r, bind (k r) f)
  | Save m k => Save m (bind k f)
  | ListByUser u k => ListByUser u (λ r, bind (k r) f)
  | ListAll k => ListAll (λ r, bind (k r) f)
  | Remove i k => Remove i (bind k f)
  | Debit u a l i k => Debit u a l i (λ r, bind (k r) f)
  | Credit u a l i pl k => Credit u a l i pl (λ r, bind (k r) f)
  | SaveHistory cm k => SaveHistory cm (λ r, bind (k r) f)
  | InitDict k => InitDict (λ r, bind (k r) f)
  | Query k => Query (λ d, bind (k d) f)
  | Upsert u k => Upsert u (λ r, bind (k r) f)
  end.

#[export] Instance Prog_ret : MRet Prog := λ A a, Ret a.
#[export] Instance Prog_bind : MBind Prog := λ A B f p, bind p f.

(** [try { p } catch (e) { h(e) }] *)
Fixpoint catch {A} (p : Prog A) (h : Exn → Prog A) : Prog A :=
  match p with
  | Ret a => Ret a
  | Throw e => h e
  | Now k => Now (λ t, catch (k t) h)
  | TickFlag k => TickFlag (λ b, catch (k b) h)
  | SetTickFlag b k => SetTickFlag b (catch k h)
  | GetWaiting l k => GetWaiting l (λ r, catch (k r) h)
  | SetWaiting l i k => SetWaiting l i (catch k h)
  | ClearWaiting l k => ClearWaiting l (catch k h)
  | Get i k => Get i (λ r, catch (k r) h)
  | Save m k => Save m (catch k h)
  | ListByUser u k => ListByUser u (λ r, catch (k r) h)
  | ListAll k => ListAll (λ r, catch (k r) h)
  | Remove i k => Remove i (catch k h)
  | Debit u a l i k => Debit u a l i (λ r, catch (k r) h)
  | Credit u a l i pl k => Credit u a l i pl (λ r, catch (k r) h)
  | SaveHistory cm k => SaveHistory cm (λ r, catch (k r) h)
  | InitDict k => InitDict (λ r, catch (k r) h)
  | Query k => Query (λ d, catch (k d) h)
  | Upsert u k => Upsert u (λ r, catch (k r) h)
  end.

(** The operations, one node each. *)
Definition now_ : Prog Z := Now Ret.
Definition tickFlag_ : Prog bool := TickFlag Ret.
Definition setTickFlag_ (b : bool) : Prog unit := SetTickFlag b (Ret tt).
Definition getWaiting_ (l : string) : Prog (option string) := GetWaiting l Ret.
Definition setWaiting_ (l i : string) : Prog unit := SetWaiting l i (Ret tt).
Definition clearWaiting_ (l : string) : Prog unit := ClearWaiting l (Ret tt).
Definition get_ (i : string) : Prog (option InternalMatch.t) := Get i Ret.
Definition save_ (m : InternalMatch.t) : Prog unit := Save m (Ret tt).
Definition listByUser_ (u : string) : Prog (list InternalMatch.t) := ListByUser u Ret.
Definition listAll_ : Prog (list InternalMatch.t) := ListAll Ret.
Definition remove_ (i : string) : Prog unit := Remove i (Ret tt).
Definition tryDebitUser_ (u : string) (a : Z) (l i : string) : Prog bool := Debit u a l i Ret.
(** [await creditPrize(...)]: a rejected promise is thrown. *)
Definition creditPrize_ (u : string) (a : Z) (l i : string) (pl : Z) : Prog unit :=
  Credit u a l i pl (λ r, match r with None => Ret tt | Some e => Throw (DbFailure e) end).
(** [await prisma.completedMatch.create(...)] inside a [try] that only
    logs: the outcome is ignored. *)
Definition saveHistory_ (cm : Ledger.CompletedMatch) : Prog unit := SaveHistory cm (λ _, Ret tt).
Definition initDictionary_ : Prog Dictionary.DictState := InitDict Ret.
(** [await prisma.user.upsert(...)]: a rejected promise is thrown. *)
Definition upsertUser_ (u : string) : Prog unit :=
  Upsert u (λ r, match r with None => Ret tt | Some e => Throw (DbFailure e) end).
(** A Prisma read: the continuation sees the database; a read of an
    unreachable database is rejected. *)
Definition query_ {A} (q : Ledger.Db → A) : Prog A :=
  Query (λ d, if Ledger.db_up d then Ret (q d) else Throw (DbFailure Ledger.DbDown)).
Definition throw_ {A} (e : Exn) : Prog A := Throw e.
Definition liftOpt {A} (r : option A) : Prog A :=
  match r with Some a => Ret a | None => Throw TypeError end.

(** ** Worlds *)

Section Worlds.
Context {St : Type} `{MatchRepository St}.

Record World := mkWorld {
  store : St;
  db : Ledger.Db;
  dict : Dictionary.DictState;
  clock : Z;
  wordsFile : option string;
  tickRunning : bool
}.

Definition with_store (w : World) (s : St) : World :=
  mkWorld s (db w) (dict w) (clock w) (wordsFile w) (tickRunning w).
Definition with_db (w : World) (d : Ledger.Db) : World :=
  mkWorld (store w) d (dict w) (clock w) (wordsFile w) (tickRunning w).
Definition with_dict (w : World) (d : Dictionary.DictState) : World :=
  mkWorld (store w) (db w) d (clock w) (wordsFile w) (tickRunning w).
Definition with_flag (w : World) (b : bool) : World :=
  mkWorld (store w) (db w) (dict w) (clock w) (wordsFile w) b.
Definition with_clock (w : World) (t : Z) : World :=
  mkWorld (store w) (db w) (dict w) t (wordsFile w) (tickRunning w).

Abbreviation entry l := (Some l).

(** One operation on the world: the program after it and the new world;
    [None] for a finished program. *)
Definition step {A} (w : World) (p : Prog A) : option (World * Prog A) :=
  match p with
  | Ret _ | Throw _ => None
  | Now k => Some (w, k (clock w))
  | TickFlag k => Some (w, k (tickRunning w))
  | SetTickFlag b k => Some (with_flag w b, k)
  | GetWaiting l k => Some (w, k (getWaiting (store w) l))
  | SetWaiting l i k => Some (with_store w (setWaiting (store w) l i), k)
  | ClearWaiting l k => Some (with_store w (clearWaiting (store w) l), k)
  | Get i k => Some (w, k (get (store w) i))
  | Save m k => Some (with_store w (save (store w) m), k)
  | ListByUser u k => Some (w, k (listByUser (store w) u))
  | ListAll k => Some (w, k (listAll (store w)))
  | Remove i k => Some (with_store w (remove (store w) i), k)
  | Debit u a l i k =>
      let '(ok, d) := Ledger.tryDebitUser (db w) u a (entry l) (entry i) in Some (with_db w d, k ok)
  | Credit u a l i pl k =>
      let '(r, d) := Ledger.creditPrize (db w) u a (entry l) (entry i) pl in Some (with_db w d, k r)
  | SaveHistory cm k =>
      let '(r, d) := Ledger.saveHistory (db w) cm in Some (with_db w d, k r)
  | InitDict k =>
      let d := Dictionary.initDictionary (dict w) (wordsFile w) in Some (with_dict w d, k d)
  | Query k => Some (w, k (db w))
  | Upsert u k => let '(r, d) := Ledger.upsertUser (db w) u in Some (with_db w d, k r)
  end.

(** A program run alone to its end: its result ([inl] for an exception)
    and the final world. *)
Fixpoint run {A} (w : World) (p : Prog A) : (Exn + A) * World :=
  match p with
  | Ret a => (inr a, w)
  | Throw e => (inl e, w)
  | Now k => run w (k (clock w))
  | TickFlag k => run w (k (tickRunning w))
  | SetTickFlag b k => run (with_flag w b) k
  | GetWaiting l k => run w (k (getWaiting (store w) l))
  | SetWaiting l i k => run (with_store w (setWaiting (store w) l i)) k
  | ClearWaiting l k => run (with_store w (clearWaiting (store w) l)) k
  | Get i k => run w (k (get (store w) i))
  | Save m k => run (with_store w (save (store w) m)) k
  | ListByUser u k => run w (k (listByUser (store w) u))
  | ListAll k => run w (k (listAll (store w)))
  | Remove i k => run (with_store w (remove (store w) i)) k
  | Debit u a l i k =>
      let '(ok, d) := Ledger.tryDebitUser (db w) u a (entry l) (entry i) in run (with_db w d) (k ok)
  | Credit u a l i pl k =>
      let '(r, d) := Ledger.creditPrize (db w) u a (entry l) (entry i) pl in run (with_db w d) (k r)
  | SaveHistory cm k =>
      let '(r, d) := Ledger.saveHistory (db w) cm in run (with_db w d) (k r)
  | InitDict k =>
      let d := Dictionary.initDictionary (dict w) (wordsFile w) in run (with_dict w d) (k d)
  | Query k => run w (k (db w))
  | Upsert u k => let '(r, d) := Ledger.upsertUser (db w) u in run (with_db w d) (k r)
  end.

(** The operations that give way to other tasks: every [await] of I/O.
    Reading the clock or the flag does not, nor does [await
    initDictionary()]: its body is synchronous ([fs.readFileSync]), so
    the promise it awaits is already resolved and only the microtasks
    queued by the same turn run before the handler goes on. *)
Definition awaits {A} (p : Prog A) : bool :=
  match p with
  | Ret _ | Throw _ | Now _ | TickFlag _ | SetTickFlag _ _ | InitDict _ => false
  | _ => true
  end.

(** The synchronous prefix of a program: the clock and flag operations and
    the dictionary load up to its next [await] of I/O or its end. *)
Fixpoint sync {A} (w : World) (p : Prog A) : World * Prog A :=
  match p with
  | Now k => sync w (k (clock w))
  | TickFlag k => sync w (k (tickRunning w))
  | SetTickFlag b k => sync (with_flag w b) k
  | InitDict k => let d := Dictionary.initDictionary (dict w) (wordsFile w) in sync (with_dict w d) (k d)
  | _ => (w, p)
  end.

(** One turn of a task on the event loop: its synchronous prefix, then
    one awaited operation and the synchronous code after it. *)
Definition turn {A} (w : World) (p : Prog A) : World * Prog A :=
  let '(w1, p1) := sync w p in
  match step w1 p1 with
  | Some (w2, p2) => sync w2 p2
  | None => (w1, p1)
  end.

(** A task on the event loop: a program with its answer type. *)
Definition Task := sigT Prog.

Definition task_of {A} (p : Prog A) : Task := existT A p.

(** The event loop: a schedule names the task that takes the next turn
    ([tick_clock t] sets the clock instead). *)
Inductive Sched := task (i : nat) | tick_clock (t : Z).

Fixpoint run_sched (w : World) (ts : list Task) (sched : list Sched) : World * list Task :=
  match sched with
  | [] => (w, ts)
  | task i :: sched' =>
      match ts !! i with
      | Some (existT A p) =>
          let '(w', p') := turn w p in run_sched w' (<[i := existT A p']> ts) sched'
      | None => run_sched w ts sched'
      end
  | tick_clock t :: sched' => run_sched (with_clock w t) ts sched'
  end.

(** The answer of a finished task. *)
Definition result {A} (p : Prog A) : option (Exn + A) :=
  match p with
  | Ret a => Some (inr a)
  | Throw e => Some (inl e)
  | _ => None
  end.

(** ** Running composed programs *)

Lemma run_bind {A B} (w : World) (p : Prog A) (f : A → Prog B) :
  run w (bind p f) =
  match run w p with
  | (inr a, w') => run w' (f a)
  | (inl e, w') => (inl e, w')
  end.
Proof.
  revert w. induction p; intros w; simpl; try done;
    repeat match goal with
    | |- context [Ledger.tryDebitUser ?a ?b ?c ?d ?e] => destruct (Ledger.tryDebitUser a b c d e)
    | |- context [Ledger.creditPrize ?a ?b ?c ?d ?e ?g] => destruct (Ledger.creditPrize a b c d e g)
    | |- context [Ledger.saveHistory ?a ?b] => destruct (Ledger.saveHistory a b)
    | |- context [Ledger.upsertUser ?a ?b] => destruct (Ledger.upsertUser a b)
    end; auto.
Qed.

Lemma run_catch {A} (w : World) (p : Prog A) (h : Exn → Prog A) :
  run w (catch p h) =
  match run w p with
  | (inr a, w') => (inr a, w')
  | (inl e, w') => run w' (h e)
  end.
Proof.
  revert w. induction p; intros w; simpl; try done;
    repeat match goal with
    | |- context [Ledger.tryDebitUser ?a ?b ?c ?d ?e] => destruct (Ledger.tryDebitUser a b c d e)
    | |- context [Ledger.creditPrize ?a ?b ?c ?d ?e ?g] => destruct (Ledger.creditPrize a b c d e g)
    | |- context [Ledger.saveHistory ?a ?b] => destruct (Ledger.saveHistory a b)
    | |- context [Ledger.upsertUser ?a ?b] => destruct (Ledger.upsertUser a b)
    end; auto.
Qed.

Lemma run_mbind {A B} (w : World) (p : Prog A) (f : A → Prog B) :
  run w (mbind f p) = match run w p with
                       | (inr a, w') => run w' (f a)
                       | (inl e, w') => (inl e, w')
                       end.
Proof. apply run_bind. Qed.

Lemma run_Prog_bind {A B} (w : World) (p : Prog A) (f : A → Prog B) :
  run w (Prog_bind A B f p) = match run w p with
                              | (inr a, w') => run w' (f a)
                              | (inl e, w') => (inl e, w')
                              end.
Proof. apply run_bind. Qed.

(** ** The event loop agrees with [run] *)

Fixpoint turns {A} (n : nat) (w : World) (p : Prog A) : World * Prog A :=
  match n with
  | 0 => sync w p
  | S n' => let '(w', p') := turn w p in turns n' w' p'
  end.

Lemma run_sync {A} (w : World) (p : Prog A) : run w p = run (sync w p).1 (sync w p).2.
Proof. revert w. induction p; intros w; simpl; auto. Qed.

Lemma run_step {A} (w : World) (p : Prog A) w' p' :
  step w p = Some (w', p') → run w p = run w' p'.
Proof.
  destruct p; simpl; intros Hs; simplify_eq; try done;
    repeat match goal with H : context [let '(_, _) := ?x in _] |- _ => destruct x end;
    simplify_eq; done.
Qed.

Lemma run_turn {A} (w : World) (p : Prog A) : run w p = run (turn w p).1 (turn w p).2.
Proof.
  unfold turn. rewrite (run_sync w p). destruct (sync w p) as [w1 p1]. simpl.
  destruct (step w1 p1) as [[w2 p2]|] eqn:Hs; [|done].
  rewrite (run_step _ _ _ _ Hs). apply run_sync.
Qed.

Lemma sync_idem {A} (w : World) (p : Prog A) : sync (sync w p).1 (sync w p).2 = sync w p.
Proof. revert w. induction p; intros w; simpl; auto. Qed.

Lemma turn_sync {A} (w : World) (p : Prog A) : turn (sync w p).1 (sync w p).2 = turn w p.
Proof. unfold turn. rewrite sync_idem. by destruct (sync w p). Qed.

Lemma turns_sync {A} n (w : World) (p : Prog A) :
  turns n (sync w p).1 (sync w p).2 = turns n w p.
Proof.
  destruct n as [|n]; simpl; [apply sync_idem|]. rewrite turn_sync. done.
Qed.

Lemma turns_step {A} n (w : World) (p : Prog A) w2 p2 :
  awaits p = true → step w p = Some (w2, p2) → turns (S n) w p = turns n w2 p2.
Proof.
  intros Ha Hs. cbn [turns]. unfold turn.
  replace (sync w p) with (w, p) by (destruct p; done).
  rewrite Hs. rewrite <- (turns_sync n w2 p2). by destruct (sync w2 p2).
Qed.

(** A task that runs alone on the event loop reaches, after finitely
    many turns, the answer and the world that [run] computes: the
    sequential semantics used by the handler theorems is the
    interleaving semantics without interleaving. *)
Theorem run_as_turns {A} (p : Prog A) (w : World) :
  ∃ n, (turns n w p).1 = (run w p).2 ∧ result (turns n w p).2 = Some (run w p).1.
Proof.
  revert w. induction p as [a|e|k IH|k IH|b k IH|l k IH|l i k IH|l k IH|i k IH|m k IH|u k IH
                           |k IH|i k IH|u a l i k IH|u a l i pl k IH|cm k IH|k IH|k IH|u k IH]; intros w.
  - by exists 0.
  - by exists 0.
  - destruct (IH (clock w) w) as [n Hn]. exists n. by destruct n.
  - destruct (IH (tickRunning w) w) as [n Hn]. exists n. by destruct n.
  - destruct (IH (with_flag w b)) as [n Hn]. exists n. by destruct n.
  - destruct (IH (getWaiting (store w) l) w) as [n Hn]. exists (S n).
    by rewrite (turns_step n w _ w (k (getWaiting (store w) l))).
  - destruct (IH (with_store w (setWaiting (store w) l i))) as [n Hn]. exists (S n).
    by rewrite (turns_step n w _ (with_store w (setWaiting (store w) l i)) k).
  - destruct (IH (with_store w (clearWaiting (store w) l))) as [n Hn]. exists (S n).
    by rewrite (turns_step n w _ (with_store w (clearWaiting (store w) l)) k).
  - destruct (IH (get (store w) i) w) as [n Hn]. exists (S n).
    by rewrite (turns_step n w _ w (k (get (store w) i))).
  - destruct (IH (with_store w (save (store w) m))) as [n Hn]. exists (S n).
    by rewrite (turns_step n w _ (with_store w (save (store w) m)) k).
  - destruct (IH (listByUser (store w) u) w) as [n Hn]. exists (S n).
    by rewrite (turns_step n w _ w (k (listByUser (store w) u))).
  - destruct (IH (listAll (store w)) w) as [n Hn]. exists (S n).
    by rewrite (turns_step n w _ w (k (listAll (store w)))).
  - destruct (IH (with_store w (remove (store w) i))) as [n Hn]. exists (S n).
    by rewrite (turns_step n w _ (with_store w (remove (store w) i)) k).
  - simpl. destruct (Ledger.tryDebitUser _ _ _ _ _) as [ok d] eqn:E.
    destruct (IH ok (with_db w d)) as [n Hn]. exists (S n).
    rewrite (turns_step n w _ (with_db w d) (k ok)); [done|done|]. simpl. by rewrite E.
  - simpl. destruct (Ledger.creditPrize _ _ _ _ _ _) as [r d] eqn:E.
    destruct (IH r (with_db w d)) as [n Hn]. exists (S n).
    rewrite (turns_step n w _ (with_db w d) (k r)); [done|done|]. simpl. by rewrite E.
  - simpl. destruct (Ledger.saveHistory _ _) as [r d] eqn:E.
    destruct (IH r (with_db w d)) as [n Hn]. exists (S n).
    rewrite (turns_step n w _ (with_db w d) (k r)); [done|done|]. simpl. by rewrite E.
  - set (d := Dictionary.initDictionary (dict w) (wordsFile w)).
    destruct (IH d (with_dict w d)) as [n Hn]. exists n. by destruct n.
  - destruct (IH (db w) w) as [n Hn]. exists (S n).
    by rewrite (turns_step n w _ w (k (db w))).
  - simpl. destruct (Ledger.upsertUser _ _) as [r d] eqn:E.
    destruct (IH r (with_db w d)) as [n Hn]. exists (S n).
    rewrite (turns_step n w _ (with_db w d) (k r)); [done|done|]. simpl. by rewrite E.
Qed.

End Worlds.

Arguments World St : clear implicits.
