(* ===== verification/Engine.v ===== *)
(** * The match lifecycle engine (src/backend/src/modules/matches.ts)

    The handlers of the [/matches] router as programs ([Prog]) over the
    repository interface, the ledger and the clock, in the order of their
    statements: each [await] is a node of the program and the code between
    two [await]s is pure.  The request body has passed its zod schema when
    a handler starts, except for the emptiness checks ([min(1)]) written
    at its top.  The lobby catalogue [LOBBIES] is read-only (a section
    variable).  The match object a handler reads is a snapshot: it mutates
    its copy and saves the whole document, which is what the store
    overwrites ([Races.v] shows the consequences). *)

From S2P Require Import Prelude Model Payout JsString WordValidation Dictionary Scoring BoardGen Ledger Store Program.
From Stdlib Require Import Ascii.

Module Engine.

(** ** Views and responses *)

(** The object [toClientMatch] returns (lines 698-720). *)
Record ClientMatch := mkClient {
  cv_matchId : string;
  cv_lobbyId : string;
  cv_board : Board;
  cv_timer : Z;
  cv_myWords : list string;
  cv_opponentWords : list string;
  cv_completed : bool;
  cv_myScore : Z;
  cv_myWordScore : option Z;
  cv_myTimeBonus : option Z;
  cv_opponentScore : Z;
  cv_opponentId : option string;
  cv_opponentUsername : string;
  cv_createdAt : Z;
  cv_startedAt : option Z;
  cv_endedAt : option Z;
  cv_entryFee : Z;
  cv_prizePool : Z;
  cv_gameDuration : Z;
  cv_playerDeadlineAt : option Z
}.

(** The JSON bodies the handlers send. *)
Inductive Body :=
  | ClientView (c : ClientMatch)
  | ErrorMsg (msg : string)
  | Conflict (msg : string) (current : ClientMatch)
  | LeftOk
  | SavedWords (ws : list string)
  | Validated (valid : bool) (normalized : string)
  | Submitted (myScore : Z) (completed : bool).

(** [res.status(code).json(body)] *)
Record Resp := resp { code : Z; body : Body }.

Abbreviation P := MatchPlayer.t.
Abbreviation M := InternalMatch.t.

(** [m.players.find((p) => p.id === playerId)] *)
Definition findPlayer (u : string) (ps : list P) : option P :=
  js_find (λ p, bool_decide (p.(MatchPlayer.id) = u)) ps.

(** [m.players.find((p) => p.id !== playerId)] *)
Definition findOther (u : string) (ps : list P) : option P :=
  js_find (λ p, bool_decide (p.(MatchPlayer.id) ≠ u)) ps.

(** [toClientMatch(m, playerId)] (lines 682-721) at clock [now]. *)
Definition toClientMatch (m : M) (playerId : string) (now : Z) : ClientMatch :=
  let me := findPlayer playerId m.(InternalMatch.players) in
  let other := findOther playerId m.(InternalMatch.players) in
  let completed := bool_decide (m.(InternalMatch.status) = completed) in
  let opponentWords := if completed then default [] (MatchPlayer.words <$> other) else [] in
  let timeRemaining :=
    match me with
    | Some p =>
        if bool_decide (is_Some p.(MatchPlayer.submittedAt)) then m.(InternalMatch.gameDuration)
        else Z.max 0 ((deadline_ms m.(InternalMatch.gameDuration) p - now) / 1000)
    | None => m.(InternalMatch.gameDuration)
    end in
  mkClient m.(InternalMatch.id) m.(InternalMatch.lobbyType) m.(InternalMatch.board) timeRemaining
    (default [] (MatchPlayer.words <$> me)) opponentWords completed
    (default 0%Z (MatchPlayer.score <$> me))
    (me ≫= MatchPlayer.wordScore) (me ≫= MatchPlayer.timeBonus)
    (default 0%Z (MatchPlayer.score <$> other))
    (other ≫= λ o, if bool_decide (o.(MatchPlayer.id) = "") then None else Some o.(MatchPlayer.id))
    (match other with
     | Some o => if bool_decide (o.(MatchPlayer.name) = "") then "Opponent" else o.(MatchPlayer.name)
     | None => "Opponent"
     end)
    m.(InternalMatch.createdAt) m.(InternalMatch.startedAt) m.(InternalMatch.endedAt)
    m.(InternalMatch.entryFee) m.(InternalMatch.prizePool) m.(InternalMatch.gameDuration)
    (me ≫= MatchPlayer.deadlineAt).

(** ** Helpers of the handlers *)

Definition digit36 (d : Z) : ascii :=
  if bool_decide (d < 10)%Z then ascii_of_nat (48 + Z.to_nat d) else ascii_of_nat (87 + Z.to_nat d).

Fixpoint base36_go (fuel : nat) (n : Z) (acc : string) : string :=
  match fuel with
  | O => acc
  | S f =>
      let acc' := String (digit36 (n mod 36)) acc in
      if bool_decide (n / 36 = 0)%Z then acc' else base36_go f (n / 36) acc'
  end.

(** [n.toString(36)] for a nonnegative integer; 64 digits cover every
    clock value. *)
Definition toString36 (n : Z) : string := base36_go 64 n "".

(** The id of a new match: [`${lobbyType}-${Date.now().toString(36)}`]. *)
Definition matchId (lobbyType : string) (now : Z) : string :=
  lobbyType +:+ "-" +:+ toString36 now.

(** Mutating the object found by [players.find(p => p.id === u)]: the
    first player with that id. *)
Fixpoint update_first (u : string) (f : P → P) (ps : list P) : list P :=
  match ps with
  | [] => []
  | p :: ps' => if bool_decide (p.(MatchPlayer.id) = u) then f p :: ps' else p :: update_first u f ps'
  end.

(** A player who joined and has not submitted. *)
Definition unsubmitted_in (u : string) (m : M) : bool :=
  match findPlayer u m.(InternalMatch.players) with
  | Some p => bool_decide (p.(MatchPlayer.submittedAt) = None)
  | None => false
  end.

(** The [find] of the join and leave handlers (lines 152-160, 290-295). *)
Definition isActiveFor (u : string) (m : M) : bool :=
  bool_decide (m.(InternalMatch.status) ≠ completed) && unsubmitted_in u m.

Definition newPlayer (u name : string) (joinedAt deadlineAt : Z) (paid : bool) : P :=
  MatchPlayer.mk u name [] 0 None None joinedAt (Some deadlineAt) paid None None None.

Section Handlers.
Context {St : Type} `{MatchRepository St}.
Variable LOBBIES : list LobbyConfig.t.

Definition cfgOf (lobbyType : string) : option LobbyConfig.t := getLobbyConfig LOBBIES lobbyType.

(** [getLobbyConfig(lobbyType)?.maxPlayers ?? 7] *)
Definition capacity (lobbyType : string) : Z :=
  default 7%Z (LobbyConfig.maxPlayers <$> cfgOf lobbyType).

(** The [find] of line 179: a waiting match of the lobby with room and
    without the user. *)
Definition isAvailable (lobbyType u : string) (m : M) : bool :=
  bool_decide (m.(InternalMatch.lobbyType) = lobbyType) &&
  bool_decide (m.(InternalMatch.status) = waiting) &&
  bool_decide (Z.of_nat (length m.(InternalMatch.players)) < capacity lobbyType)%Z &&
  negb (bool_decide (is_Some (findPlayer u m.(InternalMatch.players)))).

(** The new match of lines 221-250, its player not yet paid: [nowIso]
    is the clock read at the top of the handler, [now] the [Date.now()]
    of these lines. *)
Definition freshMatch (c : LobbyConfig.t) (lobbyType u name : string) (nowIso now : Z) : M :=
  InternalMatch.mk (matchId lobbyType now) lobbyType
    (BoardGen.generateDiceBoard now (Z.to_nat c.(LobbyConfig.boardSize))) nowIso None None
    c.(LobbyConfig.entryFee) c.(LobbyConfig.totalPrizeGems) c.(LobbyConfig.gameDuration)
    [newPlayer u name nowIso (now + c.(LobbyConfig.gameDuration) * 1000) false]
    waiting (now + 60 * 60 * 1000) None.

(** [match.players[0].paidEntry = true] *)
Definition paidFirst (ps : list P) : list P :=
  match ps with
  | p :: ps' => MatchPlayer.with_paid p :: ps'
  | [] => []
  end.

(** [POST /join] (lines 139-274). *)
Definition join (lobbyType userId : string) (playerName : option string) : Prog Resp :=
  if bool_decide (lobbyType = "" ∨ userId = "" ∨ playerName = Some "") then
    mret (resp 400 (ErrorMsg "Invalid request data"))
  else
  let name := default "Player" playerName in
  nowIso ← now_;
  userMatches ← listByUser_ userId;
  match js_find (isActiveFor userId) userMatches with
  | Some activeMatch =>
      t ← now_;
      if bool_decide (activeMatch.(InternalMatch.lobbyType) = lobbyType)
      then mret (resp 200 (ClientView (toClientMatch activeMatch userId t)))
      else mret (resp 409 (Conflict "User is already in an active match and hasn't submitted words yet"
                                   (toClientMatch activeMatch userId t)))
  | None =>
      allMatches ← listAll_;
      match js_find (isAvailable lobbyType userId) allMatches with
      | Some availableMatch =>
          ok ← tryDebitUser_ userId (default 100%Z (LobbyConfig.entryFee <$> cfgOf lobbyType))
                 lobbyType availableMatch.(InternalMatch.id);
          if negb ok then mret (resp 402 (ErrorMsg "insufficient funds"))
          else
            t ← now_;
            let deadlineAt := (t + default 300%Z (LobbyConfig.gameDuration <$> cfgOf lobbyType) * 1000)%Z in
            let m' := InternalMatch.with_players availableMatch
                        (availableMatch.(InternalMatch.players) ++
                         [newPlayer userId name nowIso deadlineAt true]) in
            save_ m';;
            t' ← now_;
            mret (resp 200 (ClientView (toClientMatch m' userId t')))
      | None =>
          match cfgOf lobbyType with
          | None => mret (resp 400 (ErrorMsg "Invalid lobby type"))
          | Some c =>
              t ← now_;
              let m := freshMatch c lobbyType userId name nowIso t in
              paid ← tryDebitUser_ userId c.(LobbyConfig.entryFee) lobbyType m.(InternalMatch.id);
              if negb paid then mret (resp 402 (ErrorMsg "insufficient funds"))
              else
                let m' := InternalMatch.with_players m (paidFirst m.(InternalMatch.players)) in
                save_ m';;
                t' ← now_;
                mret (resp 200 (ClientView (toClientMatch m' userId t')))
          end
      end
  end.

(** [POST /leave] (lines 281-324). *)
Definition leave (userId : string) : Prog Resp :=
  if bool_decide (userId = "") then mret (resp 400 (ErrorMsg "Invalid request data"))
  else
  userMatches ← listByUser_ userId;
  match js_find (isActiveFor userId) userMatches with
  | None => mret (resp 404 (ErrorMsg "No active match found where user hasn't submitted words"))
  | Some activeMatch =>
      let m' := InternalMatch.with_players activeMatch
                  (filter (λ p, p.(MatchPlayer.id) ≠ userId) activeMatch.(InternalMatch.players)) in
      (if bool_decide (length m'.(InternalMatch.players) = 0)
       then clearWaiting_ activeMatch.(InternalMatch.lobbyType)
       else save_ m');;
      mret (resp 200 LeftOk)
  end.

(** [POST /:matchId/save-words] (lines 343-362). *)
Definition saveWords (mid userId : string) (words : list string) : Prog Resp :=
  if bool_decide (userId = "") then mret (resp 400 (ErrorMsg "Invalid request data"))
  else
  mo ← get_ mid;
  match mo with
  | None => mret (resp 404 (ErrorMsg "match not found"))
  | Some m =>
      match findPlayer userId m.(InternalMatch.players) with
      | None => mret (resp 404 (ErrorMsg "player not in match"))
      | Some _ =>
          let ws := Scoring.normalizeWord <$> words in
          save_ (InternalMatch.with_players m
                   (update_first userId (λ p, MatchPlayer.with_words p ws) m.(InternalMatch.players)));;
          mret (resp 200 (SavedWords ws))
      end
  end.

(** [POST /:matchId/validate] (lines 365-399).  [who] is the program of
    [getRequestingUser(req)] (lines 38-57): it answers the caller's user
    id or throws, which the handler's catch turns into a 500. *)
Definition validate (who : Prog string) (mid word : string) : Prog Resp :=
  if bool_decide (word = "") then mret (resp 400 (ErrorMsg "Invalid request data"))
  else
  catch (
    userId ← who;
    mo ← get_ mid;
    match mo with
    | None => mret (resp 404 (ErrorMsg "match not found"))
    | Some m =>
        match findPlayer userId m.(InternalMatch.players) with
        | None => mret (resp 404 (ErrorMsg "player not in match"))
        | Some _ =>
            d ← initDictionary_;
            valid ← liftOpt (Scoring.validWord d m.(InternalMatch.board) word);
            mret (resp 200 (Validated valid (Scoring.normalizeWord word)))
        end
    end)
    (λ _, mret (resp 500 (ErrorMsg "Failed to validate word"))).

(** ** Completion and settlement *)

(** [cfg?.payoutMultipliers ?? []] *)
Definition multipliersOf (lobbyType : string) : list Q :=
  default [] (LobbyConfig.payoutMultipliers <$> cfgOf lobbyType).

(** [rankAndAllocateWinnings(match.players, match.prizePool, ...)] *)
Definition ranked (m : M) : list P :=
  Payout.rankAndAllocateWinnings m.(InternalMatch.players) m.(InternalMatch.prizePool)
    (multipliersOf m.(InternalMatch.lobbyType)).

(** The [data] of [prisma.completedMatch.create]. *)
Definition completedRecord (m : M) (rankedPlayers : list P) : Ledger.CompletedMatch :=
  Ledger.mkCompleted m.(InternalMatch.id) m.(InternalMatch.lobbyType) m.(InternalMatch.entryFee)
    m.(InternalMatch.prizePool) m.(InternalMatch.gameDuration) m.(InternalMatch.status) m.(InternalMatch.createdAt)
    m.(InternalMatch.startedAt) m.(InternalMatch.endedAt) m.(InternalMatch.board) rankedPlayers.

(** [saveCompletedMatch] (lines 59-88): its errors are logged. *)
Definition saveCompletedMatch (m : M) : Prog unit := saveHistory_ (completedRecord m (ranked m)).

(** [(p.rank as number) || 1] *)
Definition placeOf (p : P) : Z :=
  match p.(MatchPlayer.rank) with
  | Some (S r) => Z.of_nat (S r)
  | _ => 1%Z
  end.

(** The crediting loop (lines 475-484): an exception ends it. *)
Fixpoint creditAll (lobbyType mid : string) (winners : list P) : Prog unit :=
  match winners with
  | [] => mret tt
  | p :: ws =>
      let amount := Payout.winnings_of p in
      (if bool_decide (0 < amount)%Z
       then creditPrize_ p.(MatchPlayer.id) amount lobbyType mid (placeOf p)
       else mret tt);;
      creditAll lobbyType mid ws
  end.

(** [if (!match.payoutAt) { try { ...; match.payoutAt = now } catch {} }]
    (lines 467-489). *)
Definition settle (m : M) : Prog M :=
  match m.(InternalMatch.payoutAt) with
  | Some _ => mret m
  | None =>
      catch (creditAll m.(InternalMatch.lobbyType) m.(InternalMatch.id) (ranked m);;
             t ← now_; mret (InternalMatch.with_payout m t))
            (λ _, mret m)
  end.

(** The completion test (lines 455-460 and server.ts 117-121). *)
Definition allSubmitted (m : M) : bool :=
  bool_decide (Z.of_nat (length m.(InternalMatch.players)) = capacity m.(InternalMatch.lobbyType)) &&
  forallb (λ p, bool_decide (is_Some p.(MatchPlayer.submittedAt))) m.(InternalMatch.players).

(** [POST /:matchId/words] (lines 401-505). *)
Definition submit (mid userId : string) (words : list string) : Prog Resp :=
  if bool_decide (userId = "") then mret (resp 400 (ErrorMsg "Invalid request data"))
  else
  mo ← get_ mid;
  match mo with
  | None => mret (resp 404 (ErrorMsg "match not found"))
  | Some m =>
      match findPlayer userId m.(InternalMatch.players) with
      | None => mret (resp 404 (ErrorMsg "player not in match"))
      | Some player =>
          d ← initDictionary_;
          unique ← liftOpt (Scoring.uniqueWords d m.(InternalMatch.board) words);
          let cfg := cfgOf m.(InternalMatch.lobbyType) in
          let deadlineAtMs := deadline_ms m.(InternalMatch.gameDuration) player in
          nowMs ← now_;
          if bool_decide (deadlineAtMs < nowMs)%Z
          then mret (resp 403 (ErrorMsg "deadline passed"))
          else
            let remaining := Scoring.remainingSeconds deadlineAtMs nowMs in
            let baseScore := Scoring.baseScore unique in
            let bonus := Scoring.timeBonus remaining (Scoring.bonusRate cfg) (Scoring.bonusCap cfg) in
            let score := (baseScore + bonus)%Z in
            t ← now_;
            let m1 := InternalMatch.with_players m
                        (update_first userId (λ p, MatchPlayer.with_submission p unique baseScore bonus t)
                           m.(InternalMatch.players)) in
            m3 ← (if allSubmitted m1
                  then t2 ← now_;
                       let m2 := InternalMatch.with_completed m1 t2 in
                       saveCompletedMatch m2;;
                       settle m2
                  else mret m1);
            (if bool_decide (m3.(InternalMatch.status) = completed)
             then remove_ m3.(InternalMatch.id)
             else save_ m3);;
            mret (resp 200 (Submitted score (bool_decide (m3.(InternalMatch.status) = completed))))
      end
  end.

End Handlers.
End Engine.
