(* ===== verification/Sweep.v ===== *)
(** * The reconciliation sweep (src/backend/src/server.ts)

    Every ten seconds the server runs [tick]: unless a run is in progress
    (the module flag [__tickRunning]), it lists the live matches and, for
    each one not completed, runs [processMatchTimeout], which auto-submits
    the saved words of every player past their deadline and settles the
    match when all seats have submitted; a processed match is removed
    when completed and saved otherwise, and a match past its
    [autoCompleteAt] is marked completed and removed without settlement.
    The sweep mutates the match object it listed, a snapshot of the store
    taken at the start of the tick. *)

From S2P Require Import Prelude Model Payout Dictionary Scoring Ledger Store Program Engine.

Module Sweep.

Abbreviation P := MatchPlayer.t.
Abbreviation M := InternalMatch.t.

Section Sweep.
Context {St : Type} `{MatchRepository St}.
Variable LOBBIES : list LobbyConfig.t.

(** [autoSubmitWordsForPlayer] (lines 66-95): the player after it. *)
Definition autoSubmitWordsForPlayer (board : Board) (player : P) : Prog P :=
  if bool_decide (is_Some player.(MatchPlayer.submittedAt)) then mret player
  else
    d ← initDictionary_;
    unique ← liftOpt (Scoring.uniqueWords d board player.(MatchPlayer.words));
    let baseScore := Scoring.baseScore unique in
    t ← now_;
    mret (MatchPlayer.with_submission player unique baseScore 0 t).

(** A player the loop of lines 103-114 times out at [now]. *)
Definition timedOut (gameDuration now : Z) (p : P) : bool :=
  bool_decide (p.(MatchPlayer.submittedAt) = None) &&
  bool_decide (deadline_ms gameDuration p ≤ now)%Z.

(** The loop of lines 103-114: the players after it and
    [anyPlayerTimedOut]. *)
Fixpoint timeoutPlayers (board : Board) (gameDuration now : Z) (ps : list P) : Prog (list P * bool) :=
  match ps with
  | [] => mret ([], false)
  | p :: ps' =>
      pb ← (if timedOut gameDuration now p
            then p' ← autoSubmitWordsForPlayer board p; mret (p', true)
            else mret (p, false));
      rest ← timeoutPlayers board gameDuration now ps';
      mret (pb.1 :: rest.1, pb.2 || rest.2)
  end.

(** [processMatchTimeout] (lines 97-185): the match after it and its
    boolean result. *)
Definition processMatchTimeout (m : M) : Prog (M * bool) :=
  now ← now_;
  r ← timeoutPlayers m.(InternalMatch.board) m.(InternalMatch.gameDuration) now m.(InternalMatch.players);
  let m1 := InternalMatch.with_players m r.1 in
  if Engine.allSubmitted LOBBIES m1 && bool_decide (m1.(InternalMatch.status) ≠ completed) then
    t ← now_;
    let m2 := InternalMatch.with_completed m1 t in
    saveHistory_ (Engine.completedRecord m2 (Engine.ranked LOBBIES m2));;
    m3 ← Engine.settle LOBBIES m2;
    mret (m3, true)
  else mret (m1, r.2).

(** The body of the [for] loop of lines 195-221 for one listed match. *)
Definition sweepMatch (now : Z) (m : M) : Prog unit :=
  if bool_decide (m.(InternalMatch.status) = completed) then mret tt
  else
    '(m', processed) ← processMatchTimeout m;
    isCompleted ← (if (processed : bool) then
                     if bool_decide (m'.(InternalMatch.status) = completed)
                     then remove_ m.(InternalMatch.id);; mret true
                     else save_ m';; mret false
                   else mret false);
    if negb (isCompleted : bool) && bool_decide (m'.(InternalMatch.autoCompleteAt) ≤ now)%Z &&
       bool_decide (m'.(InternalMatch.status) ≠ completed)
    then remove_ m.(InternalMatch.id)
    else mret tt.

Fixpoint sweepAll (now : Z) (ms : list M) : Prog unit :=
  match ms with
  | [] => mret tt
  | m :: ms' => sweepMatch now m;; sweepAll now ms'
  end.

(** The interval callback (lines 188-230). *)
Definition tick : Prog unit :=
  running ← tickFlag_;
  if (running : bool) then mret tt
  else
    setTickFlag_ true;;
    catch (now ← now_; all ← listAll_; sweepAll now all) (λ _, mret tt);;
    setTickFlag_ false.

End Sweep.
End Sweep.
