(* ===== verification/PayoutAudit.v ===== *)
(** * The payout audit (src/backend/src/modules/matches.ts, POST /dev/verify)

    The development route [/dev/verify] re-checks settled matches against
    the ledger: for each row of the completed-match history it recomputes
    the winnings from the recorded scores ([expected]), reads the winnings
    stored in the row ([recorded]) and adds up the prize transactions of
    the match per user ([credited]); a match is [ok] when the three agree
    for every user, the expected winnings add up to the prize pool and the
    credited total equals the expected one.

    The route only reads the database; it is modelled as a function of the
    ledger state ([Ledger.Db]) rather than as a program of [Program.v].
    The three [Map]s of the code are JS maps: keys in the order of their
    first [set], a later [set] replacing the value in place ([JsMap]).
    Without a [matchId] the route takes the [limit] most recently ended
    rows; the order of rows with equal end times is the database's and is
    not specified by the code: here it is the stable order of the history's
    key list. *)

From S2P Require Import Prelude Model Payout Ledger Store Program Engine.

Module PayoutAudit.
Import Ledger.

(** ** JS maps from strings to numbers *)

Definition JsMap := list (string * Z).

(** [m.get(k) || 0] *)
Definition jsmap_get0 (m : JsMap) (k : string) : Z :=
  default 0%Z (snd <$> js_find (λ kv, bool_decide (kv.1 = k)) m).

(** ** One match *)

(** The player objects rebuilt from the stored JSON (lines 849-856): only
    these six fields are kept. *)
Definition rehydrate (p : MatchPlayer.t) : MatchPlayer.t :=
  MatchPlayer.mk p.(MatchPlayer.id) p.(MatchPlayer.name) p.(MatchPlayer.words) p.(MatchPlayer.score)
    None None p.(MatchPlayer.joinedAt) None p.(MatchPlayer.paidEntry) None None None.

(** [for (const p of ps) map.set(p.id, Math.floor(p.winnings || 0))] *)
Definition winnings_map (ps : list MatchPlayer.t) : JsMap :=
  foldl (λ mp p, jsmap_set mp p.(MatchPlayer.id) (Payout.winnings_of p)) [] ps.

(** [creditedMap]: the prize amounts added up per user (lines 876-879). *)
Definition credited_map (tx : list Txn) : JsMap :=
  foldl (λ mp t, jsmap_set mp (tx_user t) (jsmap_get0 mp (tx_user t) + tx_amount t)%Z) [] tx.

(** The prize transactions of a match, in table order (lines 873-875). *)
Definition prize_txns (txs : list Txn) (mid : string) : list Txn :=
  filter (λ t, tx_match t = Some mid ∧ tx_type t = "prize") txs.

Record PlayerReport := mkPlayerReport {
  pr_user : string;
  pr_score : option Z;
  pr_expected : Z;
  pr_recorded : Z;
  pr_credited : Z
}.

Record Report := mkReport {
  r_match : string;
  r_lobby : string;
  r_pool : Z;
  r_endedAt : option Z;
  r_ok : bool;
  r_totalExpected : Z;
  r_totalCredited : Z;
  r_players : list PlayerReport;
  r_discrepancies : list string
}.

(** The check of one user (lines 895-898). *)
Definition user_ok (exp rec cred : JsMap) (uid : string) : bool :=
  bool_decide (jsmap_get0 exp uid = jsmap_get0 rec uid) &&
  bool_decide (jsmap_get0 rec uid = jsmap_get0 cred uid).

Definition user_discrepancy (exp rec cred : JsMap) (uid : string) : list string :=
  if user_ok exp rec cred uid then []
  else ["user " +:+ uid +:+ ": expected=" +:+ pretty (jsmap_get0 exp uid) +:+ " recorded="
        +:+ pretty (jsmap_get0 rec uid) +:+ " credited=" +:+ pretty (jsmap_get0 cred uid)].

(** The body of the loop over the history rows (lines 846-946). *)
Definition report_of (LOBBIES : list LobbyConfig.t) (txs : list Txn) (cm : CompletedMatch) : Report :=
  let cfg := getLobbyConfig LOBBIES (cm_lobbyType cm) in
  let prizePool := cm_prizePool cm in
  let players := rehydrate <$> cm_players cm in
  let expected := Payout.rankAndAllocateWinnings players prizePool
                    (default [] (LobbyConfig.payoutMultipliers <$> cfg)) in
  let expectedMap := winnings_map expected in
  let recordedMap := winnings_map (cm_players cm) in
  let tx := prize_txns txs (cm_id cm) in
  let creditedMap := credited_map tx in
  let users := set_add_all [] ((MatchPlayer.id <$> players) ++ (fst <$> expectedMap) ++
                               (fst <$> recordedMap) ++ (tx_user <$> tx)) in
  let perPlayer :=
    (λ uid, mkPlayerReport uid
              (MatchPlayer.score <$> js_find (λ p, bool_decide (p.(MatchPlayer.id) = uid)) players)
              (jsmap_get0 expectedMap uid) (jsmap_get0 recordedMap uid) (jsmap_get0 creditedMap uid))
      <$> users in
  let totalExpected := Σ (snd <$> expectedMap) in
  let totalCredited := Σ (tx_amount <$> tx) in
  let totalOk := bool_decide (totalExpected = prizePool) in
  let creditedOk := bool_decide (totalCredited = totalExpected) in
  mkReport (cm_id cm) (cm_lobbyType cm) prizePool (cm_endedAt cm)
    (forallb (user_ok expectedMap recordedMap creditedMap) users && totalOk && creditedOk)
    totalExpected totalCredited perPlayer
    (mjoin (user_discrepancy expectedMap recordedMap creditedMap <$> users) ++
     (if totalOk then [] else ["total mismatch: expectedTotal=" +:+ pretty totalExpected
                                +:+ " prizePool=" +:+ pretty prizePool]) ++
     (if creditedOk then [] else ["credited mismatch: creditedTotal=" +:+ pretty totalCredited
                                  +:+ " expectedTotal=" +:+ pretty totalExpected])).

(** ** The route *)

Inductive VerifyBody :=
  | Forbidden
  | BadRequest
  | Failed
  | Reports (ok : bool) (count : nat) (reports : list Report).

(** [orderBy: { endedAt: "desc" }, take: limit] *)
Definition ended_desc (a b : CompletedMatch) : Prop :=
  (default 0 (cm_endedAt b) ≤ default 0 (cm_endedAt a))%Z.

#[local] Instance ended_desc_dec : RelDecision ended_desc.
Proof. intros a b. unfold ended_desc. apply _. Defined.

(** The rows the route reads (lines 836-841): the row of [matchId] when it
    is a non-empty string, else the [limit] latest rows. *)
Definition selected (db : Db) (matchId : option string) (limit : nat) : list CompletedMatch :=
  match matchId with
  | Some mid => if bool_decide (mid = "") then take limit (merge_sort ended_desc (map_to_list (history db)).*2)
                else option_list (history db !! mid)
  | None => take limit (merge_sort ended_desc (map_to_list (history db)).*2)
  end.

(** [POST /dev/verify] (lines 822-954): [devAuth] is [isDevAuth()]; the
    zod schema bounds [limit] (default 20) to 1..200; the queries throw
    when the database is unreachable, which the handler answers with 500. *)
Definition verify (LOBBIES : list LobbyConfig.t) (devAuth : bool) (db : Db)
    (matchId : option string) (limit : option nat) : Z * VerifyBody :=
  if negb devAuth then (403%Z, Forbidden)
  else
    let lim := default 20 limit in
    if bool_decide (lim < 1 ∨ 200 < lim) then (400%Z, BadRequest)
    else if negb (db_up db) then (500%Z, Failed)
    else
      let reports := report_of LOBBIES (txns db) <$> selected db matchId lim in
      (200%Z, Reports (forallb r_ok reports) (length reports) reports).

(** The reports of a response, if any. *)
Definition reports_of (b : VerifyBody) : list Report :=
  match b with Reports _ _ rs => rs | _ => [] end.

(** ** Properties of the JS maps *)

Lemma jsmap_get0_set m k v u :
  jsmap_get0 (jsmap_set m k v) u = if bool_decide (k = u) then v else jsmap_get0 m u.
Proof.
  unfold jsmap_get0. induction m as [|[k' v'] m IH]; simpl.
  - destruct (decide (k = u)) as [->|Hku];
      [by rewrite !bool_decide_true|by rewrite !bool_decide_false].
  - destruct (decide (k' = k)) as [->|Hk].
    + rewrite bool_decide_true by done. simpl.
      destruct (decide (k = u)) as [->|Hku]; [by rewrite !bool_decide_true|by rewrite !bool_decide_false].
    + rewrite (bool_decide_false (k' = k)) by done. simpl.
      destruct (decide (k' = u)) as [->|Hu].
      * rewrite bool_decide_true by done. by rewrite (bool_decide_false (k = u)) by congruence.
      * rewrite (bool_decide_false (k' = u)) by done. exact IH.
Qed.

Lemma jsmap_get0_absent m u : u ∉ fst <$> m → jsmap_get0 m u = 0%Z.
Proof.
  intros Hu. unfold jsmap_get0. rewrite js_find_None_2; [done|].
  intros [k v] Hin. apply bool_decide_false. simpl. intros ->.
  apply Hu. apply list_elem_of_fmap. by exists (u, v).
Qed.

(** [creditedMap.get(u) || 0] is the sum of the user's prize amounts. *)
Lemma credited_map_spec tx u :
  jsmap_get0 (credited_map tx) u = Σ (tx_amount <$> filter (λ t, tx_user t = u) tx).
Proof.
  unfold credited_map.
  assert (Hgen : ∀ acc, jsmap_get0 (foldl (λ mp t, jsmap_set mp (tx_user t) (jsmap_get0 mp (tx_user t) + tx_amount t)%Z) acc tx) u =
                        (jsmap_get0 acc u + Σ (tx_amount <$> filter (λ t, tx_user t = u) tx))%Z).
  { induction tx as [|t tx IH]; intros acc; simpl; [rewrite sumZ_nil; lia|].
    rewrite IH, jsmap_get0_set, filter_cons.
    case_bool_decide as Ht; case_decide; simplify_eq; rewrite ?fmap_cons, ?sumZ_cons; lia. }
  rewrite Hgen. change (jsmap_get0 [] u) with 0%Z. lia.
Qed.

Lemma report_ok_inv LOBBIES txs cm :
  r_ok (report_of LOBBIES txs cm) = true →
  let players := rehydrate <$> cm_players cm in
  let expectedMap := winnings_map (Payout.rankAndAllocateWinnings players (cm_prizePool cm)
                       (default [] (LobbyConfig.payoutMultipliers <$> getLobbyConfig LOBBIES (cm_lobbyType cm)))) in
  let tx := prize_txns txs (cm_id cm) in
  (∀ u, u ∈ set_add_all [] ((MatchPlayer.id <$> players) ++ (fst <$> expectedMap) ++
                            (fst <$> winnings_map (cm_players cm)) ++ (tx_user <$> tx)) →
        user_ok expectedMap (winnings_map (cm_players cm)) (credited_map tx) u = true) ∧
  Σ (snd <$> expectedMap) = cm_prizePool cm ∧
  Σ (tx_amount <$> tx) = Σ (snd <$> expectedMap).
Proof.
  unfold report_of. cbn [r_ok]. rewrite !andb_true_iff, forallb_forall, !bool_decide_eq_true.
  intros ((Hu & Ht) & Hc). split_and!; [|exact Ht|exact Hc].
  intros u Hin. apply Hu. by apply list_elem_of_In.
Qed.

(** C30: when the audit reports a match as [ok], the prize transactions
    recorded for it add up to its prize pool, and each user's prize
    transactions add up to the winnings stored for that user in the
    match's history row. *)
Theorem report_ok_sound LOBBIES txs cm :
  r_ok (report_of LOBBIES txs cm) = true →
  Σ (tx_amount <$> prize_txns txs (cm_id cm)) = cm_prizePool cm ∧
  ∀ u, Σ (tx_amount <$> filter (λ t, tx_user t = u) (prize_txns txs (cm_id cm))) =
       jsmap_get0 (winnings_map (cm_players cm)) u.
Proof.
  intros Hok. destruct (report_ok_inv LOBBIES txs cm Hok) as (Hu & Ht & Hc).
  split; [by rewrite Hc|]. intros u. rewrite <- credited_map_spec.
  destruct (decide (u ∈ tx_user <$> prize_txns txs (cm_id cm))) as [Hin|Hout].
  - assert (Hok' := Hu u). unfold user_ok in Hok'.
    rewrite andb_true_iff, !bool_decide_eq_true in Hok'.
    destruct Hok' as [_ ->]; [|done]. apply set_add_all_elem. right. set_solver.
  - assert (Hnone : filter (λ t, tx_user t = u) (prize_txns txs (cm_id cm)) = []).
    { apply filter_none. intros t Ht' <-. apply Hout. by apply list_elem_of_fmap_2. }
    rewrite credited_map_spec, Hnone, fmap_nil, sumZ_nil.
    destruct (decide (u ∈ fst <$> winnings_map (cm_players cm))) as [Hw|Hw];
      [|by rewrite jsmap_get0_absent].
    assert (Hok' := Hu u). unfold user_ok in Hok'.
    rewrite andb_true_iff, !bool_decide_eq_true in Hok'.
    destruct Hok' as [_ Hrc]; [apply set_add_all_elem; right; set_solver|].
    by rewrite Hrc, credited_map_spec, Hnone, fmap_nil, sumZ_nil.
Qed.

(** ** The rows the engine writes *)

Lemma winnings_map_res l1 l2 :
  Payout.res <$> l1 = Payout.res <$> l2 → winnings_map l1 = winnings_map l2.
Proof.
  unfold winnings_map. generalize (@nil (string * Z)) as acc.
  revert l2. induction l1 as [|a l1 IH]; intros [|b l2] acc Hr; try discriminate Hr; [done|].
  rewrite !fmap_cons in Hr.
  assert (Hab : Payout.res a = Payout.res b) by exact (f_equal (λ l, default (Payout.res a) (head l)) Hr).
  assert (Hr' : Payout.res <$> l1 = Payout.res <$> l2) by exact (f_equal tail Hr).
  assert (Hid : MatchPlayer.id a = MatchPlayer.id b) by exact (f_equal (λ x, x.1.1.1) Hab).
  assert (Hw : MatchPlayer.winnings a = MatchPlayer.winnings b) by exact (f_equal snd Hab).
  simpl. unfold Payout.winnings_of. rewrite Hid, Hw. by apply IH.
Qed.

(** The winnings the audit recomputes from an engine-written row are the
    ones the row records. *)
Lemma expected_map_engine LOBBIES m :
  winnings_map (Payout.rankAndAllocateWinnings (rehydrate <$> Engine.ranked LOBBIES m)
                  m.(InternalMatch.prizePool)
                  (default [] (LobbyConfig.payoutMultipliers <$> getLobbyConfig LOBBIES m.(InternalMatch.lobbyType))))
  = winnings_map (Engine.ranked LOBBIES m).
Proof.
  apply winnings_map_res. unfold Engine.ranked. apply Payout.rankAndAllocateWinnings_rerank. done.
Qed.

(** C23: For every history row the engine writes (its players ranked by
    the allocator under the lobby's multipliers), the audit's recomputed
    winnings equal the recorded ones, for every user: the audit can only
    fail on the credited amounts or on the totals. *)
Theorem audit_expected_is_recorded LOBBIES txs m :
  Forall (λ r, pr_expected r = pr_recorded r)
    (r_players (report_of LOBBIES txs (Engine.completedRecord m (Engine.ranked LOBBIES m)))).
Proof.
  unfold report_of. cbn [r_players Engine.completedRecord cm_players cm_prizePool cm_lobbyType].
  rewrite expected_map_engine. apply Forall_fmap, Forall_forall. intros u _. done.
Qed.

End PayoutAudit.
