(* ===== verification/Scenarios.v ===== *)
(** * Concrete worlds

    Two lobbies ([duo], two seats, and [trio], three seats), three users
    with 1000 gems each, a three-word dictionary file and the Redis
    repository, from which the witnesses of [Lifecycle], [Invariants] and
    the executions of [Races] start; and observations of a world (who is
    seated in a match, what prizes it paid). *)

From S2P Require Import Prelude Model Payout JsString WordValidation Dictionary Scoring BoardGen Ledger Store Program Engine Sweep.

Module Scenarios.
Import Engine.

(** ** Concrete worlds *)

Definition duo : LobbyConfig.t :=
  LobbyConfig.mk "duo" "Duo" 100%Z 4%Z 120%Z 2%Z [1]%Q 100 None None.
Definition trio : LobbyConfig.t :=
  LobbyConfig.mk "trio" "Trio" 100%Z 4%Z 120%Z 3%Z [1]%Q 100 None None.
Definition LOBBIES : list LobbyConfig.t := [duo; trio].

Definition db0 : Ledger.Db :=
  Ledger.mkDb (<["alice" := Ledger.mkUser 1000 0]> (<["bob" := Ledger.mkUser 1000 0]>
                 (<["carol" := Ledger.mkUser 1000 0]> ∅))) [] ∅ true.

(** 2023-11-14T22:13:20Z in milliseconds. *)
Definition T0 : Z := 1700000000000.

Definition start (t : Z) : World Redis.t :=
  mkWorld Redis.empty db0 Dictionary.uninitialized t (Some "mos
sow
mow") false.

(** The stored match [mid], or a blank match when there is none. *)
Definition the_match (w : World Redis.t) (mid : string) : InternalMatch.t :=
  default (InternalMatch.mk "" "" [] 0 None None 0 0 0 [] waiting 0 None) (get (store w) mid).

(** The player [u] of the stored match [mid], or a blank player. *)
Definition the_player (w : World Redis.t) (mid u : string) : MatchPlayer.t :=
  default (MatchPlayer.mk "" "" [] 0 None None 0 None false None None None)
    (findPlayer u (the_match w mid).(InternalMatch.players)).

(** The history row of match [mid], or a blank row. *)
Definition the_row (w : World Redis.t) (mid : string) : Ledger.CompletedMatch :=
  default (Ledger.mkCompleted "" "" 0 0 0 completed 0 None None [] []) (Ledger.history (db w) !! mid).

(** The same world with the database unreachable. *)
Definition down (w : World Redis.t) : World Redis.t :=
  with_db w (Ledger.mkDb (Ledger.users (db w)) (Ledger.txns (db w)) (Ledger.history (db w)) false).

(** The ids of the players of the stored match [mid]. *)
Definition seated (w : World Redis.t) (mid : string) : option (list string) :=
  (λ m, MatchPlayer.id <$> m.(InternalMatch.players)) <$> get (store w) mid.

(** The prizes credited for match [mid]. *)
Definition prizes_paid (w : World Redis.t) (mid : string) : Z :=
  Σ (Ledger.tx_amount <$> filter (λ t, Ledger.tx_type t = "prize" ∧ Ledger.tx_match t = Some mid)
                                 (Ledger.txns (db w))).

Definition finished (t : Task) : bool :=
  match t with existT _ p => bool_decide (is_Some (result p)) end.

Definition serve_all (w : World Redis.t) (ps : list (Prog Resp)) : World Redis.t :=
  foldl (λ w p, (run w p).2) w ps.

Definition trio_id : string := matchId "trio" T0.
Definition duo_id : string := matchId "duo" T0.

(** Alice and Bob seated in a duo match at [T0]. *)
Definition duo_started : World Redis.t :=
  serve_all (start T0) [join LOBBIES "duo" "alice" None; join LOBBIES "duo" "bob" None].

(** The same match once Alice has submitted, one second later. *)
Definition alice_submitted : World Redis.t :=
  serve_all (with_clock duo_started (T0 + 1000)) [submit LOBBIES duo_id "alice" ["mos"]].

(** Carol, alone in a trio match joined 200 s before [T0]; the clock
    reads [T0], past Carol's deadline. *)
Definition carol_id : string := matchId "trio" (T0 - 200000).

Definition carol_waiting : World Redis.t :=
  with_clock (serve_all (start (T0 - 200000)) [join LOBBIES "trio" "carol" None]) T0.

(** Bob's turn in the duo match, before and after the deadline. *)
Definition bob_turn : World Redis.t := with_clock alice_submitted (T0 + 2000).

(** Bob submits last: the match is completed, recorded and paid. *)
Definition settled : World Redis.t :=
  serve_all bob_turn [submit LOBBIES duo_id "bob" ["mos"; "sow"]].
Definition late : World Redis.t := with_clock alice_submitted (T0 + 200000).

(** Closes a side condition on a concrete world by evaluating it. *)
Ltac by_eval :=
  lazymatch goal with
  | |- Ledger.has_txn _ _ _ _ => unfold Ledger.has_txn; apply (bool_decide_unpack _); vm_compute; reflexivity
  | |- WordValidation.rectangular _ =>
      unfold WordValidation.rectangular; apply (bool_decide_unpack _); vm_compute; reflexivity
  | |- repo_wf _ => apply (@bool_decide_unpack _ (RedisLaws.wf_dec _)); vm_compute; reflexivity
  | |- (_ ≤ _)%Z => apply Z.leb_le; vm_compute; reflexivity
  | |- (_ < _)%Z => apply Z.ltb_lt; vm_compute; reflexivity
  | |- _ ≠ _ => vm_compute; congruence
  | _ => vm_compute; reflexivity
  end.

Lemma LOBBIES_ok c : c ∈ LOBBIES → lobby_ok c.
Proof.
  intros Hc. apply validateLobbyConfig_ok.
  repeat (inversion Hc as [|? ? ? Hc']; subst; [reflexivity|clear Hc; rename Hc' into Hc]).
  inversion Hc.
Qed.

End Scenarios.
