(* ===== verification/Hoare.v ===== *)
(** * A program logic for handler programs

    [triple P p Q E]: run from a world satisfying [P], the program [p]
    either returns [a] in a world satisfying [Q a] or throws [e] in a
    world satisfying [E e].  The rules below (one per operation, and
    [bind], [catch], consequence) let the invariants of the engine be
    proved handler by handler, following the code's structure. *)

From S2P Require Import Prelude Model Dictionary Ledger Store Program.

Section Hoare.
Context {St : Type} `{MatchRepository St}.

Abbreviation W := (World St).

Definition triple {A} (P : W → Prop) (p : Prog A) (Q : A → W → Prop) (E : Exn → W → Prop) : Prop :=
  ∀ w, P w →
    match run w p with
    | (inr a, w') => Q a w'
    | (inl e, w') => E e w'
    end.

Lemma triple_ret {A} (P : W → Prop) (a : A) Q E :
  (∀ w, P w → Q a w) → triple P (Ret a) Q E.
Proof. intros HP w Hw. by apply HP. Qed.

Lemma triple_mret {A} (P : W → Prop) (a : A) Q E :
  (∀ w, P w → Q a w) → triple P (mret a) Q E.
Proof. apply triple_ret. Qed.

Lemma triple_throw {A} (P : W → Prop) e (Q : A → W → Prop) E :
  (∀ w, P w → E e w) → triple P (Throw e) Q E.
Proof. intros HP w Hw. by apply HP. Qed.

Lemma triple_conseq {A} (P P' : W → Prop) (p : Prog A) Q Q' E E' :
  triple P' p Q' E' → (∀ w, P w → P' w) → (∀ a w, Q' a w → Q a w) → (∀ e w, E' e w → E e w) →
  triple P p Q E.
Proof.
  intros Ht HP HQ HE w Hw. specialize (Ht w (HP w Hw)).
  destruct (run w p) as [[e|a] w']; auto.
Qed.

Lemma triple_bind {A B} (P : W → Prop) (p : Prog A) (f : A → Prog B) R Q E :
  triple P p R E → (∀ a, triple (R a) (f a) Q E) → triple P (mbind f p) Q E.
Proof.
  intros Hp Hf w Hw. rewrite run_mbind. specialize (Hp w Hw).
  destruct (run w p) as [[e|a] w']; [done|]. by apply Hf.
Qed.

Lemma triple_seq {A B} (P : W → Prop) (p : Prog A) (q : Prog B) R Q E :
  triple P p (λ _, R) E → triple R q Q E → triple P (p;; q) Q E.
Proof. intros Hp Hq. by apply (triple_bind _ _ _ (λ _, R)). Qed.

Lemma triple_catch {A} (P : W → Prop) (p : Prog A) h Q E E' :
  triple P p Q E' → (∀ e, triple (E' e) (h e) Q E) → triple P (catch p h) Q E.
Proof.
  intros Hp Hh w Hw. rewrite run_catch. specialize (Hp w Hw).
  destruct (run w p) as [[e|a] w']; [|done]. by apply Hh.
Qed.

(** A precondition that is a disjunction over a case of the program. *)
Lemma triple_exists {A B} (P : B → W → Prop) (p : Prog A) Q E :
  (∀ b, triple (P b) p Q E) → triple (λ w, ∃ b, P b w) p Q E.
Proof. intros Ht w [b Hb]. by apply (Ht b). Qed.

Lemma triple_pure {A} (φ : Prop) (P : W → Prop) (p : Prog A) Q E :
  (φ → triple P p Q E) → triple (λ w, φ ∧ P w) p Q E.
Proof. intros Ht w [Hφ Hw]. by apply Ht. Qed.

(** ** The operations *)

Lemma triple_now {A} P (k : Z → Prog A) Q E :
  (∀ t, triple (λ w, P w ∧ clock w = t) (k t) Q E) → triple P (Now k) Q E.
Proof. intros Hk w Hw. by apply (Hk (clock w)). Qed.

Lemma triple_tickFlag {A} P (k : bool → Prog A) Q E :
  (∀ b, triple (λ w, P w ∧ tickRunning w = b) (k b) Q E) → triple P (TickFlag k) Q E.
Proof. intros Hk w Hw. by apply (Hk (tickRunning w)). Qed.

Lemma triple_setTickFlag {A} P b (k : Prog A) Q E :
  triple (λ w', ∃ w, P w ∧ w' = with_flag w b) k Q E → triple P (SetTickFlag b k) Q E.
Proof. intros Hk w Hw. apply Hk. by exists w. Qed.

Lemma triple_get {A} P i (k : option InternalMatch.t → Prog A) Q E :
  (∀ r, triple (λ w, P w ∧ get (store w) i = r) (k r) Q E) → triple P (Get i k) Q E.
Proof. intros Hk w Hw. by apply (Hk (get (store w) i)). Qed.

Lemma triple_getWaiting {A} P l (k : option string → Prog A) Q E :
  (∀ r, triple (λ w, P w ∧ getWaiting (store w) l = r) (k r) Q E) → triple P (GetWaiting l k) Q E.
Proof. intros Hk w Hw. by apply (Hk (getWaiting (store w) l)). Qed.

Lemma triple_listByUser {A} P u (k : list InternalMatch.t → Prog A) Q E :
  (∀ r, triple (λ w, P w ∧ listByUser (store w) u = r) (k r) Q E) → triple P (ListByUser u k) Q E.
Proof. intros Hk w Hw. by apply (Hk (listByUser (store w) u)). Qed.

Lemma triple_listAll {A} P (k : list InternalMatch.t → Prog A) Q E :
  (∀ r, triple (λ w, P w ∧ listAll (store w) = r) (k r) Q E) → triple P (ListAll k) Q E.
Proof. intros Hk w Hw. by apply (Hk (listAll (store w))). Qed.

Lemma triple_save {A} P m (k : Prog A) Q E :
  triple (λ w', ∃ w, P w ∧ w' = with_store w (save (store w) m)) k Q E → triple P (Save m k) Q E.
Proof. intros Hk w Hw. apply Hk. by exists w. Qed.

Lemma triple_remove {A} P i (k : Prog A) Q E :
  triple (λ w', ∃ w, P w ∧ w' = with_store w (remove (store w) i)) k Q E → triple P (Remove i k) Q E.
Proof. intros Hk w Hw. apply Hk. by exists w. Qed.

Lemma triple_setWaiting {A} P l i (k : Prog A) Q E :
  triple (λ w', ∃ w, P w ∧ w' = with_store w (setWaiting (store w) l i)) k Q E →
  triple P (SetWaiting l i k) Q E.
Proof. intros Hk w Hw. apply Hk. by exists w. Qed.

Lemma triple_clearWaiting {A} P l (k : Prog A) Q E :
  triple (λ w', ∃ w, P w ∧ w' = with_store w (clearWaiting (store w) l)) k Q E →
  triple P (ClearWaiting l k) Q E.
Proof. intros Hk w Hw. apply Hk. by exists w. Qed.

Lemma triple_debit {A} P u a l i (k : bool → Prog A) Q E :
  (∀ ok, triple (λ w', ∃ w, P w ∧ Ledger.tryDebitUser (db w) u a (Some l) (Some i) = (ok, db w') ∧
                         w' = with_db w (db w')) (k ok) Q E) →
  triple P (Debit u a l i k) Q E.
Proof.
  intros Hk w Hw. simpl. destruct (Ledger.tryDebitUser _ _ _ _ _) as [ok d] eqn:Ed.
  apply Hk. exists w. by rewrite Ed.
Qed.

Lemma triple_credit {A} P u a l i pl (k : option Ledger.DbError → Prog A) Q E :
  (∀ r, triple (λ w', ∃ w, P w ∧ Ledger.creditPrize (db w) u a (Some l) (Some i) pl = (r, db w') ∧
                        w' = with_db w (db w')) (k r) Q E) →
  triple P (Credit u a l i pl k) Q E.
Proof.
  intros Hk w Hw. simpl. destruct (Ledger.creditPrize _ _ _ _ _ _) as [r d] eqn:Ed.
  apply Hk. exists w. by rewrite Ed.
Qed.

Lemma triple_saveHistory {A} P cm (k : option Ledger.DbError → Prog A) Q E :
  (∀ r, triple (λ w', ∃ w, P w ∧ Ledger.saveHistory (db w) cm = (r, db w') ∧
                        w' = with_db w (db w')) (k r) Q E) →
  triple P (SaveHistory cm k) Q E.
Proof.
  intros Hk w Hw. simpl. destruct (Ledger.saveHistory _ _) as [r d] eqn:Ed.
  apply Hk. exists w. by rewrite Ed.
Qed.

Lemma triple_initDict {A} P (k : Dictionary.DictState → Prog A) Q E :
  (∀ d, triple (λ w', ∃ w, P w ∧ d = Dictionary.initDictionary (dict w) (wordsFile w) ∧
                        w' = with_dict w d) (k d) Q E) →
  triple P (InitDict k) Q E.
Proof. intros Hk w Hw. simpl. apply Hk. by exists w. Qed.

Lemma triple_upsert {A} P u (k : option Ledger.DbError → Prog A) Q E :
  (∀ r, triple (λ w', ∃ w, P w ∧ Ledger.upsertUser (db w) u = (r, db w') ∧
                        w' = with_db w (db w')) (k r) Q E) →
  triple P (Upsert u k) Q E.
Proof.
  intros Hk w Hw. simpl. destruct (Ledger.upsertUser _ _) as [r d] eqn:Ed.
  apply Hk. exists w. by rewrite Ed.
Qed.

Lemma triple_query {A} P (k : Ledger.Db → Prog A) Q E :
  (∀ d, triple (λ w, P w ∧ db w = d) (k d) Q E) →
  triple P (Query k) Q E.
Proof. intros Hk w Hw. simpl. by apply Hk. Qed.

(** ** Frame and postcondition of sub-programs

    [keeps_store p]: [p] never writes the match store; [post p Q]: every
    value [p] returns satisfies [Q]. *)

Definition keeps_store {A} (p : Prog A) : Prop := ∀ w, store (run w p).2 = store w.

Definition post {A} (p : Prog A) (Q : A → Prop) : Prop :=
  ∀ w a w', run w p = (inr a, w') → Q a.

Lemma keeps_store_ret {A} (a : A) : keeps_store (Ret a).
Proof. done. Qed.

Lemma keeps_store_mret {A} (a : A) : keeps_store (mret a).
Proof. done. Qed.

Lemma keeps_store_throw {A} e : keeps_store (A:=A) (Throw e).
Proof. done. Qed.

Lemma keeps_store_bind {A B} (p : Prog A) (f : A → Prog B) :
  keeps_store p → (∀ a, keeps_store (f a)) → keeps_store (mbind f p).
Proof.
  intros Hp Hf w. rewrite run_mbind. specialize (Hp w).
  destruct (run w p) as [[e|a] w'] eqn:E; simpl in *; [done|]. by rewrite Hf.
Qed.

Lemma keeps_store_catch {A} (p : Prog A) h :
  keeps_store p → (∀ e, keeps_store (h e)) → keeps_store (catch p h).
Proof.
  intros Hp Hh w. rewrite run_catch. specialize (Hp w).
  destruct (run w p) as [[e|a] w'] eqn:E; simpl in *; [|done]. by rewrite Hh.
Qed.

Lemma keeps_store_now : keeps_store now_.
Proof. done. Qed.

Lemma keeps_store_initDictionary : keeps_store initDictionary_.
Proof. done. Qed.

Lemma keeps_store_get i : keeps_store (get_ i).
Proof. done. Qed.

Lemma keeps_store_liftOpt {A} (r : option A) : keeps_store (liftOpt r).
Proof. by destruct r. Qed.

Lemma keeps_store_creditPrize u a l i pl : keeps_store (creditPrize_ u a l i pl).
Proof. intros w. simpl. destruct (Ledger.creditPrize _ _ _ _ _ _) as [[]]; done. Qed.

Lemma keeps_store_saveHistory cm : keeps_store (saveHistory_ cm).
Proof. intros w. simpl. by destruct (Ledger.saveHistory _ _). Qed.

Lemma keeps_store_if {A} (b : bool) (p q : Prog A) :
  keeps_store p → keeps_store q → keeps_store (if b then p else q).
Proof. by destruct b. Qed.

Lemma post_ret {A} (a : A) (Q : A → Prop) : Q a → post (mret a) Q.
Proof. intros HQ w a' w' [= <- _]. done. Qed.

Lemma post_bind {A B} (p : Prog A) (f : A → Prog B) (R : A → Prop) (Q : B → Prop) :
  post p R → (∀ a, R a → post (f a) Q) → post (mbind f p) Q.
Proof.
  intros Hp Hf w b w'. rewrite run_mbind.
  destruct (run w p) as [[e|a] w1] eqn:E; [done|]. apply (Hf a (Hp _ _ _ E)).
Qed.

Lemma post_catch {A} (p : Prog A) h (Q : A → Prop) :
  post p Q → (∀ e, post (h e) Q) → post (catch p h) Q.
Proof.
  intros Hp Hh w a w'. rewrite run_catch.
  destruct (run w p) as [[e|a'] w1] eqn:E; [apply Hh|]. intros [= -> _]. by apply (Hp w a w1).
Qed.

Lemma post_now (Q : Z → Prop) : (∀ t, Q t) → post now_ Q.
Proof. intros HQ w a w' [= <- _]. apply HQ. Qed.

Lemma post_weaken {A} (p : Prog A) (Q Q' : A → Prop) : post p Q → (∀ a, Q a → Q' a) → post p Q'.
Proof. intros Hp HQ w a w' E. by apply HQ, (Hp w a w'). Qed.

Lemma post_true {A} (p : Prog A) : post p (λ _, True).
Proof. done. Qed.

Lemma post_if {A} (b : bool) (p q : Prog A) Q : post p Q → post q Q → post (if b then p else q) Q.
Proof. by destruct b. Qed.

(** ** Programs that do not throw *)

Definition nothrow {A} (p : Prog A) : Prop := ∀ w, ∃ a, (run w p).1 = inr a.

Lemma nothrow_mret {A} (a : A) : nothrow (mret a).
Proof. intros w. by exists a. Qed.

Lemma nothrow_bind {A B} (p : Prog A) (f : A → Prog B) :
  nothrow p → (∀ a, nothrow (f a)) → nothrow (mbind f p).
Proof.
  intros Hp Hf w. rewrite run_mbind. destruct (Hp w) as [a Ha].
  destruct (run w p) as [r w1]. simpl in Ha. subst r. apply Hf.
Qed.

Lemma nothrow_catch {A} (p : Prog A) h : (∀ e, nothrow (h e)) → nothrow (catch p h).
Proof.
  intros Hh w. rewrite run_catch. destruct (run w p) as [[e|a] w1]; [apply Hh|by exists a].
Qed.

Lemma nothrow_if {A} (b : bool) (p q : Prog A) : nothrow p → nothrow q → nothrow (if b then p else q).
Proof. by destruct b. Qed.

Lemma nothrow_now : nothrow now_.
Proof. intros w. by eexists. Qed.

Lemma nothrow_initDictionary : nothrow initDictionary_.
Proof. intros w. by eexists. Qed.

Lemma nothrow_saveHistory cm : nothrow (saveHistory_ cm).
Proof. intros w. simpl. destruct (Ledger.saveHistory _ _). by eexists. Qed.

Lemma nothrow_save m : nothrow (save_ m).
Proof. intros w. by eexists. Qed.

Lemma nothrow_remove i : nothrow (remove_ i).
Proof. intros w. by eexists. Qed.

Lemma nothrow_liftOpt {A} (a : A) : nothrow (liftOpt (Some a)).
Proof. intros w. by eexists. Qed.

End Hoare.

#[export] Hint Resolve keeps_store_ret keeps_store_mret keeps_store_throw keeps_store_now
  keeps_store_initDictionary keeps_store_get keeps_store_liftOpt keeps_store_creditPrize keeps_store_saveHistory
  nothrow_mret nothrow_now nothrow_initDictionary nothrow_saveHistory nothrow_save nothrow_remove
  nothrow_liftOpt : gem.
