(* ===== verification/Lifecycle.v ===== *)
(** * Behaviour of the request handlers

    Theorems on [Engine]'s handlers run alone ([run]) against any
    repository satisfying [RepoLaws]: what each branch answers and what
    it leaves in the store and the ledger. *)

From S2P Require Import Prelude Model Payout JsString WordValidation Dictionary Scoring BoardGen Ledger Store Program Engine Sweep Scenarios.

Module Lifecycle.
Import Engine.

Section Lifecycle.
Context {St : Type} `{RepoLaws St}.
Variable LOBBIES : list LobbyConfig.t.

Implicit Types (w : World St) (m : InternalMatch.t) (p : MatchPlayer.t).

Definition dict_after w : Dictionary.DictState := Dictionary.initDictionary (dict w) (wordsFile w).

(** A submission after the player's deadline is refused with 403 and
    changes neither the store nor the ledger (spec 8, deadline scenario). *)
Theorem submit_after_deadline w mid u words m p :
  u ≠ "" → get (store w) mid = Some m → findPlayer u m.(InternalMatch.players) = Some p →
  WordValidation.rectangular m.(InternalMatch.board) →
  (deadline_ms m.(InternalMatch.gameDuration) p < clock w)%Z →
  run w (submit LOBBIES mid u words) = (inr (resp 403 (ErrorMsg "deadline passed")), with_dict w (dict_after w)).
Proof.
  intros Hu Hg Hp Hr Hd. unfold submit. rewrite bool_decide_false by done.
  simpl. rewrite Hg. simpl. rewrite Hp. simpl.
  destruct (Scoring.uniqueWords_filter (dict_after w) m.(InternalMatch.board) words Hr) as (ws & Hws & _).
  unfold dict_after in Hws. rewrite Hws. simpl.
  rewrite bool_decide_true by done. reflexivity.
Qed.

(** ** Leaving *)

(** The match the join and leave handlers take as the user's active one:
    [userMatches.find((m) => isActiveFor(m, userId))]. *)
Definition activeMatch (s : St) (u : string) : option InternalMatch.t :=
  js_find (isActiveFor u) (listByUser s u).

(** The leave handler on a sole player. *)
Lemma leave_sole_player_run w u m :
  u ≠ "" → activeMatch (store w) u = Some m →
  filter (λ p, p.(MatchPlayer.id) ≠ u) m.(InternalMatch.players) = [] →
  run w (leave u) = (inr (resp 200 LeftOk),
                     with_store w (clearWaiting (store w) m.(InternalMatch.lobbyType))) ∧
  (∀ i, get (clearWaiting (store w) m.(InternalMatch.lobbyType)) i = get (store w) i) ∧
  activeMatch (clearWaiting (store w) m.(InternalMatch.lobbyType)) u = Some m.
Proof.
  intros Hu Hf Hnil. unfold activeMatch in *. split_and!.
  - unfold leave. rewrite bool_decide_false by done. simpl. rewrite Hf. simpl.
    rewrite Hnil. simpl. reflexivity.
  - intros i. apply get_clearWaiting.
  - by rewrite listByUser_clearWaiting.
Qed.

(** C35: When the leaving user is the only player, the handler answers
    success but only clears the lobby's waiting pointer: the stored match
    is not touched, so the user is still an unsubmitted player of it and
    the next lookup of the user's active match finds it again. *)
Theorem leave_sole_player w u m :
  u ≠ "" → activeMatch (store w) u = Some m →
  filter (λ p, p.(MatchPlayer.id) ≠ u) m.(InternalMatch.players) = [] →
  run w (leave u) = (inr (resp 200 LeftOk),
                     with_store w (clearWaiting (store w) m.(InternalMatch.lobbyType))) ∧
  (∀ i, get (clearWaiting (store w) m.(InternalMatch.lobbyType)) i = get (store w) i) ∧
  activeMatch (clearWaiting (store w) m.(InternalMatch.lobbyType)) u = Some m.
Proof. exact (leave_sole_player_run w u m). Qed.

(** After leaving as the only player, a join to another lobby is refused
    as a conflict with the abandoned match, and a join to the same lobby
    hands that match back. *)
Corollary leave_then_join w u m l name :
  u ≠ "" → l ≠ "" → name ≠ Some "" →
  activeMatch (store w) u = Some m →
  filter (λ p, p.(MatchPlayer.id) ≠ u) m.(InternalMatch.players) = [] →
  let w' := (run w (leave u)).2 in
  (run w' (join LOBBIES l u name)).2 = w' ∧
  (run w' (join LOBBIES l u name)).1 =
    inr (if bool_decide (m.(InternalMatch.lobbyType) = l)
         then resp 200 (ClientView (toClientMatch m u (clock w)))
         else resp 409 (Conflict "User is already in an active match and hasn't submitted words yet"
                                 (toClientMatch m u (clock w)))).
Proof.
  intros Hu Hl Hn Hf Hnil w'.
  destruct (leave_sole_player_run w u m Hu Hf Hnil) as (Hrun & _ & Hf').
  unfold activeMatch in Hf'. subst w'. rewrite Hrun. simpl. unfold join.
  rewrite bool_decide_false by naive_solver. simpl. rewrite Hf'. simpl.
  by case_bool_decide.
Qed.

(** ** Submitting *)

Lemma with_db_same w : with_db w (db w) = w.
Proof. by destruct w. Qed.

Lemma with_dict_same w : with_dict w (dict w) = w.
Proof. by destruct w. Qed.

(** With the database down, the crediting loop changes nothing. *)
Lemma run_creditAll_down w l mid ws :
  Ledger.db_up (db w) = false → (run w (creditAll l mid ws)).2 = w.
Proof.
  intros Hdown. induction ws as [|q ws IH]; [done|]. cbn [creditAll].
  rewrite run_mbind. case_bool_decide as Hpos; simpl.
  - unfold Ledger.creditPrize. rewrite bool_decide_false by lia. rewrite Hdown. simpl.
    by rewrite with_db_same.
  - exact IH.
Qed.

Lemma settle_down w m :
  Ledger.db_up (db w) = false →
  ∃ m', run w (settle LOBBIES m) = (inr m', w) ∧
        m'.(InternalMatch.status) = m.(InternalMatch.status) ∧
        m'.(InternalMatch.id) = m.(InternalMatch.id).
Proof.
  intros Hdown. unfold settle. destruct (InternalMatch.payoutAt m); [by exists m|].
  rewrite run_catch, run_mbind.
  pose proof (run_creditAll_down w (InternalMatch.lobbyType m) (InternalMatch.id m) (ranked LOBBIES m) Hdown) as Hc.
  destruct (run w (creditAll _ _ _)) as [[e|[]] w'] eqn:E; simpl in Hc; subst w'.
  - by exists m.
  - by eexists.
Qed.

(** C32: When the last seat submits while the ledger is unreachable, the
    match is completed and removed from the store, yet no prize is
    credited and no history row is written: the settlement timestamp is
    never the retry point the spec describes, because no later pass can
    find the match again. *)
Theorem submit_completes_without_payout w mid u words m p :
  repo_wf (store w) → u ≠ "" → get (store w) mid = Some m →
  findPlayer u m.(InternalMatch.players) = Some p →
  WordValidation.rectangular m.(InternalMatch.board) →
  (clock w ≤ deadline_ms m.(InternalMatch.gameDuration) p)%Z →
  Ledger.db_up (db w) = false →
  ∃ ws, Scoring.uniqueWords (dict_after w) m.(InternalMatch.board) words = Some ws ∧
  let bonus := Scoring.timeBonus
                 (Scoring.remainingSeconds (deadline_ms m.(InternalMatch.gameDuration) p) (clock w))
                 (Scoring.bonusRate (cfgOf LOBBIES m.(InternalMatch.lobbyType)))
                 (Scoring.bonusCap (cfgOf LOBBIES m.(InternalMatch.lobbyType))) in
  let m1 := InternalMatch.with_players m
              (update_first u (λ q, MatchPlayer.with_submission q ws (Scoring.baseScore ws) bonus (clock w))
                 m.(InternalMatch.players)) in
  allSubmitted LOBBIES m1 = true →
  (run w (submit LOBBIES mid u words)).1 =
    inr (resp 200 (Submitted (Scoring.baseScore ws + bonus) true)) ∧
  db (run w (submit LOBBIES mid u words)).2 = db w ∧
  get (store (run w (submit LOBBIES mid u words)).2) mid = None.
Proof.
  intros Hwf Hu Hg Hp Hr Hd Hdown.
  destruct (Scoring.uniqueWords_filter (dict_after w) m.(InternalMatch.board) words Hr) as (ws & Hws & _).
  exists ws. split; [done|]. intros bonus m1 Hall.
  unfold submit. rewrite bool_decide_false by done.
  simpl. rewrite Hg. simpl. rewrite Hp. simpl.
  unfold dict_after in Hws. rewrite Hws. simpl.
  rewrite bool_decide_false by lia. simpl. fold bonus. fold m1. rewrite Hall. simpl.
  unfold Ledger.saveHistory. rewrite Hdown. simpl.
  set (w1 := with_db _ _).
  assert (Hdown1 : Ledger.db_up (db w1) = false) by exact Hdown.
  rewrite run_mbind.
  destruct (settle_down w1 (InternalMatch.with_completed m1 (clock w)) Hdown1) as (m3 & -> & Hs & Hid).
  simpl in Hs, Hid. rewrite Hs, bool_decide_true by done. simpl.
  split_and!; [done|done|].
  rewrite Hid. apply (get_id _ _ _ Hwf) in Hg. subst mid. apply get_remove.
Qed.

Lemma findPlayer_update_first u f ps p :
  (∀ q, (f q).(MatchPlayer.id) = q.(MatchPlayer.id)) →
  findPlayer u ps = Some p → findPlayer u (update_first u f ps) = Some (f p).
Proof.
  intros Hf. induction ps as [|q ps IH]; [done|]. unfold findPlayer in *. simpl.
  case_bool_decide as Hq; intros Hfind.
  - injection Hfind as <-. simpl. rewrite bool_decide_true; [done|by rewrite Hf].
  - simpl. rewrite bool_decide_false by done. by apply IH.
Qed.

(** C34: A player who has already submitted can submit again before the
    deadline: the handler does not look at [submittedAt], and the stored
    player gets the new words, score and submission time.  The spec
    requires the score to be frozen once [submittedAt] is set. *)
Theorem submit_resubmits w mid u words m p t0 :
  u ≠ "" → get (store w) mid = Some m → findPlayer u m.(InternalMatch.players) = Some p →
  p.(MatchPlayer.submittedAt) = Some t0 → m.(InternalMatch.status) ≠ completed →
  WordValidation.rectangular m.(InternalMatch.board) →
  (clock w ≤ deadline_ms m.(InternalMatch.gameDuration) p)%Z →
  ∃ ws, Scoring.uniqueWords (dict_after w) m.(InternalMatch.board) words = Some ws ∧
  let bonus := Scoring.timeBonus
                 (Scoring.remainingSeconds (deadline_ms m.(InternalMatch.gameDuration) p) (clock w))
                 (Scoring.bonusRate (cfgOf LOBBIES m.(InternalMatch.lobbyType)))
                 (Scoring.bonusCap (cfgOf LOBBIES m.(InternalMatch.lobbyType))) in
  let m1 := InternalMatch.with_players m
              (update_first u (λ q, MatchPlayer.with_submission q ws (Scoring.baseScore ws) bonus (clock w))
                 m.(InternalMatch.players)) in
  allSubmitted LOBBIES m1 = false →
  run w (submit LOBBIES mid u words) =
    (inr (resp 200 (Submitted (Scoring.baseScore ws + bonus) false)),
     with_store (with_dict w (dict_after w)) (save (store w) m1)) ∧
  findPlayer u m1.(InternalMatch.players) =
    Some (MatchPlayer.with_submission p ws (Scoring.baseScore ws) bonus (clock w)).
Proof.
  intros Hu Hg Hp _ Hst Hr Hd.
  destruct (Scoring.uniqueWords_filter (dict_after w) m.(InternalMatch.board) words Hr) as (ws & Hws & _).
  exists ws. split; [done|]. intros bonus m1 Hall. split.
  - unfold submit. rewrite bool_decide_false by done.
    simpl. rewrite Hg. simpl. rewrite Hp. simpl.
    unfold dict_after in Hws. rewrite Hws. simpl.
    rewrite bool_decide_false by lia. simpl. fold bonus. fold m1. rewrite Hall. simpl.
    rewrite bool_decide_false by done. reflexivity.
  - subst m1. simpl. by apply (findPlayer_update_first u (λ q, MatchPlayer.with_submission q ws (Scoring.baseScore ws) bonus (clock w))).
Qed.

End Lifecycle.
(** ** Witnesses on the concrete worlds of [Scenarios] *)
Import Scenarios.

Lemma submit_after_deadline_witness :
  run late (submit LOBBIES duo_id "bob" ["mos"]) =
    (inr (resp 403 (ErrorMsg "deadline passed")), with_dict late (dict_after late)).
Proof.
  exact (submit_after_deadline LOBBIES late duo_id "bob" ["mos"] (the_match late duo_id)
           (the_player late duo_id "bob") ltac:(by_eval) ltac:(by_eval) ltac:(by_eval)
           ltac:(by_eval) ltac:(by_eval)).
Defined.

Lemma leave_sole_player_witness :
  js_find (isActiveFor "carol") (listByUser (clearWaiting (store carol_waiting) "trio") "carol") =
    Some (the_match carol_waiting carol_id).
Proof.
  exact (proj2 (proj2 (leave_sole_player carol_waiting "carol" (the_match carol_waiting carol_id)
                         ltac:(by_eval) ltac:(by_eval) ltac:(by_eval)))).
Defined.

Lemma leave_then_join_witness :
  let w' := (run carol_waiting (leave "carol")).2 in
  (run w' (join LOBBIES "duo" "carol" None)).2 = w'.
Proof.
  exact (proj1 (leave_then_join LOBBIES carol_waiting "carol" (the_match carol_waiting carol_id) "duo" None
                  ltac:(by_eval) ltac:(by_eval) ltac:(by_eval) ltac:(by_eval) ltac:(by_eval))).
Defined.

Lemma submit_completes_without_payout_witness :
  db (run (down bob_turn) (submit LOBBIES duo_id "bob" ["mos"])).2 = db (down bob_turn) ∧
  get (store (run (down bob_turn) (submit LOBBIES duo_id "bob" ["mos"])).2) duo_id = None.
Proof.
  assert (Hwf : repo_wf (store (down bob_turn))) by by_eval.
  destruct (submit_completes_without_payout LOBBIES (down bob_turn) duo_id "bob" ["mos"]
              (the_match (down bob_turn) duo_id) (the_player (down bob_turn) duo_id "bob")
              Hwf ltac:(by_eval) ltac:(by_eval) ltac:(by_eval) ltac:(by_eval)
              ltac:(by_eval) ltac:(by_eval)) as (ws & Hws & Hrun).
  vm_compute in Hws. injection Hws as <-. cbv zeta in Hrun.
  destruct (Hrun ltac:(by_eval)) as (_ & Hdb & Hget). split; [exact Hdb|exact Hget].
Defined.

Lemma submit_resubmits_witness :
  (run bob_turn (submit LOBBIES duo_id "alice" ["mos"; "sow"])).1 = inr (resp 200 (Submitted 18 false)).
Proof.
  destruct (submit_resubmits LOBBIES bob_turn duo_id "alice" ["mos"; "sow"]
              (the_match bob_turn duo_id) (the_player bob_turn duo_id "alice") (T0 + 1000)
              ltac:(by_eval) ltac:(by_eval) ltac:(by_eval) ltac:(by_eval) ltac:(by_eval)
              ltac:(by_eval) ltac:(by_eval)) as (ws & Hws & Hrun).
  vm_compute in Hws. injection Hws as <-. cbv zeta in Hrun.
  destruct (Hrun ltac:(by_eval)) as (Hr & _). rewrite Hr. vm_compute. reflexivity.
Defined.

End Lifecycle.
