(* ===== verification/Invariants.v ===== *)
(** * The store invariants of the engine (spec section 8)

    [Inv] holds of the live store: it is well formed, no match has more
    players than its lobby's capacity, and no user is an unsubmitted
    player of two stored, non-completed matches.  Every handler and the
    sweep, run alone, preserves it; so it holds in every state reached by
    a sequence of requests, sweep ticks and clock advances
    ([reachable_Inv]).

    Most handlers only weaken the matches they read ([weaker]: same id
    and lobby, no more players, no user newly active), and a store all of
    whose matches are weaker than those of a store satisfying [Inv]
    satisfies it too ([Inv_below]); the join handler adds a player under
    the guard of its [listByUser] lookup ([Inv_save_join]). *)

From S2P Require Import Prelude Model Payout JsString WordValidation Dictionary Scoring BoardGen Ledger Store Program Hoare Engine Sweep Scenarios.

Module Invariants.
Import Engine.

Section Invariants.
Context {St : Type} `{RepoLaws St}.
Variable LOBBIES : list LobbyConfig.t.

Implicit Types (s : St) (m : InternalMatch.t) (p : MatchPlayer.t) (ps : list MatchPlayer.t).

Definition cap_ok m : Prop :=
  (Z.of_nat (length m.(InternalMatch.players)) ≤ capacity LOBBIES m.(InternalMatch.lobbyType))%Z.

Definition Inv s : Prop :=
  repo_wf s ∧
  (∀ i m, get s i = Some m → cap_ok m) ∧
  (∀ u i j mi mj, u ≠ "" → get s i = Some mi → get s j = Some mj →
     isActiveFor u mi = true → isActiveFor u mj = true → i = j) ∧
  (∀ i m, get s i = Some m → WordValidation.rectangular m.(InternalMatch.board)).

(** [m'] can replace [m] without making anyone active; it has the same
    board. *)
Definition weaker (m' m : InternalMatch.t) : Prop :=
  m'.(InternalMatch.id) = m.(InternalMatch.id) ∧
  m'.(InternalMatch.lobbyType) = m.(InternalMatch.lobbyType) ∧
  length m'.(InternalMatch.players) ≤ length m.(InternalMatch.players) ∧
  m'.(InternalMatch.board) = m.(InternalMatch.board) ∧
  ∀ v, isActiveFor v m' = true → isActiveFor v m = true.

(** Every match of [s] is weaker than the match of [s0] under its key. *)
Definition below (s0 s : St) : Prop :=
  repo_wf s ∧ ∀ j mj, get s j = Some mj → ∃ m0, get s0 j = Some m0 ∧ weaker mj m0.

Lemma weaker_refl m : weaker m m.
Proof. unfold weaker. naive_solver. Qed.

Lemma weaker_trans m1 m2 m3 : weaker m1 m2 → weaker m2 m3 → weaker m1 m3.
Proof.
  unfold weaker. intros (Ha1 & Hb1 & Hc1 & He1 & Hd1) (Ha2 & Hb2 & Hc2 & He2 & Hd2).
  split_and!; [congruence|congruence|lia|congruence|auto].
Qed.

Lemma Inv_below s0 s : Inv s0 → below s0 s → Inv s.
Proof.
  intros (_ & Hcap & Huniq & Hbd) [Hwf Hb]. split_and!; [done| | |].
  - intros i m Hm. destruct (Hb i m Hm) as (m0 & Hm0 & (_ & Hl & Hlen & _)).
    specialize (Hcap i m0 Hm0). unfold cap_ok in *. rewrite Hl. lia.
  - intros u i j mi mj Hu Hi Hj Ai Aj.
    destruct (Hb i mi Hi) as (m0 & Hm0 & (_ & _ & _ & _ & Ha0)).
    destruct (Hb j mj Hj) as (m1 & Hm1 & (_ & _ & _ & _ & Ha1)).
    eapply Huniq; [exact Hu|exact Hm0|exact Hm1|auto|auto].
  - intros i m Hm. destruct (Hb i m Hm) as (m0 & Hm0 & (_ & _ & _ & -> & _)). by apply (Hbd i).
Qed.

Lemma below_refl s : repo_wf s → below s s.
Proof. intros Hwf. split; [done|]. intros j mj Hj. exists mj. split; [done|apply weaker_refl]. Qed.

Lemma below_save s0 s m' m0 :
  below s0 s → get s0 m'.(InternalMatch.id) = Some m0 → weaker m' m0 → below s0 (save s m').
Proof.
  intros [Hwf Hb] Hm0 Hw. split; [by apply wf_save|]. intros j mj Hj.
  destruct (decide (j = m'.(InternalMatch.id))) as [->|Hne].
  - rewrite get_save in Hj. injection Hj as <-. by exists m0.
  - rewrite get_save_ne in Hj by done. by apply Hb.
Qed.

Lemma below_remove s0 s i : below s0 s → below s0 (remove s i).
Proof.
  intros [Hwf Hb]. split; [by apply wf_remove|]. intros j mj Hj.
  destruct (decide (j = i)) as [->|Hne]; [by rewrite get_remove in Hj|].
  rewrite get_remove_ne in Hj by done. by apply Hb.
Qed.

Lemma below_clearWaiting s0 s l : below s0 s → below s0 (clearWaiting s l).
Proof.
  intros [Hwf Hb]. split; [by apply wf_clearWaiting|]. intros j mj Hj.
  rewrite get_clearWaiting in Hj. by apply Hb.
Qed.

(** A match read from a store below [s0] is weaker than the one of [s0]. *)
Lemma below_get s0 s i m :
  below s0 s → get s i = Some m → ∃ m0, get s0 m.(InternalMatch.id) = Some m0 ∧ weaker m m0.
Proof.
  intros [Hwf Hb] Hg. pose proof (get_id _ _ _ Hwf Hg) as Hid.
  destruct (Hb i m Hg) as (m0 & ? & ?). exists m0. by rewrite Hid.
Qed.

(** Saving a match whose active users are active nowhere else, and which
    fits its lobby, keeps the invariant. *)
Lemma Inv_save_new s m' :
  Inv s → cap_ok m' → WordValidation.rectangular m'.(InternalMatch.board) →
  (∀ v j mj, v ≠ "" → isActiveFor v m' = true → get s j = Some mj → j ≠ m'.(InternalMatch.id) →
     isActiveFor v mj = false) →
  Inv (save s m').
Proof.
  intros (Hwf & Hcap & Huniq & Hbd) Hc Hr Hnew. split_and!; [by apply wf_save| | |].
  - intros i m Hm. destruct (decide (i = m'.(InternalMatch.id))) as [->|Hne].
    + rewrite get_save in Hm. by injection Hm as <-.
    + rewrite get_save_ne in Hm by done. by apply (Hcap i).
  - intros u i j mi mj Hu Hi Hj Ai Aj.
    destruct (decide (i = m'.(InternalMatch.id))) as [->|Hi'];
      destruct (decide (j = m'.(InternalMatch.id))) as [->|Hj']; [done| | |].
    + rewrite get_save in Hi. injection Hi as <-. rewrite get_save_ne in Hj by done.
      by rewrite (Hnew u j mj Hu Ai Hj Hj') in Aj.
    + rewrite get_save in Hj. injection Hj as <-. rewrite get_save_ne in Hi by done.
      by rewrite (Hnew u i mi Hu Aj Hi Hi') in Ai.
    + rewrite get_save_ne in Hi, Hj by done. by apply (Huniq u i j mi mj).
  - intros i m Hm. destruct (decide (i = m'.(InternalMatch.id))) as [->|Hne].
    + rewrite get_save in Hm. by injection Hm as <-.
    + rewrite get_save_ne in Hm by done. by apply (Hbd i).
Qed.

(** ** Players *)

(** [p'] is [p] with possibly a submission added. *)
Definition pweaker p' p : Prop :=
  p'.(MatchPlayer.id) = p.(MatchPlayer.id) ∧
  (p'.(MatchPlayer.submittedAt) = None → p.(MatchPlayer.submittedAt) = None).

Lemma findPlayer_Forall2 v ps' ps :
  Forall2 pweaker ps' ps →
  match findPlayer v ps', findPlayer v ps with
  | Some p', Some p => pweaker p' p
  | None, None => True
  | _, _ => False
  end.
Proof.
  induction 1 as [|p' p ps' ps [Hid Hs] _ IH]; [done|]. unfold findPlayer in *. simpl.
  rewrite Hid. case_bool_decide; [done|exact IH].
Qed.

Lemma weaker_players m ps' :
  Forall2 pweaker ps' m.(InternalMatch.players) →
  weaker (InternalMatch.with_players m ps') m.
Proof.
  intros HF. split_and!; [done|done|simpl; by rewrite (Forall2_length _ _ _ HF)|done|].
  intros v. unfold isActiveFor, unsubmitted_in. simpl.
  pose proof (findPlayer_Forall2 v _ _ HF) as Hf.
  destruct (findPlayer v ps'), (findPlayer v m.(InternalMatch.players)); try done.
  destruct Hf as [_ Hs]. rewrite !andb_true_iff, !bool_decide_eq_true. naive_solver.
Qed.

Lemma pweaker_refl ps : Forall2 pweaker ps ps.
Proof. induction ps; constructor; [unfold pweaker; naive_solver|done]. Qed.

Lemma Forall2_update_first u f ps :
  (∀ q, pweaker (f q) q) → Forall2 pweaker (update_first u f ps) ps.
Proof.
  intros Hf. induction ps as [|q ps IH]; simpl; [constructor|].
  case_bool_decide; constructor; auto; [apply pweaker_refl|unfold pweaker; naive_solver].
Qed.

Lemma pweaker_submission q ws b bonus t : pweaker (MatchPlayer.with_submission q ws b bonus t) q.
Proof. unfold pweaker. simpl. naive_solver. Qed.

Lemma pweaker_words q ws : pweaker (MatchPlayer.with_words q ws) q.
Proof. unfold pweaker. simpl. naive_solver. Qed.

#[local] Hint Resolve pweaker_submission pweaker_words weaker_refl : core.

(** The completed match is active for no one. *)
Lemma weaker_completed m t : weaker (InternalMatch.with_completed m t) m.
Proof.
  split_and!; [done|done|done|done|]. intros v Hact. unfold isActiveFor in Hact. simpl in Hact.
  discriminate Hact.
Qed.

Lemma weaker_payout m t : weaker (InternalMatch.with_payout m t) m.
Proof. split_and!; [done|done|done|done|]. intros v. by unfold isActiveFor, unsubmitted_in. Qed.

(** The leave handler's filtered match. *)
Lemma weaker_leave m u :
  weaker (InternalMatch.with_players m (filter (λ p, p.(MatchPlayer.id) ≠ u) m.(InternalMatch.players))) m.
Proof.
  split_and!; [done|done|apply length_filter|done|]. intros v. unfold isActiveFor, unsubmitted_in. simpl.
  destruct (decide (v = u)) as [->|Hne].
  - replace (findPlayer u _) with (@None MatchPlayer.t); [by rewrite andb_false_r|].
    symmetry. unfold findPlayer. apply js_find_None_2. intros q Hq.
    apply list_elem_of_filter in Hq as [Hq _]. by apply bool_decide_eq_false.
  - enough (findPlayer v (filter (λ p, p.(MatchPlayer.id) ≠ u) m.(InternalMatch.players)) =
            findPlayer v m.(InternalMatch.players)) as -> by done.
    unfold findPlayer. induction m.(InternalMatch.players) as [|q ps IH]; [done|].
    rewrite filter_cons. case_decide; simpl; case_bool_decide; subst; try done; congruence.
Qed.
(** ** Sub-programs that do not write the store *)

Lemma keeps_creditAll l mid ws : keeps_store (creditAll l mid ws).
Proof.
  induction ws as [|q ws IH]; simpl; [done|].
  apply keeps_store_bind; [apply keeps_store_if; auto with gem|done].
Qed.

Lemma keeps_settle m : keeps_store (settle LOBBIES m).
Proof.
  unfold settle. destruct (InternalMatch.payoutAt m); [done|].
  apply keeps_store_catch; [|done].
  apply keeps_store_bind; [apply keeps_creditAll|]. intros _.
  apply keeps_store_bind; auto with gem.
Qed.

Lemma post_settle m : post (settle LOBBIES m) (λ m', weaker m' m ∧
  m'.(InternalMatch.status) = m.(InternalMatch.status)).
Proof.
  unfold settle. destruct (InternalMatch.payoutAt m); [apply post_ret; split; [apply weaker_refl|done]|].
  apply post_catch; [|intros; apply post_ret; split; [apply weaker_refl|done]].
  apply (post_bind _ _ (λ _, True)); [apply post_true|]. intros _ _.
  apply (post_bind _ _ (λ _, True)); [apply post_true|]. intros t _.
  apply post_ret. split; [apply weaker_payout|done].
Qed.

Lemma keeps_autoSubmit board q : keeps_store (Sweep.autoSubmitWordsForPlayer board q).
Proof.
  unfold Sweep.autoSubmitWordsForPlayer. case_bool_decide; [done|].
  repeat (apply keeps_store_bind; auto with gem; intros).
Qed.

Lemma post_autoSubmit board q : post (Sweep.autoSubmitWordsForPlayer board q) (λ q', pweaker q' q).
Proof.
  unfold Sweep.autoSubmitWordsForPlayer. case_bool_decide.
  { apply post_ret. unfold pweaker. naive_solver. }
  apply (post_bind _ _ (λ _, True)); [apply post_true|]. intros d _.
  apply (post_bind _ _ (λ _, True)); [apply post_true|]. intros ws _.
  apply (post_bind _ _ (λ _, True)); [apply post_true|]. intros t _.
  apply post_ret. apply pweaker_submission.
Qed.

Lemma keeps_timeoutPlayers board g now ps : keeps_store (Sweep.timeoutPlayers board g now ps).
Proof.
  induction ps as [|q ps IH]; simpl; [done|].
  apply keeps_store_bind; [apply keeps_store_if; [|done]|intros; by apply keeps_store_bind].
  apply keeps_store_bind; [apply keeps_autoSubmit|done].
Qed.

Lemma post_timeoutPlayers board g now ps :
  post (Sweep.timeoutPlayers board g now ps) (λ r, Forall2 pweaker r.1 ps).
Proof.
  induction ps as [|q ps IH]; simpl; [by apply post_ret|].
  apply (post_bind _ _ (λ pb, pweaker pb.1 q)).
  { apply post_if; [|apply post_ret; unfold pweaker; naive_solver].
    apply (post_bind _ _ (λ q', pweaker q' q)); [apply post_autoSubmit|]. intros q' Hq'.
    by apply post_ret. }
  intros pb Hpb. apply (post_bind _ _ _ _ IH). intros r Hr. apply post_ret. by constructor.
Qed.

Lemma keeps_processMatchTimeout m : keeps_store (Sweep.processMatchTimeout LOBBIES m).
Proof.
  unfold Sweep.processMatchTimeout.
  apply keeps_store_bind; [done|]. intros t.
  apply keeps_store_bind; [apply keeps_timeoutPlayers|]. intros r.
  apply keeps_store_if; [|done].
  apply keeps_store_bind; [done|]. intros t2.
  apply keeps_store_bind; [apply keeps_store_saveHistory|]. intros _.
  apply keeps_store_bind; [apply keeps_settle|done].
Qed.

Lemma post_processMatchTimeout m : post (Sweep.processMatchTimeout LOBBIES m) (λ r, weaker r.1 m).
Proof.
  unfold Sweep.processMatchTimeout.
  apply (post_bind _ _ (λ _, True)); [apply post_true|]. intros t _.
  apply (post_bind _ _ _ _ (post_timeoutPlayers _ _ _ _)). intros r Hr.
  pose proof (weaker_players m r.1 Hr) as Hw.
  apply post_if; [|by apply post_ret].
  apply (post_bind _ _ (λ _, True)); [apply post_true|]. intros t2 _.
  apply (post_bind _ _ (λ _, True)); [apply post_true|]. intros _ _.
  apply (post_bind _ _ _ _ (post_settle _)). intros m3 [Hw3 _]. apply post_ret.
  eapply weaker_trans; [exact Hw3|]. eapply weaker_trans; [apply weaker_completed|exact Hw].
Qed.

(** ** The sweep keeps the store below its starting point *)

Lemma sweepMatch_below s0 (w : World St) now m m0 :
  below s0 (store w) → get s0 m.(InternalMatch.id) = Some m0 → weaker m m0 →
  below s0 (store (run w (Sweep.sweepMatch LOBBIES now m)).2).
Proof.
  intros Hb Hm0 Hw. unfold Sweep.sweepMatch. case_bool_decide; [done|].
  rewrite run_mbind.
  pose proof (keeps_processMatchTimeout m w) as Hk.
  pose proof (post_processMatchTimeout m w) as Hp.
  destruct (run w (Sweep.processMatchTimeout LOBBIES m)) as [[e|[m' b]] w1] eqn:E;
    cbn in Hk; [cbn; by rewrite Hk|].
  specialize (Hp _ _ eq_refl). cbn in Hp.
  assert (Hb1 : below s0 (store w1)) by by rewrite Hk.
  assert (Hw' : weaker m' m0) by (eapply weaker_trans; eauto).
  assert (Hid : get s0 m'.(InternalMatch.id) = Some m0) by (destruct Hp as [-> _]; exact Hm0).
  simpl. rewrite run_mbind.
  destruct b; [case_bool_decide|]; simpl; try case_match; simpl;
    repeat first [exact Hb1 | apply below_remove | apply (below_save _ _ _ m0); [|exact Hid|exact Hw']].
Qed.

Lemma sweepAll_below s0 (w : World St) now ms :
  below s0 (store w) →
  (∀ m, m ∈ ms → ∃ m0, get s0 m.(InternalMatch.id) = Some m0 ∧ weaker m m0) →
  below s0 (store (run w (Sweep.sweepAll LOBBIES now ms)).2).
Proof.
  revert w. induction ms as [|m ms IH]; intros w Hb Hms; [done|]. simpl.
  rewrite run_mbind.
  destruct (Hms m) as (m0 & Hm0 & Hw); [set_solver|].
  pose proof (sweepMatch_below s0 w now m m0 Hb Hm0 Hw) as Hb1.
  destruct (run w (Sweep.sweepMatch LOBBIES now m)) as [[e|[]] w1]; simpl in *; [done|].
  apply IH; [done|]. intros m' Hm'. apply Hms. set_solver.
Qed.

(** A sweep tick, run alone, only weakens the matches it finds: every
    match it leaves in the store is the one that was there with
    submissions added or the match completed. *)
Theorem tick_below (w : World St) :
  repo_wf (store w) → below (store w) (store (run w (Sweep.tick LOBBIES)).2).
Proof.
  intros Hwf. unfold Sweep.tick. simpl.
  destruct (tickRunning w); simpl; [by apply below_refl|].
  rewrite run_mbind, run_catch. simpl.
  set (w1 := with_flag w true).
  pose proof (sweepAll_below (store w) w1 (clock w) (listAll (store w))) as Hs.
  destruct (run w1 (Sweep.sweepAll LOBBIES (clock w) (listAll (store w)))) as [[e|[]] w2];
    simpl in *; (apply Hs; [by apply below_refl|]);
    intros m Hm; apply listAll_spec in Hm as [i Hi]; exists m;
    (split; [by rewrite (get_id _ _ _ Hwf Hi)|apply weaker_refl]).
Qed.

(** ** The request handlers *)

Lemma weaker_submission m u ws b bonus t :
  weaker (InternalMatch.with_players m
            (update_first u (λ q, MatchPlayer.with_submission q ws b bonus t) m.(InternalMatch.players))) m.
Proof. apply weaker_players, Forall2_update_first. intros q. apply pweaker_submission. Qed.

Lemma weaker_words m u ws :
  weaker (InternalMatch.with_players m
            (update_first u (λ q, MatchPlayer.with_words q ws) m.(InternalMatch.players))) m.
Proof. apply weaker_players, Forall2_update_first. intros q. apply pweaker_words. Qed.

(** The end of the submit handler: remove the completed match or save
    the updated one. *)
Lemma below_finish s0 (w : World St) m m3 (b : bool) i (r : Resp) :
  below s0 (store w) → get s0 m.(InternalMatch.id) = Some m → weaker m3 m →
  below s0 (store (run w ((if b then remove_ i else save_ m3);; mret r)).2).
Proof.
  intros Hb Hm Hw. destruct b; simpl; [by apply below_remove|].
  apply (below_save _ _ _ m); [done| |done]. by destruct Hw as [-> _].
Qed.

(** The submit handler, run alone, only weakens the match it updates:
    it adds the player's submission, or completes and removes the
    match. *)
Theorem submit_below (w : World St) mid u words :
  repo_wf (store w) → below (store w) (store (run w (submit LOBBIES mid u words)).2).
Proof.
  intros Hwf. pose proof (below_refl _ Hwf) as Hr. unfold submit.
  case_bool_decide; [done|]. simpl.
  destruct (get (store w) mid) as [m|] eqn:Hg; simpl; [|done].
  pose proof (get_id _ _ _ Hwf Hg) as Hid. subst mid.
  destruct (findPlayer u _) as [p|]; simpl; [|done].
  destruct (Scoring.uniqueWords _ _ words) as [ws|]; simpl; [|done].
  case_bool_decide; simpl; [done|].
  match goal with |- context [allSubmitted LOBBIES ?x] => set (m1 := x) end.
  assert (Hw1 : weaker m1 m) by apply weaker_submission.
  destruct (allSubmitted LOBBIES m1); simpl; [|by apply (below_finish _ _ m)].
  destruct (Ledger.saveHistory _ _) as [r d]. simpl. rewrite run_Prog_bind.
  set (w1 := with_db _ _).
  pose proof (keeps_settle (InternalMatch.with_completed m1 (clock w)) w1) as Hk.
  pose proof (post_settle (InternalMatch.with_completed m1 (clock w)) w1) as Hp.
  destruct (run w1 (settle LOBBIES _)) as [[e|m3] w2]; cbn in Hk |- *.
  - rewrite Hk. apply Hr.
  - destruct (Hp _ _ eq_refl) as [Hw3 _]. apply (below_finish _ _ m); [by rewrite Hk|done|].
    eapply weaker_trans; [exact Hw3|]. eapply weaker_trans; [apply weaker_completed|exact Hw1].
Qed.

(** Saving draft words only weakens the match it updates. *)
Lemma saveWords_below (w : World St) mid u words :
  repo_wf (store w) → below (store w) (store (run w (saveWords mid u words)).2).
Proof.
  intros Hwf. pose proof (below_refl _ Hwf) as Hr. unfold saveWords.
  case_bool_decide; [done|]. simpl.
  destruct (get (store w) mid) as [m|] eqn:Hg; simpl; [|done].
  pose proof (get_id _ _ _ Hwf Hg) as Hid. subst mid.
  destruct (findPlayer u _) as [p|]; simpl; [|done].
  apply (below_save _ _ _ m); [done|done|apply weaker_words].
Qed.

Lemma leave_below (w : World St) u :
  repo_wf (store w) → below (store w) (store (run w (leave u)).2).
Proof.
  intros Hwf. pose proof (below_refl _ Hwf) as Hr. unfold leave.
  case_bool_decide; [done|]. simpl.
  destruct (js_find (isActiveFor u) (listByUser (store w) u)) as [m|] eqn:Hf; simpl; [|done].
  apply js_find_Some in Hf as [Hin _]. apply listByUser_sound in Hin as [i Hi].
  pose proof (get_id _ _ _ Hwf Hi) as Hid. subst i.
  case_bool_decide; simpl; [by apply below_clearWaiting|].
  apply (below_save _ _ _ m); [done|done|apply weaker_leave].
Qed.

Lemma validate_keeps who mid word : keeps_store who → keeps_store (validate who mid word).
Proof.
  intros Hwho. unfold validate. case_bool_decide; [done|].
  apply keeps_store_catch; [|done].
  apply keeps_store_bind; [done|]. intros u.
  apply keeps_store_bind; [done|]. intros [m|]; [|done].
  destruct (findPlayer u _); [|done].
  apply keeps_store_bind; [done|]. intros d.
  apply keeps_store_bind; [apply keeps_store_liftOpt|done].
Qed.

(** ** Joining *)

Hypothesis lobbies_valid : ∀ c, c ∈ LOBBIES → lobby_ok c.

Lemma active_plays u m : isActiveFor u m = true → plays_in u m.
Proof.
  unfold isActiveFor, unsubmitted_in. destruct (findPlayer u _) as [p|] eqn:Hf;
    [|by rewrite andb_false_r].
  intros _. unfold findPlayer in Hf. apply js_find_Some in Hf as [Hin Hid].
  apply bool_decide_eq_true in Hid. by exists p.
Qed.

(** What the join handler learns from an empty [listByUser] lookup. *)
Lemma no_active_anywhere s u :
  repo_wf s → u ≠ "" → js_find (isActiveFor u) (listByUser s u) = None →
  ∀ j mj, get s j = Some mj → isActiveFor u mj = false.
Proof.
  intros Hwf Hu Hn j mj Hj. destruct (isActiveFor u mj) eqn:Ha; [|done].
  pose proof (listByUser_complete s u j mj Hwf Hu Hj (active_plays u mj Ha)) as Hin.
  by rewrite (js_find_None _ _ Hn mj Hin) in Ha.
Qed.

Lemma findPlayer_snoc v ps q :
  q.(MatchPlayer.id) ≠ v → findPlayer v (ps ++ [q]) = findPlayer v ps.
Proof.
  intros Hq. unfold findPlayer. induction ps as [|p ps IH]; simpl.
  - by rewrite bool_decide_false.
  - case_bool_decide; [done|exact IH].
Qed.

Lemma active_snoc v m q :
  q.(MatchPlayer.id) ≠ v →
  isActiveFor v (InternalMatch.with_players m (m.(InternalMatch.players) ++ [q])) = isActiveFor v m.
Proof. intros Hq. unfold isActiveFor, unsubmitted_in. simpl. by rewrite findPlayer_snoc. Qed.

Lemma active_single v m q :
  isActiveFor v (InternalMatch.with_players m [q]) = true → q.(MatchPlayer.id) = v.
Proof.
  unfold isActiveFor, unsubmitted_in, findPlayer. simpl.
  destruct (decide (MatchPlayer.id q = v)) as [?|Hne]; [done|]. rewrite (bool_decide_false (MatchPlayer.id q = v)) by done. rewrite andb_false_r. intros Hf. discriminate Hf.
Qed.

Lemma capacity_cfg l c : cfgOf LOBBIES l = Some c → (2 ≤ capacity LOBBIES l)%Z.
Proof.
  intros Hc. unfold capacity. rewrite Hc. simpl.
  unfold cfgOf, getLobbyConfig in Hc. apply js_find_Some in Hc as [Hin _].
  destruct (lobbies_valid c Hin) as (_ & _ & _ & Hm). lia.
Qed.

(** The join handler, run alone, keeps the store invariant: a match it
    adds the user to had a free seat, and the user was active nowhere. *)
Theorem join_Inv (w : World St) l u name :
  Inv (store w) → Inv (store (run w (join LOBBIES l u name)).2).
Proof.
  intros HI. pose proof HI as (Hwf & Hcap & Huniq & Hbd). unfold join.
  case_bool_decide as Hg; [done|]. simpl.
  assert (Hu : u ≠ "") by naive_solver.
  destruct (js_find (isActiveFor u) (listByUser (store w) u)) as [am|] eqn:Ha; simpl.
  { by case_bool_decide. }
  pose proof (no_active_anywhere _ _ Hwf Hu Ha) as Hnone.
  destruct (js_find (isAvailable LOBBIES l u) (listAll (store w))) as [am|] eqn:Hav; simpl.
  - apply js_find_Some in Hav as [Hin Havail].
    apply listAll_spec in Hin as [i Hi]. pose proof (get_id _ _ _ Hwf Hi) as Hid. subst i.
    unfold isAvailable in Havail. rewrite !andb_true_iff, !bool_decide_eq_true in Havail.
    destruct Havail as (((Hl & Hst) & Hlen) & Hnot).
    destruct (Ledger.tryDebitUser _ _ _ _ _) as [[] d]; simpl; [|done].
    apply Inv_save_new; [done| |simpl; by eapply Hbd|].
    + unfold cap_ok. simpl. rewrite length_app, Hl. simpl. lia.
    + intros v j mj Hv Hact Hj Hne. simpl in Hne.
      destruct (decide (v = u)) as [->|Hvu]; [by apply (Hnone j)|].
      rewrite active_snoc in Hact by done.
      destruct (isActiveFor v mj) eqn:Hactj; [|done].
      exfalso. apply Hne. symmetry. by apply (Huniq v _ _ _ _ Hv Hi Hj).
  - destruct (cfgOf LOBBIES l) as [c|] eqn:Hc; simpl; [|done].
    destruct (Ledger.tryDebitUser _ _ _ _ _) as [[] d]; simpl; [|done].
    apply Inv_save_new; [done| |simpl; apply (proj1 (proj2 (BoardGen.generateDiceBoard_grid _ _)))|].
    + unfold cap_ok. simpl. pose proof (capacity_cfg l c Hc). lia.
    + intros v j mj Hv Hact Hj Hne.
      apply active_single in Hact. simpl in Hact. subst v. by apply (Hnone j).
Qed.

(** ** Reachable states *)

(** A request served alone, a sweep tick, or the clock moving on. *)
Inductive Req :=
  | RJoin (lobbyType userId : string) (playerName : option string)
  | RLeave (userId : string)
  | RSaveWords (mid userId : string) (words : list string)
  | RValidate (mid userId word : string)   (** [getRequestingUser] answers [userId] *)
  | RSubmit (mid userId : string) (words : list string)
  | RTick
  | RClock (t : Z).

Definition serve (w : World St) (r : Req) : World St :=
  match r with
  | RJoin l u n => (run w (join LOBBIES l u n)).2
  | RLeave u => (run w (leave u)).2
  | RSaveWords mid u ws => (run w (saveWords mid u ws)).2
  | RValidate mid u word => (run w (validate (mret u) mid word)).2
  | RSubmit mid u ws => (run w (submit LOBBIES mid u ws)).2
  | RTick => (run w (Sweep.tick LOBBIES)).2
  | RClock t => with_clock w t
  end.

Inductive reachable : World St → Prop :=
  | reach_init d dct t file : reachable (mkWorld empty_store d dct t file false)
  | reach_serve w r : reachable w → reachable (serve w r).

Lemma Inv_empty : Inv empty_store.
Proof.
  split_and!; [apply wf_empty|intros i m; by rewrite get_empty| |intros i m; by rewrite get_empty].
  intros u i j mi mj _ Hi. by rewrite get_empty in Hi.
Qed.

Lemma Inv_serve w r : Inv (store w) → Inv (store (serve w r)).
Proof.
  intros HI. pose proof HI as [Hwf _].
  destruct r; simpl.
  - by apply join_Inv.
  - apply (Inv_below _ _ HI). by apply leave_below.
  - apply (Inv_below _ _ HI). by apply saveWords_below.
  - by rewrite validate_keeps by done.
  - apply (Inv_below _ _ HI). by apply submit_below.
  - apply (Inv_below _ _ HI). by apply tick_below.
  - done.
Qed.

Theorem reachable_Inv w : reachable w → Inv (store w).
Proof. induction 1; [apply Inv_empty|by apply Inv_serve]. Qed.

(** C1: in every state reached by requests and sweep ticks served one at
    a time, no live match holds more players than its lobby's capacity
    (spec 8, first property). *)
Corollary reachable_capacity w i m :
  reachable w → get (store w) i = Some m →
  (Z.of_nat (length m.(InternalMatch.players)) ≤ capacity LOBBIES m.(InternalMatch.lobbyType))%Z.
Proof. intros Hr Hg. destruct (reachable_Inv w Hr) as (_ & Hcap & _). by apply (Hcap i). Qed.

(** C2: in every state reached by requests and sweep ticks served one at
    a time, a user is an unsubmitted player of at most one live,
    non-completed match (spec 8, second property). *)
Corollary reachable_single_active w u i j mi mj :
  reachable w → u ≠ "" → get (store w) i = Some mi → get (store w) j = Some mj →
  isActiveFor u mi = true → isActiveFor u mj = true → i = j.
Proof. intros Hr. destruct (reachable_Inv w Hr) as (_ & _ & Hu & _). apply Hu. Qed.

(** C4: in every state reached by requests and sweep ticks served one at
    a time, every live match has a rectangular board, so the word checker
    of the validate and words handlers and of the sweep never throws on
    it. *)
Corollary reachable_wordcheck_total w i m word :
  reachable w → get (store w) i = Some m →
  WordValidation.canFormWordOnBoard m.(InternalMatch.board) word ≠ None.
Proof.
  intros Hr Hg. destruct (reachable_Inv w Hr) as (_ & _ & _ & Hbd).
  exact (proj1 (WordValidation.canFormWordOnBoard_legal _ word (Hbd i m Hg))).
Qed.

End Invariants.
(** ** Witnesses on the concrete worlds of [Scenarios] *)
Import Scenarios.

Lemma start_reachable t : reachable LOBBIES (start t).
Proof. exact (reach_init LOBBIES db0 _ t _). Qed.

(** Alice and Bob seated in a duo match by two requests. *)
Definition two_joined : World Redis.t :=
  serve LOBBIES (serve LOBBIES (start T0) (RJoin "duo" "alice" None)) (RJoin "duo" "bob" None).

Lemma two_joined_reachable : reachable LOBBIES two_joined.
Proof. apply reach_serve, reach_serve, start_reachable. Qed.

Lemma reachable_capacity_witness :
  (Z.of_nat (length (the_match two_joined duo_id).(InternalMatch.players)) ≤
     capacity LOBBIES (the_match two_joined duo_id).(InternalMatch.lobbyType))%Z.
Proof.
  exact (reachable_capacity LOBBIES LOBBIES_ok two_joined duo_id _ two_joined_reachable ltac:(by_eval)).
Defined.

Lemma reachable_single_active_witness : duo_id = duo_id.
Proof.
  exact (reachable_single_active LOBBIES LOBBIES_ok two_joined "alice" duo_id duo_id
           (the_match two_joined duo_id) (the_match two_joined duo_id) two_joined_reachable
           ltac:(by_eval) ltac:(by_eval) ltac:(by_eval) ltac:(by_eval) ltac:(by_eval)).
Defined.

Lemma reachable_wordcheck_total_witness :
  WordValidation.canFormWordOnBoard (the_match two_joined duo_id).(InternalMatch.board) "mos" ≠ None.
Proof.
  exact (reachable_wordcheck_total LOBBIES LOBBIES_ok two_joined duo_id _ "mos" two_joined_reachable
           ltac:(by_eval)).
Defined.

End Invariants.
