(* ===== verification/Routes.v ===== *)
(** * The lobby, board and word-check routers

    - lobbies.ts: the lobby list derived from the catalogue at start-up
      ([lobbyView]) and GET /lobbies, which counts the players of the
      waiting matches of each lobby over [listAll] ([getLobbies]);
    - validate.ts: POST /validate/words and GET /validate/word, which
      look words up in the dictionary as it stands ([validateWords],
      [validateWord]); they do not call [initDictionary] themselves, the
      server does when it starts listening, and its body is synchronous, so
      the theorems read the dictionary [started] from the file's content;
    - boards.ts: POST /boards, a board of the requested size seeded by
      the clock ([createBoard]).

    The validate and board handlers are synchronous: they are functions
    of the dictionary state and of the clock.  GET /lobbies awaits the
    repository and is a program of [Program]. *)

From S2P Require Import Prelude Model JsString JsDate Dictionary BoardGen Ledger Accounts Store Program Engine Scenarios Invariants.
From Stdlib Require Import Ascii String.

Module Routes.

(** ** lobbies.ts *)

Record LobbyView := mkLobbyView {
  lv_lobbyId : string;
  lv_name : string;
  lv_entryFee : Z;
  lv_prizePool : Z;
  lv_maxPlayers : Z;
  lv_currentPlayers : Z;
  lv_estimatedWaitTime : Z;
  lv_difficulty : string;
  lv_boardSize : Z;
  lv_gameDuration : Z;
  lv_isActive : bool;
  lv_createdAt : string
}.

(** [c.boardSize === 5 ? (c.gameDuration > 120 ? "hard" : "medium") : "easy"] *)
Definition difficulty (c : LobbyConfig.t) : string :=
  if bool_decide (LobbyConfig.boardSize c = 5%Z) then
    (if bool_decide (120 < LobbyConfig.gameDuration c)%Z then "hard" else "medium")
  else "easy".

(** The entry of [lobbies] (lines 16-31), built when the module loads at
    time [loadedAt]. *)
Definition lobbyView (loadedAt : Z) (c : LobbyConfig.t) : LobbyView :=
  mkLobbyView (LobbyConfig.lobbyType c)
    (LobbyConfig.name c +:+ " - " +:+ pretty (LobbyConfig.totalPrizeGems c) +:+ " gems total")
    (LobbyConfig.entryFee c) (LobbyConfig.totalPrizeGems c) (LobbyConfig.maxPlayers c) 0 0
    (difficulty c) (LobbyConfig.boardSize c) (LobbyConfig.gameDuration c) true
    (JsDate.toISOString loadedAt).

(** [waitingMatches.reduce((total, match) => total + match.players.length, 0)] *)
Definition currentPlayers (lobbyId : string) (ms : list InternalMatch.t) : Z :=
  Σ ((λ m, Z.of_nat (List.length m.(InternalMatch.players)))
       <$> filter (λ m, m.(InternalMatch.lobbyType) = lobbyId ∧ m.(InternalMatch.status) = waiting) ms).

Definition with_current (l : LobbyView) (n : Z) : LobbyView :=
  mkLobbyView (lv_lobbyId l) (lv_name l) (lv_entryFee l) (lv_prizePool l) (lv_maxPlayers l) n
    (lv_estimatedWaitTime l) (lv_difficulty l) (lv_boardSize l) (lv_gameDuration l) (lv_isActive l)
    (lv_createdAt l).

Section Lobbies.
Context {St : Type} `{MatchRepository St}.

(** [lobbies.map(async (l) => { const allMatches = await repo().listAll(); ... })] *)
Fixpoint enrich (ls : list LobbyView) : Prog (list LobbyView) :=
  match ls with
  | [] => mret []
  | l :: ls' =>
      allMatches ← listAll_;
      rest ← enrich ls';
      mret (with_current l (currentPlayers (lv_lobbyId l) allMatches) :: rest)
  end.

(** GET /lobbies (lines 33-51) *)
Definition getLobbies (LOBBIES : list LobbyConfig.t) (loadedAt : Z) : Prog (list LobbyView) :=
  enrich (lobbyView loadedAt <$> LOBBIES).

End Lobbies.

(** ** validate.ts *)

Record WordResult := mkWordResult { wr_word : string; wr_valid : bool }.

(** The [words] field of the body: absent ([default([])]), an array of
    strings, or anything else (zod fails). *)
Inductive WordsArg := WAbsent | WList (ws : list string) | WBad.

Definition words_of (a : WordsArg) : list string :=
  match a with WList ws => ws | _ => [] end.

Inductive WordsBody := WordsError | WordsResults (results : list WordResult).

(** Lines 15-16: [String(w).toUpperCase()], no trim, then [isWord]. *)
Definition wordResults (d : Dictionary.DictState) (words : list string) : list WordResult :=
  (λ w, let u := JsString.of_chars (JsString.toUpperCase (JsString.chars w)) in
        mkWordResult u (Dictionary.isWordExported d u)) <$> words.

(** POST /validate/words (lines 10-18). *)
Definition validateWords (d : Dictionary.DictState) (a : WordsArg) : WordsBody :=
  match a with
  | WBad => WordsError
  | _ => WordsResults (wordResults d (words_of a))
  end.

Inductive CheckBody := CheckError | Checked (word : string) (valid prefix : bool).

(** GET /validate/word (lines 19-26): [String(req.query.word || "")] must
    be non-empty. *)
Definition validateWord (d : Dictionary.DictState) (queryWord : option string) : CheckBody :=
  let w := default "" queryWord in
  if bool_decide (w = "") then CheckError
  else
    let u := JsString.of_chars (JsString.toUpperCase (JsString.chars w)) in
    Checked u (Dictionary.isWordExported d u) (Dictionary.hasPrefixExported d u).

(** ** boards.ts *)

Inductive BoardBody := BoardError | BoardCreated (boardId seed : string) (size : Z) (grid : Board).

(** POST /boards (lines 12-24): [z.number().int().min(4).max(6).default(4)];
    the seed and the board both read the clock. *)
Definition createBoard (now : Z) (size : Accounts.NumArg) : BoardBody :=
  match size with
  | Accounts.NAbsent => BoardCreated (Engine.toString36 now) (Engine.toString36 now) 4 (BoardGen.generateDiceBoard now 4)
  | Accounts.NInt s =>
      if bool_decide (4 ≤ s ≤ 6)%Z
      then BoardCreated (Engine.toString36 now) (Engine.toString36 now) s (BoardGen.generateDiceBoard now (Z.to_nat s))
      else BoardError
  | Accounts.NBad => BoardError
  end.

(** ** GET /lobbies *)

Section LobbiesProofs.
Context {St : Type} `{RepoLaws St}.

Lemma run_enrich (w : World St) ls :
  run w (enrich ls) = (inr ((λ l, with_current l (currentPlayers (lv_lobbyId l) (listAll (store w)))) <$> ls), w).
Proof.
  induction ls as [|l ls IH]; [done|]. cbn [enrich]. rewrite run_mbind. simpl. rewrite run_mbind, IH. done.
Qed.

Lemma currentPlayers_le cap lobbyId ms :
  (∀ m, m ∈ ms → m.(InternalMatch.lobbyType) = lobbyId → Z.of_nat (List.length m.(InternalMatch.players)) ≤ cap)%Z →
  (currentPlayers lobbyId ms ≤
   cap * Z.of_nat (List.length (filter (λ m, m.(InternalMatch.lobbyType) = lobbyId ∧ m.(InternalMatch.status) = waiting) ms)))%Z.
Proof.
  intros Hle. unfold currentPlayers.
  pose proof (sumZ_bounds (λ m, Z.of_nat (List.length m.(InternalMatch.players)))
                (filter (λ m, m.(InternalMatch.lobbyType) = lobbyId ∧ m.(InternalMatch.status) = waiting) ms) 0 cap)
    as Hb.
  assert (Hb' := Hb ltac:(intros m [[Hl _] Hm]%list_elem_of_filter; split; [lia|by apply Hle])). lia.
Qed.

(** C14: GET /lobbies only reads the store, and on a store where every
    match fits its lobby (the invariant [Invariants.Inv]) the player count
    it shows for a lobby is at most the lobby's capacity times the number
    of its waiting matches. *)
Theorem getLobbies_bounded (LOBBIES : list LobbyConfig.t) (w : World St) t :
  Invariants.Inv LOBBIES (store w) →
  ∃ vs, run w (getLobbies LOBBIES t) = (inr vs, w) ∧
    ∀ v, v ∈ vs →
      (lv_currentPlayers v ≤ Engine.capacity LOBBIES (lv_lobbyId v) *
         Z.of_nat (List.length (filter (λ m, m.(InternalMatch.lobbyType) = lv_lobbyId v ∧
                                              m.(InternalMatch.status) = waiting) (listAll (store w)))))%Z.
Proof.
  intros (_ & Hcap & _ & _). eexists. split; [apply run_enrich|].
  intros v (l & -> & _)%list_elem_of_fmap. cbn [lv_currentPlayers with_current lv_lobbyId].
  apply currentPlayers_le. intros m Hm <-. apply listAll_spec in Hm as [i Hi]. exact (Hcap i m Hi).
Qed.

End LobbiesProofs.

Lemma getLobbies_bounded_witness :
  Invariants.Inv Scenarios.LOBBIES (store Invariants.two_joined) ∧
  ∃ vs, run Invariants.two_joined (getLobbies Scenarios.LOBBIES Scenarios.T0) = (inr vs, Invariants.two_joined).
Proof.
  assert (Hi := Invariants.reachable_Inv Scenarios.LOBBIES Scenarios.LOBBIES_ok Invariants.two_joined
                  Invariants.two_joined_reachable).
  split; [exact Hi|].
  destruct (getLobbies_bounded Scenarios.LOBBIES Invariants.two_joined Scenarios.T0 Hi) as (vs & Hr & _).
  by exists vs.
Defined.

(** ** validate.ts *)

Lemma upper_char_nonempty c : JsString.upper_char c ≠ [].
Proof. unfold JsString.upper_char. by repeat case_decide. Qed.

Lemma toUpperCase_nil s : JsString.toUpperCase s = [] → s = [].
Proof.
  destruct s as [|c s]; [done|]. change (JsString.toUpperCase (c :: s)) with (JsString.upper_char c ++ JsString.toUpperCase s).
  intros [Hc _]%app_eq_nil. by apply upper_char_nonempty in Hc.
Qed.

Lemma chars_nil w : JsString.chars w = [] → w = "".
Proof. destruct w; done. Qed.

(** The dictionary the server builds at start-up from [file]. *)
Definition started (file : option string) : Dictionary.DictState :=
  Dictionary.initDictionary Dictionary.uninitialized file.

Lemma isWord_started file (u : list ascii) :
  JsString.toUpperCase u = u →
  Dictionary.isWordExported (started file) (JsString.of_chars u) = true ↔
  u ∈ Dictionary.dictionary_words (Dictionary.file_content file).
Proof. intros Hu. unfold started. by rewrite Dictionary.isWordExported_init, JsString.chars_of_chars, Hu. Qed.

Lemma hasPrefix_started file (u : list ascii) :
  u ≠ [] → JsString.toUpperCase u = u →
  Dictionary.hasPrefixExported (started file) (JsString.of_chars u) = true ↔
  ∃ w, w ∈ Dictionary.dictionary_words (Dictionary.file_content file) ∧ u `prefix_of` w.
Proof.
  intros Hne Hu. unfold started, Dictionary.hasPrefixExported. simpl.
  rewrite JsString.chars_of_chars, Hu, Dictionary.build_hasPrefix. naive_solver.
Qed.

(** C15: once the dictionary is loaded, GET /validate/word answers 400 on an
    empty or missing word and otherwise reports the upper-cased word, whether
    it is in the filtered word list and whether it starts one of its words;
    POST /validate/words reports each word upper-cased (not trimmed) and
    whether it is in the list. *)
Theorem validate_spec (file : option string) (q : option string) (a : WordsArg) :
  match validateWord (started file) q with
  | CheckError => default "" q = ""
  | Checked u valid prefix =>
      default "" q ≠ "" ∧ JsString.chars u = JsString.toUpperCase (JsString.chars (default "" q)) ∧
      (valid = true ↔ JsString.chars u ∈ Dictionary.dictionary_words (Dictionary.file_content file)) ∧
      (prefix = true ↔ ∃ w, w ∈ Dictionary.dictionary_words (Dictionary.file_content file) ∧
                            JsString.chars u `prefix_of` w)
  end ∧
  match validateWords (started file) a with
  | WordsError => a = WBad
  | WordsResults rs =>
      List.length rs = List.length (words_of a) ∧
      ∀ i r, rs !! i = Some r →
        ∃ w, words_of a !! i = Some w ∧ JsString.chars (wr_word r) = JsString.toUpperCase (JsString.chars w) ∧
          (wr_valid r = true ↔ JsString.chars (wr_word r) ∈ Dictionary.dictionary_words (Dictionary.file_content file))
  end.
Proof.
  split_and!.
  - unfold validateWord. case_bool_decide as Hq; [done|].
    rewrite JsString.chars_of_chars. split_and!; [done|done| |].
    + apply isWord_started, JsString.toUpperCase_idem.
    + apply hasPrefix_started; [|apply JsString.toUpperCase_idem].
      by intros ?%toUpperCase_nil%chars_nil.
  - assert (Hres : List.length (wordResults (started file) (words_of a)) = List.length (words_of a) ∧
      ∀ i r, wordResults (started file) (words_of a) !! i = Some r →
        ∃ w, words_of a !! i = Some w ∧ JsString.chars (wr_word r) = JsString.toUpperCase (JsString.chars w) ∧
          (wr_valid r = true ↔ JsString.chars (wr_word r) ∈ Dictionary.dictionary_words (Dictionary.file_content file))).
    2: by destruct a.
    split; [apply length_fmap|].
    intros i r Hr. unfold wordResults in Hr. apply list_lookup_fmap_Some in Hr as (w & -> & Hw).
    exists w. simpl. rewrite JsString.chars_of_chars. split_and!; [done|done|].
    apply isWord_started, JsString.toUpperCase_idem.
Qed.

(** ** boards.ts *)

(** C16: POST /boards rejects a size that is not an integer in [4, 6] and
    otherwise answers a square board of that size (4 when absent) whose
    cells are faces of the sixteen dice, with the clock in base 36 as both
    its id and its seed. *)
Theorem createBoard_spec now (size : Accounts.NumArg) :
  match createBoard now size with
  | BoardError => size = Accounts.NBad ∨ ∃ s, size = Accounts.NInt s ∧ ¬ (4 ≤ s ≤ 6)%Z
  | BoardCreated boardId seed n grid =>
      boardId = Engine.toString36 now ∧ seed = boardId ∧
      (size = Accounts.NAbsent ∧ n = 4%Z ∨ size = Accounts.NInt n) ∧ (4 ≤ n ≤ 6)%Z ∧
      List.length grid = Z.to_nat n ∧
      Forall (λ row, List.length row = Z.to_nat n ∧ Forall (BoardGen.rolled BoardGen.dice) row) grid
  end.
Proof.
  destruct size as [|s|]; simpl; [|case_bool_decide|]; [| |naive_solver|by left].
  - destruct (BoardGen.generateDiceBoard_grid now 4) as (Hl & _ & Hf).
    split_and!; try done; first [by left | lia].
  - destruct (BoardGen.generateDiceBoard_grid now (Z.to_nat s)) as (Hl & _ & Hf).
    split_and!; try done; first [by right | lia].
Qed.

End Routes.
