(* ===== verification/Queries.v ===== *)
(** * The read handlers of matches.ts

    GET /matches/:matchId ([getMatch]), GET /matches/:matchId/details
    ([getDetails]) and GET /matches ([listMatches]).  Each awaits the
    requesting user, then the match store and, for a match no longer live,
    the completed-match history of the database (Prisma reads, [query_]);
    a history row is rebuilt into a match ([hydrate]) and shown with the
    [toClientMatch] of the engine.  Every exception becomes a 500 answer
    carrying [error.message].

    [getRequestingUser] (lines 38-57) is the program [who] the handlers
    start with: in dev mode it is [getRequestingUser_dev], a read of the
    user table; in Firebase mode it is [getOrCreateUserByAuthUid], which
    [Accounts] models on the account database.  The theorems take any
    [who] that answers a user id without changing the world. *)

From S2P Require Import Prelude Model JsString Ledger Accounts Store Program Engine Scenarios.
From Stdlib Require Import Ascii String.

Module Queries.
Import Engine.

(** ** Answers *)

Record PlayerDetail := mkPlayerDetail {
  pd_id : string;
  pd_name : string;
  pd_words : list string;
  pd_score : Z;
  pd_joinedAt : Z;
  pd_submittedAt : option Z;
  pd_paidEntry : bool;
  pd_isCurrentUser : bool
}.

Record MatchDetails := mkDetails {
  md_matchId : string;
  md_lobbyId : string;
  md_board : Board;
  md_status : Status;
  md_createdAt : Z;
  md_startedAt : option Z;
  md_endedAt : option Z;
  md_entryFee : Z;
  md_prizePool : Z;
  md_gameDuration : Z;
  md_players : list PlayerDetail;
  md_timeRemaining : Z
}.

Inductive QBody :=
  | View (c : ClientMatch)
  | Details (d : MatchDetails)
  | Matches (l : list ClientMatch)
  | QError (error : string)
  | QFailed (error details : string).

(** [res.status(code).json(body)] *)
Record QResp := qresp { qcode : Z; qbody : QBody }.

(** [error.message] of what the handlers catch. *)
Definition exnMessage (e : Exn) : string :=
  match e with
  | TypeError => "Cannot read properties of undefined (reading 'length')"
  | DbFailure e => Accounts.errMessage (Accounts.DbError e)
  | Failure msg => msg
  end.

(** ** Reads *)

(** [getRequestingUser] in dev mode (lines 39-46): the [userId] of the
    body or else of the query, which must be a string, and
    [getUserById]. *)
Definition getRequestingUser_dev (body query : Accounts.Field) : Prog string :=
  match Accounts.js_or body query with
  | Accounts.FStr u =>
      r ← query_ (λ d, Ledger.users d !! u);
      match r with
      | Some _ => mret u
      | None => throw_ (Failure ("User with ID " +:+ u +:+ " not found."))
      end
  | Accounts.FOther _ => throw_ (Failure "A 'userId' is required in the body or query in dev mode.")
  end.

(** [prisma.completedMatch.findUnique({ where: { id: matchId } })] *)
Definition findCompleted_ (i : string) : Prog (option Ledger.CompletedMatch) :=
  query_ (λ d, Ledger.history d !! i).

(** [prisma.completedMatch.findMany({ orderBy: { endedAt: "desc" }, take: 50 })]:
    rows with equal [endedAt] come in the database's order, fixed here as
    the table's. *)
Definition recentCompleted (d : Ledger.Db) : list Ledger.CompletedMatch :=
  take 50 (merge_sort Ledger.ended_later (map_to_list (Ledger.history d)).*2).

Definition recentCompleted_ : Prog (list Ledger.CompletedMatch) := query_ recentCompleted.

(** The [hydrated] match of lines 516-530 (also 555-569 and 648-662): the
    row has no [payoutAt] column, so [(cm as any).payoutAt] is
    [undefined]. *)
Definition hydrate (i : string) (cm : Ledger.CompletedMatch) : InternalMatch.t :=
  InternalMatch.mk i (Ledger.cm_lobbyType cm) (Ledger.cm_board cm) (Ledger.cm_createdAt cm)
    (Ledger.cm_startedAt cm) (Ledger.cm_endedAt cm) (Ledger.cm_entryFee cm) (Ledger.cm_prizePool cm)
    (Ledger.cm_gameDuration cm) (Ledger.cm_players cm) completed (Ledger.ended cm) None.

(** ** GET /:matchId (lines 507-544) *)

Definition getMatch (who : Prog string) (matchId : string) : Prog QResp :=
  catch (
    user ← who;
    m ← get_ matchId;
    match m with
    | Some m => now ← now_; mret (qresp 200 (View (toClientMatch m user now)))
    | None =>
        cm ← findCompleted_ matchId;
        match cm with
        | None => mret (qresp 404 (QError "match not found"))
        | Some cm => now ← now_; mret (qresp 200 (View (toClientMatch (hydrate matchId cm) user now)))
        end
    end)
  (λ e, mret (qresp 500 (QFailed "Failed to get match" (exnMessage e)))).

(** ** GET /:matchId/details (lines 547-626) *)

Definition playerDetail (u : string) (p : MatchPlayer.t) : PlayerDetail :=
  mkPlayerDetail (MatchPlayer.id p) (MatchPlayer.name p) (MatchPlayer.words p) (MatchPlayer.score p)
    (MatchPlayer.joinedAt p) (MatchPlayer.submittedAt p) (MatchPlayer.paidEntry p)
    (bool_decide (MatchPlayer.id p = u)).

(** [m.status === "completed" ? 0 : Math.max(0, m.gameDuration -
    Math.floor((Date.now() - new Date(m.createdAt).getTime()) / 1000))] *)
Definition detailsTimeRemaining (m : InternalMatch.t) (now : Z) : Z :=
  if bool_decide (InternalMatch.status m = completed) then 0%Z
  else Z.max 0 (InternalMatch.gameDuration m - (now - InternalMatch.createdAt m) / 1000).

(** [matchDetails] (lines 588-617) *)
Definition detailsOf (m : InternalMatch.t) (u : string) (now : Z) : MatchDetails :=
  mkDetails (InternalMatch.id m) (InternalMatch.lobbyType m) (InternalMatch.board m) (InternalMatch.status m)
    (InternalMatch.createdAt m) (InternalMatch.startedAt m) (InternalMatch.endedAt m)
    (InternalMatch.entryFee m) (InternalMatch.prizePool m) (InternalMatch.gameDuration m)
    (playerDetail u <$> InternalMatch.players m) (detailsTimeRemaining m now).

Definition getDetails (who : Prog string) (matchId : string) : Prog QResp :=
  catch (
    user ← who;
    live ← get_ matchId;
    found ← match live with
            | Some m => mret (Some m)
            | None => cm ← findCompleted_ matchId; mret (hydrate matchId <$> cm)
            end;
    match found with
    | None => mret (qresp 404 (QError "match not found"))
    | Some m =>
        match findPlayer user (InternalMatch.players m) with
        | None => mret (qresp 403 (QError "user not in this match"))
        | Some _ => now ← now_; mret (qresp 200 (Details (detailsOf m user now)))
        end
    end)
  (λ e, mret (qresp 500 (QFailed "Failed to get match details" (exnMessage e)))).

(** ** GET / (lines 628-680) *)

(** [players.some((p) => p && p.id === user.id)] *)
Definition participated (u : string) (cm : Ledger.CompletedMatch) : bool :=
  existsb (λ p, bool_decide (MatchPlayer.id p = u)) (Ledger.cm_players cm).

(** [completedForUser] (lines 638-663) *)
Definition completedForUser (u : string) (rows : list Ledger.CompletedMatch) : list InternalMatch.t :=
  (λ cm, hydrate (Ledger.cm_id cm) cm) <$> filter (λ cm, participated u cm = true) rows.

(** [byId] filled with the completed matches, then the live ones
    (lines 666-669), and [Array.from(byId.values())]. *)
Definition mergeById (done_ live : list InternalMatch.t) : list InternalMatch.t :=
  (foldl (λ mp m, jsmap_set mp (InternalMatch.id m) m) [] (done_ ++ live)).*2.

Definition listMatches (who : Prog string) : Prog QResp :=
  catch (
    user ← who;
    active ← listByUser_ user;
    recent ← recentCompleted_;
    now ← now_;
    mret (qresp 200 (Matches ((λ m, toClientMatch m user now) <$>
                               mergeById (completedForUser user recent) active))))
  (λ e, mret (qresp 500 (QFailed "Failed to get matches" (exnMessage e)))).

(** ** The [byId] map *)

Section ById.
Implicit Types (m : InternalMatch.t) (mp : list (string * InternalMatch.t)).

Local Notation set_by_id := (λ mp m, jsmap_set mp (InternalMatch.id m) m).

Definition id_keyed mp : Prop := ∀ k v, (k, v) ∈ mp → k = InternalMatch.id v.

Lemma fold_keyed l mp : id_keyed mp → id_keyed (foldl set_by_id mp l).
Proof.
  revert mp. induction l as [|m l IH]; intros mp Hk; simpl; [done|]. apply IH.
  intros k v [Hin|Heq]%jsmap_set_sound; [by apply Hk|by simplify_eq].
Qed.

Lemma fold_NoDup l mp : NoDup mp.*1 → NoDup (foldl set_by_id mp l).*1.
Proof. revert mp. induction l as [|m l IH]; intros mp Hnd; simpl; [done|]. by apply IH, jsmap_set_NoDup. Qed.

Lemma fold_sound l mp kv : kv ∈ foldl set_by_id mp l → kv ∈ mp ∨ ∃ m, m ∈ l ∧ kv = (InternalMatch.id m, m).
Proof.
  revert mp. induction l as [|m l IH]; intros mp Hin; simpl in *; [by left|].
  destruct (IH _ Hin) as [Hs|(m' & ? & ->)]; [|right; exists m'; set_solver].
  destruct (jsmap_set_sound _ _ _ _ Hs) as [Hs'| ->]; [by left|]. right. exists m. set_solver.
Qed.

Lemma fold_keep l mp k v :
  (k, v) ∈ mp → (∀ m, m ∈ l → InternalMatch.id m ≠ k) → (k, v) ∈ foldl set_by_id mp l.
Proof.
  revert mp. induction l as [|m l IH]; intros mp Hin Hl; simpl; [done|].
  apply IH; [|set_solver]. apply jsmap_set_other; [done|]. intros ->. by apply (Hl m); [set_solver|].
Qed.

Lemma fold_in l mp m :
  m ∈ l → (∀ m', m' ∈ l → InternalMatch.id m' = InternalMatch.id m → m' = m) →
  (InternalMatch.id m, m) ∈ foldl set_by_id mp l.
Proof.
  revert mp. induction l as [|x l IH]; intros mp Hm Hu; simpl; [set_solver|].
  destruct (decide (m ∈ l)) as [Hl|Hl]; [apply IH; set_solver|].
  assert (x = m) as -> by set_solver.
  apply fold_keep; [apply jsmap_set_in|]. intros m' Hm' Hid. apply Hl.
  by rewrite <- (Hu m') by set_solver.
Qed.

Lemma keyed_ids mp : id_keyed mp → InternalMatch.id <$> mp.*2 = mp.*1.
Proof.
  induction mp as [|[k v] mp IH]; intros Hk; [done|]. simpl. f_equal.
  - symmetry. apply (Hk k v). set_solver.
  - apply IH. intros k' v' ?. apply Hk. set_solver.
Qed.

Lemma mergeById_NoDup d l : NoDup (InternalMatch.id <$> mergeById d l).
Proof.
  unfold mergeById. rewrite keyed_ids; [apply fold_NoDup; constructor|].
  apply fold_keyed. intros ??; set_solver.
Qed.

Lemma mergeById_live d l m :
  m ∈ l → (∀ m', m' ∈ l → InternalMatch.id m' = InternalMatch.id m → m' = m) → m ∈ mergeById d l.
Proof.
  intros Hm Hu. unfold mergeById. rewrite foldl_app.
  apply list_elem_of_fmap. exists (InternalMatch.id m, m). split; [done|]. by apply fold_in.
Qed.

Lemma mergeById_sound d l m : m ∈ mergeById d l → m ∈ d ∨ m ∈ l.
Proof.
  unfold mergeById. intros ([k v] & -> & Hin)%list_elem_of_fmap.
  destruct (fold_sound _ _ _ Hin) as [Hn|(m' & Hm' & Heq)]; [set_solver|]. simplify_eq.
  simpl. set_solver.
Qed.

End ById.

(** ** Reading the database *)

Section Proofs.
Context {St : Type} `{RepoLaws St}.
Implicit Types (w : World St).

Lemma run_query {A} w (q : Ledger.Db → A) :
  Ledger.db_up (db w) = true → run w (query_ q) = (inr (q (db w)), w).
Proof. intros Hup. unfold query_. simpl. by rewrite Hup. Qed.

(** A history row shows as the completed match it was written from, with
    the ranked players the row holds: [toClientMatch] reads neither
    [autoCompleteAt] nor [payoutAt], the two fields the row lacks. *)
Lemma hydrate_view i m ps u t :
  InternalMatch.id m = i → InternalMatch.status m = completed →
  toClientMatch (hydrate i (completedRecord m ps)) u t = toClientMatch (InternalMatch.with_players m ps) u t.
Proof. intros <- Hs. destruct m; simpl in *. by subst. Qed.

Section Who.
Variable who : Prog string.
Variable u : string.

Lemma run_who_bind {A} w (k : string → Prog A) :
  run w who = (inr u, w) → run w (x ← who; k x) = run w (k u).
Proof. intros Hw. by rewrite run_mbind, Hw. Qed.

(** C18: a match that is no longer live but whose history row the
    settlement wrote (from the completed match [m] and its ranked players
    [ps]) is still shown by GET /matches/:matchId, as the completed match
    with those players: the move from the store to the history does not
    change what a player sees. *)
Theorem getMatch_history w i m ps :
  run w who = (inr u, w) → Store.get (store w) i = None → Ledger.db_up (db w) = true →
  Ledger.history (db w) !! i = Some (completedRecord m ps) →
  InternalMatch.id m = i → InternalMatch.status m = completed →
  run w (getMatch who i) =
    (inr (qresp 200 (View (toClientMatch (InternalMatch.with_players m ps) u (clock w)))), w).
Proof.
  intros Hw Hg Hup Hh Hid Hs. unfold getMatch. rewrite run_catch, run_who_bind by done.
  simpl. rewrite Hg. simpl. rewrite Hup, Hh. simpl. by rewrite hydrate_view.
Qed.

(** GET /matches/:matchId/details on a live match: 403 for a user who is
    not a player, otherwise the details at the current clock. *)
Lemma getDetails_live w i m :
  run w who = (inr u, w) → Store.get (store w) i = Some m →
  run w (getDetails who i) =
    (inr (match findPlayer u (InternalMatch.players m) with
          | None => qresp 403 (QError "user not in this match")
          | Some _ => qresp 200 (Details (detailsOf m u (clock w)))
          end), w).
Proof.
  intros Hw Hg. unfold getDetails. rewrite run_catch, run_who_bind by done.
  simpl. rewrite Hg. simpl. by destruct (findPlayer _ _).
Qed.

Lemma run_listMatches w :
  run w who = (inr u, w) → Ledger.db_up (db w) = true →
  run w (listMatches who) =
    (inr (qresp 200 (Matches ((λ m, toClientMatch m u (clock w)) <$>
            mergeById (completedForUser u (recentCompleted (db w))) (listByUser (store w) u)))), w).
Proof. intros Hw Hup. unfold listMatches. rewrite run_catch, run_who_bind by done. simpl. by rewrite Hup. Qed.

Lemma live_unique w m m' :
  repo_wf (store w) → m ∈ listByUser (store w) u → m' ∈ listByUser (store w) u →
  InternalMatch.id m' = InternalMatch.id m → m' = m.
Proof.
  intros Hwf Hm Hm' Hid.
  destruct (listByUser_sound _ _ _ Hm) as [i Hi]. destruct (listByUser_sound _ _ _ Hm') as [i' Hi'].
  pose proof (get_id _ _ _ Hwf Hi). pose proof (get_id _ _ _ Hwf Hi'). congruence.
Qed.

(** C19: GET /matches lists each match once: every live match of the user
    (its live copy, preferred to a history row with the same id), and
    otherwise only history rows among the 50 most recently ended in
    which the user played. *)
Theorem listMatches_spec w :
  repo_wf (store w) → run w who = (inr u, w) → Ledger.db_up (db w) = true →
  ∃ l, run w (listMatches who) = (inr (qresp 200 (Matches l)), w) ∧
    NoDup (cv_matchId <$> l) ∧
    (∀ m, m ∈ listByUser (store w) u → toClientMatch m u (clock w) ∈ l) ∧
    (∀ c, c ∈ l →
       (∃ m, m ∈ listByUser (store w) u ∧ c = toClientMatch m u (clock w)) ∨
       (∃ cm, cm ∈ recentCompleted (db w) ∧ participated u cm = true ∧
              c = toClientMatch (hydrate (Ledger.cm_id cm) cm) u (clock w))).
Proof.
  intros Hwf Hw Hup. eexists. split; [by apply run_listMatches|]. split_and!.
  - rewrite <- list_fmap_compose, (list_fmap_ext _ InternalMatch.id); [apply mergeById_NoDup|done].
  - intros m Hm. apply (list_elem_of_fmap_2 (λ m, toClientMatch m u (clock w))), mergeById_live; [done|].
    intros m' Hm' Hid. by apply (live_unique w m m').
  - intros c (m & -> & Hm)%list_elem_of_fmap.
    destruct (mergeById_sound _ _ _ Hm) as [Hd|Hl]; [right|left; eauto].
    unfold completedForUser in Hd. apply list_elem_of_fmap in Hd as (cm & -> & Hcm).
    apply list_elem_of_filter in Hcm as [Hp Hcm]. eauto.
Qed.

End Who.

(** C20: the details endpoint does not show a player the remaining time of
    the player's own deadline (spec: the client view carries this player's
    remaining seconds): it counts from the creation of the match.  A
    player who has not submitted, joined at least two seconds after the
    match was created and has at least a second left before that deadline
    is shown strictly less time by GET /:matchId/details than by
    GET /:matchId, which counts from the deadline. *)
Theorem details_time_from_creation m u p now :
  InternalMatch.status m ≠ completed →
  findPlayer u (InternalMatch.players m) = Some p → MatchPlayer.submittedAt p = None →
  deadline_ms (InternalMatch.gameDuration m) p = (MatchPlayer.joinedAt p + InternalMatch.gameDuration m * 1000)%Z →
  (InternalMatch.createdAt m + 2000 ≤ MatchPlayer.joinedAt p)%Z →
  (InternalMatch.createdAt m ≤ now)%Z →
  (now + 1000 ≤ deadline_ms (InternalMatch.gameDuration m) p)%Z →
  (md_timeRemaining (detailsOf m u now) < cv_timer (toClientMatch m u now))%Z.
Proof.
  intros Hs Hp Hsub Hd Hj Hc Hn. unfold detailsOf, toClientMatch, detailsTimeRemaining. simpl.
  rewrite Hp, bool_decide_false by done. rewrite Hsub. simpl. rewrite Hd in *.
  set (G := InternalMatch.gameDuration m) in *. set (c := InternalMatch.createdAt m) in *.
  set (j := MatchPlayer.joinedAt p) in *.
  zdivmod (now - c)%Z 1000%Z. zdivmod (j + G * 1000 - now)%Z 1000%Z. lia.
Qed.

End Proofs.

(** ** Witnesses on the worlds of [Scenarios] *)

Import Scenarios.

(** Alice, in dev mode, naming herself in the body. *)
Definition dev_alice : Prog string := getRequestingUser_dev (Accounts.FStr "alice") (Accounts.FOther false).

(** The history row of the duo match Alice and Bob finished. *)
Definition duo_row : Ledger.CompletedMatch := the_row settled duo_id.

Lemma getMatch_history_witness :
  run settled (getMatch dev_alice duo_id) =
    (inr (qresp 200 (View (toClientMatch (InternalMatch.with_players (hydrate duo_id duo_row)
                                            (Ledger.cm_players duo_row)) "alice" (clock settled)))), settled).
Proof.
  apply (getMatch_history dev_alice "alice" settled duo_id (hydrate duo_id duo_row) (Ledger.cm_players duo_row));
    vm_compute; reflexivity.
Defined.

Lemma listMatches_spec_witness :
  ∃ l, run settled (listMatches dev_alice) = (inr (qresp 200 (Matches l)), settled).
Proof.
  destruct (@listMatches_spec Redis.t _ Redis_laws dev_alice "alice" settled
              ltac:(apply (@bool_decide_unpack _ (RedisLaws.wf_dec (store settled))); vm_compute; reflexivity)
              ltac:(vm_compute; reflexivity) ltac:(vm_compute; reflexivity)) as (l & Hr & _).
  by exists l.
Defined.

(** Bob joined 30 s after the match was created, with a 60 s game; at
    40 s the match view gives him 50 s and the details 20 s. *)
Definition late_joiner : MatchPlayer.t :=
  MatchPlayer.mk "bob" "Bob" [] 0 None None 30000 (Some 90000%Z) true None None None.

Definition late_match : InternalMatch.t :=
  InternalMatch.mk "duo-x" "duo" [] 0 None None 10 100 60 [late_joiner] waiting 3600000 None.

Lemma details_time_from_creation_witness :
  md_timeRemaining (detailsOf late_match "bob" 40000) = 20%Z ∧
  cv_timer (toClientMatch late_match "bob" 40000) = 50%Z ∧
  (md_timeRemaining (detailsOf late_match "bob" 40000) < cv_timer (toClientMatch late_match "bob" 40000))%Z.
Proof.
  split_and!; [vm_compute; reflexivity|vm_compute; reflexivity|].
  apply (details_time_from_creation late_match "bob" late_joiner 40000);
    first [done | vm_compute; reflexivity | vm_compute; congruence | unfold deadline_ms; simpl; lia].
Defined.

End Queries.
