(* ===== verification/Waiting.v ===== *)
(** * The waiting-match pool of matches.ts

    [createWaitingMatch] (lines 96-122) stores an empty waiting match for
    a lobby and points the lobby's waiting key at it;
    [ensureWaitingMatches] (lines 124-137) walks the lobby catalogue and
    creates one for every lobby whose waiting key is missing, empty, or
    names a match that is gone or no longer waiting.  Both are exported
    and no route or timer calls them; they are programs of [Program] all
    the same.  The clock is read once: [Date.now()], the board's seed
    and [new Date().toISOString()] are read in one synchronous block.

    [ensure_waiting] shows that after the walk every lobby of the
    catalogue has a waiting key naming a stored waiting match, and that a
    lobby which had one keeps it. *)

From S2P Require Import Prelude Model BoardGen Store Program Engine.

Module Waiting.
Import Engine.

Section Pool.
Variable LOBBIES : list LobbyConfig.t.

(** The match of lines 104-118. *)
Definition waitingMatch (c : LobbyConfig.t) (lobbyType : string) (now : Z) : M :=
  InternalMatch.mk (matchId lobbyType now) lobbyType
    (BoardGen.generateDiceBoard now (Z.to_nat c.(LobbyConfig.boardSize))) now None None
    c.(LobbyConfig.entryFee) c.(LobbyConfig.totalPrizeGems) c.(LobbyConfig.gameDuration)
    [] waiting (now + 60 * 60 * 1000) None.

(** [createWaitingMatch(lobbyType)] *)
Definition createWaitingMatch (lobbyType : string) : Prog (option M) :=
  match getLobbyConfig LOBBIES lobbyType with
  | None => mret None
  | Some c =>
      now ← now_;
      let m := waitingMatch c lobbyType now in
      save_ m;;
      setWaiting_ lobbyType (InternalMatch.id m);;
      mret (Some m)
  end.

(** One turn of the loop of [ensureWaitingMatches]; [!id] holds of a
    missing key and of the empty string. *)
Definition ensureOne (c : LobbyConfig.t) : Prog unit :=
  let l := c.(LobbyConfig.lobbyType) in
  id ← getWaiting_ l;
  match id with
  | Some i =>
      if bool_decide (i = "") then createWaitingMatch l;; mret tt
      else
        m ← get_ i;
        match m with
        | Some m => if bool_decide (m.(InternalMatch.status) = waiting) then mret tt
                    else clearWaiting_ l;; createWaitingMatch l;; mret tt
        | None => clearWaiting_ l;; createWaitingMatch l;; mret tt
        end
  | None => createWaitingMatch l;; mret tt
  end.

Fixpoint ensureAll (cs : list LobbyConfig.t) : Prog unit :=
  match cs with
  | [] => mret tt
  | c :: cs' => ensureOne c;; ensureAll cs'
  end.

(** [ensureWaitingMatches()] *)
Definition ensureWaitingMatches : Prog unit := ensureAll LOBBIES.

End Pool.

(** ** The waiting keys after the walk *)

Section Proofs.
Context {St : Type} `{RepoLaws St}.
Variable LOBBIES : list LobbyConfig.t.
Implicit Types (w : World St) (s : St).

(** The lobby's waiting key is a non-empty id of a stored waiting match:
    what [ensureWaitingMatches] accepts as it is. *)
Definition has_waiting s (l : string) : Prop :=
  ∃ i m, getWaiting s l = Some i ∧ i ≠ "" ∧ get s i = Some m ∧ m.(InternalMatch.status) = waiting.

Lemma has_waiting_save s m l :
  m.(InternalMatch.status) = waiting → has_waiting s l → has_waiting (save s m) l.
Proof.
  intros Hm (i & m0 & Hw & Hi & Hg & Hs). exists i.
  destruct (decide (i = m.(InternalMatch.id))) as [->|Hne].
  - exists m. by rewrite getWaiting_save, get_save.
  - exists m0. by rewrite getWaiting_save, get_save_ne.
Qed.

Lemma has_waiting_setWaiting s l l' i :
  l' ≠ l → has_waiting s l → has_waiting (setWaiting s l' i) l.
Proof.
  intros Hne (j & m & Hw & Hj & Hg & Hs). exists j, m.
  by rewrite getWaiting_setWaiting, bool_decide_false, get_setWaiting.
Qed.

Lemma has_waiting_clearWaiting s l l' :
  l' ≠ l → has_waiting s l → has_waiting (clearWaiting s l') l.
Proof.
  intros Hne (j & m & Hw & Hj & Hg & Hs). exists j, m.
  by rewrite getWaiting_clearWaiting, bool_decide_false, get_clearWaiting.
Qed.

Lemma matchId_nonempty l t : matchId l t ≠ "".
Proof. unfold matchId. destruct l; done. Qed.

Lemma run_createWaitingMatch w l c :
  getLobbyConfig LOBBIES l = Some c →
  run w (createWaitingMatch LOBBIES l) =
    (inr (Some (waitingMatch c l (clock w))),
     with_store w (setWaiting (save (store w) (waitingMatch c l (clock w))) l (matchId l (clock w)))).
Proof. intros Hc. unfold createWaitingMatch. rewrite Hc. reflexivity. Qed.

(** Creating the lobby's match gives it a waiting key and keeps the keys
    of the other lobbies. *)
Lemma create_waiting w l c :
  getLobbyConfig LOBBIES l = Some c →
  let s' := store (run w (createWaitingMatch LOBBIES l)).2 in
  has_waiting s' l ∧ ∀ l', l' ≠ l → has_waiting (store w) l' → has_waiting s' l'.
Proof.
  intros Hc s'. subst s'. rewrite (run_createWaitingMatch w l c Hc). simpl. split.
  - exists (matchId l (clock w)), (waitingMatch c l (clock w)).
    rewrite getWaiting_setWaiting, bool_decide_true, get_setWaiting by done.
    split_and!; [done|apply matchId_nonempty| |done]. apply (get_save _ (waitingMatch c l (clock w))).
  - intros l' Hne Hw. apply has_waiting_setWaiting; [done|]. by apply has_waiting_save.
Qed.

Lemma run_create_result w l c :
  getLobbyConfig LOBBIES l = Some c → (run w (createWaitingMatch LOBBIES l)).1 = inr (Some (waitingMatch c l (clock w))).
Proof. intros Hc. by rewrite (run_createWaitingMatch w l c Hc). Qed.

(** One turn of the loop: the lobby has a waiting key after it, and the
    keys of every lobby that had one are kept. *)
Lemma ensureOne_spec w c cfg :
  getLobbyConfig LOBBIES c.(LobbyConfig.lobbyType) = Some cfg →
  ∃ w', run w (ensureOne LOBBIES c) = (inr tt, w') ∧
    has_waiting (store w') c.(LobbyConfig.lobbyType) ∧
    ∀ l, has_waiting (store w) l → has_waiting (store w') l.
Proof.
  intros Hc. set (l := c.(LobbyConfig.lobbyType)) in *.
  (* the three ways of creating the match *)
  assert (Hcreate : ∀ w0, (∀ l', has_waiting (store w) l' → l' ≠ l → has_waiting (store w0) l') →
            ∃ w', run w0 (createWaitingMatch LOBBIES l;; mret tt) = (inr tt, w') ∧
              has_waiting (store w') l ∧ ∀ l', l' ≠ l → has_waiting (store w) l' → has_waiting (store w') l').
  { intros w0 Hw0. exists (run w0 (createWaitingMatch LOBBIES l)).2.
    rewrite run_mbind, (surjective_pairing (run w0 _)), (run_create_result w0 l cfg Hc). simpl.
    destruct (create_waiting w0 l cfg Hc) as [Hl Ho]. split_and!; [done|done|]. intros l' Hne Hw.
    apply Ho; [done|]. by apply Hw0. }
  unfold ensureOne. fold l. rewrite run_mbind. simpl.
  destruct (getWaiting (store w) l) as [i|] eqn:Hw.
  - case_bool_decide as Hi.
    + destruct (Hcreate w) as (w' & Hr & Hl & Ho); [done|]. exists w'. split_and!; [done|done|].
      intros l' Hl'. destruct (decide (l' = l)) as [->|Hne]; [|by apply Ho].
      destruct Hl' as (j & m & Hj & Hj' & _). congruence.
    + simpl. destruct (get (store w) i) as [m|] eqn:Hg.
      * case_bool_decide as Hs.
        -- exists w. split_and!; [done| |done]. exists i, m. done.
        -- cbn [run].
           destruct (Hcreate (with_store w (clearWaiting (store w) l))) as (w' & Hr & Hl & Ho).
           { intros l' Hl' Hne. simpl. by apply has_waiting_clearWaiting. }
           exists w'. split_and!; [done|done|]. intros l' Hl'.
           destruct (decide (l' = l)) as [->|Hne]; [|by apply Ho].
           destruct Hl' as (j & m' & Hj & _ & Hg' & Hs'). simplify_eq; congruence.
      * cbn [run].
        destruct (Hcreate (with_store w (clearWaiting (store w) l))) as (w' & Hr & Hl & Ho).
        { intros l' Hl' Hne. simpl. by apply has_waiting_clearWaiting. }
        exists w'. split_and!; [done|done|]. intros l' Hl'.
        destruct (decide (l' = l)) as [->|Hne]; [|by apply Ho].
        destruct Hl' as (j & m' & Hj & _ & Hg' & _). simplify_eq; congruence.
  - destruct (Hcreate w) as (w' & Hr & Hl & Ho); [done|]. exists w'. split_and!; [done|done|].
    intros l' Hl'. destruct (decide (l' = l)) as [->|Hne]; [|by apply Ho].
    destruct Hl' as (j & m & Hj & _). congruence.
Qed.

Lemma getLobbyConfig_member c :
  c ∈ LOBBIES → ∃ cfg, getLobbyConfig LOBBIES c.(LobbyConfig.lobbyType) = Some cfg.
Proof. intros Hc. apply (js_find_complete _ _ c Hc). by apply bool_decide_eq_true. Qed.

Lemma ensureAll_spec cs w :
  (∀ c, c ∈ cs → ∃ cfg, getLobbyConfig LOBBIES c.(LobbyConfig.lobbyType) = Some cfg) →
  ∃ w', run w (ensureAll LOBBIES cs) = (inr tt, w') ∧
    (∀ c, c ∈ cs → has_waiting (store w') c.(LobbyConfig.lobbyType)) ∧
    (∀ l, has_waiting (store w) l → has_waiting (store w') l).
Proof.
  induction cs as [|c cs IH] in w |- *; intros Hall.
  - exists w. split_and!; [done|set_solver|done].
  - destruct (Hall c) as [cfg Hc]; [set_solver|].
    destruct (ensureOne_spec w c cfg Hc) as (w1 & Hr1 & Hl1 & Ho1).
    destruct (IH w1) as (w2 & Hr2 & Hl2 & Ho2); [intros; apply Hall; set_solver|].
    exists w2. cbn [ensureAll]. rewrite run_mbind, Hr1. split_and!; [done| |naive_solver].
    intros c' [->|Hc']%elem_of_cons; auto.
Qed.

(** [ensureWaitingMatches] returns, and afterwards every lobby of the
    catalogue has a waiting key that names a stored waiting match; a
    lobby whose key already did keeps it. *)
Theorem ensure_waiting w :
  ∃ w', run w (ensureWaitingMatches LOBBIES) = (inr tt, w') ∧
    (∀ c, c ∈ LOBBIES → has_waiting (store w') c.(LobbyConfig.lobbyType)) ∧
    (∀ l, has_waiting (store w) l → has_waiting (store w') l).
Proof. apply ensureAll_spec, getLobbyConfig_member. Qed.

End Proofs.

End Waiting.
