(* ===== verification/Liveness.v ===== *)
(** * Progress of the reconciliation sweep

    What one sweep tick achieves, run alone, on a store satisfying
    [Invariants.Inv] (whose boards are all rectangular, so that no
    word check throws and the loop over the listed matches runs to its
    end): every full match whose players have all submitted or run out
    of time is completed, settled and removed ([tick_removes_expired]),
    and a match that never filled is evicted at its hard expiry without
    any change to the ledger ([sweepMatch_evicts_unfilled]). *)

From S2P Require Import Prelude Model Payout JsString WordValidation Dictionary Scoring BoardGen Ledger Store Program Hoare Engine Sweep Scenarios Invariants.

Module Liveness.
Import Engine Invariants.

Section Liveness.
Context {St : Type} `{RepoLaws St}.
Variable LOBBIES : list LobbyConfig.t.

Implicit Types (w : World St) (m : InternalMatch.t) (p : MatchPlayer.t).

(** The player has submitted, or the player's deadline is reached at [now]. *)
Definition done_at (g now : Z) p : Prop :=
  is_Some p.(MatchPlayer.submittedAt) ∨ (deadline_ms g p ≤ now)%Z.

(** A live match with every seat taken and every player done. *)
Definition expired_full (now : Z) m : Prop :=
  m.(InternalMatch.status) ≠ completed ∧
  Z.of_nat (length m.(InternalMatch.players)) = capacity LOBBIES m.(InternalMatch.lobbyType) ∧
  Forall (done_at m.(InternalMatch.gameDuration) now) m.(InternalMatch.players).

(** A live match that never filled and whose hard expiry has passed. *)
Definition unfilled_expired (now : Z) m : Prop :=
  m.(InternalMatch.status) ≠ completed ∧
  Z.of_nat (length m.(InternalMatch.players)) ≠ capacity LOBBIES m.(InternalMatch.lobbyType) ∧
  (m.(InternalMatch.autoCompleteAt) ≤ now)%Z.

#[global] Instance done_at_dec g now p : Decision (done_at g now p).
Proof. unfold done_at. apply _. Defined.

#[global] Instance expired_full_dec now m : Decision (expired_full now m).
Proof. unfold expired_full. apply _. Defined.

#[global] Instance unfilled_expired_dec now m : Decision (unfilled_expired now m).
Proof. unfold unfilled_expired. apply _. Defined.

(** ** The sweep does not throw on rectangular boards *)

Lemma nothrow_autoSubmit board q :
  WordValidation.rectangular board → nothrow (Sweep.autoSubmitWordsForPlayer board q).
Proof.
  intros Hr. unfold Sweep.autoSubmitWordsForPlayer. case_bool_decide; [apply nothrow_mret|].
  apply nothrow_bind; [apply nothrow_initDictionary|]. intros d.
  destruct (Scoring.uniqueWords_filter d board q.(MatchPlayer.words) Hr) as (ws & -> & _).
  apply nothrow_bind; [apply nothrow_liftOpt|]. intros ws'.
  apply nothrow_bind; [apply nothrow_now|]. intros t. apply nothrow_mret.
Qed.

Lemma nothrow_timeoutPlayers board g now ps :
  WordValidation.rectangular board → nothrow (Sweep.timeoutPlayers board g now ps).
Proof.
  intros Hr. induction ps as [|q ps IH]; simpl; [apply nothrow_mret|].
  apply nothrow_bind; [apply nothrow_if; [|apply nothrow_mret]|intros pb].
  - apply nothrow_bind; [by apply nothrow_autoSubmit|intros; apply nothrow_mret].
  - apply nothrow_bind; [exact IH|intros; apply nothrow_mret].
Qed.

Lemma nothrow_settle m : nothrow (settle LOBBIES m).
Proof.
  unfold settle. destruct (InternalMatch.payoutAt m); [apply nothrow_mret|].
  apply nothrow_catch. intros _. apply nothrow_mret.
Qed.

Lemma nothrow_processMatchTimeout m :
  WordValidation.rectangular m.(InternalMatch.board) → nothrow (Sweep.processMatchTimeout LOBBIES m).
Proof.
  intros Hr. unfold Sweep.processMatchTimeout.
  apply nothrow_bind; [apply nothrow_now|]. intros t.
  apply nothrow_bind; [by apply nothrow_timeoutPlayers|]. intros r.
  apply nothrow_if; [|apply nothrow_mret].
  apply nothrow_bind; [apply nothrow_now|]. intros t2.
  apply nothrow_bind; [apply nothrow_saveHistory|]. intros _.
  apply nothrow_bind; [apply nothrow_settle|]. intros; apply nothrow_mret.
Qed.

Lemma nothrow_sweepMatch now m :
  WordValidation.rectangular m.(InternalMatch.board) → nothrow (Sweep.sweepMatch LOBBIES now m).
Proof.
  intros Hr. unfold Sweep.sweepMatch. case_bool_decide; [apply nothrow_mret|].
  apply nothrow_bind; [by apply nothrow_processMatchTimeout|]. intros [m' b].
  apply nothrow_bind.
  - destruct b; [case_bool_decide|]; repeat apply nothrow_bind; auto with gem.
  - intros c. apply nothrow_if; auto with gem.
Qed.

(** ** A full match whose players are all done *)

Lemma post_autoSubmit_submitted board q :
  post (Sweep.autoSubmitWordsForPlayer board q) (λ q', is_Some q'.(MatchPlayer.submittedAt)).
Proof.
  unfold Sweep.autoSubmitWordsForPlayer. case_bool_decide as Hs; [by apply post_ret|].
  apply (post_bind _ _ (λ _, True)); [apply post_true|]. intros d _.
  apply (post_bind _ _ (λ _, True)); [apply post_true|]. intros ws _.
  apply (post_bind _ _ (λ _, True)); [apply post_true|]. intros t _.
  apply post_ret. simpl. by eexists.
Qed.

(** Every player who is done at [now] has submitted after the timeout
    loop, and the loop keeps the seats. *)
Lemma post_timeoutPlayers_done board g now ps :
  Forall (done_at g now) ps →
  post (Sweep.timeoutPlayers board g now ps)
    (λ r, length r.1 = length ps ∧ Forall (λ q, is_Some q.(MatchPlayer.submittedAt)) r.1).
Proof.
  induction 1 as [|q ps Hq _ IH]; simpl; [by apply post_ret|].
  apply (post_bind _ _ (λ pb, is_Some pb.1.(MatchPlayer.submittedAt))).
  - destruct (Sweep.timedOut g now q) eqn:Ht.
    + apply (post_bind _ _ _ _ (post_autoSubmit_submitted board q)). intros q' Hq'. by apply post_ret.
    + apply post_ret. simpl. unfold Sweep.timedOut in Ht.
      apply andb_false_iff in Ht as [Ht|Ht]; apply bool_decide_eq_false in Ht.
      * by apply not_eq_None_Some.
      * destruct Hq as [Hs|Hd]; [done|lia].
  - intros pb Hpb. apply (post_bind _ _ _ _ IH). intros r [Hl Hr].
    apply post_ret. simpl. split; [by rewrite Hl|by constructor].
Qed.

Lemma post_settle_completed m :
  m.(InternalMatch.status) = completed →
  post (settle LOBBIES m) (λ m', m'.(InternalMatch.status) = completed ∧ m'.(InternalMatch.id) = m.(InternalMatch.id)).
Proof.
  intros Hs. eapply post_weaken; [apply (post_settle LOBBIES)|]. intros m' [(Hid & _) Hst]. by rewrite Hst.
Qed.

(** The sweep's processing of a full match whose players are all done
    completes it, without writing the store. *)
Lemma processMatchTimeout_expired w m :
  WordValidation.rectangular m.(InternalMatch.board) → expired_full (clock w) m →
  ∃ m3 w', run w (Sweep.processMatchTimeout LOBBIES m) = (inr (m3, true), w') ∧
           m3.(InternalMatch.status) = completed ∧ m3.(InternalMatch.id) = m.(InternalMatch.id) ∧
           store w' = store w.
Proof.
  intros Hr (Hst & Hcap & Hdone). unfold Sweep.processMatchTimeout.
  rewrite run_mbind. cbn [run now_].
  rewrite run_mbind.
  pose proof (keeps_timeoutPlayers m.(InternalMatch.board) m.(InternalMatch.gameDuration) (clock w)
                m.(InternalMatch.players) w) as Hk.
  pose proof (post_timeoutPlayers_done m.(InternalMatch.board) m.(InternalMatch.gameDuration) (clock w)
                _ Hdone w) as Hp.
  destruct (nothrow_timeoutPlayers m.(InternalMatch.board) m.(InternalMatch.gameDuration) (clock w)
              m.(InternalMatch.players) Hr w) as [r Hrun].
  destruct (run w (Sweep.timeoutPlayers _ _ _ _)) as [res w1] eqn:E. simpl in Hrun, Hk. subst res.
  destruct (Hp _ _ eq_refl) as [Hlen Hsub]. simpl.
  replace (allSubmitted LOBBIES (InternalMatch.with_players m r.1)) with true.
  2:{ symmetry. unfold allSubmitted. simpl. rewrite Hlen, Hcap, bool_decide_true by done. simpl.
      apply forallb_forall. intros q Hq. apply bool_decide_eq_true.
      rewrite Forall_forall in Hsub. apply Hsub. by apply list_elem_of_In. }
  rewrite (bool_decide_true (_ ≠ completed)) by exact Hst. simpl.
  destruct (Ledger.saveHistory _ _) as [r0 d]. rewrite run_mbind.
  set (m2 := InternalMatch.with_completed _ _). set (w2 := with_db w1 d).
  pose proof (keeps_settle LOBBIES m2 w2) as Hk3.
  pose proof (post_settle_completed m2 eq_refl w2) as Hp3.
  destruct (nothrow_settle m2 w2) as [m3 Hs].
  destruct (run w2 (settle LOBBIES m2)) as [res w3] eqn:Es. simpl in Hs, Hk3. subst res.
  destruct (Hp3 _ _ eq_refl) as [Hc3 Hid3]. simpl.
  exists m3, w3. split_and!; [done|done|done|]. by rewrite Hk3.
Qed.

(** One iteration of the sweep on such a match removes it. *)
Lemma sweepMatch_expired w now m :
  WordValidation.rectangular m.(InternalMatch.board) → expired_full (clock w) m →
  get (store (run w (Sweep.sweepMatch LOBBIES now m)).2) m.(InternalMatch.id) = None.
Proof.
  intros Hr Hx. pose proof Hx as (Hst & _ & _). unfold Sweep.sweepMatch.
  rewrite bool_decide_false by exact Hst. rewrite run_mbind.
  destruct (processMatchTimeout_expired w m Hr Hx) as (m3 & w' & -> & Hc & Hid & Hs). simpl.
  rewrite (bool_decide_true (InternalMatch.status m3 = completed)) by exact Hc. simpl.
  apply get_remove.
Qed.

(** An iteration of the sweep writes no key but that of its match. *)
Lemma sweepMatch_frame w now m j :
  j ≠ m.(InternalMatch.id) →
  get (store (run w (Sweep.sweepMatch LOBBIES now m)).2) j = get (store w) j.
Proof.
  intros Hj. unfold Sweep.sweepMatch. case_bool_decide; [done|]. rewrite run_mbind.
  pose proof (keeps_processMatchTimeout LOBBIES m w) as Hk.
  pose proof (post_processMatchTimeout LOBBIES m w) as Hp.
  destruct (run w (Sweep.processMatchTimeout LOBBIES m)) as [[e|[m' b]] w1] eqn:E;
    cbn in Hk |- *; [by rewrite Hk|].
  destruct (Hp _ _ eq_refl) as [Hid _]. cbn in Hid. rewrite run_mbind.
  destruct b; [case_bool_decide|]; simpl; try case_match; simpl;
    rewrite ?get_remove_ne, ?get_save_ne, ?Hk by congruence; done.
Qed.

Lemma run_clock {A} (p : Prog A) w : clock (run w p).2 = clock w.
Proof.
  revert w. induction p; intros w; cbn; try done;
    repeat match goal with |- context [let '(_, _) := ?e in _] => destruct e end;
    match goal with IH : ∀ _, _ |- _ => rewrite IH end; done.
Qed.

Lemma nothrow_sweepAll now ms :
  (∀ m, m ∈ ms → WordValidation.rectangular m.(InternalMatch.board)) →
  nothrow (Sweep.sweepAll LOBBIES now ms).
Proof.
  induction ms as [|m ms IH]; intros Hr; simpl; [apply nothrow_mret|].
  apply nothrow_bind; [apply nothrow_sweepMatch; apply Hr; set_solver|]. intros _.
  apply IH. intros m' Hm'. apply Hr. set_solver.
Qed.

(** The loop over the listed matches removes the expired full match
    [m], whether it meets it or it was gone already. *)
Lemma sweepAll_removes w now ms m :
  (∀ m', m' ∈ ms → WordValidation.rectangular m'.(InternalMatch.board)) →
  (∀ m', m' ∈ ms → m'.(InternalMatch.id) = m.(InternalMatch.id) → m' = m) →
  expired_full (clock w) m →
  m ∈ ms ∨ get (store w) m.(InternalMatch.id) = None →
  get (store (run w (Sweep.sweepAll LOBBIES now ms)).2) m.(InternalMatch.id) = None.
Proof.
  revert w. induction ms as [|m1 ms IH]; intros w Hr Hu Hx Hin; simpl.
  { destruct Hin as [Hin|Hn]; [set_solver|exact Hn]. }
  rewrite run_mbind.
  assert (Hr1 : WordValidation.rectangular m1.(InternalMatch.board)) by (apply Hr; set_solver).
  destruct (nothrow_sweepMatch now m1 Hr1 w) as [[] Hrun].
  pose proof (run_clock (Sweep.sweepMatch LOBBIES now m1) w) as Hclk.
  destruct (decide (m1.(InternalMatch.id) = m.(InternalMatch.id))) as [Heq|Hne].
  - assert (m1 = m) as -> by (apply Hu; [set_solver|done]).
    pose proof (sweepMatch_expired w now m Hr1 Hx) as Hgone.
    destruct (run w (Sweep.sweepMatch LOBBIES now m)) as [res w1]. simpl in Hrun, Hclk, Hgone. subst res.
    apply IH; [set_solver|set_solver|by rewrite Hclk|by right].
  - pose proof (sweepMatch_frame w now m1 m.(InternalMatch.id) (not_eq_sym Hne)) as Hf.
    destruct (run w (Sweep.sweepMatch LOBBIES now m1)) as [res w1]. simpl in Hrun, Hclk, Hf. subst res.
    apply IH; [set_solver|set_solver|by rewrite Hclk|].
    rewrite Hf. destruct Hin as [Hin|Hn]; [|by right].
    apply elem_of_cons in Hin as [->|Hin]; [done|by left].
Qed.

(** ** One tick *)

(** A sweep tick, run alone on a store satisfying the invariant while
    no other tick runs, removes from the live store every full match
    whose players have all submitted or reached their deadline: the
    match is completed, recorded and settled on the way. *)
Theorem tick_removes_expired w i m :
  Inv LOBBIES (store w) → tickRunning w = false → get (store w) i = Some m →
  expired_full (clock w) m →
  get (store (run w (Sweep.tick LOBBIES)).2) i = None.
Proof.
  intros (Hwf & _ & _ & Hbd) Hflag Hg Hx. pose proof (get_id _ _ _ Hwf Hg) as Hid. subst i.
  unfold Sweep.tick. simpl. rewrite Hflag. simpl.
  rewrite run_mbind, run_catch. simpl.
  set (w1 := with_flag w true).
  assert (Hr : ∀ m', m' ∈ listAll (store w) → WordValidation.rectangular m'.(InternalMatch.board)).
  { intros m' Hm'. apply listAll_spec in Hm' as [j Hj]. by apply (Hbd j). }
  assert (Hu : ∀ m', m' ∈ listAll (store w) → m'.(InternalMatch.id) = m.(InternalMatch.id) → m' = m).
  { intros m' Hm' Heq. apply listAll_spec in Hm' as [j Hj].
    pose proof (get_id _ _ _ Hwf Hj) as Hj'. rewrite <- Hj', Heq in Hj. congruence. }
  assert (Hin : m ∈ listAll (store w)) by (apply listAll_spec; by eexists).
  pose proof (sweepAll_removes w1 (clock w) (listAll (store w)) m Hr Hu Hx (or_introl Hin)) as Hgone.
  destruct (nothrow_sweepAll (clock w) _ Hr w1) as [[] Hrun].
  destruct (run w1 (Sweep.sweepAll LOBBIES (clock w) (listAll (store w)))) as [res w2].
  simpl in Hrun, Hgone. subst res. exact Hgone.
Qed.

(** ** A match that never filled *)

Definition keeps_db {A} (p : Prog A) : Prop := ∀ w, db (run w p).2 = db w.

Lemma keeps_db_bind {A B} (p : Prog A) (f : A → Prog B) :
  keeps_db p → (∀ a, keeps_db (f a)) → keeps_db (mbind f p).
Proof.
  intros Hp Hf w. rewrite run_mbind. specialize (Hp w).
  destruct (run w p) as [[e|a] w'] eqn:E; simpl in *; [done|]. by rewrite Hf.
Qed.

Lemma keeps_db_autoSubmit board q : keeps_db (Sweep.autoSubmitWordsForPlayer board q).
Proof.
  intros w. unfold Sweep.autoSubmitWordsForPlayer. case_bool_decide; [done|]. simpl.
  by destruct (Scoring.uniqueWords _ _ _).
Qed.

Lemma keeps_db_timeoutPlayers board g now ps : keeps_db (Sweep.timeoutPlayers board g now ps).
Proof.
  induction ps as [|q ps IH]; simpl; [done|].
  apply keeps_db_bind; [|intros; by apply keeps_db_bind].
  destruct (Sweep.timedOut g now q); [|done].
  apply keeps_db_bind; [apply keeps_db_autoSubmit|done].
Qed.

Lemma post_timeoutPlayers_length board g now ps :
  post (Sweep.timeoutPlayers board g now ps) (λ r, length r.1 = length ps).
Proof.
  induction ps as [|q ps IH]; simpl; [by apply post_ret|].
  apply (post_bind _ _ (λ _, True)); [apply post_true|]. intros pb _.
  apply (post_bind _ _ _ _ IH). intros r Hr. apply post_ret. simpl. by rewrite Hr.
Qed.

(** C33: the sweep evicts a live match that never filled once its hard
    expiry has passed, with no settlement: the ledger is left as it was,
    so the entry fees its players paid are neither refunded nor paid out
    (the open question of spec section 9). *)
Theorem sweepMatch_evicts_unfilled w now m :
  WordValidation.rectangular m.(InternalMatch.board) → unfilled_expired now m →
  get (store (run w (Sweep.sweepMatch LOBBIES now m)).2) m.(InternalMatch.id) = None ∧
  db (run w (Sweep.sweepMatch LOBBIES now m)).2 = db w.
Proof.
  intros Hr (Hst & Hcap & Hdue). unfold Sweep.sweepMatch.
  rewrite bool_decide_false by exact Hst. rewrite run_mbind.
  unfold Sweep.processMatchTimeout. rewrite run_mbind. cbn [run now_]. rewrite run_mbind.
  pose proof (keeps_db_timeoutPlayers m.(InternalMatch.board) m.(InternalMatch.gameDuration) (clock w)
                m.(InternalMatch.players) w) as Hk.
  pose proof (post_timeoutPlayers_length m.(InternalMatch.board) m.(InternalMatch.gameDuration) (clock w)
                m.(InternalMatch.players) w) as Hp.
  destruct (nothrow_timeoutPlayers m.(InternalMatch.board) m.(InternalMatch.gameDuration) (clock w)
              m.(InternalMatch.players) Hr w) as [r Hrun].
  destruct (run w (Sweep.timeoutPlayers _ _ _ _)) as [res w1] eqn:E. simpl in Hrun, Hk. subst res.
  specialize (Hp _ _ eq_refl). simpl.
  replace (allSubmitted LOBBIES (InternalMatch.with_players m r.1)) with false.
  2:{ symmetry. unfold allSubmitted. simpl. rewrite Hp, bool_decide_false by exact Hcap. done. }
  simpl. rewrite run_mbind.
  destruct r.2; [rewrite bool_decide_false by exact Hst|]; simpl;
    rewrite bool_decide_true by exact Hdue; rewrite bool_decide_true by exact Hst; simpl;
    (split; [apply get_remove|exact Hk]).
Qed.

(** ** Reachable states *)

Hypothesis lobbies_valid : ∀ c, c ∈ LOBBIES → lobby_ok c.

(** C3: in every state reached by requests and sweep ticks served one at
    a time, when no tick is in progress, the next tick removes every full
    match whose players have all submitted or run out of time. *)
Corollary reachable_tick_removes_expired w i m :
  reachable LOBBIES w → tickRunning w = false → get (store w) i = Some m →
  expired_full (clock w) m →
  get (store (serve LOBBIES w RTick)) i = None.
Proof.
  intros Hr Hf Hg Hx. apply (tick_removes_expired w i m); [|done|done|done].
  exact (reachable_Inv LOBBIES lobbies_valid w Hr).
Qed.

End Liveness.
(** ** Witnesses on the concrete worlds of [Scenarios] *)
Import Scenarios.

(** Alice and Bob's duo match, both deadlines passed. *)
Definition duo_expired : World Redis.t := serve LOBBIES two_joined (RClock (T0 + 200000)).

Lemma reachable_tick_removes_expired_witness :
  get (store (serve LOBBIES duo_expired RTick)) duo_id = None.
Proof.
  exact (reachable_tick_removes_expired LOBBIES LOBBIES_ok duo_expired duo_id (the_match duo_expired duo_id)
           (reach_serve _ _ _ two_joined_reachable) ltac:(by_eval) ltac:(by_eval)
           ltac:(apply (bool_decide_unpack _); vm_compute; reflexivity)).
Defined.

Lemma sweepMatch_evicts_unfilled_witness :
  get (store (run carol_waiting
               (Sweep.sweepMatch LOBBIES (T0 + 3600000) (the_match carol_waiting carol_id))).2)
      carol_id = None.
Proof.
  exact (proj1 (sweepMatch_evicts_unfilled LOBBIES carol_waiting (T0 + 3600000) (the_match carol_waiting carol_id)
                  ltac:(by_eval) ltac:(apply (bool_decide_unpack _); vm_compute; reflexivity))).
Defined.

End Liveness.
