(* ===== verification/Settlement.v ===== *)
(** * A match settled once passes the payout audit

    The settlement block of the words handler ([Engine.settle]) credits
    every ranked player with positive winnings.  On an available ledger
    that holds no prize row of the match yet, and for a match whose
    players have distinct ids and whose pool the allocator pays out in
    full, the prize rows it appends are exactly the winnings recorded in
    the history row [Engine.completedRecord], so the development audit
    [PayoutAudit.report_of] accepts the match
    ([settle_passes_audit]).  [Races.submit_and_sweep_pay_twice] shows
    what happens when the match is settled twice. *)

From S2P Require Import Prelude Model Payout JsString WordValidation Dictionary Scoring BoardGen Ledger Store Program Hoare Engine Sweep PayoutAudit Scenarios Invariants.

Module Settlement.
Import Engine PayoutAudit.

(** ** The audit's maps when the ids are distinct *)

Definition payout_of (p : MatchPlayer.t) : string * Z := (MatchPlayer.id p, Payout.winnings_of p).
Definition credit_of (t : Ledger.Txn) : string * Z := (Ledger.tx_user t, Ledger.tx_amount t).

Lemma winnings_map_nodup ps :
  NoDup (MatchPlayer.id <$> ps) → winnings_map ps = payout_of <$> ps.
Proof.
  unfold winnings_map.
  enough (∀ acc, NoDup (MatchPlayer.id <$> ps) →
            (∀ k, k ∈ MatchPlayer.id <$> ps → k ∉ fst <$> acc) →
            foldl (λ mp p, jsmap_set mp (MatchPlayer.id p) (Payout.winnings_of p)) acc ps =
            acc ++ (payout_of <$> ps)) as Hgen.
  { intros Hnd. rewrite (Hgen []); [done|done|set_solver]. }
  induction ps as [|p ps IH]; intros acc Hnd Hfresh; simpl; [by rewrite app_nil_r|].
  rewrite fmap_cons in Hnd. apply NoDup_cons in Hnd as [Hp Hnd].
  rewrite jsmap_set_fresh by (apply Hfresh; set_solver).
  rewrite IH; [by rewrite <- app_assoc|done|].
  intros k Hk. rewrite fmap_app. simpl. intros [Hin|Hin]%elem_of_app.
  - apply (Hfresh k); [set_solver|done].
  - apply list_elem_of_singleton in Hin. subst k. contradiction.
Qed.

Lemma jsmap_get0_payouts ps u :
  NoDup (MatchPlayer.id <$> ps) →
  jsmap_get0 (payout_of <$> ps) u = Σ (Payout.winnings_of <$> filter (λ p, MatchPlayer.id p = u) ps).
Proof.
  induction ps as [|p ps IH]; intros Hnd; [done|].
  rewrite fmap_cons in Hnd. apply NoDup_cons in Hnd as [Hp Hnd].
  unfold jsmap_get0 in *. rewrite fmap_cons. simpl. rewrite filter_cons.
  case_bool_decide as Hu; case_decide as Hu'; try done; simpl.
  - subst u. rewrite filter_none, fmap_nil, sumZ_cons, sumZ_nil; [lia|].
    intros q Hq Hqid. apply Hp. rewrite <- Hqid. by apply list_elem_of_fmap_2.
  - rewrite IH by done. done.
Qed.

Lemma credits_sum ts ps u :
  credit_of <$> ts = payout_of <$> ps →
  Σ (Ledger.tx_amount <$> filter (λ t, Ledger.tx_user t = u) ts) =
  Σ (Payout.winnings_of <$> filter (λ p, MatchPlayer.id p = u) ps).
Proof.
  revert ps. induction ts as [|t ts IH]; intros [|p ps] Hc; try discriminate Hc; [done|].
  rewrite !fmap_cons in Hc.
  assert (Hu : Ledger.tx_user t = MatchPlayer.id p) by exact (f_equal (λ l, (default ("", 0%Z) (head l)).1) Hc).
  assert (Ha : Ledger.tx_amount t = Payout.winnings_of p) by exact (f_equal (λ l, (default ("", 0%Z) (head l)).2) Hc).
  assert (Hr : credit_of <$> ts = payout_of <$> ps) by exact (f_equal tail Hc).
  rewrite !filter_cons, Hu. case_decide; rewrite ?fmap_cons, ?sumZ_cons, (IH ps Hr); [lia|done].
Qed.

(** Dropping the players who win nothing does not change any sum. *)
Lemma sum_positive_winnings ps u :
  (∀ p, p ∈ ps → 0 ≤ Payout.winnings_of p)%Z →
  Σ (Payout.winnings_of <$> filter (λ p, MatchPlayer.id p = u) (filter (λ p, 0 < Payout.winnings_of p)%Z ps)) =
  Σ (Payout.winnings_of <$> filter (λ p, MatchPlayer.id p = u) ps).
Proof.
  induction ps as [|p ps IH]; intros Hn; [done|].
  assert (0 ≤ Payout.winnings_of p)%Z by (apply Hn; set_solver).
  rewrite !filter_cons. do 2 (case_decide; rewrite ?filter_cons);
    repeat case_decide; rewrite ?fmap_cons, ?sumZ_cons, IH by (intros; apply Hn; set_solver); try lia; tauto.
Qed.

(** ** Running the settlement on a fresh ledger *)

Section Run.
Context {St : Type} `{MatchRepository St}.
Variable LOBBIES : list LobbyConfig.t.

(** The crediting loop appends one prize row per winner, in order. *)
Lemma run_creditAll_fresh (w : World St) lt mid ws :
  Ledger.db_up (db w) = true →
  (∀ p, p ∈ ws → is_Some (Ledger.users (db w) !! MatchPlayer.id p)) →
  NoDup (MatchPlayer.id <$> ws) →
  (∀ p, p ∈ ws → ¬ Ledger.has_txn (db w) (MatchPlayer.id p) "prize" mid) →
  ∃ w' ts, run w (creditAll lt mid ws) = (inr tt, w') ∧ store w' = store w ∧
    Ledger.txns (db w') = Ledger.txns (db w) ++ ts ∧
    Forall (λ t, Ledger.tx_type t = "prize" ∧ Ledger.tx_match t = Some mid) ts ∧
    credit_of <$> ts = payout_of <$> filter (λ p, 0 < Payout.winnings_of p)%Z ws.
Proof.
  revert w. induction ws as [|p ws IH]; intros w Hup Hu Hnd Hh.
  { exists w, []. split_and!; [done|done|by rewrite app_nil_r|constructor|done]. }
  rewrite fmap_cons in Hnd. apply NoDup_cons in Hnd as [Hp Hnd].
  cbn [creditAll]. rewrite run_mbind, filter_cons. case_bool_decide as Hpos; case_decide; try done.
  - destruct (Ledger.creditPrize_appends (db w) (MatchPlayer.id p) (Payout.winnings_of p) (Some lt) mid
                (placeOf p) Hup (Hu p ltac:(set_solver)) Hpos (Hh p ltac:(set_solver)))
      as (t & Hr & Ht & Htu & Hty & Htm & Hta & Hup' & Husers).
    cbn [run creditPrize_].
    destruct (Ledger.creditPrize (db w) _ _ _ _ _) as [r d] eqn:E. simpl in Hr, Ht, Hup', Husers. subst r. simpl.
    destruct (IH (with_db w d)) as (w' & ts & Hrun & Hs & Htx & Hf & Hc); simpl.
    + done.
    + intros q Hq. apply Husers, Hu. set_solver.
    + done.
    + intros q Hq Hhq. apply (Hh q); [set_solver|].
      apply (Ledger.has_txn_app (db w) d t) in Hhq as [Hhq|(Hqu & _)]; [done| |done].
      exfalso. apply Hp. rewrite <- Htu, Hqu. by apply list_elem_of_fmap_2.
    + exists w', (t :: ts). rewrite Hrun. split_and!; [done|done|rewrite Htx; simpl; by rewrite Ht, <- app_assoc| |].
      * constructor; [done|exact Hf].
      * rewrite !fmap_cons, Hc. f_equal. unfold credit_of, payout_of. by rewrite Htu, Hta.
  - simpl. destruct (IH w) as (w' & ts & Hrun & Hs & Htx & Hf & Hc);
      [done|intros; apply Hu; set_solver|done|intros; apply Hh; set_solver|].
    exists w', ts. by rewrite Hrun.
Qed.

(** The settlement block on a match not yet paid out. *)
Lemma run_settle_fresh (w : World St) m :
  InternalMatch.payoutAt m = None →
  Ledger.db_up (db w) = true →
  (∀ p, p ∈ ranked LOBBIES m → is_Some (Ledger.users (db w) !! MatchPlayer.id p)) →
  NoDup (MatchPlayer.id <$> ranked LOBBIES m) →
  (∀ p, p ∈ ranked LOBBIES m → ¬ Ledger.has_txn (db w) (MatchPlayer.id p) "prize" (InternalMatch.id m)) →
  ∃ w' ts, run w (settle LOBBIES m) = (inr (InternalMatch.with_payout m (clock w')), w') ∧
    store w' = store w ∧
    Ledger.txns (db w') = Ledger.txns (db w) ++ ts ∧
    Forall (λ t, Ledger.tx_type t = "prize" ∧ Ledger.tx_match t = Some (InternalMatch.id m)) ts ∧
    credit_of <$> ts = payout_of <$> filter (λ p, 0 < Payout.winnings_of p)%Z (ranked LOBBIES m).
Proof.
  intros Hpa Hup Hu Hnd Hh. unfold settle. rewrite Hpa, run_catch, run_mbind.
  destruct (run_creditAll_fresh w (InternalMatch.lobbyType m) (InternalMatch.id m) (ranked LOBBIES m))
    as (w' & ts & Hrun & Hs & Htx & Hf & Hc); [done|done|done|done|].
  rewrite Hrun. exists w', ts. by split_and!.
Qed.

End Run.

Lemma ranked_ids_perm LOBBIES m :
  MatchPlayer.id <$> ranked LOBBIES m ≡ₚ MatchPlayer.id <$> InternalMatch.players m.
Proof.
  transitivity (MatchPlayer.id <$> (Payout.strip <$> ranked LOBBIES m)); [by rewrite <- list_fmap_compose|].
  unfold ranked. rewrite Payout.rankAndAllocateWinnings_strip, <- list_fmap_compose.
  apply fmap_Permutation, Payout.sort_desc_perm.
Qed.

Lemma sum_filter_pos ps :
  (∀ p, p ∈ ps → 0 ≤ Payout.winnings_of p)%Z →
  Σ (Payout.winnings_of <$> filter (λ p, 0 < Payout.winnings_of p)%Z ps) = Σ (Payout.winnings_of <$> ps).
Proof.
  induction ps as [|p ps IH]; intros Hn; [done|].
  assert (0 ≤ Payout.winnings_of p)%Z by (apply Hn; set_solver).
  rewrite filter_cons. case_decide; rewrite ?fmap_cons, ?sumZ_cons, IH by (intros; apply Hn; set_solver); lia.
Qed.

Lemma snd_payouts (ps : list MatchPlayer.t) : snd <$> (payout_of <$> ps) = Payout.winnings_of <$> ps.
Proof. by rewrite <- list_fmap_compose. Qed.

Lemma amounts_credits (ts : list Ledger.Txn) : Ledger.tx_amount <$> ts = snd <$> (credit_of <$> ts).
Proof. by rewrite <- list_fmap_compose. Qed.

(** ** The audit of a settled match *)

Lemma prize_txns_fresh txs ts mid :
  prize_txns txs mid = [] →
  Forall (λ t, Ledger.tx_type t = "prize" ∧ Ledger.tx_match t = Some mid) ts →
  prize_txns (txs ++ ts) mid = ts.
Proof.
  intros H0 Hf. unfold prize_txns in *. rewrite filter_app, H0, filter_all; [done|].
  intros t Ht. rewrite Forall_forall in Hf. destruct (Hf t Ht). done.
Qed.

Lemma fresh_no_prize d mid u :
  prize_txns (Ledger.txns d) mid = [] → ¬ Ledger.has_txn d u "prize" mid.
Proof.
  unfold prize_txns, Ledger.has_txn. intros H0 (t & Ht & _ & Hty & Hm)%Exists_exists.
  by apply (filter_nil_not_elem_of _ _ t H0).
Qed.

(** Every check of [report_of] passes on an engine-written row whose
    players have distinct ids, whose pool is paid out in full and whose
    prize rows are its positive winnings in order. *)
Lemma report_ok_of_credits LOBBIES txs m :
  NoDup (MatchPlayer.id <$> ranked LOBBIES m) →
  Payout.total_winnings (ranked LOBBIES m) = InternalMatch.prizePool m →
  credit_of <$> prize_txns txs (InternalMatch.id m) =
    payout_of <$> filter (λ p, 0 < Payout.winnings_of p)%Z (ranked LOBBIES m) →
  r_ok (report_of LOBBIES txs (completedRecord m (ranked LOBBIES m))) = true.
Proof.
  intros Hnd Htot Hc.
  assert (Hn : ∀ p, p ∈ ranked LOBBIES m → (0 ≤ Payout.winnings_of p)%Z)
    by (intros p; apply Payout.rankAndAllocateWinnings_nonneg).
  unfold report_of. cbn [r_ok completedRecord Ledger.cm_players Ledger.cm_prizePool Ledger.cm_lobbyType Ledger.cm_id].
  rewrite expected_map_engine, winnings_map_nodup by done.
  rewrite !andb_true_iff, forallb_forall, !bool_decide_eq_true, !snd_payouts. split_and!.
  - intros u _. unfold user_ok. rewrite andb_true_iff, !bool_decide_eq_true. split; [done|].
    by rewrite jsmap_get0_payouts, credited_map_spec, (credits_sum _ _ u Hc), sum_positive_winnings.
  - exact Htot.
  - by rewrite amounts_credits, Hc, snd_payouts, sum_filter_pos.
Qed.

Section Audit.
Context {St : Type} `{MatchRepository St}.
Variable LOBBIES : list LobbyConfig.t.

(** POST /dev/verify accepts the history row the settlement of [m] writes,
    checked against the transactions of [d]. *)
Definition audit_accepts (d : Ledger.Db) m : bool :=
  r_ok (report_of LOBBIES (Ledger.txns d) (completedRecord m (ranked LOBBIES m))).

(** C31: The settlement block run once on an available ledger with no prize
    row of the match, for a match not yet paid out whose players have
    distinct ids and exist in the ledger, and whose pool the allocator pays
    out in full: the match comes back stamped with [payoutAt], the store is
    untouched, and the development audit accepts the history row of the
    match against the ledger the block leaves. *)
Theorem settle_passes_audit (w : World St) m :
  InternalMatch.payoutAt m = None →
  Ledger.db_up (db w) = true →
  NoDup (MatchPlayer.id <$> InternalMatch.players m) →
  (∀ p, p ∈ InternalMatch.players m → is_Some (Ledger.users (db w) !! MatchPlayer.id p)) →
  prize_txns (Ledger.txns (db w)) (InternalMatch.id m) = [] →
  Payout.total_winnings (ranked LOBBIES m) = InternalMatch.prizePool m →
  ∃ w', run w (settle LOBBIES m) = (inr (InternalMatch.with_payout m (clock w')), w') ∧
    store w' = store w ∧ audit_accepts (db w') m = true.
Proof.
  intros Hpa Hup Hnd Hu H0 Htot.
  assert (Hnd' : NoDup (MatchPlayer.id <$> ranked LOBBIES m)) by (by rewrite ranked_ids_perm).
  destruct (run_settle_fresh LOBBIES w m) as (w' & ts & Hrun & Hs & Htx & Hf & Hc); try done.
  - intros p Hp. assert (Hid : MatchPlayer.id p ∈ MatchPlayer.id <$> InternalMatch.players m)
      by (rewrite <- ranked_ids_perm; by apply list_elem_of_fmap_2).
    apply list_elem_of_fmap in Hid as (q & -> & Hq). by apply Hu.
  - intros p _. by apply fresh_no_prize.
  - exists w'. split_and!; [done|done|]. apply report_ok_of_credits; [done|done|].
    by rewrite Htx, prize_txns_fresh.
Qed.

End Audit.

Import Scenarios.

Lemma settle_passes_audit_witness :
  ∃ w', run bob_turn (settle LOBBIES (the_match bob_turn duo_id)) =
          (inr (InternalMatch.with_payout (the_match bob_turn duo_id) (clock w')), w') ∧
    store w' = store bob_turn ∧
    r_ok (report_of LOBBIES (Ledger.txns (db w'))
            (completedRecord (the_match bob_turn duo_id) (ranked LOBBIES (the_match bob_turn duo_id)))) = true.
Proof.
  exact (settle_passes_audit LOBBIES bob_turn (the_match bob_turn duo_id) ltac:(by_eval) ltac:(by_eval)
           ltac:(apply (bool_decide_unpack _); vm_compute; reflexivity)
           ltac:(apply Forall_forall, (bool_decide_unpack _); vm_compute; reflexivity)
           ltac:(by_eval) ltac:(by_eval)).
Defined.

End Settlement.
