(* ===== verification/Simulate.v ===== *)
(** * The development route POST /dev/simulate of matches.ts

    [simulate] (lines 726-820) builds a completed match of [numPlayers]
    simulated players (ids sim-user-1, sim-user-2, ...) with the given
    scores, or [Math.floor(Math.random() * 100)] for the missing ones
    ([random]), writes its history row with [saveCompletedMatch], makes
    sure each simulated user exists ([prisma.user.upsert]) and credits the
    winnings with the crediting loop of the words handler.  Any error of
    the upserts or credits is logged.

    [simulate_passes_audit]: on an available database with no row and no
    prize transaction for the simulated id, and a pool the allocator pays
    out in full, the route answers 200 and the other development route,
    POST /dev/verify, accepts the match it wrote. *)

From S2P Require Import Prelude Model Payout BoardGen Ledger Accounts Store Program Engine PayoutAudit Scenarios Settlement.

Module Simulate.
Import Engine.

(** The [scores] field: absent, an array of integers, or anything else. *)
Inductive ScoresArg := SAbsent | SList (scores : list Z) | SBad.

Inductive SimBody := SimForbidden | SimInvalid | SimBadLobby | SimOk (matchId : string).

(** [res.status(code).json(body)] *)
Record SimResp := simresp { sim_code : Z; sim_body : SimBody }.

Section Simulate.
Variable LOBBIES : list LobbyConfig.t.
(** [Math.floor(Math.random() * 100)] drawn for the [i]-th player. *)
Variable random : nat → Z.

(** The schema of lines 728-732: [numPlayers] an integer in [1, 10]
    (3 when absent), [scores] optional non-negative integers. *)
Definition simArgs (numPlayers : Accounts.NumArg) (scores : ScoresArg) : option (nat * option (list Z)) :=
  let n := match numPlayers with
           | Accounts.NAbsent => Some 3
           | Accounts.NInt k => if bool_decide (1 ≤ k ≤ 10)%Z then Some (Z.to_nat k) else None
           | Accounts.NBad => None
           end in
  let sc := match scores with
            | SAbsent => Some None
            | SList l => if bool_decide (Forall (λ s, 0 ≤ s)%Z l) then Some (Some l) else None
            | SBad => None
            end in
  n ≫= λ n, (λ sc, (n, sc)) <$> sc.

(** [`${lobbyType}-sim-${Date.now().toString(36)}`] *)
Definition simId (lobbyType : string) (now : Z) : string := lobbyType +:+ "-sim-" +:+ toString36 now.

Definition simUser (i : nat) : string := "sim-user-" +:+ pretty (S i).

(** The [i]-th simulated player (lines 746-757): [scores?.[i]] when
    present, a random score otherwise. *)
Definition simPlayer (scores : option (list Z)) (now : Z) (i : nat) : MatchPlayer.t :=
  let s := scores ≫= (λ l, l !! i) in
  MatchPlayer.mk (simUser i) ("Sim " +:+ pretty (S i)) [] (default (random i) s) s (Some 0%Z)
    now (Some now) true (Some now) None None.

(** The completed match of lines 760-773. *)
Definition simMatch (c : LobbyConfig.t) (lobbyType : string) (n : nat) (scores : option (list Z)) (now : Z) : M :=
  InternalMatch.mk (simId lobbyType now) lobbyType
    (BoardGen.generateDiceBoard now (Z.to_nat c.(LobbyConfig.boardSize))) now (Some now) (Some now)
    c.(LobbyConfig.entryFee) c.(LobbyConfig.totalPrizeGems) c.(LobbyConfig.gameDuration)
    (simPlayer scores now <$> seq 0 n) completed now None.

(** [for (const p of players) await prisma.user.upsert(...)] *)
Fixpoint upsertAll (ps : list P) : Prog unit :=
  match ps with
  | [] => mret tt
  | p :: ps' => upsertUser_ p.(MatchPlayer.id);; upsertAll ps'
  end.

(** POST /dev/simulate.  [match.payoutAt] is never set before line 779,
    so the crediting block always runs; the [payoutAt] it sets is not
    used again. *)
Definition simulate (mode : Accounts.AuthMode) (lobbyType : option string)
    (numPlayers : Accounts.NumArg) (scores : ScoresArg) : Prog SimResp :=
  match mode with
  | Accounts.Firebase => mret (simresp 403 SimForbidden)
  | Accounts.Dev =>
    match lobbyType, simArgs numPlayers scores with
    | Some lt, Some (n, sc) =>
        match getLobbyConfig LOBBIES lt with
        | None => mret (simresp 400 SimBadLobby)
        | Some c =>
            now ← now_;
            let m := simMatch c lt n sc now in
            saveCompletedMatch LOBBIES m;;
            catch (upsertAll m.(InternalMatch.players);;
                   creditAll lt m.(InternalMatch.id) (ranked LOBBIES m);;
                   _ ← now_; mret tt)
                  (λ _, mret tt);;
            mret (simresp 200 (SimOk m.(InternalMatch.id)))
        end
    | _, _ => mret (simresp 400 SimInvalid)
    end
  end.

End Simulate.

(** ** The database after the route *)

Lemma upsertUser_up d u :
  Ledger.db_up d = true →
  ∃ d1, Ledger.upsertUser d u = (None, d1) ∧ Ledger.txns d1 = Ledger.txns d ∧
    Ledger.history d1 = Ledger.history d ∧ Ledger.db_up d1 = true ∧
    is_Some (Ledger.users d1 !! u) ∧ ∀ v, is_Some (Ledger.users d !! v) → is_Some (Ledger.users d1 !! v).
Proof.
  intros Hup. unfold Ledger.upsertUser. rewrite Hup. simpl.
  destruct (Ledger.users d !! u) as [x|] eqn:E.
  - by exists d.
  - eexists. split_and!; [done..| |].
    + simpl. by rewrite lookup_insert_eq.
    + intros v Hv. simpl. destruct (decide (v = u)) as [->|Hne]; [by rewrite lookup_insert_eq|].
      by rewrite lookup_insert_ne.
Qed.

Lemma creditPrize_history d u a l mid pl : Ledger.history (Ledger.creditPrize d u a l mid pl).2 = Ledger.history d.
Proof.
  unfold Ledger.creditPrize, Ledger.addTransaction, Ledger.txn_create, Ledger.user_increment.
  repeat (case_match; simplify_eq/=); done.
Qed.

Section Proofs.
Context {St : Type} `{MatchRepository St}.
Variable LOBBIES : list LobbyConfig.t.
Variable random : nat → Z.
Implicit Types (w : World St).

Lemma with_db_twice w d d' : with_db (with_db w d) d' = with_db w d'.
Proof. by destruct w. Qed.

Lemma run_now_bind {A} w (k : Z → Prog A) : run w (t ← now_; k t) = run w (k (clock w)).
Proof. by rewrite run_mbind. Qed.

Lemma run_upsertAll w ps :
  Ledger.db_up (db w) = true →
  ∃ d', run w (upsertAll ps) = (inr tt, with_db w d') ∧ Ledger.txns d' = Ledger.txns (db w) ∧
    Ledger.history d' = Ledger.history (db w) ∧ Ledger.db_up d' = true ∧
    (∀ p, p ∈ ps → is_Some (Ledger.users d' !! MatchPlayer.id p)) ∧
    (∀ v, is_Some (Ledger.users (db w) !! v) → is_Some (Ledger.users d' !! v)).
Proof.
  induction ps as [|p ps IH] in w |- *; intros Hup.
  - exists (db w). split_and!; [by destruct w|done|done|done|set_solver|done].
  - destruct (upsertUser_up (db w) (MatchPlayer.id p) Hup) as (d1 & Hd1 & Ht1 & Hh1 & Hu1 & Hp1 & Ho1).
    cbn [upsertAll]. rewrite run_mbind. cbn [run upsertUser_]. rewrite Hd1. cbn [run].
    destruct (IH (with_db w d1)) as (d' & Hr & Ht & Hh & Hu & Hps & Ho); [done|].
    exists d'. rewrite Hr, with_db_twice. simpl in *. split_and!; [done|congruence|congruence|done| |auto].
    intros q [->|Hq]%elem_of_cons; auto.
Qed.

Lemma run_creditAll_history w lt mid ws :
  Ledger.history (db (run w (creditAll lt mid ws)).2) = Ledger.history (db w).
Proof.
  induction ws as [|p ws IH] in w |- *; [done|]. cbn [creditAll]. rewrite run_mbind.
  case_bool_decide; cbn [run creditPrize_].
  - pose proof (creditPrize_history (db w) (MatchPlayer.id p) (Payout.winnings_of p) (Some lt) (Some mid) (placeOf p)).
    destruct (Ledger.creditPrize _ _ _ _ _ _) as [[e|] d] eqn:E; simpl in *; [done|]. by rewrite IH.
  - apply IH.
Qed.

#[local] Instance simUser_inj : Inj (=) (=) simUser.
Proof. intros i j Hij. unfold simUser in Hij. apply (inj (String.app _)), (inj pretty) in Hij. lia. Qed.

Lemma simMatch_ids_NoDup c lt n sc now :
  NoDup (MatchPlayer.id <$> InternalMatch.players (simMatch random c lt n sc now)).
Proof.
  simpl. rewrite <- list_fmap_compose.
  apply (NoDup_fmap_2 simUser), NoDup_seq.
Qed.

(** C21: in dev mode, for valid arguments and a known lobby type, on an
    available database with no history row and no prize transaction for
    the new id, and a pool the allocator pays out in full, POST
    /dev/simulate answers 200 with the id of the match it made, stores
    its history row, and the audit route POST /dev/verify accepts that
    row against the ledger it leaves. *)
Theorem simulate_passes_audit w lt nP sA n sc c :
  simArgs nP sA = Some (n, sc) → getLobbyConfig LOBBIES lt = Some c →
  Ledger.db_up (db w) = true → Ledger.history (db w) !! simId lt (clock w) = None →
  PayoutAudit.prize_txns (Ledger.txns (db w)) (simId lt (clock w)) = [] →
  Payout.total_winnings (ranked LOBBIES (simMatch random c lt n sc (clock w))) = c.(LobbyConfig.totalPrizeGems) →
  let m := simMatch random c lt n sc (clock w) in
  ∃ w', run w (simulate LOBBIES random Accounts.Dev (Some lt) nP sA) = (inr (simresp 200 (SimOk (simId lt (clock w)))), w') ∧
    Ledger.history (db w') !! simId lt (clock w) = Some (completedRecord m (ranked LOBBIES m)) ∧
    Settlement.audit_accepts LOBBIES (db w') m = true.
Proof.
  intros Hargs Hc Hup Hh Hp Htot m. unfold simulate. rewrite Hargs, Hc, run_now_bind. fold m.
  (* the history row *)
  rewrite run_mbind. unfold saveCompletedMatch, saveHistory_. cbn [run].
  set (row := completedRecord m (ranked LOBBIES m)).
  set (d1 := Ledger.mkDb (Ledger.users (db w)) (Ledger.txns (db w)) (<[simId lt (clock w) := row]> (Ledger.history (db w)))
               (Ledger.db_up (db w))).
  assert (Hsave : Ledger.saveHistory (db w) row = (None, d1)).
  { unfold Ledger.saveHistory. rewrite Hup. simpl. change (Ledger.cm_id row) with (simId lt (clock w)).
    rewrite Hh, bool_decide_false by (intros [? ?]; done). unfold d1. by rewrite Hup. }
  rewrite Hsave. cbn [run]. rewrite run_mbind, run_catch, run_mbind.
  (* the upserts *)
  destruct (run_upsertAll (with_db w d1) (InternalMatch.players m)) as (d2 & Hr2 & Ht2 & Hh2 & Hu2 & Hps & _);
    [done|]. rewrite Hr2. rewrite with_db_twice.
  (* the credits *)
  assert (Hnd : NoDup (MatchPlayer.id <$> ranked LOBBIES m))
    by (rewrite Settlement.ranked_ids_perm; apply simMatch_ids_NoDup).
  destruct (Settlement.run_creditAll_fresh (with_db w d2) lt (simId lt (clock w)) (ranked LOBBIES m))
    as (w3 & ts & Hr3 & _ & Ht3 & Hf & Hcr); [done| |done| |].
  { intros p Hp'. simpl. assert (Hid : MatchPlayer.id p ∈ MatchPlayer.id <$> InternalMatch.players m)
      by (rewrite <- Settlement.ranked_ids_perm; by apply list_elem_of_fmap_2).
    apply list_elem_of_fmap in Hid as (q & -> & Hq). by apply Hps. }
  { intros p _. apply Settlement.fresh_no_prize. simpl. by rewrite Ht2. }
  pose proof (run_creditAll_history (with_db w d2) lt (simId lt (clock w)) (ranked LOBBIES m)) as Hh3.
  change (InternalMatch.id m) with (simId lt (clock w)). rewrite run_mbind.
  rewrite Hr3 in Hh3 |- *. rewrite run_now_bind. cbn [run].
  eexists. split_and!; [reflexivity| |].
  - simpl in Hh3. rewrite Hh3, Hh2. simpl. by rewrite lookup_insert_eq.
  - apply Settlement.report_ok_of_credits; [done|done|].
    rewrite Ht3, Settlement.prize_txns_fresh; [done| |done]. simpl. by rewrite Ht2.
Qed.

End Proofs.

(** Three simulated players with scores 30, 20 and 10 in the duo lobby
    at [T0]: the winner takes the pool of 100. *)
Lemma simulate_passes_audit_witness :
  ∃ w', run (Scenarios.start Scenarios.T0)
          (simulate Scenarios.LOBBIES (λ _, 0%Z) Accounts.Dev (Some "duo") Accounts.NAbsent (SList [30; 20; 10]%Z)) =
        (inr (simresp 200 (SimOk (simId "duo" Scenarios.T0))), w').
Proof.
  destruct (simulate_passes_audit Scenarios.LOBBIES (λ _, 0%Z) (Scenarios.start Scenarios.T0) "duo"
              Accounts.NAbsent (SList [30; 20; 10]%Z) 3 (Some [30; 20; 10]%Z) Scenarios.duo
              ltac:(vm_compute; reflexivity) ltac:(vm_compute; reflexivity) ltac:(vm_compute; reflexivity)
              ltac:(vm_compute; reflexivity) ltac:(vm_compute; reflexivity) ltac:(vm_compute; reflexivity))
    as (w' & Hr & _).
  by exists w'.
Defined.

End Simulate.
