(* ===== verification/Races.v ===== *)
(** * Interleavings of requests and of the sweep

    Handlers interleave at their [await]s ([Program.run_sched]).  The
    match document is read, changed in memory and written back whole,
    with no compare-and-swap, and the sweep works on the snapshot it
    listed at the start of its tick.  The executions below, computed on
    concrete worlds, show what this allows: a paid player dropped from a
    match by a concurrent join or by the sweep, a full match overwritten
    by a new one created in the same millisecond (without any
    concurrency), and a match completed twice by a request and the sweep,
    paying out twice its prize pool. *)

From S2P Require Import Prelude Model Payout JsString WordValidation Dictionary Scoring BoardGen Ledger PayoutAudit Store Program Engine Sweep Scenarios.

Module Races.
Import Engine.

Import Scenarios.

(** ** Two joins to the same match *)

(** Alice waits alone in a trio match; Bob and Carol join it at the same
    time: each reads the match with one player, each is charged, and
    Carol's save overwrites Bob's. *)
Definition concurrent_joins : World Redis.t * list Task :=
  run_sched (serve_all (start T0) [join LOBBIES "trio" "alice" None])
    [task_of (join LOBBIES "trio" "bob" None); task_of (join LOBBIES "trio" "carol" None)]
    [task 0; task 0; task 1; task 1; task 0; task 0; task 1; task 1].

(** C6: two concurrent joins to a match with free seats both complete and
    both players pay, but the second save overwrites the first: Bob has
    paid the entry fee and is not in the match. *)
Theorem concurrent_joins_drop_paid_player :
  forallb finished concurrent_joins.2 = true ∧
  seated concurrent_joins.1 trio_id = Some ["alice"; "carol"] ∧
  Ledger.has_txn (db concurrent_joins.1) "bob" "entryFee" trio_id ∧
  Ledger.wallet (db concurrent_joins.1) "bob" = 900%Z.
Proof. split_and!; by_eval. Qed.

(** ** Two matches created in the same millisecond *)

Definition same_millisecond : World Redis.t :=
  serve_all (start T0)
    [join LOBBIES "duo" "alice" None; join LOBBIES "duo" "bob" None; join LOBBIES "duo" "carol" None].

(** C7: without any concurrency, three joins to a two-seat lobby within one
    millisecond: the third creates a new match whose id
    [duo-<time in base 36>] is that of the full match, and saving it
    overwrites the full match: Alice and Bob have paid and are in no
    stored match. *)
Theorem same_millisecond_overwrites_full_match :
  seated same_millisecond duo_id = Some ["carol"] ∧
  length (listAll (store same_millisecond)) = 1 ∧
  Ledger.has_txn (db same_millisecond) "alice" "entryFee" duo_id ∧
  Ledger.has_txn (db same_millisecond) "bob" "entryFee" duo_id.
Proof. split_and!; by_eval. Qed.

(** ** The sweep's snapshot *)

(** Carol joined a trio match 200 s ago and Carol's deadline has passed.  A
    tick lists the match; Bob joins it while the tick waits; the tick then
    auto-submits Carol and saves its copy of the match. *)
Definition sweep_vs_join : World Redis.t * list Task :=
  run_sched carol_waiting
    [task_of (Sweep.tick LOBBIES); task_of (join LOBBIES "trio" "bob" None)]
    [task 0; task 1; task 1; task 1; task 1; task 0; task 0; task 0; task 0; task 0; task 0; task 0].

(** C8: the sweep saves the match it read before awaiting, so a player who
    joined in between is dropped after paying. *)
Theorem sweep_drops_concurrent_join :
  forallb finished sweep_vs_join.2 = true ∧
  seated sweep_vs_join.1 carol_id = Some ["carol"] ∧
  Ledger.has_txn (db sweep_vs_join.1) "bob" "entryFee" carol_id.
Proof. split_and!; by_eval. Qed.

(** ** Completion by a request and by the sweep *)

(** Alice and Bob play a duo match; Alice has submitted.  Bob submits
    while a tick is listing the matches (Carol's older trio match comes
    first); Bob's submission completes and settles the match; the tick,
    resumed after the match expired, processes its stale copy (still
    [waiting], not [completed]) and settles it again. *)
Definition duo_half_submitted : World Redis.t :=
  let w := serve_all carol_waiting [join LOBBIES "duo" "alice" None; join LOBBIES "duo" "bob" None] in
  with_clock (serve_all (with_clock w (T0 + 1000)) [submit LOBBIES duo_id "alice" ["mos"]]) (T0 + 2000).

Definition submit_vs_sweep : World Redis.t * list Task :=
  run_sched duo_half_submitted
    [task_of (Sweep.tick LOBBIES); task_of (submit LOBBIES duo_id "bob" ["mos"; "sow"])]
    ([task 0] ++ replicate 6 (task 1) ++ [tick_clock (T0 + 200000)] ++ replicate 12 (task 0)).

(** C5: the prize pool is paid out twice: the ledger holds prize credits of
    200 gems for a match whose prize pool is 100. *)
Theorem submit_and_sweep_pay_twice :
  forallb finished submit_vs_sweep.2 = true ∧
  prizes_paid duo_half_submitted duo_id = 0%Z ∧
  prizes_paid submit_vs_sweep.1 duo_id = (2 * duo.(LobbyConfig.totalPrizeGems))%Z.
Proof. split_and!; by_eval. Qed.

(** ** The payout audit *)

(** The development audit route [/dev/verify] reports the match paid
    twice as not [ok]: Alice was credited 100 gems that neither the
    recomputed nor the recorded winnings give Alice. *)
Theorem audit_flags_double_payout :
  let res := PayoutAudit.verify LOBBIES true (db submit_vs_sweep.1) (Some duo_id) None in
  res.1 = 200%Z ∧
  PayoutAudit.r_ok <$> PayoutAudit.reports_of res.2 = [false] ∧
  PayoutAudit.r_discrepancies <$> PayoutAudit.reports_of res.2 =
    [["user alice: expected=0 recorded=0 credited=100";
      "credited mismatch: creditedTotal=200 expectedTotal=100"]].
Proof. split_and!; by_eval. Qed.

(** A match completed by its last submission, with nothing
    interleaved, passes the audit. *)
Theorem settled_passes_audit :
  let res := PayoutAudit.verify LOBBIES true (db settled) (Some duo_id) None in
  res.1 = 200%Z ∧ PayoutAudit.r_ok <$> PayoutAudit.reports_of res.2 = [true].
Proof. split_and!; by_eval. Qed.

Lemma report_ok_sound_witness :
  let cm := the_row settled duo_id in
  Σ (Ledger.tx_amount <$> PayoutAudit.prize_txns (Ledger.txns (db settled)) (Ledger.cm_id cm)) =
    Ledger.cm_prizePool cm.
Proof.
  exact (proj1 (PayoutAudit.report_ok_sound LOBBIES (Ledger.txns (db settled)) (the_row settled duo_id)
                  ltac:(by_eval))).
Defined.

End Races.
